(** * mind-model: activation, plasticity and concept algebra

    A shallow embedding of the Python package [mind_model], the properties
    of it that the specification states, and further properties that the
    code has.

    Part I, the model, module by module:
    - [PyDict], [PySet]: Python's insertion-ordered [dict] as an association
      list, and a [set] of strings as a duplicate-free list;
    - [CellEnsembleRT]: [assemblies/cell_ensemble_rt.py];
    - [FeatureEnsemble], [Concept]: [concepts/feature_ensemble.py] and
      [concepts/concept.py], engram I/O included;
    - [RelationsUtils]: [utils/relations_utils.py];
    - [Manipulations]: [manipulations/manipulations.py], over a store of
      concept objects;
    - [F64], [CellEnsembleRT64], [FeatureEnsemble64], [Concept64]: the
      scheduling and plasticity step of the runtime ensemble and the
      stimulation of a concept once more, on binary64 floats;
    - [ConceptDecoder]: the threshold decoder of
      [concepts/concept_decoder.py], on binary64 floats;
    - [Oscillation]: [oscillation.py], on binary64 floats.

    Part II, the properties, in the same order.

    Numbers.  The modules up to [Manipulations] idealise Python's [float]
    as exact rationals ([Q]).  What is proved on them does not depend on how
    a result is rounded: which objects exist and which keys are set, which
    exception is raised, a bound that rounding keeps, or the value of an
    expression named in the order in which the code computes it.  Numeric
    results are compared with [==] where they were computed and with [=]
    where they were only copied.  What does depend on rounding (the side of
    a threshold a value falls on, the instant a sum of steps reaches, the
    order in which terms are added) is proved on the binary64 modules, whose
    arithmetic is that of the program. *)

From Stdlib Require Import List String Ascii HexString DecimalString.
From Stdlib Require Import Bool Arith Lia NArith ZArith.
From Stdlib Require Import QArith Qabs Qminmax Permutation Sorted.
From Stdlib Require Import Floats.
Import ListNotations.

(** A decimal constant of type [float] stands for the nearest binary64
    number, as it does in Python. *)
Set Warnings "-inexact-float".

(* ================================================================== *)
(** * Part I: the model                                                 *)
(* ================================================================== *)

(** ** Exceptions *)

(** [BadRef] is not a Python exception: it is what the model answers when a
    reference that was never allocated is read. *)
Inductive exn : Type := KeyError | ValueError | ZeroDivisionError | BadRef.

Inductive Result (A : Type) : Type :=
| Ok (a : A)
| Raise (e : exn).

Arguments Ok {A} a.
Arguments Raise {A} e.

Definition rbind {A B : Type} (r : Result A) (k : A -> Result B) : Result B :=
  match r with
  | Ok a => k a
  | Raise e => Raise e
  end.

(** Strict comparison on rationals, as a boolean. *)
Definition Qlt_bool (x y : Q) : bool := negb (Qle_bool y x).

(** ** Python dictionaries

    A [dict] keeps its entries in insertion order; assigning to a key that
    is already present replaces the value in place (and keeps the stored
    key), assigning to a new key appends an entry.  [keq] is the key
    equality Python would use ([==] on the key type). *)

Module PyDict.

Section Ops.
Context {K V : Type}.
Variable keq : K -> K -> bool.

(** [d.get(k)] *)
Fixpoint get (d : list (K * V)) (k : K) : option V :=
  match d with
  | [] => None
  | (k', v) :: r => if keq k' k then Some v else get r k
  end.

(** [d.get(k, dflt)] *)
Definition get_default (d : list (K * V)) (k : K) (dflt : V) : V :=
  match get d k with
  | Some v => v
  | None => dflt
  end.

(** [k in d] *)
Definition contains (d : list (K * V)) (k : K) : bool :=
  match get d k with
  | Some _ => true
  | None => false
  end.

(** [d[k]]: raises [KeyError] on a missing key. *)
Definition index (d : list (K * V)) (k : K) : Result V :=
  match get d k with
  | Some v => Ok v
  | None => Raise KeyError
  end.

(** [d[k] = v] *)
Fixpoint set (d : list (K * V)) (k : K) (v : V) : list (K * V) :=
  match d with
  | [] => [(k, v)]
  | (k', v') :: r => if keq k' k then (k', v) :: r else (k', v') :: set r k v
  end.

(** [del d[k]]: [None] stands for the [KeyError] of a missing key. *)
Fixpoint del (d : list (K * V)) (k : K) : option (list (K * V)) :=
  match d with
  | [] => None
  | (k', v') :: r =>
      if keq k' k then Some r
      else match del r k with
           | Some r' => Some ((k', v') :: r')
           | None => None
           end
  end.

(** The representation invariant of a dictionary: no key occurs twice. *)
Fixpoint uniq (d : list (K * V)) : bool :=
  match d with
  | [] => true
  | (k, _) :: r => negb (contains r k) && uniq r
  end.

End Ops.

Definition keys {K V : Type} (d : list (K * V)) : list K := map fst d.
Definition values {K V : Type} (d : list (K * V)) : list V := map snd d.

End PyDict.

(** ** Python sets of strings

    A [set] is kept as a duplicate-free list; the order of the list stands
    for the (unspecified) iteration order of the Python set. *)

Module PySet.

Definition mem (k : string) (s : list string) : bool := existsb (String.eqb k) s.

Definition add (s : list string) (k : string) : list string :=
  if mem k s then s else s ++ [k].

(** [a & b] and [a | b] *)
Definition inter (a b : list string) : list string := filter (fun k => mem k b) a.

Definition union (a b : list string) : list string :=
  a ++ filter (fun k => negb (mem k a)) b.

End PySet.

(** ** assemblies/cell_ensemble_rt.py

    Times, strengths and weights are exact rationals here;
    [CellEnsembleRT64] is the same class on binary64 floats. *)

Module CellEnsembleRT.

Definition Time := Q.
Definition UnitKey := string.
Definition PairKey := (UnitKey * UnitKey)%type.

Definition pair_eqb (p q : PairKey) : bool :=
  String.eqb (fst p) (fst q) && String.eqb (snd p) (snd q).

(** The dataclass.  [registry] is the optional similarity oracle: [Some cos]
    when the registry object exists and has a [cosine] method. *)
Record t : Type := mk {
  name : string;
  units : list UnitKey;
  context_tags : list string;
  registry : option (UnitKey -> UnitKey -> Q);
  _scheduled : list (Time * list (UnitKey * Q));
  weights : list (PairKey * Q);
  eta_hebb : Q;
  decay : Q;
  max_weight : Q;
  _t : Q;
  _dt : Q;
  _active_last_step : list UnitKey
}.

(** [CellEnsembleRT(name)] with every other field at its default. *)
Definition new (nm : string) : t :=
  {| name := nm; units := []; context_tags := []; registry := None;
     _scheduled := []; weights := [];
     eta_hebb := 2 # 100; decay := 999 # 1000; max_weight := 1;
     _t := 0; _dt := 1 # 100; _active_last_step := [] |}.

Definition set_units (s : t) (u : list UnitKey) : t :=
  {| name := name s; units := u; context_tags := context_tags s;
     registry := registry s; _scheduled := _scheduled s; weights := weights s;
     eta_hebb := eta_hebb s; decay := decay s; max_weight := max_weight s;
     _t := _t s; _dt := _dt s; _active_last_step := _active_last_step s |}.

Definition set_scheduled (s : t) (sc : list (Time * list (UnitKey * Q))) : t :=
  {| name := name s; units := units s; context_tags := context_tags s;
     registry := registry s; _scheduled := sc; weights := weights s;
     eta_hebb := eta_hebb s; decay := decay s; max_weight := max_weight s;
     _t := _t s; _dt := _dt s; _active_last_step := _active_last_step s |}.

(** [add_units] *)
Definition add_units (s : t) (keys : list UnitKey) : t :=
  set_units s (fold_left PySet.add keys (units s)).

(** [schedule_spike]: [setdefault(float(t), []).append((key, s))]. *)
Definition schedule_spike (s : t) (tm : Time) (key : UnitKey) (strength : Q) : t :=
  let s1 := if PySet.mem key (units s) then s else set_units s (PySet.add (units s) key) in
  let st := Qmax 0 (Qmin 1 strength) in
  let events := PyDict.get_default Qeq_bool (_scheduled s1) tm [] in
  set_scheduled s1 (PyDict.set Qeq_bool (_scheduled s1) tm (events ++ [(key, st)])).

(** [schedule_pattern] *)
Definition schedule_pattern (s : t) (spikes : list (Time * UnitKey * Q)) : t :=
  fold_left (fun acc '(tm, k, st) => schedule_spike acc tm k st) spikes s.

(** [_hebb_increment] *)
Definition _hebb_increment (s : t) (a b : UnitKey) : Q :=
  let base := eta_hebb s in
  match registry s with
  | Some cosine =>
      let sim := Qmax 0 (cosine a b) in
      base * ((1 # 2) + (1 # 2) * sim)
  | None => base
  end.

(** The test [t0 < ts <= t1] of [activate_step]. *)
Definition due (t0 t1 ts : Q) : bool := Qlt_bool t0 ts && Qle_bool ts t1.

(** [for k, s in events: fired_now.add(k)] *)
Definition fire_events (fired_now : list UnitKey) (events : list (UnitKey * Q))
  : list UnitKey :=
  fold_left (fun f '(k, _) => PySet.add f k) events fired_now.

(** Body of the first loop of [activate_step]. *)
Definition collect_step (t0 t1 : Q) (acc : list UnitKey * list Time)
  (entry : Time * list (UnitKey * Q)) : list UnitKey * list Time :=
  let '(fired_now, to_delete) := acc in
  let '(ts, events) := entry in
  if due t0 t1 ts
  then (fire_events fired_now events, to_delete ++ [ts])
  else (fired_now, to_delete).

(** First loop of [activate_step]: collect the fired keys and the
    timestamps to delete. *)
Definition collect_fired (t0 t1 : Q) (sched : list (Time * list (UnitKey * Q)))
  : list UnitKey * list Time :=
  fold_left (collect_step t0 t1) sched ([], []).

(** [for ts in to_delete: del self._scheduled[ts]] *)
Fixpoint delete_all (sched : list (Time * list (UnitKey * Q))) (to_delete : list Time)
  : Result (list (Time * list (UnitKey * Q))) :=
  match to_delete with
  | [] => Ok sched
  | ts :: rest =>
      match PyDict.del Qeq_bool sched ts with
      | Some sched' => delete_all sched' rest
      | None => Raise KeyError
      end
  end.

(** One iteration of the decay loop:
    [self.weights[k] *= self.decay; if abs(self.weights[k]) < 1e-6: del ...]. *)
Definition decay_one (dk : Q) (w : list (PairKey * Q)) (k : PairKey)
  : Result (list (PairKey * Q)) :=
  rbind (PyDict.index pair_eqb w k) (fun old =>
  let w1 := PyDict.set pair_eqb w k (old * dk) in
  rbind (PyDict.index pair_eqb w1 k) (fun cur =>
  if Qlt_bool (Qabs cur) (1 # 1000000)
  then match PyDict.del pair_eqb w1 k with
       | Some w2 => Ok w2
       | None => Raise KeyError
       end
  else Ok w1)).

Fixpoint decay_loop (dk : Q) (w : list (PairKey * Q)) (ks : list PairKey)
  : Result (list (PairKey * Q)) :=
  match ks with
  | [] => Ok w
  | k :: rest => rbind (decay_one dk w k) (fun w' => decay_loop dk w' rest)
  end.

(** [if self.weights: for k in list(self.weights.keys()): ...] *)
Definition decay_weights (dk : Q) (w : list (PairKey * Q)) : Result (list (PairKey * Q)) :=
  match w with
  | [] => Ok w
  | _ => decay_loop dk w (PyDict.keys w)
  end.

(** What the decay loop amounts to on a dictionary without repeated keys:
    every weight is scaled, and the entries that became small are dropped. *)
Fixpoint decayed (dk : Q) (w : list (PairKey * Q)) : list (PairKey * Q) :=
  match w with
  | [] => []
  | (k, x) :: r =>
      if Qlt_bool (Qabs (x * dk)) (1 # 1000000)
      then decayed dk r
      else (k, x * dk) :: decayed dk r
  end.

(** [key = (a, b) if a < b else (b, a)] *)
Definition pair_key (a b : UnitKey) : PairKey :=
  if String.ltb a b then (a, b) else (b, a).

(** Body of the inner Hebbian loop. *)
Definition hebb_pair (s : t) (w : list (PairKey * Q)) (a b : UnitKey) : list (PairKey * Q) :=
  let key := pair_key a b in
  let x := PyDict.get_default pair_eqb w key 0 + _hebb_increment s a b in
  PyDict.set pair_eqb w key (Qmin x (max_weight s)).

(** [for i in range(len(fl)): for j in range(i + 1, len(fl)): ...] *)
Fixpoint hebb_loop (s : t) (fl : list UnitKey) (w : list (PairKey * Q)) : list (PairKey * Q) :=
  match fl with
  | [] => w
  | a :: rest => hebb_loop s rest (fold_left (fun acc b => hebb_pair s acc a b) rest w)
  end.

(** The index pairs [(fl[i], fl[j])], [i < j], in the order the double loop
    visits them. *)
Fixpoint visited_pairs (fl : list UnitKey) : list (UnitKey * UnitKey) :=
  match fl with
  | [] => []
  | a :: rest => map (fun b => (a, b)) rest ++ visited_pairs rest
  end.

(** A pair key is canonical when its components are strictly increasing. *)
Definition ordered (key : PairKey) : Prop := String.ltb (fst key) (snd key) = true.

(** [activate_step(dt)]; [None] is the default argument. *)
Definition activate_step (s : t) (dt : option Q) : Result (t * list UnitKey) :=
  let dt := match dt with Some d => d | None => _dt s end in
  let t0 := _t s in
  let t1 := _t s + dt in
  let '(fired_now, to_delete) := collect_fired t0 t1 (_scheduled s) in
  rbind (delete_all (_scheduled s) to_delete) (fun sched' =>
  rbind (decay_weights (decay s) (weights s)) (fun w1 =>
  let w2 := match fired_now with
            | [] => w1
            | _ => hebb_loop s fired_now w1
            end in
  Ok ({| name := name s; units := units s; context_tags := context_tags s;
         registry := registry s; _scheduled := sched'; weights := w2;
         eta_hebb := eta_hebb s; decay := decay s; max_weight := max_weight s;
         _t := t1; _dt := _dt s; _active_last_step := fired_now |},
      fired_now))).

(** Example instances used to exercise the statements below. *)

(** Spikes for ["x"] at 0.05 and 0.15 on a fresh instance. *)
Definition two_spikes : t :=
  schedule_spike (schedule_spike (new "rt"%string) (5 # 100) "x"%string 1)
                 (15 # 100) "x"%string 1.

(** Two units scheduled together on a fresh instance. *)
Definition cofiring : t :=
  schedule_pattern (new "rt"%string)
                   [(5 # 100, "y"%string, 1); (5 # 100, "x"%string, 1)].

(** The state of an instance after [activate_step(dt)]; the instance itself
    when the call raised. *)
Definition after_step (s : t) (dt : option Q) : t :=
  match activate_step s dt with
  | Ok (s', _) => s'
  | Raise _ => s
  end.

(** The weight map holds each key once, and every key is canonical. *)
Definition canonical_weights (w : list (PairKey * Q)) : Prop :=
  NoDup (PyDict.keys w) /\ forall key, In key (PyDict.keys w) -> ordered key.

(** The public operations of the class that change an instance. *)
Inductive op : Type :=
| OpAddUnits (keys : list UnitKey)
| OpScheduleSpike (tm : Time) (key : UnitKey) (strength : Q)
| OpSchedulePattern (spikes : list (Time * UnitKey * Q))
| OpActivateStep (dt : option Q).

Inductive step : t -> op -> t -> Prop :=
| StepAddUnits s keys : step s (OpAddUnits keys) (add_units s keys)
| StepScheduleSpike s tm key st :
    step s (OpScheduleSpike tm key st) (schedule_spike s tm key st)
| StepSchedulePattern s spikes :
    step s (OpSchedulePattern spikes) (schedule_pattern s spikes)
| StepActivate s dt s' fired :
    activate_step s dt = Ok (s', fired) -> step s (OpActivateStep dt) s'.

(** States reachable from an instance constructed with an empty weight map. *)
Inductive reachable : t -> Prop :=
| ReachInit s : weights s = [] -> reachable s
| ReachStep s o s' : reachable s -> step s o s' -> reachable s'.

(** *** Analysis *)

(** [overlap_with] *)
Definition overlap_with (s other : t) : Q :=
  match units s, units other with
  | [], [] => 1
  | _, _ =>
      let inter := List.length (PySet.inter (units s) (units other)) in
      let union := List.length (PySet.union (units s) (units other)) in
      if Nat.ltb 0 union
      then inject_Z (Z.of_nat inter) / inject_Z (Z.of_nat union)
      else 0
  end.

(** [sorted(self.units)]: strings compare by code point. *)
Fixpoint insert_key (k : UnitKey) (l : list UnitKey) : list UnitKey :=
  match l with
  | [] => [k]
  | y :: r => if String.ltb y k then y :: insert_key k r else k :: l
  end.

Definition sorted (u : list UnitKey) : list UnitKey := fold_right insert_key [] u.

(** [for k, s in events: if k in counts: counts[k] += s] *)
Fixpoint count_events (counts : list (UnitKey * Q)) (events : list (UnitKey * Q))
  : Result (list (UnitKey * Q)) :=
  match events with
  | [] => Ok counts
  | (k, s) :: rest =>
      if PyDict.contains String.eqb counts k
      then rbind (PyDict.index String.eqb counts k) (fun x =>
           count_events (PyDict.set String.eqb counts k (x + s)) rest)
      else count_events counts rest
  end.

(** The test [t0 <= ts <= t1] of [to_vector]. *)
Definition within (t0 t1 ts : Q) : bool := Qle_bool t0 ts && Qle_bool ts t1.

(** [for ts, events in self._scheduled.items(): if t0 <= ts <= t1: ...] *)
Fixpoint count_window (t0 t1 : Q) (counts : list (UnitKey * Q))
  (sched : list (Time * list (UnitKey * Q))) : Result (list (UnitKey * Q)) :=
  match sched with
  | [] => Ok counts
  | (ts, events) :: rest =>
      if within t0 t1 ts
      then rbind (count_events counts events) (fun c => count_window t0 t1 c rest)
      else count_window t0 t1 counts rest
  end.

(** [[counts[k] for k in order]] *)
Fixpoint read_counts (counts : list (UnitKey * Q)) (order : list UnitKey)
  : Result (list Q) :=
  match order with
  | [] => Ok []
  | k :: rest =>
      rbind (PyDict.index String.eqb counts k) (fun x =>
      rbind (read_counts counts rest) (fun v => Ok (x :: v)))
  end.

(** [order = unit_order or sorted(self.units)]: [None] and the empty list
    are both falsy. *)
Definition vector_order (s : t) (unit_order : option (list UnitKey)) : list UnitKey :=
  match unit_order with
  | Some (k :: r) => k :: r
  | _ => sorted (units s)
  end.

(** [to_vector] *)
Definition to_vector (s : t) (window : Time * Time) (unit_order : option (list UnitKey))
  : Result (list Q) :=
  let '(t0, t1) := window in
  let order := vector_order s unit_order in
  let counts := fold_left (fun c k => PyDict.set String.eqb c k 0) order [] in
  rbind (count_window t0 t1 counts (_scheduled s)) (fun counts =>
  read_counts counts order).

(** *** Histories of an instance *)

(** The instance after one operation. *)
Definition apply_op (s : t) (o : op) : t :=
  match o with
  | OpAddUnits keys => add_units s keys
  | OpScheduleSpike tm key st => schedule_spike s tm key st
  | OpSchedulePattern spikes => schedule_pattern s spikes
  | OpActivateStep dt => after_step s dt
  end.

Definition run (s : t) (ops : list op) : t := fold_left apply_op ops s.

(** Every scheduled event names a registered unit and carries a strength in
    [[0, 1]]. *)
Definition schedule_ok (s : t) : Prop :=
  forall ts events k st,
    In (ts, events) (_scheduled s) -> In (k, st) events ->
    In k (units s) /\ 0 <= st /\ st <= 1.

(** Both units of every weighted pair are registered. *)
Definition weights_registered (s : t) : Prop :=
  forall a b x, In ((a, b), x) (weights s) -> In a (units s) /\ In b (units s).

(** The strengths of the events of [k] that are scheduled in the window, in
    the order of the schedule. *)
Definition strengths_in (t0 t1 : Q) (sched : list (Time * list (UnitKey * Q)))
  (k : UnitKey) : list Q :=
  flat_map
    (fun '(ts, events) =>
       if within t0 t1 ts
       then map snd (filter (fun e => String.eqb (fst e) k) events)
       else [])
    sched.

(** A spike at the current time of a fresh instance. *)
Definition stale_spike : t := schedule_spike (new "rt"%string) 0 "x"%string 1.

(** What every history of a fresh instance keeps true. *)
Definition consistent (s : t) : Prop :=
  NoDup (units s) /\
  schedule_ok s /\
  PyDict.uniq Qeq_bool (_scheduled s) = true /\
  canonical_weights (weights s) /\
  weights_registered s /\
  incl (_active_last_step s) (units s).

End CellEnsembleRT.

(** ** Identities and host functions

    A [uuid.UUID] is an opaque 128-bit identity; it is kept as a number.
    The Python library functions the package calls, and whose results the
    model takes as given, are collected in a [Host]. *)

Abbreviation UUID := N (only parsing).

Record Host : Type := mkHost {
  sqrt : Q -> Q;                      (* math.sqrt *)
  round4 : Q -> Q;                    (* round(x, 4) *)
  fmt3 : Q -> string;                 (* f"{x:.3f}" *)
  uuid_str : UUID -> string;          (* str(u) *)
  uuid_parse : string -> option UUID  (* uuid.UUID(s); None is ValueError *)
}.

(** A host for running the examples.  Identities are written in
    hexadecimal; [sqrt] is exact on the squares of rationals; [round4] and
    [fmt3] are stand-ins, no example looks at what they return. *)
Definition example_host : Host :=
  {| sqrt := fun x => Z.sqrt (Qnum x) # Pos.sqrt (Qden x);
     round4 := fun x => x;
     fmt3 := fun _ => EmptyString;
     uuid_str := HexString.of_N;
     uuid_parse := fun s => Some (HexString.to_N s) |}.

(** [sum(xs)]: left to right, from 0. *)
Definition py_sum (xs : list Q) : Q := fold_left Qplus xs 0.

(** ** relationships/relationships.py *)

Record RelationshipEdge : Type := mkEdge {
  relation_type : string;
  target_concept_id : UUID;
  edge_description : string
}.

(** ** concepts/feature_ensemble.py

    Vectors, activations and weights are exact rationals here;
    [FeatureEnsemble64] is the same class on binary64 floats. *)

Module FeatureEnsemble.

Record t : Type := mk {
  name : string;
  modality : string;
  vector : list Q;
  description : string;
  activation : Q;
  ensemble_id : UUID;
  links : list (UUID * Q)
}.

(** [FeatureEnsemble(name, modality, vector, description)]; [fresh] is the
    identity drawn by [uuid.uuid4] for the new object. *)
Definition new (fresh : UUID) (nm md : string) (vec : list Q) (descr : string) : t :=
  {| name := nm; modality := md; vector := vec; description := descr;
     activation := 0; ensemble_id := fresh; links := [] |}.

Definition set_activation (e : t) (x : Q) : t :=
  {| name := name e; modality := modality e; vector := vector e;
     description := description e; activation := x;
     ensemble_id := ensemble_id e; links := links e |}.

Definition set_links (e : t) (l : list (UUID * Q)) : t :=
  {| name := name e; modality := modality e; vector := vector e;
     description := description e; activation := activation e;
     ensemble_id := ensemble_id e; links := l |}.

Definition set_ensemble_id (e : t) (i : UUID) : t :=
  {| name := name e; modality := modality e; vector := vector e;
     description := description e; activation := activation e;
     ensemble_id := i; links := links e |}.

(** [_cosine]; the division is guarded by the test on the two norms. *)
Definition _cosine (H : Host) (a b : list Q) : Q :=
  match a, b with
  | [], _ => 0
  | _, [] => 0
  | _, _ =>
      if negb (Nat.eqb (List.length a) (List.length b)) then 0
      else
        let dot := py_sum (map (fun '(x, y) => x * y) (combine a b)) in
        let na := sqrt H (py_sum (map (fun x => x * x) a)) in
        let nb := sqrt H (py_sum (map (fun y => y * y) b)) in
        if Qeq_bool na 0 || Qeq_bool nb 0 then 0 else dot / (na * nb)
  end.

(** [similarity] *)
Definition similarity (H : Host) (e : t) (cue_vector : list Q) : Q :=
  _cosine H (vector e) cue_vector.

(** [add_link] *)
Definition add_link (e : t) (target_id : UUID) (weight : Q) : t :=
  set_links e (PyDict.set N.eqb (links e) target_id
                 (PyDict.get_default N.eqb (links e) target_id 0 + weight)).

(** [decay] *)
Definition decay (e : t) (fraction : Q) : t :=
  let f := Qmax 0 (Qmin 1 fraction) in
  set_activation e (activation e * (1 - f)).

(** [hebbian] *)
Definition hebbian (e : t) (coactive_ids : list UUID) (learning_rate : Q) : t :=
  fold_left
    (fun acc tid =>
       if N.eqb tid (ensemble_id acc) then acc
       else set_links acc
              (PyDict.set N.eqb (links acc) tid
                 (PyDict.get_default N.eqb (links acc) tid 0
                  + learning_rate * activation acc)))
    coactive_ids e.

End FeatureEnsemble.

(** ** concepts/concept.py

    A concept owns its ensembles: the identity map holds them by value, and
    a change made through a handle obtained from the map is a change of the
    entry under that identity.  Activations, weights and parameters are
    exact rationals here; [Concept64] is the stimulation on binary64
    floats. *)

Module Concept.

Definition Metadata := list (string * string).

Record t : Type := mk {
  concept_id : UUID;
  name : string;
  description : string;
  metadata : Metadata;
  ensembles_by_id : list (UUID * FeatureEnsemble.t);
  ensembles_by_name : list (string * UUID);
  relationships : list RelationshipEdge;
  inhibition_gain : Q;
  activation_threshold : Q
}.

(** [Concept(name, description, metadata, inhibition_gain,
    activation_threshold)]; [fresh] is the identity drawn by [uuid.uuid4].
    [metadata or {"version": "3.0"}] replaces [None] and the empty dict. *)
Definition new (fresh : UUID) (nm descr : string) (md : option Metadata)
  (gain thr : Q) : t :=
  {| concept_id := fresh; name := nm; description := descr;
     metadata := match md with
                 | Some (x :: r) => x :: r
                 | _ => [("version"%string, "3.0"%string)]
                 end;
     ensembles_by_id := []; ensembles_by_name := []; relationships := [];
     inhibition_gain := gain; activation_threshold := thr |}.

Definition set_by_id (c : t) (d : list (UUID * FeatureEnsemble.t)) : t :=
  {| concept_id := concept_id c; name := name c; description := description c;
     metadata := metadata c; ensembles_by_id := d;
     ensembles_by_name := ensembles_by_name c; relationships := relationships c;
     inhibition_gain := inhibition_gain c;
     activation_threshold := activation_threshold c |}.

Definition set_by_name (c : t) (d : list (string * UUID)) : t :=
  {| concept_id := concept_id c; name := name c; description := description c;
     metadata := metadata c; ensembles_by_id := ensembles_by_id c;
     ensembles_by_name := d; relationships := relationships c;
     inhibition_gain := inhibition_gain c;
     activation_threshold := activation_threshold c |}.

Definition set_relationships (c : t) (r : list RelationshipEdge) : t :=
  {| concept_id := concept_id c; name := name c; description := description c;
     metadata := metadata c; ensembles_by_id := ensembles_by_id c;
     ensembles_by_name := ensembles_by_name c; relationships := r;
     inhibition_gain := inhibition_gain c;
     activation_threshold := activation_threshold c |}.

Definition set_concept_id (c : t) (i : UUID) : t :=
  {| concept_id := i; name := name c; description := description c;
     metadata := metadata c; ensembles_by_id := ensembles_by_id c;
     ensembles_by_name := ensembles_by_name c; relationships := relationships c;
     inhibition_gain := inhibition_gain c;
     activation_threshold := activation_threshold c |}.

(** [add_ensemble] *)
Definition add_ensemble (c : t) (ensemble : FeatureEnsemble.t) : t :=
  let c1 := set_by_id c (PyDict.set N.eqb (ensembles_by_id c)
                           (FeatureEnsemble.ensemble_id ensemble) ensemble) in
  set_by_name c1 (PyDict.set String.eqb (ensembles_by_name c1)
                    (FeatureEnsemble.name ensemble)
                    (FeatureEnsemble.ensemble_id ensemble)).

(** [get_ensemble]; an identity object is always truthy. *)
Definition get_ensemble (c : t) (nm : string) : option FeatureEnsemble.t :=
  match PyDict.get String.eqb (ensembles_by_name c) nm with
  | Some e_id => PyDict.get N.eqb (ensembles_by_id c) e_id
  | None => None
  end.

(** A change made to the ensemble object stored under [e_id]. *)
Definition update_ensemble (c : t) (e_id : UUID)
  (f : FeatureEnsemble.t -> FeatureEnsemble.t) : t :=
  match PyDict.get N.eqb (ensembles_by_id c) e_id with
  | Some e => set_by_id c (PyDict.set N.eqb (ensembles_by_id c) e_id (f e))
  | None => c
  end.

(** A change made to every ensemble object of the concept, in the order of
    [ensembles_by_id.values()]. *)
Definition map_ensembles (c : t) (f : FeatureEnsemble.t -> FeatureEnsemble.t) : t :=
  set_by_id c (map (fun '(k, e) => (k, f e)) (ensembles_by_id c)).

(** [_lateral_inhibition]; the division by [denom] is not guarded. *)
Definition _lateral_inhibition (c : t) : t * Result unit :=
  let total :=
    py_sum (map (fun e => Qmax 0 (FeatureEnsemble.activation e))
                (PyDict.values (ensembles_by_id c))) in
  if Qle_bool total (1 # 1000000000) then (c, Ok tt)
  else
    let denom := 1 + inhibition_gain c * total in
    match ensembles_by_id c with
    | [] => (c, Ok tt)
    | _ =>
        if Qeq_bool denom 0 then (c, Raise ZeroDivisionError)
        else (map_ensembles c (fun e =>
                FeatureEnsemble.set_activation e (FeatureEnsemble.activation e / denom)),
              Ok tt)
    end.

(** [decay_all] *)
Definition decay_all (c : t) (fraction : Q) : t :=
  map_ensembles c (fun e => FeatureEnsemble.decay e fraction).

(** [learn_hebbian] *)
Definition learn_hebbian (c : t) (learning_rate : Q) (min_activation : option Q) : t :=
  let thr := match min_activation with
             | None => activation_threshold c
             | Some m => m
             end in
  let coactive_ids :=
    map fst (filter (fun '(_, e) => Qle_bool thr (FeatureEnsemble.activation e))
                    (ensembles_by_id c)) in
  map_ensembles c (fun e =>
    if Qle_bool thr (FeatureEnsemble.activation e)
    then FeatureEnsemble.hebbian e coactive_ids learning_rate
    else e).

(** Stage 1 of [stimulate]: direct activation from the cues. *)
Definition direct_activation (H : Host) (c : t) (cues : list (string * list Q))
  (gain : Q) : t :=
  fold_left
    (fun acc '(nm, vec) =>
       match PyDict.get String.eqb (ensembles_by_name acc) nm with
       | Some e_id =>
           update_ensemble acc e_id (fun ens =>
             FeatureEnsemble.set_activation ens
               (FeatureEnsemble.activation ens
                + gain * FeatureEnsemble.similarity H ens vec))
       | None => acc
       end)
    cues c.

(** Inner loop of stage 2: [delta[t_id] = delta.get(t_id, 0.0) + s.activation * w]. *)
Definition add_deltas (act : Q) (lnk : list (UUID * Q)) (delta : list (UUID * Q))
  : list (UUID * Q) :=
  fold_left
    (fun d '(t_id, w) =>
       PyDict.set N.eqb d t_id (PyDict.get_default N.eqb d t_id 0 + act * w))
    lnk delta.

(** First two loops of stage 2: the table of deltas. *)
Definition spread_delta (c : t) : list (UUID * Q) :=
  fold_left
    (fun delta '(_, s) =>
       if Qle_bool (FeatureEnsemble.activation s) 0 then delta
       else add_deltas (FeatureEnsemble.activation s) (FeatureEnsemble.links s) delta)
    (ensembles_by_id c)
    (map (fun '(eid, _) => (eid, 0)) (ensembles_by_id c)).

(** Last loop of stage 2:
    [for t_id, d in delta.items(): self.ensembles_by_id[t_id].activation += d].
    The entries changed before a [KeyError] stay changed. *)
Fixpoint apply_delta (by_id : list (UUID * FeatureEnsemble.t)) (items : list (UUID * Q))
  : list (UUID * FeatureEnsemble.t) * Result unit :=
  match items with
  | [] => (by_id, Ok tt)
  | (t_id, d) :: rest =>
      match PyDict.get N.eqb by_id t_id with
      | Some e =>
          apply_delta
            (PyDict.set N.eqb by_id t_id
               (FeatureEnsemble.set_activation e (FeatureEnsemble.activation e + d)))
            rest
      | None => (by_id, Raise KeyError)
      end
  end.

(** Stage 2 of [stimulate]: one-hop spread. *)
Definition spread (c : t) : t * Result unit :=
  let '(by_id, r) := apply_delta (ensembles_by_id c) (spread_delta c) in
  (set_by_id c by_id, r).

(** The dict returned by [stimulate]. *)
Definition snapshot (H : Host) (c : t) : list (string * Q) :=
  fold_left
    (fun d ens => PyDict.set String.eqb d (FeatureEnsemble.name ens)
                    (round4 H (FeatureEnsemble.activation ens)))
    (PyDict.values (ensembles_by_id c)) [].

(** [stimulate]: the concept as the call leaves it, and what the call returns
    or raises. *)
Definition stimulate (H : Host) (c : t) (cues : list (string * list Q)) (gain : Q)
  : t * Result (list (string * Q)) :=
  let c1 := direct_activation H c cues gain in
  match spread c1 with
  | (c2, Raise e) => (c2, Raise e)
  | (c2, Ok _) =>
      match _lateral_inhibition c2 with
      | (c3, Raise e) => (c3, Raise e)
      | (c3, Ok _) => (c3, Ok (snapshot H c3))
      end
  end.

(** [add_relationship] *)
Definition add_relationship (c : t) (rel : string) (target : UUID) (descr : string) : t :=
  set_relationships c (relationships c ++ [mkEdge rel target descr]).

(** *** Engram I/O

    An engram is the JSON-like dict of [serialize_engram].  A field is [None]
    when the key is missing from the dict.  The records are the engrams
    whose fields, where present, have the types that [serialize_engram]
    writes: strings for names and identities, dicts for ["params"],
    ["metadata"] and ["links"], lists for ["ensembles"], ["relationships"]
    and ["vector"].  [from_engram] accepts any dict; what it does on a field
    of another type ([None] for ["params"], say, raises [AttributeError]) is
    outside the model. *)

Record EnsembleEngram : Type := mkEnsembleEngram {
  ee_ensemble_id : option string;
  ee_name : option string;
  ee_modality : option string;
  ee_vector : option (list Q);
  ee_links : option (list (string * Q))
}.

Record RelationshipEngram : Type := mkRelationshipEngram {
  re_type : option string;
  re_target_concept_id : option string;
  re_description : option string
}.

Record ParamsEngram : Type := mkParamsEngram {
  pe_inhibition_gain : option Q;
  pe_activation_threshold : option Q
}.

Record Engram : Type := mkEngram {
  eg_concept_id : option string;
  eg_name : option string;
  eg_description : option string;
  eg_ensembles : option (list EnsembleEngram);
  eg_relationships : option (list RelationshipEngram);
  eg_params : option ParamsEngram;
  eg_metadata : option Metadata
}.

(** [{str(t): w for t, w in e.links.items()}] *)
Definition serialize_links (H : Host) (lnk : list (UUID * Q)) : list (string * Q) :=
  fold_left (fun d '(t_id, w) => PyDict.set String.eqb d (uuid_str H t_id) w) lnk [].

Definition serialize_ensemble (H : Host) (e : FeatureEnsemble.t) : EnsembleEngram :=
  {| ee_ensemble_id := Some (uuid_str H (FeatureEnsemble.ensemble_id e));
     ee_name := Some (FeatureEnsemble.name e);
     ee_modality := Some (FeatureEnsemble.modality e);
     ee_vector := Some (FeatureEnsemble.vector e);
     ee_links := Some (serialize_links H (FeatureEnsemble.links e)) |}.

Definition serialize_relationship (H : Host) (r : RelationshipEdge) : RelationshipEngram :=
  {| re_type := Some (relation_type r);
     re_target_concept_id := Some (uuid_str H (target_concept_id r));
     re_description := Some (edge_description r) |}.

(** [serialize_engram] *)
Definition serialize_engram (H : Host) (c : t) : Engram :=
  {| eg_concept_id := Some (uuid_str H (concept_id c));
     eg_name := Some (name c);
     eg_description := Some (description c);
     eg_ensembles :=
       Some (map (serialize_ensemble H) (PyDict.values (ensembles_by_id c)));
     eg_relationships := Some (map (serialize_relationship H) (relationships c));
     eg_params := Some {| pe_inhibition_gain := Some (inhibition_gain c);
                          pe_activation_threshold := Some (activation_threshold c) |};
     eg_metadata := Some (metadata c) |}.

(** [d[key]] on an engram dict. *)
Definition require {A : Type} (o : option A) : Result A :=
  match o with
  | Some x => Ok x
  | None => Raise KeyError
  end.

(** [d.get(key, default)] on an engram dict. *)
Definition get_or {A : Type} (o : option A) (dflt : A) : A :=
  match o with
  | Some x => x
  | None => dflt
  end.

(** [uuid.UUID(s)] *)
Definition parse_uuid (H : Host) (s : string) : Result UUID :=
  match uuid_parse H s with
  | Some u => Ok u
  | None => Raise ValueError
  end.

(** A loop whose body may raise. *)
Fixpoint foldM {A B : Type} (f : A -> B -> Result A) (l : list B) (a : A) : Result A :=
  match l with
  | [] => Ok a
  | x :: r => rbind (f a x) (foldM f r)
  end.

(** Body of the first loop of [from_engram]. *)
Definition load_ensemble (H : Host) (fresh : UUID) (c : t) (ed : EnsembleEngram) : Result t :=
  rbind (require (ee_name ed)) (fun nm =>
  let e := FeatureEnsemble.new fresh nm (get_or (ee_modality ed) "unknown"%string)
             (get_or (ee_vector ed) []) EmptyString in
  rbind (require (ee_ensemble_id ed)) (fun id_str =>
  rbind (parse_uuid H id_str) (fun i =>
  Ok (add_ensemble c (FeatureEnsemble.set_ensemble_id e i))))).

(** Body of the second loop of [from_engram]; [s] is the ensemble object
    stored under [s_id]. *)
Definition load_links (H : Host) (c : t) (ed : EnsembleEngram) : Result t :=
  rbind (require (ee_ensemble_id ed)) (fun id_str =>
  rbind (parse_uuid H id_str) (fun s_id =>
  rbind (PyDict.index N.eqb (ensembles_by_id c) s_id) (fun _ =>
  foldM (fun acc '(t_str, w) =>
           rbind (parse_uuid H t_str) (fun t_id =>
           Ok (update_ensemble acc s_id (fun s =>
                 FeatureEnsemble.set_links s
                   (PyDict.set N.eqb (FeatureEnsemble.links s) t_id w)))))
        (get_or (ee_links ed) []) c))).

(** Body of the third loop of [from_engram]. *)
Definition load_relationship (H : Host) (c : t) (rd : RelationshipEngram) : Result t :=
  rbind (require (re_type rd)) (fun ty =>
  rbind (require (re_target_concept_id rd)) (fun target_str =>
  rbind (parse_uuid H target_str) (fun target =>
  Ok (set_relationships c
        (relationships c ++ [mkEdge ty target (get_or (re_description rd) EmptyString)]))))).

(** [from_engram].  The identities that the two constructors draw are
    overwritten before they are used; [fresh] stands for all of them. *)
Definition from_engram (H : Host) (fresh : UUID) (data : Engram) : Result t :=
  let params := get_or (eg_params data) (mkParamsEngram None None) in
  let c := new fresh (get_or (eg_name data) EmptyString)
             (get_or (eg_description data) EmptyString)
             (Some (get_or (eg_metadata data) []))
             (get_or (pe_inhibition_gain params) (25 # 100))
             (get_or (pe_activation_threshold params) (15 # 100)) in
  rbind (require (eg_concept_id data)) (fun id_str =>
  rbind (parse_uuid H id_str) (fun cid =>
  let c := set_concept_id c cid in
  let eds := get_or (eg_ensembles data) [] in
  rbind (foldM (load_ensemble H fresh) eds c) (fun c =>
  rbind (foldM (load_links H) eds c) (fun c =>
  foldM (load_relationship H) (get_or (eg_relationships data) []) c)))).

(** An ensemble as an engram keeps it: activation and description are not
    written, so they come back at their defaults. *)
Definition reloaded (e : FeatureEnsemble.t) : FeatureEnsemble.t :=
  {| FeatureEnsemble.name := FeatureEnsemble.name e;
     FeatureEnsemble.modality := FeatureEnsemble.modality e;
     FeatureEnsemble.vector := FeatureEnsemble.vector e;
     FeatureEnsemble.description := EmptyString;
     FeatureEnsemble.activation := 0;
     FeatureEnsemble.ensemble_id := FeatureEnsemble.ensemble_id e;
     FeatureEnsemble.links := FeatureEnsemble.links e |}.

(** Every ensemble is stored under its own identity. *)
Definition keyed_by_identity (c : t) : bool :=
  forallb (fun '(k, e) => N.eqb (FeatureEnsemble.ensemble_id e) k) (ensembles_by_id c).

(** *** Histories of a concept *)

(** The calls that change a concept. *)
Inductive op : Type :=
| OpAddEnsemble (ensemble : FeatureEnsemble.t)
| OpStimulate (cues : list (string * list Q)) (gain : Q)
| OpLearnHebbian (learning_rate : Q) (min_activation : option Q)
| OpAddRelationship (rel : string) (target : UUID) (descr : string)
| OpDecayAll (fraction : Q).

(** The concept after one call; a call that raises leaves the concept as it
    was when the exception left the method. *)
Definition apply_op (H : Host) (c : t) (o : op) : t :=
  match o with
  | OpAddEnsemble e => add_ensemble c e
  | OpStimulate cues gain => fst (stimulate H c cues gain)
  | OpLearnHebbian lr m => learn_hebbian c lr m
  | OpAddRelationship rel target descr => add_relationship c rel target descr
  | OpDecayAll f => decay_all c f
  end.

Definition run (H : Host) (c : t) (ops : list op) : t := fold_left (apply_op H) ops c.

(** [add_ensemble(e)] collides when the name of [e] is already indexed to
    another identity. *)
Definition collides (c : t) (e : FeatureEnsemble.t) : bool :=
  match PyDict.get String.eqb (ensembles_by_name c) (FeatureEnsemble.name e) with
  | Some i => negb (N.eqb i (FeatureEnsemble.ensemble_id e))
  | None => false
  end.

(** No [add_ensemble] of the history collides. *)
Fixpoint collision_free (H : Host) (c : t) (ops : list op) : bool :=
  match ops with
  | [] => true
  | o :: rest =>
      match o with
      | OpAddEnsemble e => negb (collides c e)
      | _ => true
      end && collision_free H (apply_op H c o) rest
  end.

(** Every indexed name leads to an ensemble that is present. *)
Definition names_resolve (c : t) : Prop :=
  forall nm i, PyDict.get String.eqb (ensembles_by_name c) nm = Some i ->
               In i (PyDict.keys (ensembles_by_id c)).

(** Every ensemble that is present is reached from some name. *)
Definition ids_named (c : t) : Prop :=
  forall i, In i (PyDict.keys (ensembles_by_id c)) ->
            exists nm, PyDict.get String.eqb (ensembles_by_name c) nm = Some i.

(** *** Example concepts *)

Definition ens (i : UUID) (nm : string) (act : Q) (lnk : list (UUID * Q))
  : FeatureEnsemble.t :=
  {| FeatureEnsemble.name := nm; FeatureEnsemble.modality := "vision"%string;
     FeatureEnsemble.vector := [1; 0]; FeatureEnsemble.description := EmptyString;
     FeatureEnsemble.activation := act; FeatureEnsemble.ensemble_id := i;
     FeatureEnsemble.links := lnk |}.

Definition blank (i : UUID) (nm : string) : t :=
  new i nm EmptyString None (1 # 4) (15 # 100).

(** ["shape"] is active and linked to ["color"] with weight 0.2. *)
Definition shape_color : t :=
  add_ensemble
    (add_ensemble (blank 10 "A"%string) (ens 1 "shape"%string 1 [(2%N, 2 # 10)]))
    (ens 2 "color"%string 0 []).

(** An active ensemble whose only link leads to an identity that is no
    ensemble of the concept. *)
Definition dangling : t :=
  add_ensemble (blank 10 "A"%string) (ens 1 "shape"%string 1 [(99%N, 5 # 10)]).

(** Two ensembles registered under one name. *)
Definition same_name_twice : list op :=
  [OpAddEnsemble (ens 1 "x"%string 0 []); OpAddEnsemble (ens 2 "x"%string 0 [])].

(** *** Notions used to state the properties of a concept *)

(** The dictionaries of a concept are dictionaries: no identity occurs twice
    in the identity map, no target twice in the links of an ensemble. *)
Definition wf (c : t) : bool :=
  PyDict.uniq N.eqb (ensembles_by_id c)
  && forallb (fun '(_, e) => PyDict.uniq N.eqb (FeatureEnsemble.links e))
             (ensembles_by_id c).

(** The weight of the link from [s] to [t_id]; an absent link weighs 0. *)
Definition link_weight (s : FeatureEnsemble.t) (t_id : UUID) : Q :=
  PyDict.get_default N.eqb (FeatureEnsemble.links s) t_id 0.

(** The identity map with the delta of each entry added to its activation. *)
Definition bump (by_id : list (UUID * FeatureEnsemble.t)) (delta : list (UUID * Q))
  : list (UUID * FeatureEnsemble.t) :=
  map (fun '((k, e), (_, d)) =>
         (k, FeatureEnsemble.set_activation e (FeatureEnsemble.activation e + d)))
      (combine by_id delta).

(** The table of deltas starts with one entry per ensemble, in the order of
    the identity map; the targets that are no ensemble follow. *)
Definition starts_with (ks : list UUID) (delta : list (UUID * Q)) : Prop :=
  NoDup (PyDict.keys delta) /\
  exists d1 d2, delta = d1 ++ d2 /\ PyDict.keys d1 = ks.

(** The calls other than [add_ensemble] leave the identities and the name
    index as they are. *)
Definition same_index (c c' : t) : Prop :=
  PyDict.keys (ensembles_by_id c') = PyDict.keys (ensembles_by_id c) /\
  ensembles_by_name c' = ensembles_by_name c.

(** The fields that neither [add_ensemble] nor a change of an ensemble
    touches. *)
Definition same_header (c c' : t) : Prop :=
  concept_id c' = concept_id c /\ name c' = name c /\
  description c' = description c /\ metadata c' = metadata c /\
  relationships c' = relationships c /\
  inhibition_gain c' = inhibition_gain c /\
  activation_threshold c' = activation_threshold c.

(** The ensemble object as the first loop registers it. *)
Definition shell (fresh : UUID) (e : FeatureEnsemble.t) : FeatureEnsemble.t :=
  FeatureEnsemble.set_ensemble_id
    (FeatureEnsemble.new fresh (FeatureEnsemble.name e) (FeatureEnsemble.modality e)
       (FeatureEnsemble.vector e) EmptyString)
    (FeatureEnsemble.ensemble_id e).

(** The inner loop of the second stage of [from_engram], on the ensemble
    stored under [k]. *)
Definition link_step (k : UUID) (acc : t) (entry : UUID * Q) : t :=
  let '(t_id, w) := entry in
  update_ensemble acc k (fun s =>
    FeatureEnsemble.set_links s (PyDict.set N.eqb (FeatureEnsemble.links s) t_id w)).

(** *** Recall *)

(** [items.sort(key=lambda x: x[1], reverse=True)]: a stable sort, largest
    value first; entries with equal values keep their order. *)
Fixpoint insert_desc (x : string * Q) (l : list (string * Q)) : list (string * Q) :=
  match l with
  | [] => [x]
  | y :: r => if Qle_bool (snd y) (snd x) then x :: l else y :: insert_desc x r
  end.

Definition sort_desc (l : list (string * Q)) : list (string * Q) :=
  fold_right insert_desc [] l.



(** *** Further notions and examples *)

(** The quantity that [_lateral_inhibition] normalises by. *)
Definition total_activation (c : t) : Q :=
  py_sum (map (fun e => Qmax 0 (FeatureEnsemble.activation e))
              (PyDict.values (ensembles_by_id c))).

(** An ensemble with its activation blanked out. *)
Definition at_rest (entry : UUID * FeatureEnsemble.t) : UUID * FeatureEnsemble.t :=
  (fst entry, FeatureEnsemble.set_activation (snd entry) 0).

(** [c'] differs from [c] in the activations of its ensembles at most. *)
Definition only_activations (c c' : t) : Prop :=
  map at_rest (ensembles_by_id c') = map at_rest (ensembles_by_id c) /\
  ensembles_by_name c' = ensembles_by_name c /\
  same_header c c'.

(** Two ensembles above the activation threshold. *)
Definition both_active : t :=
  add_ensemble
    (add_ensemble (blank 10 "A"%string) (ens 1 "shape"%string 1 []))
    (ens 2 "color"%string (1 # 2) []).

(** *** Engrams that load *)

(** The key is present and its value is the text of an identity. *)
Definition parses (H : Host) (o : option string) : Prop :=
  exists s u, o = Some s /\ uuid_parse H s = Some u.

Definition ensemble_engram_ok (H : Host) (ed : EnsembleEngram) : Prop :=
  ee_name ed <> None /\
  parses H (ee_ensemble_id ed) /\
  Forall (fun tw => uuid_parse H (fst tw) <> None) (get_or (ee_links ed) []).

Definition relationship_engram_ok (H : Host) (rd : RelationshipEngram) : Prop :=
  re_type rd <> None /\ parses H (re_target_concept_id rd).

(** Every key that [from_engram] indexes is present, and every identity
    string parses. *)
Definition engram_ok (H : Host) (data : Engram) : Prop :=
  parses H (eg_concept_id data) /\
  Forall (ensemble_engram_ok H) (get_or (eg_ensembles data) []) /\
  Forall (relationship_engram_ok H) (get_or (eg_relationships data) []).

(** The fields of a concept that are set when it is constructed. *)
Definition header (c : t) : UUID * string * string * Metadata * Q * Q :=
  (concept_id c, name c, description c, metadata c,
   inhibition_gain c, activation_threshold c).

End Concept.

(** ** utils/relations_utils.py *)

Module RelationsUtils.

(** [(type, target_concept_id_str, description)] *)
Definition RelationTuple := (string * string * string)%type.

Definition tuple_eqb (x y : RelationTuple) : bool :=
  let '(a1, b1, c1) := x in
  let '(a2, b2, c2) := y in
  String.eqb a1 a2 && String.eqb b1 b2 && String.eqb c1 c2.

(** [list_relations] *)
Definition list_relations (H : Host) (c : Concept.t) : list RelationTuple :=
  map (fun r => (relation_type r, uuid_str H (target_concept_id r), edge_description r))
      (Concept.relationships c).

(** [set(xs)]: the distinct elements, kept in the order of their first
    occurrence (the iteration order of a Python set is unspecified). *)
Definition to_set (xs : list RelationTuple) : list RelationTuple :=
  fold_left (fun s x => if existsb (tuple_eqb x) s then s else s ++ [x]) xs [].

(** [s1 - s2] *)
Definition set_diff (s1 s2 : list RelationTuple) : list RelationTuple :=
  filter (fun x => negb (existsb (tuple_eqb x) s2)) s1.

(** Tuples compare lexicographically, strings by code point. *)
Definition tuple_compare (x y : RelationTuple) : comparison :=
  let '(a1, b1, c1) := x in
  let '(a2, b2, c2) := y in
  match String.compare a1 a2 with
  | Eq => match String.compare b1 b2 with
          | Eq => String.compare c1 c2
          | o => o
          end
  | o => o
  end.

Fixpoint insert_sorted (x : RelationTuple) (l : list RelationTuple) : list RelationTuple :=
  match l with
  | [] => [x]
  | y :: r =>
      match tuple_compare x y with
      | Gt => y :: insert_sorted x r
      | _ => x :: l
      end
  end.

(** [xs.sort(key=lambda x: (x[0], x[1], x[2]))]: a stable sort. *)
Definition sort (xs : list RelationTuple) : list RelationTuple :=
  fold_right insert_sorted [] xs.

Record RelationDelta : Type := mkDelta {
  added : list RelationTuple;
  removed : list RelationTuple
}.

(** [diff_relations] *)
Definition diff_relations (before after : list RelationTuple) : RelationDelta :=
  let set_before := to_set before in
  let set_after := to_set after in
  {| added := sort (set_diff set_after set_before);
     removed := sort (set_diff set_before set_after) |}.

(** The order of the tuples: [x] is not after [y]. *)
Definition tuple_le (x y : RelationTuple) : Prop := tuple_compare x y <> Gt.

End RelationsUtils.

(** ** manipulations/manipulations.py

    The operations receive references to concept objects.  A [Store] holds
    the concept objects that exist, addressed by their position, and the
    supply of identities that [uuid.uuid4] draws from.  An operation is a
    function from the store before the call to the store after it and the
    value returned or the exception raised.  Every ensemble that an operation
    puts into its result is built by the [FeatureEnsemble] constructor from
    copied fields, so the result owns its ensembles as every concept does. *)

Module Manipulations.
Import RelationsUtils.

Record Store : Type := mkStore {
  concepts : list Concept.t;
  next_uuid : UUID
}.

Definition M (A : Type) : Type := Store -> Store * Result A.

Definition ret {A : Type} (x : A) : M A := fun st => (st, Ok x).

Definition bind {A B : Type} (m : M A) (k : A -> M B) : M B :=
  fun st =>
    match m st with
    | (st', Ok x) => k x st'
    | (st', Raise e) => (st', Raise e)
    end.

Notation "x <- m ;; k" := (bind m (fun x => k))
  (at level 61, m at next level, right associativity).
Notation "m ;;; k" := (bind m (fun _ => k))
  (at level 61, right associativity).

(** A pure computation that may raise. *)
Definition lift {A : Type} (r : Result A) : M A := fun st => (st, r).

(** [for x in xs: body(x)] *)
Fixpoint forM_ {A : Type} (xs : list A) (body : A -> M unit) : M unit :=
  match xs with
  | [] => ret tt
  | x :: rest => body x ;;; forM_ rest body
  end.

(** [for x in xs: acc = body(acc, x)], for a loop that fills a local
    variable. *)
Fixpoint foldM {A B : Type} (xs : list A) (acc : B) (body : B -> A -> M B) : M B :=
  match xs with
  | [] => ret acc
  | x :: rest => acc' <- body acc x ;; foldM rest acc' body
  end.

(** [uuid.uuid4()] *)
Definition uuid4 : M UUID :=
  fun st => ({| concepts := concepts st; next_uuid := N.succ (next_uuid st) |},
             Ok (next_uuid st)).

(** Reading the object behind a reference. *)
Definition read (r : nat) : M Concept.t :=
  fun st => (st, match nth_error (concepts st) r with
                 | Some c => Ok c
                 | None => Raise BadRef
                 end).

(** A new concept object. *)
Definition alloc (c : Concept.t) : M nat :=
  fun st => ({| concepts := concepts st ++ [c]; next_uuid := next_uuid st |},
             Ok (List.length (concepts st))).

Fixpoint list_set {A : Type} (l : list A) (i : nat) (x : A) : list A :=
  match l, i with
  | [], _ => []
  | _ :: r, O => x :: r
  | y :: r, S j => y :: list_set r j x
  end.

(** A change of the object behind a reference. *)
Definition modify (r : nat) (f : Concept.t -> Concept.t) : M unit :=
  fun st =>
    match nth_error (concepts st) r with
    | Some c => ({| concepts := list_set (concepts st) r (f c);
                    next_uuid := next_uuid st |}, Ok tt)
    | None => (st, Raise BadRef)
    end.

(** [Concept(...)] *)
Definition new_concept (nm descr : string) (md : option Concept.Metadata)
  (gain thr : Q) : M nat :=
  i <- uuid4 ;; alloc (Concept.new i nm descr md gain thr).

(** [FeatureEnsemble(name=..., modality=..., vector=list(...), description=...)] *)
Definition new_ensemble (nm md : string) (vec : list Q) (descr : string)
  : M FeatureEnsemble.t :=
  i <- uuid4 ;; ret (FeatureEnsemble.new i nm md vec descr).

Definition Outcome := (option nat * RelationDelta * string)%type.

(** *** Helpers *)

(** [_ensemble_name_set] *)
Definition _ensemble_name_set (c : nat) : M (list string) :=
  cc <- read c ;; ret (PyDict.keys (Concept.ensembles_by_name cc)).

(** [_copy_concept_shallow] *)
Definition _copy_concept_shallow (c : nat) (new_name : string) : M nat :=
  cc <- read c ;;
  new_concept new_name ("Derived from " ++ Concept.name cc)
    (Some (Concept.metadata cc))
    (Concept.inhibition_gain cc) (Concept.activation_threshold cc).

(** [na & nb] and [na | nb] on sets of names. *)
Definition set_inter (na nb : list string) : list string :=
  filter (fun n => PySet.mem n nb) na.


Definition of_nat (n : nat) : Q := inject_Z (Z.of_nat n).

(** *** Operations *)



(** [se.links[tid2] = w] for the ensemble [se] stored under [sid] in [c]. *)
Definition set_link (c : nat) (sid tid2 : UUID) (w : Q) : M unit :=
  modify c (fun cc =>
    Concept.update_ensemble cc sid (fun se =>
      FeatureEnsemble.set_links se (PyDict.set N.eqb (FeatureEnsemble.links se) tid2 w))).

(** [copy_links] of [merge_concepts] *)
Definition copy_links (c : nat) (name_to_id : list (string * UUID))
  (src : nat) (suffix : string) : M unit :=
  csrc <- read src ;;
  forM_ (PyDict.values (Concept.ensembles_by_id csrc)) (fun e =>
    let sname := if String.eqb suffix EmptyString then FeatureEnsemble.name e
                 else (FeatureEnsemble.name e ++ suffix)%string in
    match PyDict.get String.eqb name_to_id sname with
    | None => ret tt
    | Some sid =>
        cc <- read c ;;
        lift (PyDict.index N.eqb (Concept.ensembles_by_id cc) sid) ;;;
        forM_ (FeatureEnsemble.links e) (fun '(tid, w) =>
          csrc' <- read src ;;
          te <- lift (PyDict.index N.eqb (Concept.ensembles_by_id csrc') tid) ;;
          let tname := FeatureEnsemble.name te in
          let tname2 := if String.eqb suffix EmptyString then tname
                        else (tname ++ suffix)%string in
          match PyDict.get String.eqb name_to_id tname2 with
          | Some tid2 => set_link c sid tid2 w
          | None => ret tt
          end)
    end).

(** [merge_concepts] *)
Definition merge_concepts (H : Host) (a b : nat) (new_name : string) : M Outcome :=
  c <- _copy_concept_shallow a new_name ;;
  ca <- read a ;;
  forM_ (PyDict.values (Concept.ensembles_by_id ca)) (fun ea =>
    na <- new_ensemble (FeatureEnsemble.name ea) (FeatureEnsemble.modality ea)
            (FeatureEnsemble.vector ea) (FeatureEnsemble.description ea) ;;
    modify c (fun cc => Concept.add_ensemble cc na)) ;;;
  cb <- read b ;;
  forM_ (PyDict.values (Concept.ensembles_by_id cb)) (fun eb =>
    cc <- read c ;;
    let name_b :=
      if PyDict.contains String.eqb (Concept.ensembles_by_name cc) (FeatureEnsemble.name eb)
      then (FeatureEnsemble.name eb ++ "__B")%string
      else FeatureEnsemble.name eb in
    nb <- new_ensemble name_b (FeatureEnsemble.modality eb)
            (FeatureEnsemble.vector eb) (FeatureEnsemble.description eb) ;;
    modify c (fun cc => Concept.add_ensemble cc nb)) ;;;
  cc <- read c ;;
  let name_to_id :=
    fold_left (fun d '(eid, e) => PyDict.set String.eqb d (FeatureEnsemble.name e) eid)
              (Concept.ensembles_by_id cc) [] in
  copy_links c name_to_id a EmptyString ;;;
  copy_links c name_to_id b "__B" ;;;
  ca <- read a ;;
  modify c (fun cc => Concept.add_relationship cc "MERGED_FROM" (Concept.concept_id ca)
                        ("source:" ++ Concept.name ca)) ;;;
  cb <- read b ;;
  modify c (fun cc => Concept.add_relationship cc "MERGED_FROM" (Concept.concept_id cb)
                        ("source:" ++ Concept.name cb)) ;;;
  cc <- read c ;;
  ca <- read a ;;
  cb <- read b ;;
  let after_rels := list_relations H cc in
  let notes := ("Merged " ++ Concept.name ca ++ " and " ++ Concept.name cb
                ++ " into " ++ Concept.name cc ++ "; added MERGED_FROM edges.")%string in
  ret (Some c, {| added := after_rels; removed := [] |}, notes).

(** Second loop of [intersect_concepts] and of [subtract_concepts]: the links
    of [ea] are re-created on the ensemble that [result.get_ensemble(n)]
    returns, for the targets whose name is in [name_to_new_id]. *)
Definition relink (a result : nat) (name_to_new_id : list (string * UUID))
  (n : string) (ea : FeatureEnsemble.t) : M unit :=
  cr <- read result ;;
  match PyDict.get String.eqb (Concept.ensembles_by_name cr) n with
  | None => ret tt
  | Some sid =>
      match PyDict.get N.eqb (Concept.ensembles_by_id cr) sid with
      | None => ret tt
      | Some _ =>
          forM_ (FeatureEnsemble.links ea) (fun '(t_id, w) =>
            ca <- read a ;;
            te <- lift (PyDict.index N.eqb (Concept.ensembles_by_id ca) t_id) ;;
            match PyDict.get String.eqb name_to_new_id (FeatureEnsemble.name te) with
            | Some tid2 => set_link result sid tid2 w
            | None => ret tt
            end)
      end
  end.

(** A set of [(relation_type, target id as a string)] pairs. *)
Definition rel_pairs (H : Host) (c : Concept.t) : list (string * string) :=
  fold_left
    (fun s r =>
       let p := (relation_type r, uuid_str H (target_concept_id r)) in
       if existsb (fun q => String.eqb (fst p) (fst q) && String.eqb (snd p) (snd q)) s
       then s else s ++ [p])
    (Concept.relationships c) [].

Definition pairs_inter (s1 s2 : list (string * string)) : list (string * string) :=
  filter (fun p => existsb (fun q => String.eqb (fst p) (fst q)
                                     && String.eqb (snd p) (snd q)) s2) s1.

(** [f"{n}"] for a length. *)
Definition str_of_nat (n : nat) : string := NilEmpty.string_of_uint (Nat.to_uint n).

(** [intersect_concepts] *)
Definition intersect_concepts (H : Host) (a b : nat) (new_name : string) : M Outcome :=
  result <- _copy_concept_shallow a new_name ;;
  na <- _ensemble_name_set a ;;
  nb <- _ensemble_name_set b ;;
  let shared_names := set_inter na nb in
  name_to_new_id <-
    foldM shared_names [] (fun d n =>
      ca <- read a ;;
      match Concept.get_ensemble ca n with
      | None => ret d
      | Some ea =>
          ne <- new_ensemble (FeatureEnsemble.name ea) (FeatureEnsemble.modality ea)
                  (FeatureEnsemble.vector ea) (FeatureEnsemble.description ea) ;;
          modify result (fun cr => Concept.add_ensemble cr ne) ;;;
          ret (PyDict.set String.eqb d n (FeatureEnsemble.ensemble_id ne))
      end) ;;
  forM_ shared_names (fun n =>
    ca <- read a ;;
    match Concept.get_ensemble ca n with
    | None => ret tt
    | Some ea => relink a result name_to_new_id n ea
    end) ;;;
  ca <- read a ;;
  cb <- read b ;;
  let shared_rels := pairs_inter (rel_pairs H ca) (rel_pairs H cb) in
  forM_ shared_rels (fun '(rel_type, target_id_str) =>
    target <- lift (Concept.parse_uuid H target_id_str) ;;
    modify result (fun cr =>
      Concept.add_relationship cr rel_type target "shared relation")) ;;;
  cr <- read result ;;
  let notes := ("Intersection created. Shared ensembles: "
                ++ str_of_nat (List.length shared_names)
                ++ ". Shared relations added: "
                ++ str_of_nat (List.length shared_rels) ++ ".")%string in
  ret (Some result, {| added := list_relations H cr; removed := [] |}, notes).

(** [subtract_concepts] *)
Definition subtract_concepts (a b : nat) (new_name : string) : M Outcome :=
  c <- _copy_concept_shallow a new_name ;;
  nb <- _ensemble_name_set b ;;
  ca <- read a ;;
  let keep := filter (fun e => negb (PySet.mem (FeatureEnsemble.name e) nb))
                     (PyDict.values (Concept.ensembles_by_id ca)) in
  name_to_new <-
    foldM keep [] (fun d e =>
      ne <- new_ensemble (FeatureEnsemble.name e) (FeatureEnsemble.modality e)
              (FeatureEnsemble.vector e) (FeatureEnsemble.description e) ;;
      modify c (fun cc => Concept.add_ensemble cc ne) ;;;
      ret (PyDict.set String.eqb d (FeatureEnsemble.name e)
                      (FeatureEnsemble.ensemble_id ne))) ;;
  forM_ keep (fun e => relink a c name_to_new (FeatureEnsemble.name e) e) ;;;
  ret (Some c, {| added := []; removed := [] |},
       "Subtraction created. Relations unchanged (derived concept has none by default)."%string).

(** [bind_relation] *)
Definition bind_relation (H : Host) (a b : nat) (rel : string) (descr : string)
  : M Outcome :=
  ca <- read a ;;
  let before := list_relations H ca in
  cb <- read b ;;
  modify a (fun x => Concept.add_relationship x rel (Concept.concept_id cb) descr) ;;;
  ca' <- read a ;;
  let after := list_relations H ca' in
  let delta := diff_relations before after in
  cb' <- read b ;;
  let notes := ("Added relation " ++ rel ++ " from " ++ Concept.name ca'
                ++ " to " ++ Concept.name cb' ++ ".")%string in
  ret (Some a, delta, notes).

(** *** Notions used to state the properties of the operations *)

(** The links of the ensembles of a concept lead to ensembles of the
    concept. *)
Definition links_closed (c : Concept.t) : Prop :=
  forall e t_id w,
    In e (PyDict.values (Concept.ensembles_by_id c)) ->
    In (t_id, w) (FeatureEnsemble.links e) ->
    In t_id (PyDict.keys (Concept.ensembles_by_id c)).


(** *** A Hoare logic for the operations

    Assertions speak about the concept objects of the store; [uuid4] does not
    change them.  [hoare P m Q E]: from a store that satisfies [P], [m]
    either returns [x] in a store that satisfies [Q _ x] or raises [e] in a
    store that satisfies [E _ e]. *)

Definition hoare {A : Type} (P : list Concept.t -> Prop) (m : M A)
  (Q : list Concept.t -> A -> Prop) (E : list Concept.t -> exn -> Prop) : Prop :=
  forall st, P (concepts st) ->
    match m st with
    | (st', Ok x) => Q (concepts st') x
    | (st', Raise e) => E (concepts st') e
    end.

(** The objects that existed before the call, [cs0], are as they were. *)
Definition extends (cs0 cs : list Concept.t) : Prop := exists more, cs = cs0 ++ more.

(** Moreover the new object [c] exists, and the identities of its ensembles
    satisfy [K]. *)
Definition inv (cs0 : list Concept.t) (c : nat) (K : list UUID -> Prop)
  (cs : list Concept.t) : Prop :=
  extends cs0 cs /\ (List.length cs0 <= c)%nat /\
  exists cc, nth_error cs c = Some cc /\ K (PyDict.keys (Concept.ensembles_by_id cc)).

(** An exception leaves the old objects as they were, and is raised only
    when [phi] fails. *)
Definition exc (cs0 : list Concept.t) (phi : Prop) (cs : list Concept.t) (e : exn)
  : Prop :=
  extends cs0 cs /\ ~ phi.

(** *** Notions used to state what an operation returns *)

(** [e] is what the constructor makes of [src] under the name [nm]: the
    modality, the vector and the description are those of [src], and the
    activation is at its default. *)
Definition copy_of (nm : string) (src e : FeatureEnsemble.t) : Prop :=
  FeatureEnsemble.name e = nm /\
  FeatureEnsemble.modality e = FeatureEnsemble.modality src /\
  FeatureEnsemble.vector e = FeatureEnsemble.vector src /\
  FeatureEnsemble.description e = FeatureEnsemble.description src /\
  FeatureEnsemble.activation e = 0.

(** The fields that [_copy_concept_shallow] sets from concept [ca]. *)
Definition derived_from (ca : Concept.t) (nm : string) (cc : Concept.t) : Prop :=
  Concept.name cc = nm /\
  Concept.description cc = ("Derived from " ++ Concept.name ca)%string /\
  Concept.metadata cc = match Concept.metadata ca with
                        | [] => [("version"%string, "3.0"%string)]
                        | x :: r => x :: r
                        end /\
  Concept.inhibition_gain cc = Concept.inhibition_gain ca /\
  Concept.activation_threshold cc = Concept.activation_threshold ca.

(** What the loops of an operation keep true of the concept they build:
    its header comes from [ca], its relationships satisfy [rels], the
    identities recorded in [d] are identities of its ensembles, its links
    lead to its own ensembles, and each of its ensembles satisfies
    [prov]. *)
Definition derived (ca : Concept.t) (nm : string) (prov : FeatureEnsemble.t -> Prop)
  (rels : list RelationshipEdge -> Prop) (d : list (string * UUID)) (cc : Concept.t)
  : Prop :=
  derived_from ca nm cc /\
  rels (Concept.relationships cc) /\
  incl (PyDict.values d) (PyDict.keys (Concept.ensembles_by_id cc)) /\
  links_closed cc /\
  forall e, In e (PyDict.values (Concept.ensembles_by_id cc)) -> prov e.

(** The objects of [cs0] are as they were, and the new object [c]
    satisfies [J]. *)
Definition holds (cs0 : list Concept.t) (c : nat) (J : Concept.t -> Prop)
  (cs : list Concept.t) : Prop :=
  extends cs0 cs /\ (List.length cs0 <= c)%nat /\
  exists cc, nth_error cs c = Some cc /\ J cc.

(** No condition on the store that an exception leaves behind. *)
Definition anyhow (cs : list Concept.t) (e : exn) : Prop := True.

(** An ensemble of the merge of A and B is a copy of an ensemble of A under
    its name, or of an ensemble of B under its name or its name followed by
    ["__B"]. *)
Definition merged_from (ca cb : Concept.t) (e : FeatureEnsemble.t) : Prop :=
  (exists ea, In ea (PyDict.values (Concept.ensembles_by_id ca)) /\
              copy_of (FeatureEnsemble.name ea) ea e) \/
  (exists eb, In eb (PyDict.values (Concept.ensembles_by_id cb)) /\
              (copy_of (FeatureEnsemble.name eb) eb e \/
               copy_of (FeatureEnsemble.name eb ++ "__B") eb e)).

(** An ensemble of [A - B] is a copy of an ensemble of A whose name is not
    indexed in B. *)
Definition kept_from (ca cb : Concept.t) (e : FeatureEnsemble.t) : Prop :=
  exists ea, In ea (PyDict.values (Concept.ensembles_by_id ca)) /\
             ~ In (FeatureEnsemble.name ea) (PyDict.keys (Concept.ensembles_by_name cb)) /\
             copy_of (FeatureEnsemble.name ea) ea e.

(** An ensemble of the intersection is a copy of the ensemble that a name
    indexed in both A and B leads to in A. *)
Definition shared_from (ca cb : Concept.t) (e : FeatureEnsemble.t) : Prop :=
  exists n ea,
    In n (PyDict.keys (Concept.ensembles_by_name ca)) /\
    In n (PyDict.keys (Concept.ensembles_by_name cb)) /\
    Concept.get_ensemble ca n = Some ea /\
    copy_of (FeatureEnsemble.name ea) ea e.

(** A relationship edge of the intersection: A and B both hold an edge of
    that type whose target is written the same, and the target is what that
    text parses to. *)
Definition shared_edge (H : Host) (ca cb : Concept.t) (r : RelationshipEdge) : Prop :=
  edge_description r = "shared relation"%string /\
  exists ra rb,
    In ra (Concept.relationships ca) /\ In rb (Concept.relationships cb) /\
    relation_type ra = relation_type r /\ relation_type rb = relation_type r /\
    uuid_str H (target_concept_id rb) = uuid_str H (target_concept_id ra) /\
    uuid_parse H (uuid_str H (target_concept_id ra)) = Some (target_concept_id r).

(** *** Example stores *)

(** Concept B holds ["x"] and ["y"], with a link from ["x"] to ["y"] of
    weight 0.5. *)
Definition concept_b : Concept.t :=
  Concept.add_ensemble
    (Concept.add_ensemble (Concept.blank 20 "B"%string)
       (Concept.ens 1 "x"%string 0 [(2%N, 5 # 10)]))
    (Concept.ens 2 "y"%string 0 []).

(** Concept A, without ensembles, at reference 0 and concept B at
    reference 1. *)
Definition store_ab : Store :=
  {| concepts := [Concept.blank 10 "A"%string; concept_b]; next_uuid := 100%N |}.

(** Concept A already holds the edge [("IS_A", B, "a is a b")]. *)
Definition store_bound : Store :=
  {| concepts :=
       [Concept.add_relationship (Concept.blank 10 "A"%string) "IS_A"%string 20%N
          "a is a b"%string;
        concept_b];
     next_uuid := 100%N |}.

End Manipulations.

(** ** Binary64 arithmetic

    The modules above idealise [float] as exact rationals, which is sound
    for the properties that rounding cannot change.  Where a property
    depends on the value a sum or a product is rounded to, or on the side
    of a threshold it falls on, the functions are modelled once more on
    [float], the binary64 numbers of IEEE 754 with their correctly rounded
    operations; that is what a Python [float] is.  The comparisons are the
    IEEE ones: a NaN is neither less than, nor equal to, nor greater than
    anything, and [0.0] equals [-0.0]. *)

Module F64.

(** [min(a, b)] and [max(a, b)] of two floats: Python answers the first
    argument unless the second is strictly smaller (larger). *)
Definition min (a b : float) : float := if (b <? a)%float then b else a.

Definition max (a b : float) : float := if (a <? b)%float then b else a.

(** [x] is a number, not a NaN. *)
Definition is_number (x : float) : Prop := (x =? x)%float = true.

End F64.

(** ** assemblies/cell_ensemble_rt.py in binary64

    The strings, the sets and the pair keys are those of [CellEnsembleRT];
    times, strengths and weights are floats.  A dictionary keyed by floats
    looks a key up with [==], so that [0.0] and [-0.0] are one key and a NaN
    is found by no look-up.  (Python finds a NaN key through the identity of
    the object, which the model does not have; [activate_step] looks up only
    the instants of its window, and these are numbers.) *)

Module CellEnsembleRT64.

Abbreviation Time := float (only parsing).
Abbreviation UnitKey := CellEnsembleRT.UnitKey (only parsing).
Abbreviation PairKey := CellEnsembleRT.PairKey (only parsing).
Abbreviation pair_eqb := CellEnsembleRT.pair_eqb (only parsing).
Abbreviation pair_key := CellEnsembleRT.pair_key (only parsing).

Record t : Type := mk {
  name : string;
  units : list UnitKey;
  context_tags : list string;
  registry : option (UnitKey -> UnitKey -> float);
  _scheduled : list (Time * list (UnitKey * float));
  weights : list (PairKey * float);
  eta_hebb : float;
  decay : float;
  max_weight : float;
  _t : float;
  _dt : float;
  _active_last_step : list UnitKey
}.

(** [CellEnsembleRT(name)] with every other field at its default. *)
Definition new (nm : string) : t :=
  {| name := nm; units := []; context_tags := []; registry := None;
     _scheduled := []; weights := [];
     eta_hebb := 0.02; decay := 0.999; max_weight := 1.0;
     _t := 0.0; _dt := 0.01; _active_last_step := [] |}.

Definition set_units (s : t) (u : list UnitKey) : t :=
  {| name := name s; units := u; context_tags := context_tags s;
     registry := registry s; _scheduled := _scheduled s; weights := weights s;
     eta_hebb := eta_hebb s; decay := decay s; max_weight := max_weight s;
     _t := _t s; _dt := _dt s; _active_last_step := _active_last_step s |}.

Definition set_scheduled (s : t) (sc : list (Time * list (UnitKey * float))) : t :=
  {| name := name s; units := units s; context_tags := context_tags s;
     registry := registry s; _scheduled := sc; weights := weights s;
     eta_hebb := eta_hebb s; decay := decay s; max_weight := max_weight s;
     _t := _t s; _dt := _dt s; _active_last_step := _active_last_step s |}.

Definition set_weights (s : t) (w : list (PairKey * float)) : t :=
  {| name := name s; units := units s; context_tags := context_tags s;
     registry := registry s; _scheduled := _scheduled s; weights := w;
     eta_hebb := eta_hebb s; decay := decay s; max_weight := max_weight s;
     _t := _t s; _dt := _dt s; _active_last_step := _active_last_step s |}.

(** [schedule_spike]: [s = max(0.0, min(1.0, strength))], then
    [setdefault(float(t), []).append((key, s))]. *)
Definition schedule_spike (s : t) (tm : Time) (key : UnitKey) (strength : float) : t :=
  let s1 := if PySet.mem key (units s) then s else set_units s (PySet.add (units s) key) in
  let st := F64.max 0.0 (F64.min 1.0 strength) in
  let events := PyDict.get_default PrimFloat.eqb (_scheduled s1) tm [] in
  set_scheduled s1 (PyDict.set PrimFloat.eqb (_scheduled s1) tm (events ++ [(key, st)])).

(** [_hebb_increment] *)
Definition _hebb_increment (s : t) (a b : UnitKey) : float :=
  let base := eta_hebb s in
  match registry s with
  | Some cosine =>
      let sim := F64.max 0.0 (cosine a b) in
      (base * (0.5 + 0.5 * sim))%float
  | None => base
  end.

(** The test [t0 < ts <= t1] of [activate_step]. *)
Definition due (t0 t1 ts : float) : bool := (t0 <? ts)%float && (ts <=? t1)%float.

(** [for k, s in events: fired_now.add(k)] *)
Definition fire_events (fired_now : list UnitKey) (events : list (UnitKey * float))
  : list UnitKey :=
  fold_left (fun f '(k, _) => PySet.add f k) events fired_now.

(** Body of the first loop of [activate_step]. *)
Definition collect_step (t0 t1 : float) (acc : list UnitKey * list Time)
  (entry : Time * list (UnitKey * float)) : list UnitKey * list Time :=
  let '(fired_now, to_delete) := acc in
  let '(ts, events) := entry in
  if due t0 t1 ts
  then (fire_events fired_now events, to_delete ++ [ts])
  else (fired_now, to_delete).

(** First loop of [activate_step]: collect the fired keys and the
    timestamps to delete. *)
Definition collect_fired (t0 t1 : float) (sched : list (Time * list (UnitKey * float)))
  : list UnitKey * list Time :=
  fold_left (collect_step t0 t1) sched ([], []).

(** [for ts in to_delete: del self._scheduled[ts]] *)
Fixpoint delete_all (sched : list (Time * list (UnitKey * float))) (to_delete : list Time)
  : Result (list (Time * list (UnitKey * float))) :=
  match to_delete with
  | [] => Ok sched
  | ts :: rest =>
      match PyDict.del PrimFloat.eqb sched ts with
      | Some sched' => delete_all sched' rest
      | None => Raise KeyError
      end
  end.

(** One iteration of the decay loop:
    [self.weights[k] *= self.decay; if abs(self.weights[k]) < 1e-6: del ...]. *)
Definition decay_one (dk : float) (w : list (PairKey * float)) (k : PairKey)
  : Result (list (PairKey * float)) :=
  rbind (PyDict.index pair_eqb w k) (fun old =>
  let w1 := PyDict.set pair_eqb w k (old * dk)%float in
  rbind (PyDict.index pair_eqb w1 k) (fun cur =>
  if (abs cur <? 1e-6)%float
  then match PyDict.del pair_eqb w1 k with
       | Some w2 => Ok w2
       | None => Raise KeyError
       end
  else Ok w1)).

Fixpoint decay_loop (dk : float) (w : list (PairKey * float)) (ks : list PairKey)
  : Result (list (PairKey * float)) :=
  match ks with
  | [] => Ok w
  | k :: rest => rbind (decay_one dk w k) (fun w' => decay_loop dk w' rest)
  end.

(** [if self.weights: for k in list(self.weights.keys()): ...] *)
Definition decay_weights (dk : float) (w : list (PairKey * float))
  : Result (list (PairKey * float)) :=
  match w with
  | [] => Ok w
  | _ => decay_loop dk w (PyDict.keys w)
  end.

(** What the decay loop amounts to on a dictionary without repeated keys:
    every weight is scaled, and the entries that became small are dropped. *)
Fixpoint decayed (dk : float) (w : list (PairKey * float)) : list (PairKey * float) :=
  match w with
  | [] => []
  | (k, x) :: r =>
      if (abs (x * dk) <? 1e-6)%float
      then decayed dk r
      else (k, (x * dk)%float) :: decayed dk r
  end.

(** Body of the inner Hebbian loop:
    [w = self.weights.get(key, 0.0) + self._hebb_increment(a, b)], then
    [self.weights[key] = min(w, self.max_weight)]. *)
Definition hebb_pair (s : t) (w : list (PairKey * float)) (a b : UnitKey)
  : list (PairKey * float) :=
  let key := pair_key a b in
  let x := (PyDict.get_default pair_eqb w key 0.0 + _hebb_increment s a b)%float in
  PyDict.set pair_eqb w key (F64.min x (max_weight s)).

(** [for i in range(len(fl)): for j in range(i + 1, len(fl)): ...] *)
Fixpoint hebb_loop (s : t) (fl : list UnitKey) (w : list (PairKey * float))
  : list (PairKey * float) :=
  match fl with
  | [] => w
  | a :: rest => hebb_loop s rest (fold_left (fun acc b => hebb_pair s acc a b) rest w)
  end.

(** The weight of [key] is present and is not above [max_weight]; it is at
    most [max_weight] when the two are numbers. *)
Definition capped (s : t) (w : list (PairKey * float)) (key : PairKey) : Prop :=
  exists x, PyDict.get pair_eqb w key = Some x /\
            (max_weight s <? x)%float = false /\
            (F64.is_number x -> F64.is_number (max_weight s) ->
             (x <=? max_weight s)%float = true).

(** [activate_step(dt)]; [None] is the default argument. *)
Definition activate_step (s : t) (dt : option float) : Result (t * list UnitKey) :=
  let dt := match dt with Some d => d | None => _dt s end in
  let t0 := _t s in
  let t1 := (_t s + dt)%float in
  let '(fired_now, to_delete) := collect_fired t0 t1 (_scheduled s) in
  rbind (delete_all (_scheduled s) to_delete) (fun sched' =>
  rbind (decay_weights (decay s) (weights s)) (fun w1 =>
  let w2 := match fired_now with
            | [] => w1
            | _ => hebb_loop s fired_now w1
            end in
  Ok ({| name := name s; units := units s; context_tags := context_tags s;
         registry := registry s; _scheduled := sched'; weights := w2;
         eta_hebb := eta_hebb s; decay := decay s; max_weight := max_weight s;
         _t := t1; _dt := _dt s; _active_last_step := fired_now |},
      fired_now))).

(** The state of an instance after [activate_step(dt)]; the instance itself
    when the call raised. *)
Definition after_step (s : t) (dt : option float) : t :=
  match activate_step s dt with
  | Ok (s', _) => s'
  | Raise _ => s
  end.

(** Spikes for ["x"] at 0.05 and 0.15 on a fresh instance. *)
Definition two_spikes : t :=
  schedule_spike (schedule_spike (new "rt"%string) 0.05 "x"%string 1.0)
                 0.15 "x"%string 1.0.

(** A spike for ["x"] at 0.8 on a fresh instance. *)
Definition spike_at_08 : t := schedule_spike (new "rt"%string) 0.8 "x"%string 1.0.

(** A weight seeded at 2e-6, with decay 0.4. *)
Definition seeded : t :=
  set_weights
    {| name := "rt"%string; units := []; context_tags := []; registry := None;
       _scheduled := []; weights := [];
       eta_hebb := 0.02; decay := 0.4; max_weight := 1.0;
       _t := 0.0; _dt := 0.01; _active_last_step := [] |}
    [(("a"%string, "b"%string), 2e-6%float)].

(** A weight seeded at 3e-6, with decay 0.3333333333333333: the product
    rounds to the float 1e-6. *)
Definition seeded_at_threshold : t :=
  set_weights
    {| name := "rt"%string; units := []; context_tags := []; registry := None;
       _scheduled := []; weights := [];
       eta_hebb := 0.02; decay := 0.3333333333333333; max_weight := 1.0;
       _t := 0.0; _dt := 0.01; _active_last_step := [] |}
    [(("a"%string, "b"%string), 3e-6%float)].

End CellEnsembleRT64.

(** ** Host functions on floats

    The library functions whose results the binary64 modules take as given.
    [sum] adds the floats of a non-empty sequence from left to right up to
    Python 3.11 and with a compensated summation from Python 3.12 on. *)

Record Host64 : Type := mkHost64 {
  fsum : list float -> float;   (* sum(xs), xs not empty *)
  fround4 : float -> float      (* round(x, 4) *)
}.

(** A host for running the examples: [sum] adds from left to right,
    starting from 0; [round4] is a stand-in, no example looks at what it
    returns. *)
Definition example_host64 : Host64 :=
  {| fsum := fun xs => fold_left PrimFloat.add xs 0.0%float;
     fround4 := fun x => x |}.

(** ** concepts/feature_ensemble.py in binary64 *)

Module FeatureEnsemble64.

Record t : Type := mk {
  name : string;
  modality : string;
  vector : list float;
  description : string;
  activation : float;
  ensemble_id : UUID;
  links : list (UUID * float)
}.

(** [FeatureEnsemble(name, modality, vector, description)]; [fresh] is the
    identity drawn by [uuid.uuid4] for the new object. *)
Definition new (fresh : UUID) (nm md : string) (vec : list float) (descr : string) : t :=
  {| name := nm; modality := md; vector := vec; description := descr;
     activation := 0.0; ensemble_id := fresh; links := [] |}.

Definition set_activation (e : t) (x : float) : t :=
  {| name := name e; modality := modality e; vector := vector e;
     description := description e; activation := x;
     ensemble_id := ensemble_id e; links := links e |}.

Definition set_links (e : t) (l : list (UUID * float)) : t :=
  {| name := name e; modality := modality e; vector := vector e;
     description := description e; activation := activation e;
     ensemble_id := ensemble_id e; links := l |}.

(** [sum(xs)]: the integer 0 when there is nothing to add. *)
Definition py_sum (H : Host64) (xs : list float) : float :=
  match xs with
  | [] => 0.0%float
  | _ => fsum H xs
  end.

(** [x / y] raises [ZeroDivisionError] when [y == 0.0]. *)
Definition py_div (x y : float) : Result float :=
  if (y =? 0.0)%float then Raise ZeroDivisionError else Ok (x / y)%float.

(** [_cosine] *)
Definition _cosine (H : Host64) (a b : list float) : Result float :=
  match a, b with
  | [], _ => Ok 0.0%float
  | _, [] => Ok 0.0%float
  | _, _ =>
      if negb (Nat.eqb (List.length a) (List.length b)) then Ok 0.0%float
      else
        let dot := py_sum H (map (fun '(x, y) => (x * y)%float) (combine a b)) in
        let na := PrimFloat.sqrt (py_sum H (map (fun x => (x * x)%float) a)) in
        let nb := PrimFloat.sqrt (py_sum H (map (fun y => (y * y)%float) b)) in
        if (na =? 0.0)%float || (nb =? 0.0)%float then Ok 0.0%float
        else py_div dot (na * nb)%float
  end.

(** [similarity] *)
Definition similarity (H : Host64) (e : t) (cue_vector : list float) : Result float :=
  _cosine H (vector e) cue_vector.

End FeatureEnsemble64.

(** ** concepts/concept.py in binary64 *)

Module Concept64.

Abbreviation Metadata := Concept.Metadata (only parsing).

Record t : Type := mk {
  concept_id : UUID;
  name : string;
  description : string;
  metadata : Metadata;
  ensembles_by_id : list (UUID * FeatureEnsemble64.t);
  ensembles_by_name : list (string * UUID);
  relationships : list RelationshipEdge;
  inhibition_gain : float;
  activation_threshold : float
}.

(** [Concept(name, description, metadata, inhibition_gain,
    activation_threshold)]; [fresh] is the identity drawn by [uuid.uuid4]. *)
Definition new (fresh : UUID) (nm descr : string) (md : option Metadata)
  (gain thr : float) : t :=
  {| concept_id := fresh; name := nm; description := descr;
     metadata := match md with
                 | Some (x :: r) => x :: r
                 | _ => [("version"%string, "3.0"%string)]
                 end;
     ensembles_by_id := []; ensembles_by_name := []; relationships := [];
     inhibition_gain := gain; activation_threshold := thr |}.

Definition set_by_id (c : t) (d : list (UUID * FeatureEnsemble64.t)) : t :=
  {| concept_id := concept_id c; name := name c; description := description c;
     metadata := metadata c; ensembles_by_id := d;
     ensembles_by_name := ensembles_by_name c; relationships := relationships c;
     inhibition_gain := inhibition_gain c;
     activation_threshold := activation_threshold c |}.

Definition set_by_name (c : t) (d : list (string * UUID)) : t :=
  {| concept_id := concept_id c; name := name c; description := description c;
     metadata := metadata c; ensembles_by_id := ensembles_by_id c;
     ensembles_by_name := d; relationships := relationships c;
     inhibition_gain := inhibition_gain c;
     activation_threshold := activation_threshold c |}.

(** [add_ensemble] *)
Definition add_ensemble (c : t) (ensemble : FeatureEnsemble64.t) : t :=
  let c1 := set_by_id c (PyDict.set N.eqb (ensembles_by_id c)
                           (FeatureEnsemble64.ensemble_id ensemble) ensemble) in
  set_by_name c1 (PyDict.set String.eqb (ensembles_by_name c1)
                    (FeatureEnsemble64.name ensemble)
                    (FeatureEnsemble64.ensemble_id ensemble)).

(** [get_ensemble]; an identity object is always truthy. *)
Definition get_ensemble (c : t) (nm : string) : option FeatureEnsemble64.t :=
  match PyDict.get String.eqb (ensembles_by_name c) nm with
  | Some e_id => PyDict.get N.eqb (ensembles_by_id c) e_id
  | None => None
  end.

(** A change made to the ensemble object stored under [e_id]. *)
Definition update_ensemble (c : t) (e_id : UUID)
  (f : FeatureEnsemble64.t -> FeatureEnsemble64.t) : t :=
  match PyDict.get N.eqb (ensembles_by_id c) e_id with
  | Some e => set_by_id c (PyDict.set N.eqb (ensembles_by_id c) e_id (f e))
  | None => c
  end.

(** A change made to every ensemble object of the concept, in the order of
    [ensembles_by_id.values()]. *)
Definition map_ensembles (c : t) (f : FeatureEnsemble64.t -> FeatureEnsemble64.t) : t :=
  set_by_id c (map (fun '(k, e) => (k, f e)) (ensembles_by_id c)).

(** [total = sum(max(0.0, e.activation) for e in ...)] *)
Definition total_activation (H : Host64) (c : t) : float :=
  FeatureEnsemble64.py_sum H
    (map (fun e => F64.max 0.0 (FeatureEnsemble64.activation e))
         (PyDict.values (ensembles_by_id c))).

(** [denom = 1.0 + self.inhibition_gain * total] *)
Definition denominator (H : Host64) (c : t) : float :=
  (1.0 + inhibition_gain c * total_activation H c)%float.

(** [_lateral_inhibition]; the division by [denom] is not guarded, and
    raises at the first ensemble when [denom == 0.0]. *)
Definition _lateral_inhibition (H : Host64) (c : t) : t * Result unit :=
  if (total_activation H c <=? 1e-9)%float then (c, Ok tt)
  else
    match ensembles_by_id c with
    | [] => (c, Ok tt)
    | _ =>
        if (denominator H c =? 0.0)%float then (c, Raise ZeroDivisionError)
        else (map_ensembles c (fun e =>
                FeatureEnsemble64.set_activation e
                  (FeatureEnsemble64.activation e / denominator H c)%float),
              Ok tt)
    end.

(** Stage 1 of [stimulate]: direct activation from the cues,
    [ens.activation += gain * ens.similarity(vec)] for each cue that names
    an ensemble. *)
Fixpoint direct_activation (H : Host64) (c : t) (cues : list (string * list float))
  (gain : float) : t * Result unit :=
  match cues with
  | [] => (c, Ok tt)
  | (nm, vec) :: rest =>
      match PyDict.get String.eqb (ensembles_by_name c) nm with
      | Some e_id =>
          match PyDict.get N.eqb (ensembles_by_id c) e_id with
          | Some ens =>
              match FeatureEnsemble64.similarity H ens vec with
              | Ok sim =>
                  direct_activation H
                    (update_ensemble c e_id (fun ens =>
                       FeatureEnsemble64.set_activation ens
                         (FeatureEnsemble64.activation ens + gain * sim)%float))
                    rest gain
              | Raise e => (c, Raise e)
              end
          | None => direct_activation H c rest gain
          end
      | None => direct_activation H c rest gain
      end
  end.

(** Inner loop of stage 2: [delta[t_id] = delta.get(t_id, 0.0) + s.activation * w]. *)
Definition add_deltas (act : float) (lnk : list (UUID * float)) (delta : list (UUID * float))
  : list (UUID * float) :=
  fold_left
    (fun d '(t_id, w) =>
       PyDict.set N.eqb d t_id (PyDict.get_default N.eqb d t_id 0.0 + act * w)%float)
    lnk delta.

(** First two loops of stage 2: the table of deltas. *)
Definition spread_delta (c : t) : list (UUID * float) :=
  fold_left
    (fun delta '(_, s) =>
       if (FeatureEnsemble64.activation s <=? 0.0)%float then delta
       else add_deltas (FeatureEnsemble64.activation s) (FeatureEnsemble64.links s) delta)
    (ensembles_by_id c)
    (map (fun '(eid, _) => (eid, 0.0%float)) (ensembles_by_id c)).

(** Last loop of stage 2:
    [for t_id, d in delta.items(): self.ensembles_by_id[t_id].activation += d].
    The entries changed before a [KeyError] stay changed. *)
Fixpoint apply_delta (by_id : list (UUID * FeatureEnsemble64.t))
  (items : list (UUID * float)) : list (UUID * FeatureEnsemble64.t) * Result unit :=
  match items with
  | [] => (by_id, Ok tt)
  | (t_id, d) :: rest =>
      match PyDict.get N.eqb by_id t_id with
      | Some e =>
          apply_delta
            (PyDict.set N.eqb by_id t_id
               (FeatureEnsemble64.set_activation e
                  (FeatureEnsemble64.activation e + d)%float))
            rest
      | None => (by_id, Raise KeyError)
      end
  end.

(** Stage 2 of [stimulate]: one-hop spread. *)
Definition spread (c : t) : t * Result unit :=
  let '(by_id, r) := apply_delta (ensembles_by_id c) (spread_delta c) in
  (set_by_id c by_id, r).

(** The dict returned by [stimulate]. *)
Definition snapshot (H : Host64) (c : t) : list (string * float) :=
  fold_left
    (fun d ens => PyDict.set String.eqb d (FeatureEnsemble64.name ens)
                    (fround4 H (FeatureEnsemble64.activation ens)))
    (PyDict.values (ensembles_by_id c)) [].

(** [stimulate]: the concept as the call leaves it, and what the call returns
    or raises. *)
Definition stimulate (H : Host64) (c : t)
  (cues : list (string * list float)) (gain : float)
  : t * Result (list (string * float)) :=
  match direct_activation H c cues gain with
  | (c1, Raise e) => (c1, Raise e)
  | (c1, Ok _) =>
      match spread c1 with
      | (c2, Raise e) => (c2, Raise e)
      | (c2, Ok _) =>
          match _lateral_inhibition H c2 with
          | (c3, Raise e) => (c3, Raise e)
          | (c3, Ok _) => (c3, Ok (snapshot H c3))
          end
      end
  end.

(** *** Notions used to state the properties of a concept *)

(** The dictionaries of a concept are dictionaries: no identity occurs twice
    in the identity map, no target twice in the links of an ensemble. *)
Definition wf (c : t) : bool :=
  PyDict.uniq N.eqb (ensembles_by_id c)
  && forallb (fun '(_, e) => PyDict.uniq N.eqb (FeatureEnsemble64.links e))
             (ensembles_by_id c).

(** What the first two loops of the spread stage add to the delta of
    [t_id] when they visit the source [s]: nothing when the test
    [activation <= 0.0] skips [s] or [s] has no link to [t_id]. *)
Definition add_inflow (t_id : UUID) (acc : float) (s : FeatureEnsemble64.t) : float :=
  if (FeatureEnsemble64.activation s <=? 0.0)%float then acc
  else match PyDict.get N.eqb (FeatureEnsemble64.links s) t_id with
       | Some w => (acc + FeatureEnsemble64.activation s * w)%float
       | None => acc
       end.

(** The delta of [t_id]: the contributions of the sources, added one after
    the other to 0.0 in the order of the identity map. *)
Definition inflow (by_id : list (UUID * FeatureEnsemble64.t)) (t_id : UUID) : float :=
  fold_left (add_inflow t_id) (PyDict.values by_id) 0.0%float.

(** The identity map with the delta of each entry added to its activation. *)
Definition bump (by_id : list (UUID * FeatureEnsemble64.t)) (delta : list (UUID * float))
  : list (UUID * FeatureEnsemble64.t) :=
  map (fun '((k, e), (_, d)) =>
         (k, FeatureEnsemble64.set_activation e (FeatureEnsemble64.activation e + d)%float))
      (combine by_id delta).

(** The table of deltas starts with one entry per ensemble, in the order of
    the identity map; the targets that are no ensemble follow. *)
Definition starts_with (ks : list UUID) (delta : list (UUID * float)) : Prop :=
  NoDup (PyDict.keys delta) /\
  exists d1 d2, delta = d1 ++ d2 /\ PyDict.keys d1 = ks.

(** *** Examples *)

Definition ens (i : UUID) (nm : string) (act : float) (l : list (UUID * float))
  : FeatureEnsemble64.t :=
  FeatureEnsemble64.set_links
    (FeatureEnsemble64.set_activation
       (FeatureEnsemble64.new i nm "feature"%string [] EmptyString) act) l.

Definition blank (i : UUID) (nm : string) (gain : float) : t :=
  new i nm EmptyString None gain 0.15.

(** Three sources linked to ["target"]: ["big"] sends 1e16, ["small"] sends
    1, ["minus"] sends -1e16.  The two concepts hold the same four
    ensembles; they differ in the order in which ["small"] and ["minus"]
    were added. *)
Definition big : FeatureEnsemble64.t := ens 1 "big"%string 1e16 [(9%N, 1.0%float)].
Definition small : FeatureEnsemble64.t := ens 2 "small"%string 1.0 [(9%N, 1.0%float)].
Definition minus : FeatureEnsemble64.t := ens 3 "minus"%string 1e16 [(9%N, (-1.0)%float)].
Definition target : FeatureEnsemble64.t := ens 9 "target"%string 0.0 [].

Definition small_first : t :=
  add_ensemble (add_ensemble (add_ensemble (add_ensemble
    (blank 10 "A"%string 0.25) big) small) minus) target.

Definition minus_first : t :=
  add_ensemble (add_ensemble (add_ensemble (add_ensemble
    (blank 10 "A"%string 0.25) big) minus) small) target.

(** Three ensembles at 1.0 and an inhibition gain of -0.3333333333333333:
    [1.0 + gain * 3.0] is 0.0 in binary64. *)
Definition third_gain : t :=
  add_ensemble (add_ensemble (add_ensemble
    (blank 10 "A"%string (-0.3333333333333333))
    (ens 1 "a"%string 1.0 [])) (ens 2 "b"%string 1.0 [])) (ens 3 "c"%string 1.0 []).

End Concept64.

(** ** concepts/concept_decoder.py

    The threshold decoder, in binary64: whether a label is returned depends
    on the side of the threshold its rounded score falls on. *)

Module ConceptDecoder.

(** [PopulationThresholdDecoder] *)
Record PopulationThresholdDecoder : Type := mkPopulationThresholdDecoder {
  label_to_ensembles : list (string * list string);
  threshold : float
}.

(** [float(n)] of the length of a list (which is below 2^63). *)
Definition of_nat (n : nat) : float := PrimFloat.of_uint63 (Uint63.of_Z (Z.of_nat n)).

(** [s = 0.0; for n in names: e = concept.get_ensemble(n); if e: s += e.activation] *)
Definition total (c : Concept64.t) (names : list string) : float :=
  fold_left
    (fun s n =>
       match Concept64.get_ensemble c n with
       | Some e => (s + FeatureEnsemble64.activation e)%float
       | None => s
       end)
    names 0.0%float.

(** [score = s / max(1, len(names))]; the divisor is at least 1. *)
Definition score (c : Concept64.t) (names : list string) : float :=
  (total c names / of_nat (Nat.max 1 (List.length names)))%float.

(** Body of the loop of [decode]; [score >= self.threshold] is the test. *)
Definition decode_step (d : PopulationThresholdDecoder) (c : Concept64.t)
  (results : list (string * float)) (entry : string * list string)
  : list (string * float) :=
  let '(label, names) := entry in
  match names with
  | [] => results
  | _ =>
      let sc := score c names in
      if (threshold d <=? sc)%float then results ++ [(label, sc)] else results
  end.

(** [results.sort(key=lambda x: x[1], reverse=True)]: a stable sort, largest
    value first; entries with equal values keep their order. *)
Fixpoint insert_desc (x : string * float) (l : list (string * float))
  : list (string * float) :=
  match l with
  | [] => [x]
  | y :: r => if (snd y <=? snd x)%float then x :: l else y :: insert_desc x r
  end.

Definition sort_desc (l : list (string * float)) : list (string * float) :=
  fold_right insert_desc [] l.

(** [PopulationThresholdDecoder.decode] *)
Definition decode (d : PopulationThresholdDecoder) (c : Concept64.t)
  : list (string * float) :=
  sort_desc (fold_left (decode_step d c) (label_to_ensembles d) []).

(** ["shape"] at 1.0 and ["color"] at 0.5. *)
Definition both_active : Concept64.t :=
  Concept64.add_ensemble
    (Concept64.add_ensemble (Concept64.blank 10 "A"%string 0.25)
       (Concept64.ens 1 "shape"%string 1.0 []))
    (Concept64.ens 2 "color"%string 0.5 []).

(** A decoder with two labels over the ensembles of [both_active]. *)
Definition shape_or_color : PopulationThresholdDecoder :=
  {| label_to_ensembles := [("colored"%string, ["color"%string]);
                            ("shaped"%string, ["shape"%string; "edges"%string]);
                            ("empty"%string, [])];
     threshold := 0.25 |}.

(** ["a"] at 0.1 and ["b"] at 0.2, and a decoder whose threshold is the
    float next above 0.15. *)
Definition tenth_and_fifth : Concept64.t :=
  Concept64.add_ensemble
    (Concept64.add_ensemble (Concept64.blank 10 "A"%string 0.25)
       (Concept64.ens 1 "a"%string 0.1 []))
    (Concept64.ens 2 "b"%string 0.2 []).

Definition just_above : PopulationThresholdDecoder :=
  {| label_to_ensembles := [("both"%string, ["a"%string; "b"%string])];
     threshold := 0.15000000000000002 |}.

End ConceptDecoder.

(** ** oscillation.py

    In binary64: the clock of the loop is a running float sum of the theta
    period, and the number of passes depends on what that sum is rounded
    to.  The loop need not end, so the model counts its tests with a fuel. *)

Module Oscillation.

(** [float(n)] of an integer [n] with [0 <= n < 2^63]. *)
Definition of_int (n : Z) : float := PrimFloat.of_uint63 (Uint63.of_Z n).

(** The gamma packets of the theta cycle that starts at [t]:
    [for i in range(gamma_per_theta): phases.append(t + (i + 1) * gamma_dt)]. *)
Definition packets (t gamma_dt : float) (gamma_per_theta : Z) : list float :=
  map (fun i => (t + of_int (Z.of_nat i + 1) * gamma_dt)%float)
      (seq 0 (Z.to_nat gamma_per_theta)).

(** The loop [while t < total_time]; [None] when [fuel] tests of the
    condition did not reach its end. *)
Fixpoint phase_loop (fuel : nat) (total_time theta_period : float) (gamma_per_theta : Z)
  (t : float) (phases : list float) : option (list float) :=
  match fuel with
  | O => None
  | S fuel' =>
      if (t <? total_time)%float
      then
        let gamma_dt := (theta_period / of_int gamma_per_theta)%float in
        phase_loop fuel' total_time theta_period gamma_per_theta (t + theta_period)%float
                   (phases ++ packets t gamma_dt gamma_per_theta)
      else Some phases
  end.

(** [phase_sequence] *)
Definition phase_sequence (fuel : nat) (total_time theta_hz : float) (gamma_per_theta : Z)
  : option (list float) :=
  if (theta_hz <=? 0.0)%float || (gamma_per_theta <=? 0)%Z || (total_time <=? 0.0)%float
  then Some []
  else phase_loop fuel total_time (1.0 / theta_hz)%float gamma_per_theta 0.0%float [].

(** The clock at the start of pass [k]: [k] additions of the period to 0.0,
    one after the other. *)
Definition clock (theta_period : float) (k : nat) : float :=
  Nat.iter k (fun t => (t + theta_period)%float) 0.0%float.

(** What [n] passes append: the packets of the cycles that start at
    [clock 0], ..., [clock (n - 1)]. *)
Definition passes (theta_period : float) (gamma_per_theta : Z) (n : nat) : list float :=
  flat_map (fun k => packets (clock theta_period k)
                             (theta_period / of_int gamma_per_theta)%float gamma_per_theta)
           (seq 0 n).

End Oscillation.

(* ================================================================== *)
(** * Part II: properties                                               *)
(* ================================================================== *)

(** Rational arithmetic is kept folded by [simpl]. *)
#[local] Arguments Qplus : simpl never.
#[local] Arguments Qmult : simpl never.
#[local] Arguments Qabs : simpl never.
#[local] Arguments Qmin : simpl never.
#[local] Arguments Qmax : simpl never.
#[local] Arguments Qle_bool : simpl never.
#[local] Arguments Qeq_bool : simpl never.
#[local] Arguments Qlt_bool : simpl never.

(** ** Lists *)

Lemma NoDup_app_disjoint {A : Type} (l l' : list A) :
  NoDup (l ++ l') -> forall a, In a l -> In a l' -> False.
Proof.
  induction l as [|x l IH]; simpl; [tauto|]. intros Hnd a [->|Ha] Ha'.
  - apply NoDup_cons_iff in Hnd as [Hni _]. apply Hni, in_or_app. now right.
  - apply NoDup_cons_iff in Hnd as [_ Hnd]. eauto.
Qed.

(** ** Dictionaries *)

Module PyDictFacts.
Import PyDict.

Section Generic.
Context {K V : Type}.
Variable keq : K -> K -> bool.
Hypothesis keq_refl : forall k, keq k k = true.

Lemma contains_app_l (p r : list (K * V)) k :
  contains keq p k = true -> contains keq (p ++ r) k = contains keq p k.
Proof.
  unfold contains. induction p as [|[k' v'] p IH]; simpl; [discriminate|].
  destruct (keq k' k); auto.
Qed.

Lemma get_app_l (p r : list (K * V)) k :
  contains keq p k = true -> get keq (p ++ r) k = get keq p k.
Proof.
  unfold contains. induction p as [|[k' v'] p IH]; simpl; [discriminate|].
  destruct (keq k' k); auto.
Qed.

Lemma set_app_l (p r : list (K * V)) k v :
  contains keq p k = true -> set keq (p ++ r) k v = set keq p k v ++ r.
Proof.
  unfold contains. induction p as [|[k' v'] p IH]; simpl; [discriminate|].
  destruct (keq k' k); auto. intros H. now rewrite IH.
Qed.

Lemma contains_set (p : list (K * V)) k v : contains keq (set keq p k v) k = true.
Proof.
  unfold contains. induction p as [|[k' v'] p IH]; simpl.
  - now rewrite keq_refl.
  - destruct (keq k' k) eqn:E; simpl; rewrite E; auto.
Qed.

Lemma del_app_l (p r : list (K * V)) k :
  contains keq p k = true ->
  exists p', del keq p k = Some p' /\ del keq (p ++ r) k = Some (p' ++ r).
Proof.
  unfold contains. induction p as [|[k' v'] p IH]; simpl; [discriminate|].
  destruct (keq k' k); [eauto|]. intros H. destruct (IH H) as (p' & -> & ->).
  eauto.
Qed.

Lemma contains_snoc (p : list (K * V)) k v : contains keq (p ++ [(k, v)]) k = true.
Proof.
  unfold contains. induction p as [|[k' v'] p IH]; simpl.
  - now rewrite keq_refl.
  - destruct (keq k' k); auto.
Qed.

End Generic.

(** Facts that need the key equality to decide Leibniz equality. *)
Section Leibniz.
Context {K V : Type}.
Variable keq : K -> K -> bool.
Hypothesis keq_spec : forall x y, keq x y = true <-> x = y.

Lemma keq_true k : keq k k = true.
Proof. now apply keq_spec. Qed.

Lemma keq_false x y : x <> y -> keq x y = false.
Proof.
  intros H. destruct (keq x y) eqn:E; auto. apply keq_spec in E. contradiction.
Qed.

Lemma get_In (d : list (K * V)) k v : get keq d k = Some v -> In (k, v) d.
Proof.
  induction d as [|[k' v'] d IH]; simpl; [discriminate|].
  destruct (keq k' k) eqn:E.
  - apply keq_spec in E. intros [= ->]. subst. now left.
  - auto.
Qed.

Lemma get_None (d : list (K * V)) k : get keq d k = None <-> ~ In k (keys d).
Proof.
  induction d as [|[k' v'] d IH]; simpl; [tauto|].
  destruct (keq k' k) eqn:E.
  - apply keq_spec in E. split; [discriminate|]. intros H. exfalso. apply H. now left.
  - rewrite IH. split; [|tauto]. intros H [H1|H1]; [|tauto].
    apply keq_spec in H1. congruence.
Qed.

Lemma contains_In (d : list (K * V)) k : contains keq d k = true <-> In k (keys d).
Proof.
  unfold contains. destruct (get keq d k) eqn:E.
  - split; auto. intros _. apply get_In in E. apply (in_map fst) in E. exact E.
  - apply get_None in E. split; [discriminate|tauto].
Qed.

Lemma uniq_NoDup (d : list (K * V)) : uniq keq d = true <-> NoDup (keys d).
Proof.
  induction d as [|[k v] d IH]; simpl.
  - split; auto. constructor.
  - rewrite andb_true_iff, negb_true_iff, IH, NoDup_cons_iff.
    rewrite <- (contains_In d k). destruct (contains keq d k); intuition congruence.
Qed.

Lemma In_get (d : list (K * V)) k v : NoDup (keys d) -> In (k, v) d -> get keq d k = Some v.
Proof.
  induction d as [|[k' v'] d IH]; simpl; [tauto|].
  intros Hnd [H|H].
  - inversion H; subst. now rewrite keq_true.
  - apply NoDup_cons_iff in Hnd as [Hni Hnd].
    destruct (keq k' k) eqn:E.
    + apply keq_spec in E. subst. exfalso. apply Hni.
      apply (in_map fst) in H. exact H.
    + auto.
Qed.

Lemma get_set_eq (d : list (K * V)) k v : get keq (set keq d k v) k = Some v.
Proof.
  induction d as [|[k' v'] d IH]; simpl.
  - now rewrite keq_true.
  - destruct (keq k' k) eqn:E; simpl; rewrite E; auto.
Qed.

Lemma get_set_ne (d : list (K * V)) k k' v :
  k <> k' -> get keq (set keq d k v) k' = get keq d k'.
Proof.
  intros Hne. induction d as [|[k0 v0] d IH]; simpl.
  - now rewrite keq_false.
  - destruct (keq k0 k) eqn:E; simpl.
    + apply keq_spec in E. subst. now rewrite keq_false.
    + now rewrite IH.
Qed.

Lemma keys_set (d : list (K * V)) k v :
  keys (set keq d k v) = if contains keq d k then keys d else keys d ++ [k].
Proof.
  unfold contains. induction d as [|[k0 v0] d IH]; simpl; auto.
  destruct (keq k0 k) eqn:E; simpl.
  - apply keq_spec in E. now subst.
  - rewrite IH. now destruct (get keq d k).
Qed.

Lemma In_keys_set (d : list (K * V)) k v x :
  In x (keys (set keq d k v)) <-> In x (keys d) \/ x = k.
Proof.
  rewrite keys_set. destruct (contains keq d k) eqn:E.
  - apply contains_In in E. split; [tauto|]. intros [H| ->]; auto.
  - rewrite in_app_iff. simpl. intuition.
Qed.

Lemma NoDup_keys_set (d : list (K * V)) k v :
  NoDup (keys d) -> NoDup (keys (set keq d k v)).
Proof.
  intros H. rewrite keys_set. destruct (contains keq d k) eqn:E; auto.
  apply NoDup_app; auto.
  - repeat constructor. simpl. tauto.
  - intros a Ha [<-|[]]. apply contains_In in Ha. congruence.
Qed.

Lemma del_In_keys (d d' : list (K * V)) k x :
  del keq d k = Some d' -> In x (keys d') -> In x (keys d).
Proof.
  revert d'. induction d as [|[k0 v0] d IH]; simpl; [discriminate|].
  intros d'. destruct (keq k0 k).
  - intros [= <-]. auto.
  - destruct (del keq d k); [|discriminate]. intros [= <-]. simpl.
    intros [H|H]; eauto.
Qed.

Lemma In_set (d : list (K * V)) k x e :
  In e (set keq d k x) -> In e d \/ snd e = x.
Proof.
  induction d as [|[k0 v0] d IH]; simpl.
  - intros [<-|[]]. now right.
  - destruct (keq k0 k); simpl.
    + intros [<-|Hin]; auto.
    + intros [<-|Hin]; auto. destruct (IH Hin); auto.
Qed.

Lemma get_app_r (pre r : list (K * V)) k :
  ~ In k (keys pre) -> get keq (pre ++ r) k = get keq r k.
Proof.
  induction pre as [|[k' v'] pre IH]; simpl; auto. intros H.
  rewrite keq_false by tauto. apply IH. tauto.
Qed.

Lemma set_app_r (pre r : list (K * V)) k v :
  ~ In k (keys pre) -> set keq (pre ++ r) k v = pre ++ set keq r k v.
Proof.
  induction pre as [|[k' v'] pre IH]; simpl; auto. intros H.
  rewrite keq_false by tauto. rewrite IH; tauto.
Qed.

Lemma del_app_r (pre r r' : list (K * V)) k :
  ~ In k (keys pre) -> del keq r k = Some r' ->
  del keq (pre ++ r) k = Some (pre ++ r').
Proof.
  induction pre as [|[k' v'] pre IH]; simpl; auto. intros H Hd.
  rewrite keq_false by tauto. rewrite IH; tauto.
Qed.

End Leibniz.

Section AnyKey.
Context {K V : Type}.
Variable keq : K -> K -> bool.

Lemma get_Some_In (d : list (K * V)) k v :
  get keq d k = Some v -> exists k0, In (k0, v) d /\ keq k0 k = true.
Proof.
  induction d as [|[x w] d IH]; simpl; [discriminate|].
  destruct (keq x k) eqn:E.
  - intros [= ->]. exists x. auto.
  - intros H. destruct (IH H) as (k0 & Hin & Hk). exists k0. auto.
Qed.

Lemma In_set_inv (d : list (K * V)) k v x e :
  In (x, e) (set keq d k v) -> In (x, e) d \/ e = v.
Proof.
  induction d as [|[y w] d IH]; simpl.
  - intros [[= _ <-]|[]]. now right.
  - destruct (keq y k); simpl.
    + intros [[= <- <-]|H]; auto.
    + intros [H|H]; auto. destruct (IH H); auto.
Qed.

Lemma contains_filter (f : K * V -> bool) (d : list (K * V)) k :
  contains keq (filter f d) k = true -> contains keq d k = true.
Proof.
  unfold contains. induction d as [|[y w] d IH]; simpl; auto.
  destruct (f (y, w)); simpl; destruct (keq y k); auto.
Qed.

Lemma uniq_filter (f : K * V -> bool) (d : list (K * V)) :
  uniq keq d = true -> uniq keq (filter f d) = true.
Proof.
  induction d as [|[y w] d IH]; simpl; auto.
  intros H. apply andb_true_iff in H as [H1 H2].
  destruct (f (y, w)); simpl; auto.
  rewrite IH by exact H2. rewrite andb_true_r.
  destruct (contains keq (filter f d) y) eqn:E; auto.
  apply contains_filter in E. rewrite E in H1. discriminate.
Qed.

End AnyKey.

(** Dictionaries whose key equality is an equivalence that is coarser than
    identity, as [==] on numbers is. *)
Section Equivalence.
Context {K V : Type}.
Variable keq : K -> K -> bool.
Hypothesis keq_refl : forall k, keq k k = true.
Hypothesis keq_sym : forall x y, keq x y = true -> keq y x = true.
Hypothesis keq_trans : forall x y z, keq x y = true -> keq y z = true -> keq x z = true.

Lemma keq_congr k k' x : keq k k' = true -> keq x k = keq x k'.
Proof.
  intros E. destruct (keq x k) eqn:E1, (keq x k') eqn:E2; auto.
  - rewrite (keq_trans _ _ _ E1 E) in E2. discriminate.
  - rewrite (keq_trans _ _ _ E2 (keq_sym _ _ E)) in E1. discriminate.
Qed.

Lemma get_congr (d : list (K * V)) k k' : keq k k' = true -> get keq d k = get keq d k'.
Proof.
  intros E. induction d as [|[x v] d IH]; simpl; auto.
  now rewrite (keq_congr k k' x E), IH.
Qed.

Lemma get_set_same (d : list (K * V)) k v : get keq (set keq d k v) k = Some v.
Proof.
  induction d as [|[x w] d IH]; simpl.
  - now rewrite keq_refl.
  - destruct (keq x k) eqn:E; simpl; now rewrite E.
Qed.

Lemma get_set_other (d : list (K * V)) k k' v :
  keq k k' = false -> get keq (set keq d k v) k' = get keq d k'.
Proof.
  intros Hne. induction d as [|[x w] d IH]; simpl.
  - now rewrite Hne.
  - destruct (keq x k) eqn:E; simpl.
    + assert (E' : keq x k' = false).
      { destruct (keq x k') eqn:E2; auto.
        rewrite (keq_trans _ _ _ (keq_sym _ _ E) E2) in Hne. discriminate. }
      now rewrite E'.
    + destruct (keq x k'); auto.
Qed.

Lemma uniq_set (d : list (K * V)) k v : uniq keq d = true -> uniq keq (set keq d k v) = true.
Proof.
  induction d as [|[x w] d IH]; simpl; auto.
  intros H. apply andb_true_iff in H as [H1 H2].
  destruct (keq x k) eqn:E; simpl.
  - now rewrite H1, H2.
  - rewrite IH by exact H2. rewrite andb_true_r.
    unfold contains in *. rewrite get_set_other; [exact H1|].
    destruct (keq k x) eqn:E2; auto. apply keq_sym in E2. congruence.
Qed.

End Equivalence.

End PyDictFacts.

(** ** Sets *)

Module PySetFacts.
Import PySet.

Lemma mem_In k s : mem k s = true <-> In k s.
Proof.
  unfold mem. rewrite existsb_exists. split.
  - intros (x & Hx & E). apply String.eqb_eq in E. now subst.
  - intros H. exists k. split; auto. apply String.eqb_refl.
Qed.

Lemma In_add s k x : In x (add s k) <-> In x s \/ x = k.
Proof.
  unfold add. destruct (mem k s) eqn:E.
  - apply mem_In in E. split; [tauto|]. intros [H| ->]; auto.
  - rewrite in_app_iff. simpl. intuition.
Qed.

Lemma NoDup_add s k : NoDup s -> NoDup (add s k).
Proof.
  intros H. unfold add. destruct (mem k s) eqn:E; auto.
  apply NoDup_app; auto.
  - repeat constructor. simpl. tauto.
  - intros a Ha [<-|[]]. apply mem_In in Ha. congruence.
Qed.

End PySetFacts.

(** ** The runtime ensemble *)

Module CellEnsembleRTFacts.
Import CellEnsembleRT.

Lemma Qlt_bool_iff x y : Qlt_bool x y = true <-> x < y.
Proof.
  unfold Qlt_bool. rewrite negb_true_iff.
  destruct (Qle_bool y x) eqn:E.
  - apply Qle_bool_iff in E. split; [discriminate|].
    intros H. exfalso. exact (Qlt_not_le _ _ H E).
  - split; auto. intros _. apply Qnot_le_lt. intros H.
    apply Qle_bool_iff in H. congruence.
Qed.

Lemma due_iff t0 t1 ts : due t0 t1 ts = true <-> t0 < ts /\ ts <= t1.
Proof.
  unfold due. now rewrite andb_true_iff, Qlt_bool_iff, Qle_bool_iff.
Qed.

(** Timestamps that Python's [==] identifies fall on the same side of the
    window test. *)
Lemma due_Qeq t0 t1 x y : Qeq_bool x y = true -> due t0 t1 x = due t0 t1 y.
Proof.
  intros H. apply Qeq_bool_iff in H.
  destruct (due t0 t1 x) eqn:Ex, (due t0 t1 y) eqn:Ey; auto.
  - apply due_iff in Ex. rewrite H in Ex. apply due_iff in Ex. congruence.
  - apply due_iff in Ey. rewrite <- H in Ey. apply due_iff in Ey. congruence.
Qed.

(** *** The firing loop *)

Lemma fire_events_In events : forall f k,
  In k (fire_events f events) <-> In k f \/ exists st, In (k, st) events.
Proof.
  unfold fire_events. induction events as [|[k0 s0] ev IH]; simpl; intros f k.
  - split; [tauto|]. intros [H|[st []]]; auto.
  - rewrite IH, PySetFacts.In_add. split.
    + intros [[H| ->]|[st H]]; eauto.
    + intros [H|[st [H|H]]]; eauto. inversion H; subst. auto.
Qed.

Lemma fire_events_NoDup events : forall f, NoDup f -> NoDup (fire_events f events).
Proof.
  unfold fire_events. induction events as [|[k0 s0] ev IH]; simpl; intros f H; auto.
  apply IH. now apply PySetFacts.NoDup_add.
Qed.

Lemma collect_fired_gen t0 t1 sched : forall f d,
  exists f',
    fold_left (collect_step t0 t1) sched (f, d)
      = (f', d ++ map fst (filter (fun e => due t0 t1 (fst e)) sched)) /\
    (forall k, In k f' <->
       In k f \/ exists ts events st,
         In (ts, events) sched /\ due t0 t1 ts = true /\ In (k, st) events) /\
    (NoDup f -> NoDup f').
Proof.
  induction sched as [|[ts ev] sched IH]; intros f d; simpl.
  - exists f. rewrite app_nil_r. repeat split; auto.
    intros [H|(ts & ev & st & [] & _)]; auto.
  - destruct (due t0 t1 ts) eqn:E.
    + destruct (IH (fire_events f ev) (d ++ [ts])) as (f' & Hf & Hin & Hnd).
      exists f'. rewrite Hf. simpl.
      rewrite <- app_assoc. split; [reflexivity|]. split.
      * intros k. rewrite Hin, fire_events_In. split.
        -- intros [[H|[st H]]|(ts' & ev' & st & H1 & H2 & H3)]; auto.
           ++ right. exists ts, ev, st. auto.
           ++ right. exists ts', ev', st. auto.
        -- intros [H|(ts' & ev' & st & [H1|H1] & H2 & H3)]; auto.
           ++ inversion H1; subst. left. right. eauto.
           ++ right. exists ts', ev', st. auto.
      * intros H. apply Hnd. now apply fire_events_NoDup.
    + destruct (IH f d) as (f' & Hf & Hin & Hnd).
      exists f'. rewrite Hf. split; [reflexivity|]. split; auto.
      intros k. rewrite Hin. split.
      * intros [H|(ts' & ev' & st & H1 & H2 & H3)]; auto.
        right. exists ts', ev', st. auto.
      * intros [H|(ts' & ev' & st & [H1|H1] & H2 & H3)]; auto.
        -- inversion H1; subst. congruence.
        -- right. exists ts', ev', st. auto.
Qed.

Lemma collect_fired_spec t0 t1 sched :
  exists fired,
    collect_fired t0 t1 sched
      = (fired, map fst (filter (fun e => due t0 t1 (fst e)) sched)) /\
    (forall k, In k fired <->
       exists ts events st,
         In (ts, events) sched /\ due t0 t1 ts = true /\ In (k, st) events) /\
    NoDup fired.
Proof.
  destruct (collect_fired_gen t0 t1 sched [] []) as (f' & Hf & Hin & Hnd).
  exists f'. split; [exact Hf|]. split.
  - intros k. rewrite Hin. simpl. tauto.
  - apply Hnd. constructor.
Qed.

(** *** Deleting the fired timestamps *)

Lemma delete_all_skip td : forall k v r,
  (forall x, In x td -> Qeq_bool k x = false) ->
  delete_all ((k, v) :: r) td = rbind (delete_all r td) (fun r' => Ok ((k, v) :: r')).
Proof.
  induction td as [|x td IH]; intros k v r H; simpl; auto.
  rewrite (H x) by (now left).
  destruct (PyDict.del Qeq_bool r x) as [r'|]; simpl; auto.
  apply IH. intros y Hy. apply H. now right.
Qed.

Lemma delete_all_due t0 t1 sched :
  delete_all sched (map fst (filter (fun e => due t0 t1 (fst e)) sched))
  = Ok (filter (fun e => negb (due t0 t1 (fst e))) sched).
Proof.
  induction sched as [|[ts ev] sched IH]; simpl; auto.
  destruct (due t0 t1 ts) eqn:E; simpl.
  - assert (Hr : Qeq_bool ts ts = true) by (apply Qeq_bool_iff; reflexivity).
    rewrite Hr. exact IH.
  - rewrite delete_all_skip.
    + rewrite IH. reflexivity.
    + intros x Hx. apply in_map_iff in Hx as ([x' ev'] & <- & Hx).
      apply filter_In in Hx as [_ Hx]. simpl in *.
      destruct (Qeq_bool ts x') eqn:Eq; auto.
      apply (due_Qeq t0 t1) in Eq. congruence.
Qed.

(** *** Weight decay *)

Lemma pair_eqb_spec (p q : PairKey) : pair_eqb p q = true <-> p = q.
Proof.
  destruct p as [a b], q as [c d]. unfold pair_eqb. simpl.
  rewrite andb_true_iff, !String.eqb_eq. split.
  - intros [-> ->]. reflexivity.
  - intros [= -> ->]. auto.
Qed.

Lemma pair_eqb_refl (p : PairKey) : pair_eqb p p = true.
Proof. now apply pair_eqb_spec. Qed.

(** The loop never raises, whatever the list that stands for the dict. *)
Lemma decay_one_prefix dk (pre r : list (PairKey * Q)) k :
  PyDict.contains pair_eqb pre k = true ->
  exists pre', decay_one dk (pre ++ r) k = Ok (pre' ++ r).
Proof.
  intros Hc. unfold decay_one, PyDict.index.
  rewrite (PyDictFacts.get_app_l pair_eqb pre r k Hc).
  unfold PyDict.contains in Hc.
  destruct (PyDict.get pair_eqb pre k) as [old|] eqn:Eg; [|discriminate]. simpl.
  assert (Hc1 : PyDict.contains pair_eqb pre k = true)
    by (unfold PyDict.contains; now rewrite Eg).
  rewrite (PyDictFacts.set_app_l pair_eqb pre r k (old * dk) Hc1).
  pose proof (PyDictFacts.contains_set pair_eqb pair_eqb_refl pre k (old * dk)) as Hc2.
  rewrite (PyDictFacts.get_app_l pair_eqb _ r k Hc2).
  unfold PyDict.contains in Hc2.
  destruct (PyDict.get pair_eqb (PyDict.set pair_eqb pre k (old * dk)) k) as [cur|] eqn:Eg2;
    [|discriminate]. simpl.
  destruct (Qlt_bool (Qabs cur) (1 # 1000000)).
  - assert (Hc3 : PyDict.contains pair_eqb (PyDict.set pair_eqb pre k (old * dk)) k = true)
      by (unfold PyDict.contains; now rewrite Eg2).
    destruct (PyDictFacts.del_app_l pair_eqb _ r k Hc3) as (p' & _ & ->). eauto.
  - eauto.
Qed.

Lemma decay_loop_total dk (r : list (PairKey * Q)) : forall pre,
  exists w', decay_loop dk (pre ++ r) (PyDict.keys r) = Ok w'.
Proof.
  induction r as [|[k v] r IH]; intros pre; simpl; [eauto|].
  destruct (decay_one_prefix dk (pre ++ [(k, v)]) r k) as (pre' & H).
  { apply PyDictFacts.contains_snoc, pair_eqb_refl. }
  rewrite <- app_assoc in H. simpl in H. rewrite H. simpl. apply IH.
Qed.

Lemma decay_weights_total dk (w : list (PairKey * Q)) :
  exists w', decay_weights dk w = Ok w'.
Proof.
  unfold decay_weights. destruct w as [|e w]; [eauto|].
  apply (decay_loop_total dk (e :: w) []).
Qed.

(** On a well-formed dict the loop is the filter [decayed]. *)
Lemma decay_loop_decayed dk (r : list (PairKey * Q)) : forall pre,
  NoDup (PyDict.keys (pre ++ r)) ->
  decay_loop dk (pre ++ r) (PyDict.keys r) = Ok (pre ++ decayed dk r).
Proof.
  induction r as [|[k v] r IH]; intros pre Hnd; simpl.
  - now rewrite app_nil_r.
  - assert (Hni : ~ In k (PyDict.keys pre)).
    { unfold PyDict.keys in *. rewrite map_app in Hnd. simpl in Hnd.
      apply NoDup_remove_2 in Hnd. rewrite in_app_iff in Hnd. tauto. }
    unfold decay_one, PyDict.index.
    rewrite (PyDictFacts.get_app_r pair_eqb pair_eqb_spec) by exact Hni.
    simpl. rewrite pair_eqb_refl. simpl.
    rewrite (PyDictFacts.set_app_r pair_eqb pair_eqb_spec) by exact Hni.
    simpl. rewrite pair_eqb_refl.
    rewrite (PyDictFacts.get_app_r pair_eqb pair_eqb_spec) by exact Hni.
    simpl. rewrite pair_eqb_refl. simpl.
    destruct (Qlt_bool (Qabs (v * dk)) (1 # 1000000)) eqn:E.
    + rewrite (PyDictFacts.del_app_r pair_eqb pair_eqb_spec pre ((k, v * dk) :: r) r k Hni)
        by (simpl; now rewrite pair_eqb_refl).
      simpl. apply IH.
      unfold PyDict.keys in *. rewrite map_app in *. simpl in Hnd.
      now apply NoDup_remove_1 in Hnd.
    + simpl. specialize (IH (pre ++ [(k, v * dk)])).
      rewrite <- !app_assoc in IH. simpl in IH. apply IH.
      unfold PyDict.keys in *. rewrite map_app in *. exact Hnd.
Qed.

Lemma decay_weights_decayed dk (w : list (PairKey * Q)) :
  NoDup (PyDict.keys w) -> decay_weights dk w = Ok (decayed dk w).
Proof.
  intros H. unfold decay_weights. destruct w as [|e w]; [reflexivity|].
  apply (decay_loop_decayed dk (e :: w) [] H).
Qed.

Lemma decayed_keys dk (w : list (PairKey * Q)) k :
  In k (PyDict.keys (decayed dk w)) -> In k (PyDict.keys w).
Proof.
  induction w as [|[k' x] w IH]; simpl; auto.
  destruct (Qlt_bool (Qabs (x * dk)) (1 # 1000000)); simpl; tauto.
Qed.

Lemma decayed_NoDup dk (w : list (PairKey * Q)) :
  NoDup (PyDict.keys w) -> NoDup (PyDict.keys (decayed dk w)).
Proof.
  induction w as [|[k x] w IH]; simpl; auto. intros Hnd.
  apply NoDup_cons_iff in Hnd as [Hni Hnd].
  destruct (Qlt_bool (Qabs (x * dk)) (1 # 1000000)); simpl; auto.
  constructor; auto. intros H. apply Hni. eapply decayed_keys, H.
Qed.

(** *** Canonical pair keys *)

Lemma ltb_trichotomy (a b : string) :
  a <> b -> String.ltb a b = false -> String.ltb b a = true.
Proof.
  unfold String.ltb. rewrite (String.compare_antisym b a).
  destruct (String.compare a b) eqn:E; simpl; auto; try discriminate.
  intros H. apply String.compare_eq_iff in E. contradiction.
Qed.

Lemma ltb_asym (a b : string) : String.ltb a b = true -> String.ltb b a = false.
Proof.
  unfold String.ltb. rewrite (String.compare_antisym b a).
  destruct (String.compare a b); simpl; auto; discriminate.
Qed.

Lemma ltb_irrefl (a : string) : String.ltb a a = false.
Proof.
  destruct (String.ltb a a) eqn:E; auto.
  pose proof (ltb_asym a a E). congruence.
Qed.

Lemma pair_key_ordered (a b : UnitKey) : a <> b -> ordered (pair_key a b).
Proof.
  intros H. unfold ordered, pair_key.
  destruct (String.ltb a b) eqn:E; simpl; auto. now apply ltb_trichotomy.
Qed.

Lemma pair_key_sym (a b : UnitKey) : a <> b -> pair_key a b = pair_key b a.
Proof.
  intros H. unfold pair_key.
  destruct (String.ltb a b) eqn:E.
  - now rewrite (ltb_asym a b E).
  - now rewrite (ltb_trichotomy a b H E).
Qed.

Lemma ordered_not_diag (a : UnitKey) : ~ ordered (a, a).
Proof. unfold ordered. simpl. rewrite ltb_irrefl. discriminate. Qed.

Lemma ordered_not_swapped (a b : UnitKey) : ordered (a, b) -> ~ ordered (b, a).
Proof.
  unfold ordered. simpl. intros H. rewrite (ltb_asym a b H). discriminate.
Qed.

(** *** The Hebbian loop *)

Lemma visited_pairs_In (fl : list UnitKey) a b :
  In (a, b) (visited_pairs fl) -> In a fl /\ In b fl.
Proof.
  induction fl as [|x fl IH]; simpl; [tauto|].
  rewrite in_app_iff, in_map_iff. intros [(y & [= <- <-] & Hy)|H]; [tauto|].
  apply IH in H. tauto.
Qed.

Lemma visited_pairs_distinct (fl : list UnitKey) a b :
  NoDup fl -> In (a, b) (visited_pairs fl) -> a <> b.
Proof.
  induction fl as [|x fl IH]; simpl; [tauto|]. intros Hnd.
  apply NoDup_cons_iff in Hnd as [Hni Hnd].
  rewrite in_app_iff, in_map_iff. intros [(y & [= <- <-] & Hy)|H]; auto.
  intros ->. contradiction.
Qed.

Lemma visited_pairs_complete (fl : list UnitKey) a b :
  In a fl -> In b fl -> a <> b ->
  In (a, b) (visited_pairs fl) \/ In (b, a) (visited_pairs fl).
Proof.
  induction fl as [|x fl IH]; simpl; [tauto|].
  rewrite !in_app_iff, !in_map_iff.
  intros [->|Ha] [->|Hb] Hne; try contradiction.
  - left. left. eauto.
  - right. left. eauto.
  - destruct (IH Ha Hb Hne); auto.
Qed.

(** The double loop is a single left fold over [visited_pairs]. *)
Lemma hebb_loop_fold (s : t) (fl : list UnitKey) : forall w,
  hebb_loop s fl w
  = fold_left (fun acc p => hebb_pair s acc (fst p) (snd p)) (visited_pairs fl) w.
Proof.
  induction fl as [|a rest IH]; intros w; simpl; auto.
  rewrite fold_left_app, IH. f_equal.
  clear IH. revert w. induction rest as [|b rest' IHr]; intros w; simpl; auto.
Qed.

Lemma fold_hebb_keys (s : t) (ps : list (UnitKey * UnitKey)) : forall w key,
  In key (PyDict.keys (fold_left (fun acc p => hebb_pair s acc (fst p) (snd p)) ps w)) ->
  In key (PyDict.keys w) \/ exists a b, In (a, b) ps /\ key = pair_key a b.
Proof.
  induction ps as [|[a b] ps IH]; simpl; intros w key H; auto.
  apply IH in H as [H|(a' & b' & H & ->)].
  - unfold hebb_pair in H.
    apply (PyDictFacts.In_keys_set pair_eqb pair_eqb_spec) in H as [H| ->]; auto.
    right. exists a, b. auto.
  - right. exists a', b'. auto.
Qed.

Lemma fold_hebb_NoDup (s : t) (ps : list (UnitKey * UnitKey)) : forall w,
  NoDup (PyDict.keys w) ->
  NoDup (PyDict.keys (fold_left (fun acc p => hebb_pair s acc (fst p) (snd p)) ps w)).
Proof.
  induction ps as [|[a b] ps IH]; simpl; intros w H; auto.
  apply IH. unfold hebb_pair.
  now apply (PyDictFacts.NoDup_keys_set pair_eqb pair_eqb_spec).
Qed.

(** *** One step *)

Lemma activate_step_unfold (s : t) (dt : option Q) :
  let d := match dt with Some d => d | None => _dt s end in
  exists fired w1,
    collect_fired (_t s) (_t s + d) (_scheduled s)
      = (fired, map fst (filter (fun e => due (_t s) (_t s + d) (fst e)) (_scheduled s))) /\
    decay_weights (decay s) (weights s) = Ok w1 /\
    activate_step s dt
    = Ok ({| name := name s; units := units s; context_tags := context_tags s;
             registry := registry s;
             _scheduled := filter (fun e => negb (due (_t s) (_t s + d) (fst e)))
                                  (_scheduled s);
             weights := hebb_loop s fired w1;
             eta_hebb := eta_hebb s; decay := decay s; max_weight := max_weight s;
             _t := _t s + d; _dt := _dt s; _active_last_step := fired |},
          fired).
Proof.
  intros d.
  destruct (collect_fired_spec (_t s) (_t s + d) (_scheduled s)) as (fired & Hc & _).
  destruct (decay_weights_total (decay s) (weights s)) as (w1 & Hw).
  exists fired, w1. split; [exact Hc|]. split; [exact Hw|].
  unfold activate_step. fold d. rewrite Hc, delete_all_due. simpl.
  rewrite Hw. simpl. destruct fired; reflexivity.
Qed.

(** *** Reachable weight maps *)

Lemma weights_schedule_spike (s : t) tm key st :
  weights (schedule_spike s tm key st) = weights s.
Proof.
  unfold schedule_spike. simpl. destruct (PySet.mem key (units s)); reflexivity.
Qed.

Lemma weights_schedule_pattern spikes : forall s,
  weights (schedule_pattern s spikes) = weights s.
Proof.
  unfold schedule_pattern.
  induction spikes as [|[[tm k] st] spikes IH]; intros s; simpl; auto.
  rewrite IH. apply weights_schedule_spike.
Qed.

Lemma activate_step_canonical (s s' : t) dt fired :
  canonical_weights (weights s) ->
  activate_step s dt = Ok (s', fired) ->
  canonical_weights (weights s').
Proof.
  intros [Hnd Hord] Hstep.
  destruct (activate_step_unfold s dt) as (fired0 & w1 & Hc & Hw & Hs).
  rewrite Hs in Hstep. injection Hstep as <- <-. simpl.
  rewrite decay_weights_decayed in Hw by exact Hnd. injection Hw as <-.
  destruct (collect_fired_spec (_t s)
              (_t s + match dt with Some d => d | None => _dt s end) (_scheduled s))
    as (fired' & Hc' & _ & Hndf).
  rewrite Hc in Hc'. injection Hc' as <-.
  rewrite hebb_loop_fold. split.
  - apply fold_hebb_NoDup. now apply decayed_NoDup.
  - intros key H. apply fold_hebb_keys in H as [H|(a & b & H & ->)].
    + apply Hord. eapply decayed_keys, H.
    + apply pair_key_ordered. eapply visited_pairs_distinct; eauto.
Qed.

Lemma reachable_canonical (s : t) : reachable s -> canonical_weights (weights s).
Proof.
  induction 1 as [s H|s o s' Hr IH Hst].
  - rewrite H. split; [constructor|]. intros key [].
  - destruct Hst as [s keys|s tm key st|s spikes|s dt s' fired Hs].
    + exact IH.
    + now rewrite weights_schedule_spike.
    + now rewrite weights_schedule_pattern.
    + eapply activate_step_canonical; eauto.
Qed.

Lemma step_after_step (s : t) dt : step s (OpActivateStep dt) (after_step s dt).
Proof.
  destruct (activate_step_unfold s dt) as (f & w & _ & _ & H).
  unfold after_step. rewrite H. eapply StepActivate. exact H.
Qed.

(** C10: in every state reachable from an instance created with an empty
    weight map, every key [(a, b)] of the weight map has [a < b] in string
    order; no key is a self-pair; no pair is stored in both orientations; the
    map holds each key once; and the key computed for [(a, b)] is the key
    computed for [(b, a)]. *)
Theorem reachable_weight_keys_ordered (s : t) :
  reachable s ->
  (forall a b x, In ((a, b), x) (weights s) -> String.ltb a b = true) /\
  (forall a x, ~ In ((a, a), x) (weights s)) /\
  (forall a b x y, In ((a, b), x) (weights s) -> ~ In ((b, a), y) (weights s)) /\
  NoDup (PyDict.keys (weights s)) /\
  (forall a b : UnitKey, a <> b -> pair_key a b = pair_key b a).
Proof.
  intros Hr. destruct (reachable_canonical s Hr) as [Hnd Hord].
  assert (Hkey : forall a b x, In ((a, b), x) (weights s) -> ordered (a, b)).
  { intros a b x H. apply Hord. apply (in_map fst) in H. exact H. }
  split; [exact Hkey|]. split; [|split; [|split]].
  - intros a x H. exact (ordered_not_diag a (Hkey _ _ _ H)).
  - intros a b x y H1 H2.
    exact (ordered_not_swapped a b (Hkey _ _ _ H1) (Hkey _ _ _ H2)).
  - exact Hnd.
  - exact pair_key_sym.
Qed.

(** The instance on which ["x"] and ["y"] fired together is reachable and
    carries one weight. *)
Lemma reachable_weight_keys_ordered_witness :
  let s := after_step cofiring (Some (1 # 10)) in
  reachable s /\
  weights s = [(("x"%string, "y"%string), 2 # 100)] /\
  (forall a b x, In ((a, b), x) (weights s) -> String.ltb a b = true) /\
  (forall a x, ~ In ((a, a), x) (weights s)) /\
  (forall a b x y, In ((a, b), x) (weights s) -> ~ In ((b, a), y) (weights s)) /\
  NoDup (PyDict.keys (weights s)) /\
  (forall a b : UnitKey, a <> b -> pair_key a b = pair_key b a).
Proof.
  assert (Hr : reachable (after_step cofiring (Some (1 # 10)))).
  { eapply ReachStep.
    - eapply ReachStep.
      + apply (ReachInit (new "rt"%string)). reflexivity.
      + apply (StepSchedulePattern _
                 [(5 # 100, "y"%string, 1); (5 # 100, "x"%string, 1)]).
    - apply step_after_step. }
  split; [exact Hr|]. split; [vm_compute; reflexivity|].
  exact (reachable_weight_keys_ordered _ Hr).
Defined.

(** ** Scheduling *)

Lemma clamp_bounds (x : Q) : 0 <= Qmax 0 (Qmin 1 x) /\ Qmax 0 (Qmin 1 x) <= 1.
Proof.
  split.
  - apply Q.le_max_l.
  - apply Q.max_lub; [discriminate|apply Q.le_min_l].
Qed.

Lemma clamp_id (x : Q) : 0 <= x -> x <= 1 -> Qmax 0 (Qmin 1 x) == x.
Proof.
  intros H0 H1. rewrite (Q.min_r 1 x) by exact H1. now rewrite Q.max_r.
Qed.

Lemma units_schedule_spike (s : t) tm key st :
  units (schedule_spike s tm key st) = PySet.add (units s) key.
Proof.
  unfold schedule_spike, PySet.add. destruct (PySet.mem key (units s)); reflexivity.
Qed.

Lemma scheduled_schedule_spike (s : t) tm key st :
  _scheduled (schedule_spike s tm key st)
  = PyDict.set Qeq_bool (_scheduled s) tm
      (PyDict.get_default Qeq_bool (_scheduled s) tm [] ++ [(key, Qmax 0 (Qmin 1 st))]).
Proof.
  unfold schedule_spike. destruct (PySet.mem key (units s)); reflexivity.
Qed.

Lemma clock_schedule_spike (s : t) tm key st :
  _t (schedule_spike s tm key st) = _t s /\
  _active_last_step (schedule_spike s tm key st) = _active_last_step s.
Proof.
  unfold schedule_spike. destruct (PySet.mem key (units s)); split; reflexivity.
Qed.

(** X1: [schedule_spike] appends the event, with its strength clamped to
    [[0, 1]], to the events already scheduled at that instant, leaves the
    other instants alone, and registers the unit. *)
Theorem schedule_spike_effect (s : t) (tm : Time) (key : UnitKey) (strength : Q) :
  let s' := schedule_spike s tm key strength in
  let st := Qmax 0 (Qmin 1 strength) in
  PyDict.get Qeq_bool (_scheduled s') tm
  = Some (PyDict.get_default Qeq_bool (_scheduled s) tm [] ++ [(key, st)]) /\
  (forall tm', Qeq_bool tm tm' = false ->
     PyDict.get Qeq_bool (_scheduled s') tm' = PyDict.get Qeq_bool (_scheduled s) tm') /\
  0 <= st /\ st <= 1 /\
  (0 <= strength -> strength <= 1 -> st == strength) /\
  In key (units s') /\
  (forall k, In k (units s) -> In k (units s')) /\
  weights s' = weights s /\ _t s' = _t s.
Proof.
  cbv zeta. rewrite scheduled_schedule_spike, units_schedule_spike.
  repeat split.
  - apply (PyDictFacts.get_set_same Qeq_bool Qeq_bool_refl).
  - intros tm' Hne.
    now apply (PyDictFacts.get_set_other Qeq_bool Qeq_bool_sym Qeq_bool_trans).
  - apply clamp_bounds.
  - apply clamp_bounds.
  - apply clamp_id.
  - apply PySetFacts.In_add. now right.
  - intros k Hk. apply PySetFacts.In_add. now left.
  - apply weights_schedule_spike.
  - apply clock_schedule_spike.
Qed.

(** X2: A spike scheduled inside the window of the next step fires in that
    step, whatever else is scheduled, and the step removes its instant from
    the schedule. *)
Theorem schedule_spike_then_step (s : t) (tm : Time) (key : UnitKey) (strength dt : Q) :
  _t s < tm -> tm <= _t s + dt ->
  exists s' fired,
    activate_step (schedule_spike s tm key strength) (Some dt) = Ok (s', fired) /\
    In key fired /\
    In key (units s') /\
    PyDict.get Qeq_bool (_scheduled s') tm = None.
Proof.
  intros Hlo Hhi.
  set (s1 := schedule_spike s tm key strength).
  destruct (activate_step_unfold s1 (Some dt)) as (fired & w1 & Hc & _ & Hstep).
  cbv zeta in *. rewrite Hstep. eexists _, fired. split; [reflexivity|].
  assert (Ht : _t s1 = _t s) by apply clock_schedule_spike.
  rewrite Ht in *.
  destruct (collect_fired_spec (_t s) (_t s + dt) (_scheduled s1)) as (f & Hf & Hin & _).
  rewrite Hf in Hc. injection Hc as <-.
  split; [|split].
  - apply Hin.
    assert (Hg : PyDict.get Qeq_bool (_scheduled s1) tm
                 = Some (PyDict.get_default Qeq_bool (_scheduled s) tm []
                         ++ [(key, Qmax 0 (Qmin 1 strength))])).
    { unfold s1. rewrite scheduled_schedule_spike.
      apply (PyDictFacts.get_set_same Qeq_bool Qeq_bool_refl). }
    apply PyDictFacts.get_Some_In in Hg as (ts & Hts & Heq).
    eexists ts, _, (Qmax 0 (Qmin 1 strength)). split; [exact Hts|]. split.
    + rewrite (due_Qeq _ _ ts tm Heq). apply due_iff. auto.
    + apply in_or_app. right. now left.
  - change (In key (units s1)). unfold s1. rewrite units_schedule_spike.
    apply PySetFacts.In_add. now right.
  - cbn [_scheduled].
    destruct (PyDict.get Qeq_bool _ tm) eqn:E; [|reflexivity].
    apply PyDictFacts.get_Some_In in E as (ts & Hts & Heq).
    apply filter_In in Hts as [_ Hnd]. simpl in Hnd.
    rewrite (due_Qeq _ _ ts tm Heq) in Hnd.
    assert (Hd : due (_t s) (_t s + dt) tm = true) by (apply due_iff; auto).
    rewrite Hd in Hnd. discriminate.
Qed.

Lemma schedule_spike_then_step_witness :
  exists s' fired,
    activate_step (schedule_spike (new "rt"%string) (5 # 100) "x"%string 1) (Some (1 # 10))
    = Ok (s', fired) /\
    In "x"%string fired /\
    In "x"%string (units s') /\
    PyDict.get Qeq_bool (_scheduled s') (5 # 100) = None.
Proof.
  apply (schedule_spike_then_step (new "rt"%string) (5 # 100) "x"%string 1 (1 # 10));
    vm_compute; congruence.
Defined.

(** ** Histories *)

#[local] Ltac conjs := repeat match goal with |- _ /\ _ => split end.

Lemma fold_add_In keys : forall u k,
  In k (fold_left PySet.add keys u) <-> In k u \/ In k keys.
Proof.
  induction keys as [|x keys IH]; intros u k; simpl; [tauto|].
  rewrite IH, PySetFacts.In_add. intuition (subst; auto).
Qed.

Lemma fold_add_NoDup keys : forall u, NoDup u -> NoDup (fold_left PySet.add keys u).
Proof.
  induction keys as [|x keys IH]; intros u Hu; simpl; auto.
  apply IH. now apply PySetFacts.NoDup_add.
Qed.

Lemma consistent_new nm : consistent (new nm).
Proof.
  unfold consistent, schedule_ok, weights_registered, canonical_weights; simpl.
  conjs; try constructor; try contradiction; try reflexivity; intros ? [].
Qed.

Lemma consistent_add_units (s : t) keys : consistent s -> consistent (add_units s keys).
Proof.
  intros (Hu & Hs & Hq & Hc & Hw & Ha).
  assert (Hmono : forall k, In k (units s) -> In k (units (add_units s keys))).
  { intros k Hk. unfold add_units. simpl. apply fold_add_In. now left. }
  unfold consistent. conjs; try exact Hq; try exact Hc.
  - unfold add_units. simpl. now apply fold_add_NoDup.
  - intros ts events k x Hin Hk. destruct (Hs ts events k x Hin Hk) as (H1 & H2 & H3).
    auto.
  - intros a b x Hin. destruct (Hw a b x Hin). auto.
  - intros k Hk. apply Hmono, Ha, Hk.
Qed.

Lemma consistent_schedule_spike (s : t) tm key st :
  consistent s -> consistent (schedule_spike s tm key st).
Proof.
  intros (Hu & Hs & Hq & Hc & Hw & Ha).
  assert (Hmono : forall k, In k (units s) -> In k (units (schedule_spike s tm key st))).
  { intros k Hk. rewrite units_schedule_spike. apply PySetFacts.In_add. now left. }
  assert (Hkey : In key (units (schedule_spike s tm key st))).
  { rewrite units_schedule_spike. apply PySetFacts.In_add. now right. }
  assert (Hev : forall ts events k x,
             In (ts, events) (_scheduled (schedule_spike s tm key st)) ->
             In (k, x) events ->
             In k (units (schedule_spike s tm key st)) /\ 0 <= x /\ x <= 1).
  { intros ts events k x Hin Hk. rewrite scheduled_schedule_spike in Hin.
    apply PyDictFacts.In_set_inv in Hin as [Hin| ->].
    - destruct (Hs ts events k x Hin Hk) as (H1 & H2 & H3). auto.
    - apply in_app_or in Hk as [Hk|[[= <- <-]|[]]].
      + unfold PyDict.get_default in Hk.
        destruct (PyDict.get Qeq_bool (_scheduled s) tm) eqn:E; [|contradiction].
        apply PyDictFacts.get_Some_In in E as (ts0 & Hts0 & _).
        destruct (Hs ts0 l k x Hts0 Hk) as (H1 & H2 & H3). auto.
      + split; [exact Hkey|apply clamp_bounds]. }
  unfold consistent. rewrite weights_schedule_spike.
  destruct (clock_schedule_spike s tm key st) as [_ ->].
  conjs; try exact Hc.
  - rewrite units_schedule_spike. now apply PySetFacts.NoDup_add.
  - exact Hev.
  - rewrite scheduled_schedule_spike.
    now apply (PyDictFacts.uniq_set Qeq_bool Qeq_bool_sym Qeq_bool_trans).
  - intros a b x Hin. rewrite weights_schedule_spike in Hin. destruct (Hw a b x Hin). auto.
  - intros k Hk. apply Hmono, Ha, Hk.
Qed.

Lemma consistent_schedule_pattern spikes : forall s,
  consistent s -> consistent (schedule_pattern s spikes).
Proof.
  unfold schedule_pattern.
  induction spikes as [|[[tm k] st] spikes IH]; intros s Hs; simpl; auto.
  apply IH. now apply consistent_schedule_spike.
Qed.

Lemma after_step_state (s : t) (dt : option Q) :
  let d := match dt with Some d => d | None => _dt s end in
  exists fired w1,
    fst (collect_fired (_t s) (_t s + d) (_scheduled s)) = fired /\
    decay_weights (decay s) (weights s) = Ok w1 /\
    activate_step s dt = Ok (after_step s dt, fired) /\
    units (after_step s dt) = units s /\
    _scheduled (after_step s dt)
    = filter (fun e => negb (due (_t s) (_t s + d) (fst e))) (_scheduled s) /\
    weights (after_step s dt) = hebb_loop s fired w1 /\
    _t (after_step s dt) = _t s + d /\
    _active_last_step (after_step s dt) = fired.
Proof.
  destruct (activate_step_unfold s dt) as (fired & w1 & Hc & Hd & Hstep).
  cbv zeta in *. exists fired, w1. unfold after_step. rewrite Hstep, Hc.
  repeat split; auto.
Qed.

Lemma pair_key_cases (a b : UnitKey) : pair_key a b = (a, b) \/ pair_key a b = (b, a).
Proof. unfold pair_key. destruct (String.ltb a b); auto. Qed.

Lemma consistent_after_step (s : t) dt : consistent s -> consistent (after_step s dt).
Proof.
  intros (Hu & Hs & Hq & Hc & Hw & Ha).
  destruct (after_step_state s dt) as (fired & w1 & Hf & Hd & Hstep & Eu & Es & Ew & _ & Ea).
  cbv zeta in *.
  set (d := match dt with Some d => d | None => _dt s end) in *.
  destruct (collect_fired_spec (_t s) (_t s + d) (_scheduled s)) as (f & Hcf & Hin & Hnd).
  rewrite Hcf in Hf. simpl in Hf. subst f.
  assert (Hfu : incl fired (units s)).
  { intros k Hk. apply Hin in Hk as (ts & events & x & H1 & _ & H3).
    eapply Hs; eauto. }
  unfold consistent. rewrite Eu, Ea.
  split; [exact Hu|]. split.
  { intros ts events k x Hin' Hk. rewrite Es in Hin'.
    apply filter_In in Hin' as [Hin' _]. rewrite Eu. eapply Hs; eauto. }
  split.
  { rewrite Es. now apply PyDictFacts.uniq_filter. }
  split.
  { eapply activate_step_canonical; eauto. }
  split; [|exact Hfu].
  intros a b x Hin'. rewrite Eu. rewrite Ew in Hin'.
  assert (Hk : In (a, b) (PyDict.keys (hebb_loop s fired w1))).
  { apply (in_map fst) in Hin'. exact Hin'. }
  rewrite hebb_loop_fold in Hk. apply fold_hebb_keys in Hk as [Hk|(a' & b' & Hp & E)].
  - rewrite decay_weights_decayed in Hd by apply Hc. injection Hd as <-.
    apply decayed_keys in Hk. apply in_map_iff in Hk as ([[a0 b0] x0] & [= -> ->] & Hk).
    eapply Hw; eauto.
  - apply visited_pairs_In in Hp as [Ha' Hb'].
    destruct (pair_key_cases a' b') as [E'|E']; rewrite E' in E; injection E as -> ->;
      split; apply Hfu; assumption.
Qed.

Lemma consistent_apply_op (s : t) o : consistent s -> consistent (apply_op s o).
Proof.
  destruct o; simpl.
  - apply consistent_add_units.
  - apply consistent_schedule_spike.
  - apply consistent_schedule_pattern.
  - apply consistent_after_step.
Qed.

Lemma consistent_run ops : forall s, consistent s -> consistent (run s ops).
Proof.
  unfold run. induction ops as [|o ops IH]; intros s Hs; simpl; auto.
  apply IH. now apply consistent_apply_op.
Qed.

(** X3: Whatever operations were applied to a fresh instance: no unit is
    registered twice, every scheduled event names a registered unit with a
    strength in [[0, 1]], no instant is scheduled twice, the pairs that carry
    a weight are canonical and made of registered units, and the units that
    fired last are registered. *)
Theorem history_consistent (nm : string) (ops : list op) :
  let s := run (new nm) ops in
  NoDup (units s) /\
  (forall ts events k st,
      In (ts, events) (_scheduled s) -> In (k, st) events ->
      In k (units s) /\ 0 <= st /\ st <= 1) /\
  PyDict.uniq Qeq_bool (_scheduled s) = true /\
  (forall a b x, In ((a, b), x) (weights s) ->
                 String.ltb a b = true /\ In a (units s) /\ In b (units s)) /\
  incl (_active_last_step s) (units s).
Proof.
  cbv zeta.
  destruct (consistent_run ops (new nm) (consistent_new nm))
    as (Hu & Hs & Hq & Hc & Hw & Ha).
  conjs; auto.
  intros a b x Hin. split; [|now apply (Hw a b x)].
  destruct Hc as [_ Hc]. apply (Hc (a, b)).
  apply (in_map fst) in Hin. exact Hin.
Qed.

(** X4: An event scheduled at or before the current time is never consumed:
    steps of non-negative length leave it in the schedule, however many are
    taken. *)
Theorem stale_spike_stays (s : t) (ts : Time) (events : list (UnitKey * Q))
  (dts : list Q) :
  In (ts, events) (_scheduled s) ->
  ts <= _t s ->
  Forall (fun dt => 0 <= dt) dts ->
  let s' := run s (map (fun dt => OpActivateStep (Some dt)) dts) in
  In (ts, events) (_scheduled s') /\ ts <= _t s'.
Proof.
  cbv zeta. revert s. unfold run.
  induction dts as [|dt dts IH]; intros s Hin Hle Hpos; simpl; [auto|].
  inversion Hpos as [|? ? Hdt Hrest]; subst.
  destruct (after_step_state s (Some dt)) as (_ & _ & _ & _ & _ & _ & Es & _ & Et & _).
  cbv zeta in *.
  apply IH; auto.
  - rewrite Es. apply filter_In. split; [exact Hin|]. simpl.
    apply negb_true_iff. destruct (due (_t s) (_t s + dt) ts) eqn:E; auto.
    apply due_iff in E as [E _]. exfalso. apply (Qlt_not_le _ _ E Hle).
  - rewrite Et. apply Qle_trans with (_t s); auto.
    rewrite <- (Qplus_0_r (_t s)) at 1. apply Qplus_le_r. exact Hdt.
Qed.

Lemma stale_spike_stays_witness :
  In (0, [("x"%string, 1)]) (_scheduled stale_spike) /\
  In (0, [("x"%string, 1)])
     (_scheduled (run stale_spike [OpActivateStep (Some (1 # 10));
                                   OpActivateStep (Some (1 # 10))])).
Proof.
  assert (Hin : In (0, [("x"%string, 1)]) (_scheduled stale_spike)) by (now left).
  split; [exact Hin|].
  apply (stale_spike_stays stale_spike 0 [("x"%string, 1)] [1 # 10; 1 # 10] Hin).
  - vm_compute. congruence.
  - repeat constructor; vm_compute; congruence.
Defined.

(** ** Overlap of two instances *)

Lemma inter_In a b k : In k (PySet.inter a b) <-> In k a /\ In k b.
Proof. unfold PySet.inter. rewrite filter_In, PySetFacts.mem_In. tauto. Qed.

Lemma union_In a b k : In k (PySet.union a b) <-> In k a \/ In k b.
Proof.
  unfold PySet.union. rewrite in_app_iff, filter_In, negb_true_iff. split.
  - intros [H|[H _]]; auto.
  - intros [H|H]; auto. destruct (PySet.mem k a) eqn:E; auto.
    left. now apply PySetFacts.mem_In.
Qed.

Lemma inter_NoDup a b : NoDup a -> NoDup (PySet.inter a b).
Proof. apply NoDup_filter. Qed.

Lemma union_NoDup a b : NoDup a -> NoDup b -> NoDup (PySet.union a b).
Proof.
  intros Ha Hb. unfold PySet.union. apply NoDup_app; auto.
  - now apply NoDup_filter.
  - intros k Hk Hk'. apply filter_In in Hk' as [_ Hk']. apply negb_true_iff in Hk'.
    apply PySetFacts.mem_In in Hk. congruence.
Qed.

Lemma inter_length_sym a b :
  NoDup a -> NoDup b -> List.length (PySet.inter a b) = List.length (PySet.inter b a).
Proof.
  intros Ha Hb. apply Permutation_length, NoDup_Permutation.
  - now apply inter_NoDup.
  - now apply inter_NoDup.
  - intros k. rewrite !inter_In. tauto.
Qed.

Lemma union_length_sym a b :
  NoDup a -> NoDup b -> List.length (PySet.union a b) = List.length (PySet.union b a).
Proof.
  intros Ha Hb. apply Permutation_length, NoDup_Permutation.
  - now apply union_NoDup.
  - now apply union_NoDup.
  - intros k. rewrite !union_In. tauto.
Qed.

Lemma inter_le_union a b :
  (List.length (PySet.inter a b) <= List.length (PySet.union a b))%nat.
Proof.
  unfold PySet.inter, PySet.union. rewrite length_app.
  pose proof (filter_length_le (fun k => PySet.mem k b) a). lia.
Qed.

Lemma inter_self a : PySet.inter a a = a.
Proof.
  unfold PySet.inter. apply forallb_filter_id. apply forallb_forall.
  intros k Hk. now apply PySetFacts.mem_In.
Qed.

Lemma union_self a : PySet.union a a = a.
Proof.
  unfold PySet.union. rewrite <- (app_nil_r a) at 3. f_equal.
  assert (E : forall l, (forall k, In k l -> In k a) ->
                        filter (fun k => negb (PySet.mem k a)) l = []).
  { induction l as [|y l IH]; intros Hl; simpl; auto.
    assert (Hy : PySet.mem y a = true) by (apply PySetFacts.mem_In, Hl; now left).
    rewrite Hy. simpl. apply IH. intros k Hk. apply Hl. now right. }
  apply E. auto.
Qed.

(** The ratio of [overlap_with], for sets that are not both empty. *)
Lemma overlap_with_ratio (s other : t) :
  units s <> [] \/ units other <> [] ->
  overlap_with s other
  = if Nat.ltb 0 (List.length (PySet.union (units s) (units other)))
    then inject_Z (Z.of_nat (List.length (PySet.inter (units s) (units other))))
         / inject_Z (Z.of_nat (List.length (PySet.union (units s) (units other))))
    else 0.
Proof.
  unfold overlap_with. destruct (units s), (units other); auto. intros [H|H]; congruence.
Qed.

Lemma ratio_bounds (i u : nat) :
  (i <= u)%nat -> (0 < u)%nat ->
  0 <= inject_Z (Z.of_nat i) / inject_Z (Z.of_nat u) /\
  inject_Z (Z.of_nat i) / inject_Z (Z.of_nat u) <= 1.
Proof.
  intros Hiu Hu.
  assert (Hpos : 0 < inject_Z (Z.of_nat u)).
  { change 0 with (inject_Z 0). rewrite <- Zlt_Qlt. lia. }
  split.
  - apply Qle_shift_div_l; [exact Hpos|]. rewrite Qmult_0_l.
    change 0 with (inject_Z 0). rewrite <- Zle_Qle. lia.
  - apply Qle_shift_div_r; [exact Hpos|]. rewrite Qmult_1_l.
    rewrite <- Zle_Qle. lia.
Qed.

(** X5: The Jaccard overlap is symmetric, lies in [[0, 1]], is 1 between an
    instance and itself and 0 between instances without a common unit that
    are not both empty. *)
Theorem overlap_with_jaccard (s other : t) :
  NoDup (units s) -> NoDup (units other) ->
  overlap_with s other = overlap_with other s /\
  0 <= overlap_with s other /\ overlap_with s other <= 1 /\
  overlap_with s s == 1 /\
  ((forall k, In k (units s) -> ~ In k (units other)) ->
   units s <> [] \/ units other <> [] ->
   overlap_with s other == 0).
Proof.
  intros Hs Ho.
  assert (Hb : 0 <= overlap_with s other /\ overlap_with s other <= 1).
  { unfold overlap_with.
    destruct (units s) as [|x a] eqn:Ea, (units other) as [|y b] eqn:Eb;
      try (split; discriminate);
      (destruct (Nat.ltb_spec 0 (List.length (PySet.union (units s) (units other))))
        as [Hu|Hu]; rewrite Ea, Eb in Hu; cbv zeta;
       [ apply Nat.ltb_lt in Hu as Hu'; rewrite Hu';
         apply ratio_bounds; [apply inter_le_union|exact Hu]
       | apply Nat.ltb_ge in Hu as Hu'; rewrite Hu'; split; discriminate ]). }
  split; [|split; [apply Hb|split; [apply Hb|split]]].
  - unfold overlap_with.
    destruct (units s) as [|x a] eqn:Ea, (units other) as [|y b] eqn:Eb; auto;
      cbv zeta; rewrite (inter_length_sym _ _ Hs Ho), (union_length_sym _ _ Hs Ho);
      reflexivity.
  - unfold overlap_with. destruct (units s) as [|x a] eqn:Ea; [reflexivity|].
    cbv zeta. rewrite inter_self, union_self. simpl List.length.
    change (0 <? S (List.length a))%nat with true. cbv iota.
    apply Qmult_inv_r.
    intros E. change 0 with (inject_Z 0) in E. rewrite inject_Z_injective in E. lia.
  - intros Hdis Hne. rewrite overlap_with_ratio by exact Hne.
    assert (E : PySet.inter (units s) (units other) = []).
    { destruct (PySet.inter (units s) (units other)) as [|k r] eqn:E; auto.
      assert (Hk : In k (PySet.inter (units s) (units other))) by (rewrite E; now left).
      apply inter_In in Hk as [H1 H2]. now apply Hdis in H1. }
    rewrite E. simpl List.length.
    destruct (Nat.ltb 0 _); [|reflexivity].
    unfold Qdiv. apply Qmult_0_l.
Qed.

Lemma overlap_with_jaccard_witness :
  overlap_with two_spikes cofiring = overlap_with cofiring two_spikes /\
  overlap_with two_spikes cofiring == 1 # 2.
Proof.
  split; [|vm_compute; reflexivity].
  apply (overlap_with_jaccard two_spikes cofiring).
  - vm_compute. repeat constructor; simpl; intuition discriminate.
  - vm_compute. repeat constructor; simpl; intuition discriminate.
Defined.

(** ** Spike counts *)

Lemma count_events_spec events : forall counts,
  exists c',
    count_events counts events = Ok c' /\
    PyDict.keys c' = PyDict.keys counts /\
    forall k,
      PyDict.get String.eqb c' k
      = option_map
          (fold_left Qplus (map snd (filter (fun e => String.eqb (fst e) k) events)))
          (PyDict.get String.eqb counts k).
Proof.
  induction events as [|[k0 x] events IH]; intros counts; simpl.
  - exists counts. repeat split. intros k. now destruct (PyDict.get String.eqb counts k).
  - unfold PyDict.contains, PyDict.index.
    destruct (PyDict.get String.eqb counts k0) as [y|] eqn:E; simpl.
    + destruct (IH (PyDict.set String.eqb counts k0 (y + x))) as (c' & -> & Hk & Hg).
      exists c'. split; [reflexivity|]. split.
      * rewrite Hk, (PyDictFacts.keys_set String.eqb String.eqb_eq).
        unfold PyDict.contains. now rewrite E.
      * intros k. rewrite Hg. destruct (String.eqb k0 k) eqn:Ek.
        -- apply String.eqb_eq in Ek. subst k.
           rewrite (PyDictFacts.get_set_eq String.eqb String.eqb_eq), E. reflexivity.
        -- apply String.eqb_neq in Ek.
           now rewrite (PyDictFacts.get_set_ne String.eqb String.eqb_eq) by exact Ek.
    + destruct (IH counts) as (c' & -> & Hk & Hg).
      exists c'. repeat split; auto. intros k. rewrite Hg.
      destruct (String.eqb k0 k) eqn:Ek; auto.
      apply String.eqb_eq in Ek. subst k. now rewrite E.
Qed.

Lemma count_window_spec t0 t1 sched : forall counts,
  exists c',
    count_window t0 t1 counts sched = Ok c' /\
    PyDict.keys c' = PyDict.keys counts /\
    forall k,
      PyDict.get String.eqb c' k
      = option_map (fold_left Qplus (strengths_in t0 t1 sched k))
                   (PyDict.get String.eqb counts k).
Proof.
  induction sched as [|[ts events] sched IH]; intros counts; simpl.
  - exists counts. repeat split. intros k. now destruct (PyDict.get String.eqb counts k).
  - destruct (within t0 t1 ts).
    + destruct (count_events_spec events counts) as (c1 & -> & Hk1 & Hg1). simpl.
      destruct (IH c1) as (c' & -> & Hk & Hg).
      exists c'. split; [reflexivity|]. split; [congruence|].
      intros k. rewrite Hg, Hg1.
      destruct (PyDict.get String.eqb counts k); simpl; auto.
      unfold strengths_in. now rewrite fold_left_app.
    + destruct (IH counts) as (c' & -> & Hk & Hg). exists c'. auto.
Qed.

Lemma zero_counts_get order : forall c k,
  (forall k', In k' (PyDict.keys c) -> PyDict.get String.eqb c k' = Some 0) ->
  In k order \/ In k (PyDict.keys c) ->
  PyDict.get String.eqb (fold_left (fun c k => PyDict.set String.eqb c k 0) order c) k
  = Some 0.
Proof.
  induction order as [|x order IH]; intros c k Hc Hk; simpl.
  - destruct Hk as [[]|Hk]. now apply Hc.
  - apply IH.
    + intros k' Hk'. apply (PyDictFacts.In_keys_set String.eqb String.eqb_eq) in Hk'.
      destruct (String.eqb x k') eqn:E.
      * apply String.eqb_eq in E. subst.
        apply (PyDictFacts.get_set_eq String.eqb String.eqb_eq).
      * apply String.eqb_neq in E.
        rewrite (PyDictFacts.get_set_ne String.eqb String.eqb_eq) by exact E.
        destruct Hk' as [Hk'|Hk']; [now apply Hc|congruence].
    + rewrite (PyDictFacts.In_keys_set String.eqb String.eqb_eq).
      destruct Hk as [[->|Hk]|Hk]; auto.
Qed.

Lemma read_counts_spec counts (f : UnitKey -> Q) order :
  (forall k, In k order -> PyDict.get String.eqb counts k = Some (f k)) ->
  read_counts counts order = Ok (map f order).
Proof.
  induction order as [|k order IH]; intros Hg; simpl; auto.
  unfold PyDict.index. rewrite (Hg k) by (now left). simpl.
  rewrite IH by (intros k' Hk'; apply Hg; now right). reflexivity.
Qed.

Lemma to_vector_sums (s : t) (t0 t1 : Time) (unit_order : option (list UnitKey)) :
  to_vector s (t0, t1) unit_order
  = Ok (map (fun k => py_sum (strengths_in t0 t1 (_scheduled s) k))
            (vector_order s unit_order)).
Proof.
  unfold to_vector.
  set (order := vector_order s unit_order).
  set (c0 := fold_left (fun c k => PyDict.set String.eqb c k 0) order []).
  destruct (count_window_spec t0 t1 (_scheduled s) c0) as (c' & -> & _ & Hg). simpl.
  apply read_counts_spec. intros k Hk. rewrite Hg. unfold c0.
  rewrite zero_counts_get; auto. intros k' [].
Qed.

(** X6: [to_vector] never raises: it returns one number for each entry of the
    order, the sum of the strengths of the events of that unit that are
    still scheduled in the closed window; a unit that is listed twice is
    reported twice, and events of units that are not listed are ignored. *)
Theorem to_vector_counts (s : t) (t0 t1 : Time) (unit_order : option (list UnitKey)) :
  exists v,
    to_vector s (t0, t1) unit_order = Ok v /\
    v = map (fun k => py_sum (strengths_in t0 t1 (_scheduled s) k))
            (vector_order s unit_order) /\
    List.length v = List.length (vector_order s unit_order).
Proof.
  eexists. split; [apply to_vector_sums|]. split; [reflexivity|apply length_map].
Qed.

(** X7: Spikes are counted only while they are scheduled: once a step has
    consumed its window, a count over any part of that window is zero for
    every unit. *)
Theorem to_vector_after_step (s : t) (dt a b : Q) (unit_order : option (list UnitKey)) :
  _t s < a -> b <= _t s + dt ->
  to_vector (after_step s (Some dt)) (a, b) unit_order
  = Ok (map (fun _ => 0) (vector_order s unit_order)).
Proof.
  intros Ha Hb. rewrite to_vector_sums.
  destruct (after_step_state s (Some dt)) as (_ & _ & _ & _ & _ & Eu & Es & _).
  cbv zeta in *.
  assert (Eo : vector_order (after_step s (Some dt)) unit_order = vector_order s unit_order).
  { unfold vector_order. now rewrite Eu. }
  rewrite Eo. f_equal. apply map_ext. intros k. rewrite Es.
  assert (E : forall sched,
             strengths_in a b
               (filter (fun e => negb (due (_t s) (_t s + dt) (fst e))) sched) k = []).
  { induction sched as [|[ts events] sched IH]; simpl; auto.
    destruct (due (_t s) (_t s + dt) ts) eqn:Ed; simpl; auto.
    destruct (within a b ts) eqn:Ew; auto.
    exfalso. unfold within in Ew. apply andb_true_iff in Ew as [E1 E2].
    apply Qle_bool_iff in E1, E2.
    assert (Hd : due (_t s) (_t s + dt) ts = true).
    { apply due_iff. split.
      - now apply Qlt_le_trans with a.
      - now apply Qle_trans with b. }
    congruence. }
  now rewrite E.
Qed.

Lemma to_vector_after_step_witness :
  to_vector two_spikes (5 # 100, 1 # 10) None = Ok [0 + 1] /\
  to_vector (after_step two_spikes (Some (1 # 10))) (5 # 100, 1 # 10) None = Ok [0].
Proof.
  split; [reflexivity|].
  apply (to_vector_after_step two_spikes (1 # 10) (5 # 100) (1 # 10) None);
    vm_compute; congruence.
Defined.

End CellEnsembleRTFacts.

(** ** Feature ensembles *)

Module FeatureEnsembleFacts.
Import FeatureEnsemble.

Lemma fold_Qplus_compat (l1 l2 : list Q) : forall x1 x2,
  Forall2 Qeq l1 l2 -> x1 == x2 -> fold_left Qplus l1 x1 == fold_left Qplus l2 x2.
Proof.
  intros x1 x2 Hl. revert x1 x2.
  induction Hl as [|y1 y2 l1 l2 Hy Hl IH]; intros x1 x2 Hx; simpl; auto.
  apply IH. now rewrite Hx, Hy.
Qed.

Lemma products_sym (a : list Q) : forall b,
  Forall2 Qeq (map (fun '(x, y) => x * y) (combine a b))
              (map (fun '(x, y) => x * y) (combine b a)).
Proof.
  induction a as [|x a IH]; intros [|y b]; simpl; constructor.
  - apply Qmult_comm.
  - apply IH.
Qed.

(** X8: [_cosine] does not depend on the order of its arguments, and answers 0
    for an empty vector and for vectors of different lengths, whatever the
    square root is. *)
Theorem cosine_symmetric (H : Host) (a b : list Q) :
  _cosine H a b == _cosine H b a /\
  (a = [] \/ b = [] \/ List.length a <> List.length b -> _cosine H a b = 0).
Proof.
  split.
  - destruct a as [|x a], b as [|y b]; try reflexivity.
    unfold _cosine. rewrite (Nat.eqb_sym (List.length (y :: b))).
    destruct (Nat.eqb (List.length (x :: a)) (List.length (y :: b))); simpl negb;
      cbv iota; [|reflexivity].
    cbv zeta. rewrite (orb_comm (Qeq_bool (sqrt H (py_sum (map (fun y0 => y0 * y0) (y :: b)))) 0)).
    destruct (_ || _); [reflexivity|].
    unfold py_sum at 1 4.
    rewrite (fold_Qplus_compat _ _ 0 0 (products_sym (x :: a) (y :: b)) (Qeq_refl 0)).
    unfold Qdiv. now rewrite (Qmult_comm (sqrt H (py_sum (map (fun x0 => x0 * x0) (x :: a))))).
  - intros [->|[->|Hlen]]; [reflexivity|now destruct a|].
    destruct a as [|x a], b as [|y b]; try reflexivity.
    unfold _cosine. apply Nat.eqb_neq in Hlen. now rewrite Hlen.
Qed.

Lemma get_default_set_same (d : list (UUID * Q)) k v :
  PyDict.get_default N.eqb (PyDict.set N.eqb d k v) k 0 = v.
Proof.
  unfold PyDict.get_default. now rewrite (PyDictFacts.get_set_eq N.eqb N.eqb_eq).
Qed.

(** X9: [add_link] adds to the weight that is there (0 when the link is new),
    always leaves a link behind, and touches no other link and no other
    field; a second call adds to the result of the first, in that order. *)
Theorem add_link_accumulates (e : t) (target other : UUID) (w1 w2 : Q) :
  let e1 := add_link e target w1 in
  let e2 := add_link e1 target w2 in
  PyDict.get N.eqb (links e1) target
  = Some (PyDict.get_default N.eqb (links e) target 0 + w1) /\
  PyDict.get N.eqb (links e2) target
  = Some ((PyDict.get_default N.eqb (links e) target 0 + w1) + w2) /\
  (other <> target ->
   PyDict.get N.eqb (links e1) other = PyDict.get N.eqb (links e) other) /\
  (NoDup (PyDict.keys (links e)) -> NoDup (PyDict.keys (links e1))) /\
  set_links e1 (links e) = e.
Proof.
  cbv zeta. unfold add_link. cbn [links set_links].
  repeat split.
  - apply (PyDictFacts.get_set_eq N.eqb N.eqb_eq).
  - rewrite get_default_set_same. apply (PyDictFacts.get_set_eq N.eqb N.eqb_eq).
  - intros Hne. apply (PyDictFacts.get_set_ne N.eqb N.eqb_eq). congruence.
  - apply (PyDictFacts.NoDup_keys_set N.eqb N.eqb_eq).
  - now destruct e.
Qed.

Lemma clamp_range (f : Q) : 0 <= Qmax 0 (Qmin 1 f) /\ Qmax 0 (Qmin 1 f) <= 1.
Proof.
  split.
  - apply Q.le_max_l.
  - apply Q.max_lub; [discriminate|apply Q.le_min_l].
Qed.

(** X10: [decay] clamps the fraction to [[0, 1]]: a fraction of 1 or more clears
    the activation, a fraction of 0 or less keeps it; the activation never
    grows in magnitude nor changes sign, and nothing but the activation
    changes. *)
Theorem decay_clamps (e : t) (fraction : Q) :
  (1 <= fraction -> activation (decay e fraction) == 0) /\
  (fraction <= 0 -> activation (decay e fraction) == activation e) /\
  (0 <= fraction -> fraction <= 1 ->
   activation (decay e fraction) == activation e * (1 - fraction)) /\
  Qabs (activation (decay e fraction)) <= Qabs (activation e) /\
  0 <= activation (decay e fraction) * activation e /\
  set_activation (decay e fraction) (activation e) = e.
Proof.
  unfold decay. cbn [activation set_activation].
  destruct (clamp_range fraction) as [H0 H1].
  assert (Hc : 0 <= 1 - Qmax 0 (Qmin 1 fraction)) by (now apply Qle_minus_iff in H1).
  repeat split.
  - intros Hf. rewrite (Q.min_l 1 fraction) by exact Hf.
    rewrite Q.max_r by discriminate. ring.
  - intros Hf. rewrite Q.max_l; [ring|].
    apply Qle_trans with fraction; [apply Q.le_min_r|exact Hf].
  - intros Hf0 Hf1. rewrite (Q.min_r 1 fraction) by exact Hf1.
    now rewrite Q.max_r by exact Hf0.
  - rewrite Qabs_Qmult, (Qabs_pos _ Hc).
    apply Qle_trans with (Qabs (activation e) * 1);
      [|rewrite Qmult_1_r; apply Qle_refl].
    rewrite !(Qmult_comm (Qabs (activation e))).
    apply Qmult_le_compat_r; [|apply Qabs_nonneg].
    apply Qle_minus_iff.
    now setoid_replace (1 + - (1 - Qmax 0 (Qmin 1 fraction)))
      with (Qmax 0 (Qmin 1 fraction)) by ring.
  - setoid_replace (activation e * (1 - Qmax 0 (Qmin 1 fraction)) * activation e)
      with ((activation e * activation e) * (1 - Qmax 0 (Qmin 1 fraction))) by ring.
    apply Qmult_le_0_compat.
    + destruct (Qlt_le_dec (activation e) 0) as [Hn|Hp].
      * setoid_replace (activation e * activation e)
          with ((- activation e) * (- activation e)) by ring.
        apply Qmult_le_0_compat; apply Qlt_le_weak;
          change 0 with (- 0); now apply Qopp_lt_compat.
      * now apply Qmult_le_0_compat.
    + exact Hc.
  - now destruct e.
Qed.

Lemma inject_succ (n : nat) : inject_Z (Z.of_nat (S n)) == 1 + inject_Z (Z.of_nat n).
Proof. rewrite Nat2Z.inj_succ, <- Z.add_1_l, inject_Z_plus. reflexivity. Qed.

Lemma hebbian_fold (lr : Q) (l : list UUID) : forall acc : t,
  let e' :=
    fold_left
      (fun acc tid =>
         if N.eqb tid (ensemble_id acc) then acc
         else set_links acc
                (PyDict.set N.eqb (links acc) tid
                   (PyDict.get_default N.eqb (links acc) tid 0 + lr * activation acc)))
      l acc in
  set_links e' (links acc) = acc /\
  (forall tid, tid <> ensemble_id acc ->
     PyDict.get_default N.eqb (links e') tid 0
     == PyDict.get_default N.eqb (links acc) tid 0
        + inject_Z (Z.of_nat (count_occ N.eq_dec l tid)) * (lr * activation acc)) /\
  (forall tid, ~ In tid l \/ tid = ensemble_id acc ->
     PyDict.get N.eqb (links e') tid = PyDict.get N.eqb (links acc) tid).
Proof.
  induction l as [|x l IH]; intros acc; cbv zeta; simpl fold_left.
  - split; [now destruct acc|]. split; [|reflexivity].
    intros tid _. simpl. ring.
  - destruct (N.eqb x (ensemble_id acc)) eqn:E.
    + apply N.eqb_eq in E. destruct (IH acc) as (H1 & H2 & H3). cbv zeta in *.
      split; [exact H1|]. split.
      * intros tid Hne. rewrite (H2 tid Hne). simpl.
        destruct (N.eq_dec x tid); [congruence|reflexivity].
      * intros tid [Hni| ->]; apply H3; auto. left. intros Hin. apply Hni. now right.
    + apply N.eqb_neq in E.
      set (acc1 := set_links acc
                     (PyDict.set N.eqb (links acc) x
                        (PyDict.get_default N.eqb (links acc) x 0 + lr * activation acc))).
      destruct (IH acc1) as (H1 & H2 & H3). cbv zeta in *.
      split; [|split].
      * match goal with |- set_links ?e' _ = _ =>
          change (set_links (set_links e' (links acc1)) (links acc) = acc)
        end.
        rewrite H1. unfold acc1. now destruct acc.
      * intros tid Hne. rewrite (H2 tid Hne). unfold acc1 at 1 2. cbn [links set_links activation].
        simpl count_occ. destruct (N.eq_dec x tid) as [->|Hx].
        -- rewrite get_default_set_same, inject_succ. ring.
        -- unfold PyDict.get_default.
           rewrite (PyDictFacts.get_set_ne N.eqb N.eqb_eq) by exact Hx. reflexivity.
      * intros tid Hc. rewrite H3.
        -- unfold acc1. cbn [links set_links].
           apply (PyDictFacts.get_set_ne N.eqb N.eqb_eq).
           destruct Hc as [Hni| ->]; [|exact E]. intros ->. apply Hni. now left.
        -- destruct Hc as [Hni| ->]; [left|right; reflexivity].
           intros Hin. apply Hni. now right.
Qed.

(** The weight of a link after the loop: one addition for each occurrence
    of the target, applied one after the other to the weight before. *)
Lemma hebbian_iter (lr : Q) (l : list UUID) (tid : UUID) : forall acc : t,
  tid <> ensemble_id acc ->
  PyDict.get_default N.eqb
    (links (fold_left
              (fun acc tid =>
                 if N.eqb tid (ensemble_id acc) then acc
                 else set_links acc
                        (PyDict.set N.eqb (links acc) tid
                           (PyDict.get_default N.eqb (links acc) tid 0
                            + lr * activation acc)))
              l acc))
    tid 0
  = Nat.iter (count_occ N.eq_dec l tid) (fun x => x + lr * activation acc)
             (PyDict.get_default N.eqb (links acc) tid 0).
Proof.
  induction l as [|x l IH]; intros acc Hne; simpl fold_left; [reflexivity|].
  simpl count_occ.
  destruct (N.eqb x (ensemble_id acc)) eqn:E.
  - apply N.eqb_eq in E. rewrite (IH acc Hne).
    destruct (N.eq_dec x tid); [congruence|reflexivity].
  - rewrite IH by exact Hne. cbn [links set_links activation].
    destruct (N.eq_dec x tid) as [->|Hx].
    + rewrite get_default_set_same.
      symmetry. exact (Nat.iter_succ_r _ Q (fun y => y + lr * activation acc) _).
    + unfold PyDict.get_default.
      rewrite (PyDictFacts.get_set_ne N.eqb N.eqb_eq) by exact Hx. reflexivity.
Qed.

(** X11: [hebbian] adds [learning_rate * activation] to the link towards a
    co-active identity once for each of its occurrences in the list, one
    addition after the other; it creates no link to the ensemble itself, and
    leaves the other links and the other fields as they were. *)
Theorem hebbian_effect (e : t) (coactive_ids : list UUID) (learning_rate : Q) :
  let e' := hebbian e coactive_ids learning_rate in
  set_links e' (links e) = e /\
  (forall tid, tid <> ensemble_id e ->
     PyDict.get_default N.eqb (links e') tid 0
     = Nat.iter (count_occ N.eq_dec coactive_ids tid)
                (fun x => x + learning_rate * activation e)
                (PyDict.get_default N.eqb (links e) tid 0)) /\
  (forall tid, ~ In tid coactive_ids \/ tid = ensemble_id e ->
     PyDict.get N.eqb (links e') tid = PyDict.get N.eqb (links e) tid).
Proof.
  cbv zeta. destruct (hebbian_fold learning_rate coactive_ids e) as (H1 & _ & H3).
  split; [exact H1|]. split; [|exact H3].
  intros tid Hne. now apply hebbian_iter.
Qed.

End FeatureEnsembleFacts.

(** ** Concepts *)

Module ConceptFacts.
Import Concept.

Lemma Neqb_spec (x y : N) : N.eqb x y = true <-> x = y.
Proof. apply N.eqb_eq. Qed.

Lemma string_eqb_spec (x y : string) : String.eqb x y = true <-> x = y.
Proof. apply String.eqb_eq. Qed.

(** *** The table of deltas *)

Lemma set_starts_with ks delta k v :
  starts_with ks delta -> starts_with ks (PyDict.set N.eqb delta k v).
Proof.
  intros [Hnd (d1 & d2 & -> & Hk)]. split.
  - now apply (PyDictFacts.NoDup_keys_set N.eqb Neqb_spec).
  - destruct (PyDict.contains N.eqb d1 k) eqn:E.
    + rewrite (PyDictFacts.set_app_l N.eqb d1 d2 k v E).
      exists (PyDict.set N.eqb d1 k v), d2. split; auto.
      rewrite (PyDictFacts.keys_set N.eqb Neqb_spec), E. exact Hk.
    + assert (Hni : ~ In k (PyDict.keys d1)).
      { intros Hin. apply (PyDictFacts.contains_In N.eqb Neqb_spec) in Hin. congruence. }
      rewrite (PyDictFacts.set_app_r N.eqb Neqb_spec d1 d2 k v Hni).
      exists d1, (PyDict.set N.eqb d2 k v). auto.
Qed.

Lemma add_deltas_starts_with ks act (lnk : list (UUID * Q)) : forall delta,
  starts_with ks delta -> starts_with ks (add_deltas act lnk delta).
Proof.
  unfold add_deltas. induction lnk as [|[t0 w] lnk IH]; intros delta H; simpl; auto.
  apply IH. now apply set_starts_with.
Qed.

Lemma keys_zeros (b : list (UUID * FeatureEnsemble.t)) :
  PyDict.keys (map (fun '(eid, _) => (eid, 0)) b) = PyDict.keys b.
Proof.
  unfold PyDict.keys. rewrite map_map. apply map_ext. now intros [k e].
Qed.

Lemma spread_delta_starts_with (c : t) :
  NoDup (PyDict.keys (ensembles_by_id c)) ->
  starts_with (PyDict.keys (ensembles_by_id c)) (spread_delta c).
Proof.
  intros Hnd. unfold spread_delta.
  set (ks := PyDict.keys (ensembles_by_id c)).
  assert (H0 : starts_with ks (map (fun '(eid, _) => (eid, 0)) (ensembles_by_id c))).
  { split.
    - now rewrite keys_zeros.
    - eexists _, []. rewrite app_nil_r. split; [reflexivity|]. apply keys_zeros. }
  revert H0. generalize (map (fun '(eid, _) => (eid, 0 : Q)) (ensembles_by_id c)).
  generalize (ensembles_by_id c) as srcs.
  induction srcs as [|[sid s] srcs IH]; intros delta H; simpl; auto.
  apply IH. destruct (Qle_bool (FeatureEnsemble.activation s) 0); auto.
  now apply add_deltas_starts_with.
Qed.

(** *** Applying the deltas *)

Lemma apply_delta_existing (post : list (UUID * FeatureEnsemble.t)) :
  forall pre d1 rest,
    PyDict.keys d1 = PyDict.keys post ->
    NoDup (PyDict.keys (pre ++ post)) ->
    apply_delta (pre ++ post) (d1 ++ rest) = apply_delta (pre ++ bump post d1) rest.
Proof.
  induction post as [|[k e] post IH]; intros pre d1 rest Hk Hnd.
  - destruct d1; [reflexivity|discriminate].
  - destruct d1 as [|[k' d] d1]; [discriminate|].
    simpl in Hk. injection Hk as -> Hk. simpl.
    assert (Hni : ~ In k (PyDict.keys pre)).
    { unfold PyDict.keys in *. rewrite map_app in Hnd. simpl in Hnd.
      apply NoDup_remove_2 in Hnd. rewrite in_app_iff in Hnd. tauto. }
    rewrite (PyDictFacts.get_app_r N.eqb Neqb_spec) by exact Hni.
    simpl. rewrite N.eqb_refl.
    rewrite (PyDictFacts.set_app_r N.eqb Neqb_spec) by exact Hni.
    simpl. rewrite N.eqb_refl.
    specialize (IH (pre ++ [(k, FeatureEnsemble.set_activation e
                                  (FeatureEnsemble.activation e + d))]) d1 rest Hk).
    rewrite <- !app_assoc in IH. simpl in IH. apply IH.
    unfold PyDict.keys in *. rewrite !map_app in *. simpl in *. exact Hnd.
Qed.

Lemma apply_delta_dangling (b : list (UUID * FeatureEnsemble.t)) (d2 : list (UUID * Q)) :
  (forall k, In k (PyDict.keys d2) -> ~ In k (PyDict.keys b)) ->
  apply_delta b d2 = (b, match d2 with [] => Ok tt | _ => Raise KeyError end).
Proof.
  destruct d2 as [|[k d] d2]; [reflexivity|]. intros H. simpl.
  assert (Hk : ~ In k (PyDict.keys b)) by (apply H; now left).
  apply (PyDictFacts.get_None N.eqb Neqb_spec) in Hk. now rewrite Hk.
Qed.

Lemma keys_bump (b : list (UUID * FeatureEnsemble.t)) : forall d1,
  PyDict.keys d1 = PyDict.keys b -> PyDict.keys (bump b d1) = PyDict.keys b.
Proof.
  induction b as [|[k e] b IH]; intros [|[k' d] d1] Hk; try discriminate; auto.
  simpl in *. injection Hk as -> Hk. f_equal. now apply IH.
Qed.

(** The spread stage as a whole: every ensemble receives the delta stored
    under its identity; the stage raises iff the table holds a target that is
    no ensemble. *)
Lemma spread_shape (c : t) :
  NoDup (PyDict.keys (ensembles_by_id c)) ->
  exists d1 d2,
    spread_delta c = d1 ++ d2 /\
    PyDict.keys d1 = PyDict.keys (ensembles_by_id c) /\
    NoDup (PyDict.keys (d1 ++ d2)) /\
    spread c = (set_by_id c (bump (ensembles_by_id c) d1),
                match d2 with [] => Ok tt | _ => Raise KeyError end).
Proof.
  intros Hnd. destruct (spread_delta_starts_with c Hnd) as [Hnd' (d1 & d2 & Hd & Hk)].
  exists d1, d2. rewrite Hd in Hnd'. repeat split; auto.
  unfold spread. rewrite Hd.
  pose proof (apply_delta_existing (ensembles_by_id c) [] d1 d2 Hk Hnd) as Ha.
  simpl in Ha. rewrite Ha.
  rewrite apply_delta_dangling; [reflexivity|].
  intros k Hin. rewrite keys_bump by exact Hk. rewrite <- Hk.
  unfold PyDict.keys in Hnd'. rewrite map_app in Hnd'.
  intros Hin'. exact (NoDup_app_disjoint _ _ Hnd' k Hin' Hin).
Qed.

Lemma wf_NoDup (c : t) : wf c = true -> NoDup (PyDict.keys (ensembles_by_id c)).
Proof.
  intros H. apply andb_true_iff in H as [H _].
  now apply (PyDictFacts.uniq_NoDup N.eqb Neqb_spec).
Qed.

(** *** The concept handed to the spread stage *)

(** The concept that [stimulate] hands to its spread stage is well formed
    when the concept it was called on is. *)
Lemma update_ensemble_wf (c : t) i (f : FeatureEnsemble.t -> FeatureEnsemble.t) :
  (forall e, FeatureEnsemble.links (f e) = FeatureEnsemble.links e) ->
  wf c = true -> wf (update_ensemble c i f) = true.
Proof.
  intros Hf Hwf. unfold update_ensemble.
  destruct (PyDict.get N.eqb (ensembles_by_id c) i) as [e|] eqn:Eg; auto.
  unfold wf in *. simpl. apply andb_true_iff in Hwf as [Hu Hl].
  apply andb_true_iff. split.
  - apply (PyDictFacts.uniq_NoDup N.eqb Neqb_spec).
    apply (PyDictFacts.NoDup_keys_set N.eqb Neqb_spec).
    now apply (PyDictFacts.uniq_NoDup N.eqb Neqb_spec).
  - rewrite forallb_forall in *. intros [k v] Hin.
    apply (PyDictFacts.In_set N.eqb) in Hin as [Hin|Hv].
    + exact (Hl _ Hin).
    + simpl in Hv. subst v. rewrite Hf.
      apply (PyDictFacts.get_In N.eqb Neqb_spec) in Eg. exact (Hl _ Eg).
Qed.

Lemma direct_activation_wf H cues gain : forall c,
  wf c = true -> wf (direct_activation H c cues gain) = true.
Proof.
  unfold direct_activation.
  induction cues as [|[nm vec] cues IH]; intros c Hwf; simpl; auto.
  apply IH. destruct (PyDict.get String.eqb (ensembles_by_name c) nm); auto.
  apply update_ensemble_wf; auto.
Qed.

(** *** Dangling link targets *)

Lemma add_deltas_keys act (lnk : list (UUID * Q)) : forall delta k,
  In k (PyDict.keys (add_deltas act lnk delta)) <->
  In k (PyDict.keys delta) \/ In k (PyDict.keys lnk).
Proof.
  unfold add_deltas. induction lnk as [|[t0 w] lnk IH]; intros delta k; simpl.
  - tauto.
  - rewrite IH, (PyDictFacts.In_keys_set N.eqb Neqb_spec). intuition.
Qed.

Lemma spread_fold_keys (srcs : list (UUID * FeatureEnsemble.t)) : forall delta k,
  In k (PyDict.keys
          (fold_left
             (fun delta '(_, s) =>
                if Qle_bool (FeatureEnsemble.activation s) 0 then delta
                else add_deltas (FeatureEnsemble.activation s)
                                (FeatureEnsemble.links s) delta)
             srcs delta)) <->
  In k (PyDict.keys delta) \/
  exists sid s, In (sid, s) srcs /\
                Qle_bool (FeatureEnsemble.activation s) 0 = false /\
                In k (PyDict.keys (FeatureEnsemble.links s)).
Proof.
  induction srcs as [|[sid s] srcs IH]; intros delta k; simpl.
  - split; [tauto|]. intros [Hk|(sid & s & [] & _)]. exact Hk.
  - rewrite IH. destruct (Qle_bool (FeatureEnsemble.activation s) 0) eqn:E.
    + split.
      * intros [Hk|(sid' & s' & Hin & Hact & Hl)]; [tauto|].
        right. exists sid', s'. auto.
      * intros [Hk|(sid' & s' & [Heq|Hin] & Hact & Hl)]; [tauto| |].
        -- inversion Heq; subst. congruence.
        -- right. exists sid', s'. auto.
    + rewrite add_deltas_keys. split.
      * intros [[Hk|Hk]|(sid' & s' & Hin & Hact & Hl)]; [tauto| |].
        -- right. exists sid, s. auto.
        -- right. exists sid', s'. auto.
      * intros [Hk|(sid' & s' & [Heq|Hin] & Hact & Hl)]; [tauto| |].
        -- inversion Heq; subst. tauto.
        -- right. exists sid', s'. auto.
Qed.

(** The spread stage raises exactly when an ensemble with a strictly positive
    activation holds a link to an identity that is no ensemble. *)
Lemma spread_raises_iff (c : t) :
  wf c = true ->
  snd (spread c) = Raise KeyError <->
  exists sid s t_id w,
    In (sid, s) (ensembles_by_id c) /\
    0 < FeatureEnsemble.activation s /\
    In (t_id, w) (FeatureEnsemble.links s) /\
    ~ In t_id (PyDict.keys (ensembles_by_id c)).
Proof.
  intros Hwf. pose proof (wf_NoDup c Hwf) as Hnd.
  destruct (spread_shape c Hnd) as (d1 & d2 & Hd & Hk & Hnd' & Hs).
  rewrite Hs. simpl.
  assert (Hkeys : forall k, In k (PyDict.keys (spread_delta c)) <->
                            In k (PyDict.keys (ensembles_by_id c)) \/
                            exists sid s, In (sid, s) (ensembles_by_id c) /\
                              Qle_bool (FeatureEnsemble.activation s) 0 = false /\
                              In k (PyDict.keys (FeatureEnsemble.links s))).
  { intros k. unfold spread_delta. rewrite spread_fold_keys, keys_zeros. tauto. }
  assert (Hact : forall s : FeatureEnsemble.t,
             Qle_bool (FeatureEnsemble.activation s) 0 = false <->
             0 < FeatureEnsemble.activation s).
  { intros s. destruct (Qle_bool (FeatureEnsemble.activation s) 0) eqn:E.
    - apply Qle_bool_iff in E. split; [discriminate|].
      intros Hlt. exfalso. exact (Qlt_not_le _ _ Hlt E).
    - split; auto. intros _. apply Qnot_le_lt. intros Hle.
      apply Qle_bool_iff in Hle. congruence. }
  split.
  - intros Hr. destruct d2 as [|[k d] d2]; [discriminate|].
    assert (Hin : In k (PyDict.keys (spread_delta c))).
    { rewrite Hd. unfold PyDict.keys. rewrite map_app, in_app_iff. right. now left. }
    assert (Hni : ~ In k (PyDict.keys (ensembles_by_id c))).
    { rewrite <- Hk. intros Hk1. unfold PyDict.keys in Hnd'. rewrite map_app in Hnd'.
      apply (NoDup_app_disjoint _ _ Hnd' k Hk1). now left. }
    apply Hkeys in Hin as [Hin|(sid & s & Hs1 & Hs2 & Hs3)]; [contradiction|].
    apply in_map_iff in Hs3 as ([t_id w] & <- & Hs3).
    exists sid, s, t_id, w. repeat split; auto. now apply Hact.
  - intros (sid & s & t_id & w & Hin & Hpos & Hl & Hni).
    assert (Ht : In t_id (PyDict.keys (spread_delta c))).
    { apply Hkeys. right. exists sid, s. repeat split; auto.
      - now apply Hact.
      - apply (in_map fst) in Hl. exact Hl. }
    rewrite Hd in Ht. unfold PyDict.keys in Ht. rewrite map_app, in_app_iff in Ht.
    destruct Ht as [Ht|Ht].
    + exfalso. apply Hni. rewrite <- Hk. exact Ht.
    + destruct d2; [destruct Ht|reflexivity].
Qed.

(** C2 (the code at the failing input): the ensemble ["shape"] is active and
    holds a link to identity 99, which is no ensemble of the concept;
    [stimulate] with no cues raises [KeyError], after the spread has been
    applied to ["shape"] and before the lateral inhibition.  In general the
    spread stage raises [KeyError] exactly when an ensemble with a strictly
    positive activation holds a link to an identity that is no ensemble. *)
Theorem stimulate_dangling_raises (H : Host) :
  stimulate H dangling [] 1 = (dangling, Raise KeyError) /\
  (forall c,
      wf c = true ->
      snd (spread c) = Raise KeyError <->
      exists sid s t_id w,
        In (sid, s) (ensembles_by_id c) /\
        0 < FeatureEnsemble.activation s /\
        In (t_id, w) (FeatureEnsemble.links s) /\
        ~ In t_id (PyDict.keys (ensembles_by_id c))).
Proof.
  split; [vm_compute; reflexivity|]. exact spread_raises_iff.
Qed.

(** *** The two indexes of a concept *)

Lemma same_index_refl c : same_index c c.
Proof. split; reflexivity. Qed.

Lemma same_index_trans c1 c2 c3 :
  same_index c1 c2 -> same_index c2 c3 -> same_index c1 c3.
Proof. intros [H1 H2] [H3 H4]. split; congruence. Qed.

Lemma map_ensembles_index c f : same_index c (map_ensembles c f).
Proof.
  split; [|reflexivity]. unfold map_ensembles, PyDict.keys. simpl.
  rewrite map_map. apply map_ext. now intros [k e].
Qed.

Lemma keys_set_present {V : Type} (d : list (UUID * V)) k v v' :
  PyDict.get N.eqb d k = Some v' -> PyDict.keys (PyDict.set N.eqb d k v) = PyDict.keys d.
Proof.
  intros H. rewrite (PyDictFacts.keys_set N.eqb Neqb_spec).
  unfold PyDict.contains. now rewrite H.
Qed.

Lemma update_ensemble_index c i f : same_index c (update_ensemble c i f).
Proof.
  unfold update_ensemble.
  destruct (PyDict.get N.eqb (ensembles_by_id c) i) as [e|] eqn:E.
  - split; [|reflexivity]. simpl. eapply keys_set_present, E.
  - apply same_index_refl.
Qed.

Lemma direct_activation_index H cues gain : forall c,
  same_index c (direct_activation H c cues gain).
Proof.
  unfold direct_activation.
  induction cues as [|[nm vec] cues IH]; intros c; simpl.
  - apply same_index_refl.
  - eapply same_index_trans; [|apply IH].
    destruct (PyDict.get String.eqb (ensembles_by_name c) nm).
    + apply update_ensemble_index.
    + apply same_index_refl.
Qed.

Lemma apply_delta_keys items : forall b,
  PyDict.keys (fst (apply_delta b items)) = PyDict.keys b.
Proof.
  induction items as [|[k d] items IH]; intros b; simpl; auto.
  destruct (PyDict.get N.eqb b k) as [e|] eqn:E; simpl; auto.
  rewrite IH. eapply keys_set_present, E.
Qed.

Lemma spread_index c : same_index c (fst (spread c)).
Proof.
  unfold spread.
  pose proof (apply_delta_keys (spread_delta c) (ensembles_by_id c)) as Hk.
  destruct (apply_delta (ensembles_by_id c) (spread_delta c)) as [b r].
  split; [exact Hk|reflexivity].
Qed.

Lemma lateral_inhibition_index c : same_index c (fst (_lateral_inhibition c)).
Proof.
  unfold _lateral_inhibition.
  destruct (Qle_bool _ _); [apply same_index_refl|].
  destruct (ensembles_by_id c) eqn:E; [apply same_index_refl|].
  destruct (Qeq_bool _ _); [apply same_index_refl|].
  simpl. apply map_ensembles_index.
Qed.

Lemma stimulate_index H c cues gain : same_index c (fst (stimulate H c cues gain)).
Proof.
  unfold stimulate.
  pose proof (direct_activation_index H cues gain c) as H1.
  pose proof (spread_index (direct_activation H c cues gain)) as H2.
  destruct (spread (direct_activation H c cues gain)) as [c2 [u|e]]; simpl in *.
  - pose proof (lateral_inhibition_index c2) as H3.
    destruct (_lateral_inhibition c2) as [c3 [u'|e]]; simpl in *;
      eauto using same_index_trans.
  - eauto using same_index_trans.
Qed.

Lemma names_resolve_same c c' : same_index c c' -> names_resolve c -> names_resolve c'.
Proof. intros [H1 H2] H nm i. rewrite H1, H2. apply H. Qed.

Lemma ids_named_same c c' : same_index c c' -> ids_named c -> ids_named c'.
Proof. intros [H1 H2] H i. rewrite H1, H2. apply H. Qed.

Lemma add_ensemble_names_resolve c e : names_resolve c -> names_resolve (add_ensemble c e).
Proof.
  intros Hc nm i. unfold add_ensemble. simpl.
  rewrite (PyDictFacts.In_keys_set N.eqb Neqb_spec).
  destruct (String.eqb (FeatureEnsemble.name e) nm) eqn:E.
  - apply String.eqb_eq in E. subst nm.
    rewrite (PyDictFacts.get_set_eq String.eqb string_eqb_spec).
    intros [= <-]. now right.
  - apply String.eqb_neq in E.
    rewrite (PyDictFacts.get_set_ne String.eqb string_eqb_spec) by exact E.
    intros Hg. left. eapply Hc, Hg.
Qed.

Lemma add_ensemble_ids_named c e :
  collides c e = false -> ids_named c -> ids_named (add_ensemble c e).
Proof.
  intros Hcol Hc i. unfold add_ensemble. simpl.
  rewrite (PyDictFacts.In_keys_set N.eqb Neqb_spec). intros [Hi| ->].
  - destruct (Hc i Hi) as (nm & Hnm).
    destruct (String.eqb (FeatureEnsemble.name e) nm) eqn:E.
    + apply String.eqb_eq in E. subst nm. unfold collides in Hcol.
      rewrite Hnm in Hcol. apply negb_false_iff, N.eqb_eq in Hcol. subst i.
      exists (FeatureEnsemble.name e).
      apply (PyDictFacts.get_set_eq String.eqb string_eqb_spec).
    + apply String.eqb_neq in E. exists nm.
      now rewrite (PyDictFacts.get_set_ne String.eqb string_eqb_spec) by exact E.
  - exists (FeatureEnsemble.name e).
    apply (PyDictFacts.get_set_eq String.eqb string_eqb_spec).
Qed.

Lemma apply_op_same_index H c o :
  (forall e, o <> OpAddEnsemble e) -> same_index c (apply_op H c o).
Proof.
  destruct o as [e|cues gain|lr m|rel target descr|f]; intros Hne; simpl.
  - now destruct (Hne e).
  - apply stimulate_index.
  - apply map_ensembles_index.
  - split; reflexivity.
  - apply map_ensembles_index.
Qed.

Lemma run_names_resolve H ops : forall c, names_resolve c -> names_resolve (run H c ops).
Proof.
  unfold run. induction ops as [|o ops IH]; intros c Hc; simpl; auto.
  apply IH. destruct o as [e|cues gain|lr m|rel target descr|f].
  - now apply add_ensemble_names_resolve.
  - eapply names_resolve_same; [apply (apply_op_same_index H c (OpStimulate cues gain))|];
      [discriminate|auto].
  - eapply names_resolve_same; [apply (apply_op_same_index H c (OpLearnHebbian lr m))|];
      [discriminate|auto].
  - exact Hc.
  - eapply names_resolve_same; [apply (apply_op_same_index H c (OpDecayAll f))|];
      [discriminate|auto].
Qed.

Lemma run_ids_named H ops : forall c,
  collision_free H c ops = true -> ids_named c -> ids_named (run H c ops).
Proof.
  unfold run. induction ops as [|o ops IH]; intros c Hcf Hc; simpl; auto.
  simpl in Hcf. apply andb_true_iff in Hcf as [Ho Hcf].
  apply IH; [exact Hcf|]. destruct o as [e|cues gain|lr m|rel target descr|f].
  - apply add_ensemble_ids_named; auto. now apply negb_true_iff.
  - eapply ids_named_same; [apply (apply_op_same_index H c (OpStimulate cues gain))|];
      [discriminate|auto].
  - eapply ids_named_same; [apply (apply_op_same_index H c (OpLearnHebbian lr m))|];
      [discriminate|auto].
  - exact Hc.
  - eapply ids_named_same; [apply (apply_op_same_index H c (OpDecayAll f))|];
      [discriminate|auto].
Qed.

(** C3, as amended: after any history of calls on a fresh concept, every
    indexed name leads to an ensemble that is present; and every ensemble that
    is present is reached from some name provided no [add_ensemble] of the
    history used a name already indexed to another identity. *)
Theorem index_agreement (H : Host) (fresh : UUID) (nm descr : string)
  (md : option Metadata) (gain thr : Q) (ops : list op) :
  names_resolve (run H (new fresh nm descr md gain thr) ops) /\
  (collision_free H (new fresh nm descr md gain thr) ops = true ->
   ids_named (run H (new fresh nm descr md gain thr) ops)).
Proof.
  split.
  - apply run_names_resolve. intros n i. simpl. discriminate.
  - intros Hcf. apply run_ids_named; auto. intros i. simpl. tauto.
Qed.

(** The history that registers ["shape"] and then ["color"] has no collision,
    and both ensembles are reached from their names. *)
Lemma index_agreement_witness :
  collision_free example_host (blank 10 "A"%string)
    [OpAddEnsemble (ens 1 "shape"%string 1 [(2%N, 2 # 10)]);
     OpAddEnsemble (ens 2 "color"%string 0 []);
     OpStimulate [] 1; OpLearnHebbian (5 # 100) None] = true /\
  ids_named (run example_host (blank 10 "A"%string)
    [OpAddEnsemble (ens 1 "shape"%string 1 [(2%N, 2 # 10)]);
     OpAddEnsemble (ens 2 "color"%string 0 []);
     OpStimulate [] 1; OpLearnHebbian (5 # 100) None]).
Proof.
  split; [vm_compute; reflexivity|].
  apply (proj2 (index_agreement example_host 10 "A"%string EmptyString None
                  (1 # 4) (15 # 100) _)).
  vm_compute. reflexivity.
Defined.

(** C3 as stated fails: after two [add_ensemble] calls with the same name and
    different identities, the first ensemble is still in the identity map and
    no name leads to it. *)
Lemma index_agreement_counterexample :
  ~ (names_resolve (run example_host (blank 10 "A"%string) same_name_twice) /\
     ids_named (run example_host (blank 10 "A"%string) same_name_twice)).
Proof.
  intros [_ Hn]. destruct (Hn 1%N) as (nm & Hnm).
  - vm_compute. auto.
  - assert (E : ensembles_by_name (run example_host (blank 10 "A"%string) same_name_twice)
                = [("x"%string, 2%N)]) by (vm_compute; reflexivity).
    rewrite E in Hnm. cbn [PyDict.get] in Hnm.
    destruct (String.eqb "x"%string nm); discriminate.
Qed.

(** *** Engram round trip *)

Lemma same_header_refl c : same_header c c.
Proof. repeat split. Qed.

Lemma same_header_trans c1 c2 c3 :
  same_header c1 c2 -> same_header c2 c3 -> same_header c1 c3.
Proof.
  unfold same_header. intros (A1 & A2 & A3 & A4 & A5 & A6 & A7)
                             (B1 & B2 & B3 & B4 & B5 & B6 & B7).
  repeat split; congruence.
Qed.

Lemma add_ensemble_header c e : same_header c (add_ensemble c e).
Proof. repeat split. Qed.

Lemma update_ensemble_header c i f : same_header c (update_ensemble c i f).
Proof.
  unfold update_ensemble.
  destruct (PyDict.get N.eqb (ensembles_by_id c) i); repeat split.
Qed.

Lemma fold_set_append {K V : Type} (keq : K -> K -> bool)
  (keq_spec : forall x y, keq x y = true <-> x = y) (l : list (K * V)) :
  forall pre,
    NoDup (PyDict.keys (pre ++ l)) ->
    fold_left (fun d '(k, v) => PyDict.set keq d k v) l pre = pre ++ l.
Proof.
  induction l as [|[k v] l IH]; intros pre Hnd; simpl.
  - now rewrite app_nil_r.
  - assert (Hni : ~ In k (PyDict.keys pre)).
    { unfold PyDict.keys in *. rewrite map_app in Hnd. simpl in Hnd.
      apply NoDup_remove_2 in Hnd. rewrite in_app_iff in Hnd. tauto. }
    pose proof (PyDictFacts.set_app_r keq keq_spec pre [] k v Hni) as Hs.
    rewrite app_nil_r in Hs. simpl in Hs. rewrite Hs.
    rewrite IH; rewrite <- app_assoc; [reflexivity|exact Hnd].
Qed.

Section RoundTrip.
Variable H : Host.
Hypothesis parse_str : forall u, uuid_parse H (uuid_str H u) = Some u.

Lemma uuid_str_inj u v : uuid_str H u = uuid_str H v -> u = v.
Proof.
  intros E. apply (f_equal (uuid_parse H)) in E. rewrite !parse_str in E. congruence.
Qed.

Lemma parse_uuid_str u : parse_uuid H (uuid_str H u) = Ok u.
Proof. unfold parse_uuid. now rewrite parse_str. Qed.

Lemma serialize_links_map (lnk : list (UUID * Q)) :
  NoDup (PyDict.keys lnk) ->
  serialize_links H lnk = map (fun '(t_id, w) => (uuid_str H t_id, w)) lnk.
Proof.
  intros Hnd. unfold serialize_links.
  transitivity (fold_left (fun d '(k, v) => PyDict.set String.eqb d k v)
                  (map (fun '(t_id, w) => (uuid_str H t_id, w)) lnk)
                  ([] : list (string * Q))).
  - generalize ([] : list (string * Q)).
    induction lnk as [|[t0 w] lnk IH]; intros acc; simpl; auto.
    apply IH. now apply NoDup_cons_iff in Hnd.
  - rewrite (fold_set_append String.eqb string_eqb_spec); [reflexivity|].
    simpl. unfold PyDict.keys in *. rewrite map_map.
    clear -Hnd parse_str. induction lnk as [|[t0 w] lnk IH]; simpl; [constructor|].
    simpl in Hnd. apply NoDup_cons_iff in Hnd as [Hni Hnd].
    constructor; auto. intros Hin. apply Hni.
    apply in_map_iff in Hin as ([t1 w1] & E & Hin). simpl in E.
    apply uuid_str_inj in E. subst t1. apply (in_map fst) in Hin. exact Hin.
Qed.

Lemma load_ensembles fresh (es : list FeatureEnsemble.t) : forall c,
  foldM (load_ensemble H fresh) (map (serialize_ensemble H) es) c
  = Ok (fold_left add_ensemble (map (shell fresh) es) c).
Proof.
  induction es as [|e es IH]; intros c; simpl; auto.
  unfold load_ensemble at 1. simpl. rewrite parse_uuid_str. simpl. apply IH.
Qed.

Lemma fold_add_ensemble_header (es : list FeatureEnsemble.t) : forall c,
  same_header c (fold_left add_ensemble es c).
Proof.
  induction es as [|e es IH]; intros c; simpl.
  - apply same_header_refl.
  - eapply same_header_trans; [apply (add_ensemble_header c e)|apply IH].
Qed.

Lemma fold_add_ensemble_by_id (es : list FeatureEnsemble.t) : forall c,
  NoDup (PyDict.keys (ensembles_by_id c) ++ map FeatureEnsemble.ensemble_id es) ->
  ensembles_by_id (fold_left add_ensemble es c)
  = ensembles_by_id c ++ map (fun e => (FeatureEnsemble.ensemble_id e, e)) es.
Proof.
  induction es as [|e es IH]; intros c Hnd; simpl.
  - now rewrite app_nil_r.
  - assert (Hni : ~ In (FeatureEnsemble.ensemble_id e) (PyDict.keys (ensembles_by_id c))).
    { apply NoDup_remove_2 in Hnd. rewrite in_app_iff in Hnd. tauto. }
    assert (Hs : ensembles_by_id (add_ensemble c e)
                 = ensembles_by_id c ++ [(FeatureEnsemble.ensemble_id e, e)]).
    { unfold add_ensemble. simpl.
      pose proof (PyDictFacts.set_app_r N.eqb Neqb_spec (ensembles_by_id c) []
                    (FeatureEnsemble.ensemble_id e) e Hni) as Hs.
      rewrite app_nil_r in Hs. exact Hs. }
    rewrite IH; rewrite Hs.
    + now rewrite <- app_assoc.
    + unfold PyDict.keys. rewrite map_app, <- app_assoc. exact Hnd.
Qed.

Lemma update_ensemble_at c k f done s todo :
  ensembles_by_id c = done ++ (k, s) :: todo ->
  ~ In k (PyDict.keys done) ->
  ensembles_by_id (update_ensemble c k f) = done ++ (k, f s) :: todo.
Proof.
  intros Hb Hni. unfold update_ensemble. rewrite Hb.
  rewrite (PyDictFacts.get_app_r N.eqb Neqb_spec) by exact Hni.
  simpl. rewrite N.eqb_refl. simpl.
  rewrite (PyDictFacts.set_app_r N.eqb Neqb_spec) by exact Hni.
  simpl. now rewrite N.eqb_refl.
Qed.

Lemma link_fold_by_id k (l : list (UUID * Q)) : forall c done s todo,
  ensembles_by_id c = done ++ (k, s) :: todo ->
  ~ In k (PyDict.keys done) ->
  ensembles_by_id (fold_left (link_step k) l c)
  = done ++ (k, FeatureEnsemble.set_links s
                  (fold_left (fun d '(t_id, w) => PyDict.set N.eqb d t_id w) l
                             (FeatureEnsemble.links s))) :: todo
  /\ same_header c (fold_left (link_step k) l c).
Proof.
  induction l as [|[t0 w] l IH]; intros c done s todo Hb Hni; simpl.
  - split; [|apply same_header_refl]. rewrite Hb. now destruct s.
  - pose proof (update_ensemble_at c k
                  (fun s => FeatureEnsemble.set_links s
                              (PyDict.set N.eqb (FeatureEnsemble.links s) t0 w))
                  done s todo Hb Hni) as Hu.
    destruct (IH _ _ _ _ Hu Hni) as [Hb' Hh]. split.
    + exact Hb'.
    + eapply same_header_trans; [apply update_ensemble_header|exact Hh].
Qed.

Lemma load_links_one (c : t) (e : FeatureEnsemble.t) :
  NoDup (PyDict.keys (FeatureEnsemble.links e)) ->
  In (FeatureEnsemble.ensemble_id e) (PyDict.keys (ensembles_by_id c)) ->
  load_links H c (serialize_ensemble H e)
  = Ok (fold_left (link_step (FeatureEnsemble.ensemble_id e)) (FeatureEnsemble.links e) c).
Proof.
  intros Hnd Hin. unfold load_links. simpl. rewrite parse_uuid_str. simpl.
  apply (PyDictFacts.contains_In N.eqb Neqb_spec) in Hin.
  unfold PyDict.index, PyDict.contains in *.
  destruct (PyDict.get N.eqb (ensembles_by_id c) (FeatureEnsemble.ensemble_id e));
    [|discriminate]. simpl.
  rewrite serialize_links_map by exact Hnd.
  generalize (FeatureEnsemble.links e) as l. clear Hin Hnd. revert c.
  intros c l. revert c. induction l as [|[tk wk] l IH]; intros c; simpl; auto.
  rewrite parse_uuid_str. simpl. apply IH.
Qed.

Lemma load_all_links fresh (es : list FeatureEnsemble.t) : forall pre c,
  ensembles_by_id c
  = pre ++ map (fun e => (FeatureEnsemble.ensemble_id e, shell fresh e)) es ->
  NoDup (PyDict.keys pre ++ map FeatureEnsemble.ensemble_id es) ->
  (forall e, In e es -> NoDup (PyDict.keys (FeatureEnsemble.links e))) ->
  exists c',
    foldM (load_links H) (map (serialize_ensemble H) es) c = Ok c' /\
    ensembles_by_id c'
    = pre ++ map (fun e => (FeatureEnsemble.ensemble_id e, reloaded e)) es /\
    same_header c c'.
Proof.
  induction es as [|e es IH]; intros pre c Hb Hnd Hl; simpl.
  - exists c. repeat split; auto.
  - assert (Hni : ~ In (FeatureEnsemble.ensemble_id e) (PyDict.keys pre)).
    { apply NoDup_remove_2 in Hnd. rewrite in_app_iff in Hnd. tauto. }
    rewrite load_links_one.
    + simpl in Hb.
      destruct (link_fold_by_id (FeatureEnsemble.ensemble_id e)
                  (FeatureEnsemble.links e) c pre _ _ Hb Hni) as [Hb' Hh].
      rewrite (fold_set_append N.eqb Neqb_spec) in Hb'
        by (simpl; apply Hl; now left).
      simpl in Hb'.
      destruct (IH (pre ++ [(FeatureEnsemble.ensemble_id e, reloaded e)])
                  (fold_left (link_step (FeatureEnsemble.ensemble_id e))
                             (FeatureEnsemble.links e) c))
        as (c' & Hc' & Hb'' & Hh').
      * rewrite Hb', <- app_assoc. reflexivity.
      * unfold PyDict.keys. rewrite map_app, <- app_assoc. exact Hnd.
      * intros e' He'. apply Hl. now right.
      * exists c'. simpl. rewrite Hc'. split; [reflexivity|]. split.
        -- rewrite Hb'', <- app_assoc. reflexivity.
        -- eapply same_header_trans; eauto.
    + apply Hl. now left.
    + rewrite Hb. unfold PyDict.keys. rewrite map_app, in_app_iff. right. now left.
Qed.

Lemma load_relationships (rs : list RelationshipEdge) : forall c,
  foldM (load_relationship H) (map (serialize_relationship H) rs) c
  = Ok (set_relationships c (relationships c ++ rs)).
Proof.
  induction rs as [|r rs IH]; intros c; simpl.
  - rewrite app_nil_r. now destruct c.
  - unfold load_relationship at 1. simpl. rewrite parse_uuid_str. simpl.
    rewrite IH. simpl. rewrite <- app_assoc. simpl. now destruct r.
Qed.

Lemma keyed_values (b : list (UUID * FeatureEnsemble.t)) :
  forallb (fun '(k, e) => N.eqb (FeatureEnsemble.ensemble_id e) k) b = true ->
  map FeatureEnsemble.ensemble_id (PyDict.values b) = PyDict.keys b /\
  forall f : FeatureEnsemble.t -> FeatureEnsemble.t,
    map (fun e => (FeatureEnsemble.ensemble_id e, f e)) (PyDict.values b)
    = map (fun '(k, e) => (k, f e)) b.
Proof.
  induction b as [|[k e] b IH]; simpl; intros Hk; [split; auto|].
  apply andb_true_iff in Hk as [E Hk]. apply N.eqb_eq in E.
  destruct (IH Hk) as [I1 I2]. split.
  - now rewrite E, I1.
  - intros f. now rewrite E, I2.
Qed.

Lemma get_map_reloaded (b : list (UUID * FeatureEnsemble.t)) i :
  PyDict.get N.eqb (map (fun '(k, e) => (k, reloaded e)) b) i
  = option_map reloaded (PyDict.get N.eqb b i).
Proof.
  induction b as [|[k e] b IH]; simpl; auto. destruct (N.eqb k i); auto.
Qed.

(** C4: for a concept whose dictionaries are dictionaries and whose ensembles
    are stored under their own identities, loading the engram that
    [serialize_engram] writes succeeds and gives a concept with the same
    concept id, the same ensemble identities in the same order, under each
    identity an ensemble with that identity and the same name, modality,
    vector and links (targets and weights), the same relationship edges, and
    the same [inhibition_gain] and [activation_threshold]. *)
Theorem engram_round_trip (fresh : UUID) (c : t) :
  wf c = true ->
  keyed_by_identity c = true ->
  exists c',
    from_engram H fresh (serialize_engram H c) = Ok c' /\
    concept_id c' = concept_id c /\
    ensembles_by_id c' = map (fun '(k, e) => (k, reloaded e)) (ensembles_by_id c) /\
    PyDict.keys (ensembles_by_id c') = PyDict.keys (ensembles_by_id c) /\
    (forall i e,
        PyDict.get N.eqb (ensembles_by_id c) i = Some e ->
        exists e',
          PyDict.get N.eqb (ensembles_by_id c') i = Some e' /\
          FeatureEnsemble.ensemble_id e' = i /\
          FeatureEnsemble.ensemble_id e' = FeatureEnsemble.ensemble_id e /\
          FeatureEnsemble.name e' = FeatureEnsemble.name e /\
          FeatureEnsemble.modality e' = FeatureEnsemble.modality e /\
          FeatureEnsemble.vector e' = FeatureEnsemble.vector e /\
          FeatureEnsemble.links e' = FeatureEnsemble.links e) /\
    relationships c' = relationships c /\
    inhibition_gain c' = inhibition_gain c /\
    activation_threshold c' = activation_threshold c.
Proof.
  intros Hwf Hkey. unfold wf in Hwf. apply andb_true_iff in Hwf as [Hu Hl].
  apply (PyDictFacts.uniq_NoDup N.eqb Neqb_spec) in Hu.
  destruct (keyed_values _ Hkey) as [Hids Hmap].
  unfold from_engram, serialize_engram. cbn [eg_concept_id eg_name eg_description
    eg_ensembles eg_relationships eg_params eg_metadata get_or require rbind
    pe_inhibition_gain pe_activation_threshold].
  rewrite parse_uuid_str. cbn [rbind].
  rewrite load_ensembles. cbn [rbind].
  set (c0 := set_concept_id _ _).
  set (es := PyDict.values (ensembles_by_id c)) in *.
  set (c1 := fold_left add_ensemble (map (shell fresh) es) c0).
  assert (Hb1 : ensembles_by_id c1
                = [] ++ map (fun e => (FeatureEnsemble.ensemble_id e, shell fresh e)) es).
  { unfold c1. rewrite fold_add_ensemble_by_id.
    - simpl. rewrite map_map. reflexivity.
    - rewrite map_map.
      replace (map (fun x => FeatureEnsemble.ensemble_id (shell fresh x)) es)
        with (PyDict.keys (ensembles_by_id c))
        by (rewrite <- Hids; apply map_ext; reflexivity).
      exact Hu. }
  destruct (load_all_links fresh es [] c1 Hb1) as (c2 & Hc2 & Hb2 & Hh2).
  { simpl. rewrite Hids. exact Hu. }
  { intros e He. unfold es, PyDict.values in He.
    apply in_map_iff in He as ([k e'] & <- & He). simpl.
    rewrite forallb_forall in Hl. specialize (Hl _ He). simpl in Hl.
    now apply (PyDictFacts.uniq_NoDup N.eqb Neqb_spec). }
  rewrite Hc2. cbn [rbind]. rewrite load_relationships.
  pose proof (fold_add_ensemble_header (map (shell fresh) es) c0) as Hh1.
  fold c1 in Hh1.
  destruct (same_header_trans _ _ _ Hh1 Hh2) as (A1 & A2 & A3 & A4 & A5 & A6 & A7).
  eexists. split; [reflexivity|]. simpl in Hb2. rewrite Hmap in Hb2.
  cbn [concept_id ensembles_by_id relationships inhibition_gain
       activation_threshold set_relationships].
  rewrite A1, A5, A6, A7, Hb2. simpl.
  split; [reflexivity|]. split; [reflexivity|]. split.
  - unfold PyDict.keys. rewrite map_map. apply map_ext. now intros [k e].
  - split; [|repeat split].
    intros i e Hg. rewrite get_map_reloaded, Hg. simpl.
    exists (reloaded e). split; [reflexivity|]. simpl.
    apply (PyDictFacts.get_In N.eqb Neqb_spec) in Hg.
    unfold keyed_by_identity in Hkey. rewrite forallb_forall in Hkey.
    specialize (Hkey _ Hg). simpl in Hkey. apply N.eqb_eq in Hkey.
    repeat split; auto.
Qed.

End RoundTrip.

Lemma example_host_parse_str u : uuid_parse example_host (uuid_str example_host u) = Some u.
Proof. simpl. now rewrite HexString.to_N_of_N. Qed.

(** The instance of C4 on the concept with ["shape"] linked to ["color"],
    with identities written in hexadecimal. *)
Lemma engram_round_trip_witness :
  (forall u, uuid_parse example_host (uuid_str example_host u) = Some u) /\
  wf shape_color = true /\
  keyed_by_identity shape_color = true /\
  exists c',
    from_engram example_host 0%N (serialize_engram example_host shape_color) = Ok c' /\
    concept_id c' = concept_id shape_color /\
    ensembles_by_id c'
    = map (fun '(k, e) => (k, reloaded e)) (ensembles_by_id shape_color) /\
    PyDict.keys (ensembles_by_id c') = PyDict.keys (ensembles_by_id shape_color) /\
    (forall i e,
        PyDict.get N.eqb (ensembles_by_id shape_color) i = Some e ->
        exists e',
          PyDict.get N.eqb (ensembles_by_id c') i = Some e' /\
          FeatureEnsemble.ensemble_id e' = i /\
          FeatureEnsemble.ensemble_id e' = FeatureEnsemble.ensemble_id e /\
          FeatureEnsemble.name e' = FeatureEnsemble.name e /\
          FeatureEnsemble.modality e' = FeatureEnsemble.modality e /\
          FeatureEnsemble.vector e' = FeatureEnsemble.vector e /\
          FeatureEnsemble.links e' = FeatureEnsemble.links e) /\
    relationships c' = relationships shape_color /\
    inhibition_gain c' = inhibition_gain shape_color /\
    activation_threshold c' = activation_threshold shape_color.
Proof.
  split; [exact example_host_parse_str|]. split; [reflexivity|]. split; [reflexivity|].
  apply (engram_round_trip example_host example_host_parse_str 0%N shape_color);
    reflexivity.
Defined.

(** ** Looking an ensemble up *)

(** X12: [get_ensemble] after [add_ensemble]: the name of the new ensemble leads
    to it; another name leads where it led before, unless it was indexed to
    the identity of the new ensemble, whose entry has been replaced. *)
Theorem get_ensemble_after_add (c : t) (e : FeatureEnsemble.t) :
  get_ensemble (add_ensemble c e) (FeatureEnsemble.name e) = Some e /\
  (forall nm, nm <> FeatureEnsemble.name e ->
     get_ensemble (add_ensemble c e) nm
     = match PyDict.get String.eqb (ensembles_by_name c) nm with
       | Some i => if N.eqb i (FeatureEnsemble.ensemble_id e) then Some e
                   else PyDict.get N.eqb (ensembles_by_id c) i
       | None => None
       end) /\
  (forall nm, ~ In nm (PyDict.keys (ensembles_by_name c)) -> get_ensemble c nm = None).
Proof.
  unfold get_ensemble, add_ensemble. cbn [ensembles_by_name ensembles_by_id set_by_name set_by_id].
  split; [|split].
  - rewrite (PyDictFacts.get_set_eq String.eqb string_eqb_spec).
    apply (PyDictFacts.get_set_eq N.eqb Neqb_spec).
  - intros nm Hne.
    rewrite (PyDictFacts.get_set_ne String.eqb string_eqb_spec) by congruence.
    destruct (PyDict.get String.eqb (ensembles_by_name c) nm) as [i|]; [|reflexivity].
    destruct (N.eqb i (FeatureEnsemble.ensemble_id e)) eqn:E.
    + apply N.eqb_eq in E. subst i. apply (PyDictFacts.get_set_eq N.eqb Neqb_spec).
    + apply N.eqb_neq in E. apply (PyDictFacts.get_set_ne N.eqb Neqb_spec). congruence.
  - intros nm Hni. apply (PyDictFacts.get_None String.eqb string_eqb_spec) in Hni.
    now rewrite Hni.
Qed.

(** ** Changes of activations only *)

Lemma only_activations_refl c : only_activations c c.
Proof. repeat split. Qed.

Lemma only_activations_trans c1 c2 c3 :
  only_activations c1 c2 -> only_activations c2 c3 -> only_activations c1 c3.
Proof.
  intros (H1 & H2 & H3) (H4 & H5 & H6). split; [congruence|]. split; [congruence|].
  eapply same_header_trans; eauto.
Qed.

Lemma at_rest_set (d : list (UUID * FeatureEnsemble.t)) k e x :
  PyDict.get N.eqb d k = Some e ->
  map at_rest (PyDict.set N.eqb d k (FeatureEnsemble.set_activation e x)) = map at_rest d.
Proof.
  induction d as [|[k' e'] d IH]; simpl; [discriminate|].
  destruct (N.eqb k' k) eqn:E; simpl.
  - intros [= ->]. reflexivity.
  - intros H. now rewrite IH.
Qed.

Lemma at_rest_map (d : list (UUID * FeatureEnsemble.t)) (g : FeatureEnsemble.t -> Q) :
  map at_rest (map (fun '(k, e) => (k, FeatureEnsemble.set_activation e (g e))) d)
  = map at_rest d.
Proof. rewrite map_map. apply map_ext. now intros [k e]. Qed.

Lemma update_activation_only c i (g : FeatureEnsemble.t -> Q) :
  only_activations c
    (update_ensemble c i (fun e => FeatureEnsemble.set_activation e (g e))).
Proof.
  split; [|split].
  - unfold update_ensemble.
    destruct (PyDict.get N.eqb (ensembles_by_id c) i) eqn:E; [|reflexivity].
    cbn [ensembles_by_id set_by_id]. now apply at_rest_set.
  - apply update_ensemble_index.
  - apply update_ensemble_header.
Qed.

Lemma direct_activation_only H cues gain : forall c,
  only_activations c (direct_activation H c cues gain).
Proof.
  unfold direct_activation.
  induction cues as [|[nm vec] cues IH]; intros c; simpl; [apply only_activations_refl|].
  eapply only_activations_trans; [|apply IH].
  destruct (PyDict.get String.eqb (ensembles_by_name c) nm) as [i|];
    [|apply only_activations_refl].
  apply (update_activation_only c i
           (fun ens => FeatureEnsemble.activation ens
                       + gain * FeatureEnsemble.similarity H ens vec)).
Qed.

Lemma apply_delta_only items : forall b,
  map at_rest (fst (apply_delta b items)) = map at_rest b.
Proof.
  induction items as [|[t_id d] items IH]; intros b; simpl; auto.
  destruct (PyDict.get N.eqb b t_id) eqn:E; [|reflexivity].
  rewrite IH. now apply at_rest_set.
Qed.

Lemma spread_only c : only_activations c (fst (spread c)).
Proof.
  unfold spread. pose proof (apply_delta_only (spread_delta c) (ensembles_by_id c)) as Ha.
  destruct (apply_delta (ensembles_by_id c) (spread_delta c)) as [b r]. simpl in *.
  repeat split; auto.
Qed.

Lemma lateral_inhibition_only c : only_activations c (fst (_lateral_inhibition c)).
Proof.
  unfold _lateral_inhibition.
  destruct (Qle_bool _ _); [apply only_activations_refl|].
  destruct (ensembles_by_id c) eqn:Eb; [apply only_activations_refl|].
  destruct (Qeq_bool _ _); [apply only_activations_refl|].
  simpl. unfold map_ensembles. split; [|repeat split].
  cbn [ensembles_by_id set_by_id].
  apply (at_rest_map _ (fun e => FeatureEnsemble.activation e
                                 / (1 + inhibition_gain c * _))).
Qed.

(** X13: [stimulate] changes nothing but activations, also when it raises: the
    identities, names, vectors and links of the ensembles, their order, the
    name index and the other fields of the concept are as before. *)
Theorem stimulate_only_activations (H : Host) (c : t) (cues : list (string * list Q))
  (gain : Q) :
  only_activations c (fst (stimulate H c cues gain)).
Proof.
  unfold stimulate.
  pose proof (direct_activation_only H cues gain c) as H1.
  pose proof (spread_only (direct_activation H c cues gain)) as H2.
  destruct (spread (direct_activation H c cues gain)) as [c2 [[]|e]]; simpl in *.
  - pose proof (lateral_inhibition_only c2) as H3.
    destruct (_lateral_inhibition c2) as [c3 [[]|e]]; simpl in *;
      eapply only_activations_trans; eauto; eapply only_activations_trans; eauto.
  - eapply only_activations_trans; eauto.
Qed.

(** ** Lateral inhibition *)

Lemma fold_Qplus_nonneg (l : list Q) : forall x,
  0 <= x -> Forall (fun y => 0 <= y) l -> 0 <= fold_left Qplus l x.
Proof.
  induction l as [|y l IH]; intros x Hx Hl; simpl; auto.
  inversion Hl; subst. apply IH; auto.
  rewrite <- (Qplus_0_r 0). now apply Qplus_le_compat.
Qed.

Lemma total_activation_nonneg (c : t) : 0 <= total_activation c.
Proof.
  unfold total_activation, py_sum. apply fold_Qplus_nonneg; [discriminate|].
  apply Forall_forall. intros y Hy. apply in_map_iff in Hy as (e & <- & _).
  apply Q.le_max_l.
Qed.

Lemma lateral_inhibition_unfold (c : t) :
  _lateral_inhibition c
  = if Qle_bool (total_activation c) (1 # 1000000000) then (c, Ok tt)
    else if Qeq_bool (1 + inhibition_gain c * total_activation c) 0
         then (c, Raise ZeroDivisionError)
         else (map_ensembles c (fun e =>
                 FeatureEnsemble.set_activation e
                   (FeatureEnsemble.activation e
                    / (1 + inhibition_gain c * total_activation c))),
               Ok tt).
Proof.
  unfold _lateral_inhibition. fold (total_activation c).
  destruct (Qle_bool (total_activation c) (1 # 1000000000)) eqn:E; [reflexivity|].
  destruct (ensembles_by_id c) eqn:Eb; [|reflexivity].
  unfold total_activation in E. rewrite Eb in E. discriminate.
Qed.

Lemma denom_ge_1 (c : t) :
  0 <= inhibition_gain c -> 1 <= 1 + inhibition_gain c * total_activation c.
Proof.
  intros Hg. rewrite <- (Qplus_0_r 1) at 1. apply Qplus_le_r.
  apply Qmult_le_0_compat; [exact Hg|apply total_activation_nonneg].
Qed.

Lemma lateral_inhibition_ok (c : t) :
  0 <= inhibition_gain c -> snd (_lateral_inhibition c) = Ok tt.
Proof.
  intros Hg. rewrite lateral_inhibition_unfold.
  destruct (Qle_bool _ _); [reflexivity|].
  destruct (Qeq_bool _ 0) eqn:E; [|reflexivity].
  apply Qeq_bool_iff in E. pose proof (denom_ge_1 c Hg) as H1. rewrite E in H1.
  exfalso. apply (Qle_not_lt _ _ H1). reflexivity.
Qed.

Lemma get_map_values (f : FeatureEnsemble.t -> FeatureEnsemble.t)
  (b : list (UUID * FeatureEnsemble.t)) i :
  PyDict.get N.eqb (map (fun '(k, e) => (k, f e)) b) i
  = option_map f (PyDict.get N.eqb b i).
Proof.
  induction b as [|[k e] b IH]; simpl; auto. destruct (N.eqb k i); auto.
Qed.






(** ** Stimulation that returns *)

Lemma at_rest_keys (b b' : list (UUID * FeatureEnsemble.t)) :
  map at_rest b' = map at_rest b -> PyDict.keys b' = PyDict.keys b.
Proof.
  intros E. apply (f_equal (map fst)) in E. rewrite !map_map in E. exact E.
Qed.

Lemma at_rest_In (b b' : list (UUID * FeatureEnsemble.t)) k e' :
  map at_rest b' = map at_rest b -> In (k, e') b' ->
  exists e, In (k, e) b /\
            FeatureEnsemble.set_activation e 0 = FeatureEnsemble.set_activation e' 0.
Proof.
  intros E Hin. apply (in_map at_rest) in Hin. rewrite E in Hin.
  apply in_map_iff in Hin as ([k0 e0] & Heq & Hin).
  pose proof (f_equal fst Heq) as Hk. pose proof (f_equal snd Heq) as He.
  simpl in Hk, He. subst k0. exists e0. split; [exact Hin|exact He].
Qed.

Lemma at_rest_fields (e e' : FeatureEnsemble.t) :
  FeatureEnsemble.set_activation e 0 = FeatureEnsemble.set_activation e' 0 ->
  FeatureEnsemble.name e = FeatureEnsemble.name e' /\
  FeatureEnsemble.links e = FeatureEnsemble.links e'.
Proof. destruct e, e'. unfold FeatureEnsemble.set_activation. simpl. now intros [=]. Qed.

Lemma only_activations_sym c c' : only_activations c c' -> only_activations c' c.
Proof.
  intros (H1 & H2 & H3). split; [auto|]. split; [auto|].
  unfold same_header in *. intuition congruence.
Qed.

Lemma only_activations_closed c c' :
  only_activations c c' -> Manipulations.links_closed c -> Manipulations.links_closed c'.
Proof.
  intros (H1 & _) Hc e' t_id w He' Hl.
  apply in_map_iff in He' as ([k e0] & <- & Hin). simpl in Hl.
  destruct (at_rest_In _ _ k e0 H1 Hin) as (e & He & Heq).
  apply at_rest_fields in Heq as [_ Heq].
  rewrite (at_rest_keys _ _ H1). apply (Hc e t_id w).
  - apply in_map_iff. exists (k, e). auto.
  - now rewrite Heq.
Qed.

Lemma only_activations_names c c' nm :
  only_activations c c' ->
  (exists e', In e' (PyDict.values (ensembles_by_id c')) /\ FeatureEnsemble.name e' = nm) ->
  exists e, In e (PyDict.values (ensembles_by_id c)) /\ FeatureEnsemble.name e = nm.
Proof.
  intros (H1 & _) (e' & He' & Hn).
  apply in_map_iff in He' as ([k e0] & <- & Hin). simpl in Hn.
  destruct (at_rest_In _ _ k e0 H1 Hin) as (e & He & Heq).
  apply at_rest_fields in Heq as [Heq _].
  exists e. split; [|congruence]. apply in_map_iff. exists (k, e). auto.
Qed.

Lemma snapshot_fold_keys H (l : list FeatureEnsemble.t) : forall d nm,
  In nm (PyDict.keys
           (fold_left
              (fun d ens => PyDict.set String.eqb d (FeatureEnsemble.name ens)
                              (round4 H (FeatureEnsemble.activation ens))) l d)) <->
  In nm (PyDict.keys d) \/ exists e, In e l /\ FeatureEnsemble.name e = nm.
Proof.
  induction l as [|x l IH]; intros d nm; simpl.
  - split; [auto|]. intros [Hd|(e & [] & _)]. exact Hd.
  - rewrite IH, (PyDictFacts.In_keys_set String.eqb string_eqb_spec). split.
    + intros [[Hd| ->]|(e & He & Hn)]; eauto.
    + intros [Hd|(e & [<-|He] & Hn)]; eauto.
Qed.

Lemma snapshot_fold_NoDup H (l : list FeatureEnsemble.t) : forall d,
  NoDup (PyDict.keys d) ->
  NoDup (PyDict.keys
           (fold_left
              (fun d ens => PyDict.set String.eqb d (FeatureEnsemble.name ens)
                              (round4 H (FeatureEnsemble.activation ens))) l d)).
Proof.
  induction l as [|x l IH]; intros d Hd; simpl; auto.
  apply IH. now apply (PyDictFacts.NoDup_keys_set String.eqb string_eqb_spec).
Qed.

Lemma spread_result (c : t) :
  wf c = true -> snd (spread c) = Ok tt \/ snd (spread c) = Raise KeyError.
Proof.
  intros Hwf. destruct (spread_shape c (wf_NoDup c Hwf)) as (d1 & d2 & _ & _ & _ & ->).
  simpl. destruct d2; auto.
Qed.

(** X16: On a concept whose links lead to its own ensembles and whose inhibition
    gain is not negative, [stimulate] returns: it raises nothing, changes
    activations only, and reports exactly the names of the ensembles, each
    once. *)
Theorem stimulate_returns (H : Host) (c : t) (cues : list (string * list Q)) (gain : Q) :
  wf c = true ->
  Manipulations.links_closed c ->
  0 <= inhibition_gain c ->
  exists c' snap,
    stimulate H c cues gain = (c', Ok snap) /\
    only_activations c c' /\
    NoDup (PyDict.keys snap) /\
    (forall nm,
        In nm (PyDict.keys snap) <->
        exists e, In e (PyDict.values (ensembles_by_id c)) /\ FeatureEnsemble.name e = nm).
Proof.
  intros Hwf Hcl Hg. unfold stimulate.
  pose proof (direct_activation_only H cues gain c) as O1.
  pose proof (direct_activation_wf H cues gain c Hwf) as Hwf1.
  pose proof (only_activations_closed _ _ O1 Hcl) as Hcl1.
  set (c1 := direct_activation H c cues gain) in *.
  pose proof (spread_only c1) as O2.
  assert (Hs : snd (spread c1) = Ok tt).
  { destruct (spread_result c1 Hwf1) as [Hs|Hs]; [exact Hs|].
    apply (spread_raises_iff c1 Hwf1) in Hs as (sid & s & t_id & w & H1 & _ & H3 & H4).
    exfalso. apply H4. apply (Hcl1 s t_id w); [|exact H3].
    apply in_map_iff. exists (sid, s). auto. }
  destruct (spread c1) as [c2 r2]. simpl in Hs, O2. subst r2.
  pose proof (only_activations_trans _ _ _ O1 O2) as O12.
  assert (Hg2 : 0 <= inhibition_gain c2).
  { destruct O12 as (_ & _ & Hh). unfold same_header in Hh.
    destruct Hh as (_ & _ & _ & _ & _ & -> & _). exact Hg. }
  pose proof (lateral_inhibition_ok c2 Hg2) as Hl.
  pose proof (lateral_inhibition_only c2) as O3.
  destruct (_lateral_inhibition c2) as [c3 r3]. simpl in Hl, O3. subst r3.
  pose proof (only_activations_trans _ _ _ O12 O3) as O.
  exists c3, (snapshot H c3). split; [reflexivity|]. split; [exact O|]. split.
  - unfold snapshot. apply snapshot_fold_NoDup. constructor.
  - intros nm. unfold snapshot. rewrite snapshot_fold_keys. split.
    + intros [[]|Hex]. now apply (only_activations_names c c3).
    + intros Hex. right. apply (only_activations_names c3 c); [|exact Hex].
      now apply only_activations_sym.
Qed.

Lemma shape_color_closed : Manipulations.links_closed shape_color.
Proof.
  intros e t_id w He Hl. vm_compute in He.
  destruct He as [<-|[<-|[]]]; simpl in Hl; [|contradiction].
  destruct Hl as [[= <- _]|[]]. vm_compute. auto.
Qed.

Lemma stimulate_returns_witness :
  exists c' snap,
    stimulate example_host shape_color [("shape"%string, [1; 0])] 1 = (c', Ok snap) /\
    only_activations shape_color c' /\
    NoDup (PyDict.keys snap) /\
    (forall nm,
        In nm (PyDict.keys snap) <->
        exists e, In e (PyDict.values (ensembles_by_id shape_color)) /\
                  FeatureEnsemble.name e = nm).
Proof.
  apply (stimulate_returns example_host shape_color [("shape"%string, [1; 0])] 1).
  - reflexivity.
  - exact shape_color_closed.
  - vm_compute. congruence.
Defined.

(** ** Hebbian learning *)

Lemma keyed_get (c : t) i e :
  keyed_by_identity c = true ->
  PyDict.get N.eqb (ensembles_by_id c) i = Some e ->
  FeatureEnsemble.ensemble_id e = i.
Proof.
  unfold keyed_by_identity. intros Hk Hg.
  apply (PyDictFacts.get_In N.eqb Neqb_spec) in Hg.
  rewrite forallb_forall in Hk. apply Hk in Hg. now apply N.eqb_eq in Hg.
Qed.

Lemma NoDup_keys_filter {V : Type} (p : UUID * V -> bool) (d : list (UUID * V)) :
  NoDup (PyDict.keys d) -> NoDup (map fst (filter p d)).
Proof.
  induction d as [|[k v] d IH]; simpl; [constructor|].
  intros Hnd. inversion Hnd as [|? ? Hni Hnd']; subst.
  destruct (p (k, v)); simpl; auto. constructor; auto.
  intros Hin. apply Hni. apply in_map_iff in Hin as (x & <- & Hx).
  apply filter_In in Hx as [Hx _]. now apply in_map.
Qed.

Lemma count_occ_NoDup (l : list UUID) x :
  NoDup l -> In x l -> count_occ N.eq_dec l x = 1%nat.
Proof.
  intros Hnd Hin. apply (count_occ_In N.eq_dec) in Hin.
  rewrite (NoDup_count_occ N.eq_dec) in Hnd. specialize (Hnd x). lia.
Qed.

(** X17: [learn_hebbian] keeps identities, names, activations and the fields of
    the concept; an ensemble below the threshold is left as it is; an
    ensemble at or above it gains [learning_rate * activation] on its link
    to every other ensemble at or above the threshold, and on no other
    link, in particular on none to itself. *)
Theorem learn_hebbian_effect (c : t) (learning_rate : Q) (min_activation : option Q) :
  wf c = true ->
  keyed_by_identity c = true ->
  let thr := match min_activation with
             | None => activation_threshold c
             | Some m => m
             end in
  let c' := learn_hebbian c learning_rate min_activation in
  same_index c c' /\ same_header c c' /\
  forall i e,
    PyDict.get N.eqb (ensembles_by_id c) i = Some e ->
    exists e',
      PyDict.get N.eqb (ensembles_by_id c') i = Some e' /\
      FeatureEnsemble.set_links e' (FeatureEnsemble.links e) = e /\
      (FeatureEnsemble.activation e < thr -> e' = e) /\
      PyDict.get N.eqb (FeatureEnsemble.links e') i
      = PyDict.get N.eqb (FeatureEnsemble.links e) i /\
      (forall j,
          (forall ej, PyDict.get N.eqb (ensembles_by_id c) j = Some ej ->
                      FeatureEnsemble.activation ej < thr) ->
          PyDict.get N.eqb (FeatureEnsemble.links e') j
          = PyDict.get N.eqb (FeatureEnsemble.links e) j) /\
      (forall j ej,
          PyDict.get N.eqb (ensembles_by_id c) j = Some ej ->
          j <> i ->
          thr <= FeatureEnsemble.activation e ->
          thr <= FeatureEnsemble.activation ej ->
          link_weight e' j == link_weight e j + learning_rate * FeatureEnsemble.activation e).
Proof.
  intros Hwf Hkey thr c'.
  split; [apply map_ensembles_index|]. split; [repeat split|].
  intros i e He.
  pose proof (wf_NoDup c Hwf) as Hnd.
  pose proof (keyed_get c i e Hkey He) as Hid.
  set (active := fun '((_, e0) : UUID * FeatureEnsemble.t) =>
                   Qle_bool thr (FeatureEnsemble.activation e0)).
  set (coactive := map fst (filter active (ensembles_by_id c))).
  assert (Hco : forall j, In j coactive <->
                          exists ej, PyDict.get N.eqb (ensembles_by_id c) j = Some ej /\
                                     thr <= FeatureEnsemble.activation ej).
  { intros j. unfold coactive. rewrite in_map_iff. split.
    - intros ([j0 ej] & <- & Hin). apply filter_In in Hin as [Hin Ha].
      exists ej. split; [now apply (PyDictFacts.In_get N.eqb Neqb_spec)|].
      now apply Qle_bool_iff.
    - intros (ej & Hg & Ha). exists (j, ej). split; [reflexivity|].
      apply filter_In. split; [now apply (PyDictFacts.get_In N.eqb Neqb_spec)|].
      now apply Qle_bool_iff. }
  assert (Hget : PyDict.get N.eqb (ensembles_by_id c') i
                 = Some (if Qle_bool thr (FeatureEnsemble.activation e)
                         then FeatureEnsemble.hebbian e coactive learning_rate
                         else e)).
  { unfold c', learn_hebbian, map_ensembles. cbn [ensembles_by_id set_by_id].
    fold thr. fold active. fold coactive.
    rewrite (get_map_values
               (fun e0 => if Qle_bool thr (FeatureEnsemble.activation e0)
                          then FeatureEnsemble.hebbian e0 coactive learning_rate
                          else e0)), He.
    reflexivity. }
  rewrite Hget. eexists. split; [reflexivity|].
  destruct (Qle_bool thr (FeatureEnsemble.activation e)) eqn:Ea.
  - destruct (FeatureEnsembleFacts.hebbian_fold learning_rate coactive e)
      as (H1 & H2 & H3).
    cbv zeta in H1, H2, H3. fold (FeatureEnsemble.hebbian e coactive learning_rate) in *.
    split; [exact H1|]. split.
    { intros Hlt. apply Qle_bool_iff in Ea. exfalso. now apply (Qlt_not_le _ _ Hlt). }
    split; [apply H3; right; congruence|]. split.
    + intros j Hj. apply H3. left. intros Hin. apply Hco in Hin as (ej & Hg & Ha).
      apply (Qlt_not_le _ _ (Hj ej Hg) Ha).
    + intros j ej Hg Hne _ Ha. unfold link_weight. rewrite H2 by congruence.
      rewrite count_occ_NoDup.
      * change (inject_Z (Z.of_nat 1)) with 1. ring.
      * unfold coactive. now apply NoDup_keys_filter.
      * apply Hco. eauto.
  - split; [now destruct e|]. split; [reflexivity|]. split; [reflexivity|].
    split; [reflexivity|].
    intros j ej _ _ Ha _. apply Qle_bool_iff in Ha. congruence.
Qed.

Lemma learn_hebbian_effect_witness :
  wf both_active = true /\ keyed_by_identity both_active = true /\
  (exists e',
      PyDict.get N.eqb (ensembles_by_id (learn_hebbian both_active (5 # 100) None)) 1%N
      = Some e' /\
      FeatureEnsemble.links e' = [(2%N, 0 + (5 # 100) * 1)]) /\
  same_index both_active (learn_hebbian both_active (5 # 100) None).
Proof.
  split; [reflexivity|]. split; [reflexivity|]. split.
  - eexists. split; reflexivity.
  - apply (learn_hebbian_effect both_active (5 # 100) None); reflexivity.
Defined.

(** ** Recall *)

(** The order of a descending sort: [x] may come before [y]. *)
#[local] Abbreviation desc := (fun x y : string * Q => snd y <= snd x).










(** ** Loading engrams *)

Lemma foldM_preserves {A B : Type} (P : A -> Prop) (f : A -> B -> Result A) (l : list B) :
  (forall a x a', In x l -> P a -> f a x = Ok a' -> P a') ->
  forall a a', P a -> foldM f l a = Ok a' -> P a'.
Proof.
  induction l as [|x l IH]; intros Hf a a' Ha; simpl.
  - now intros [= <-].
  - destruct (f a x) as [a1|e] eqn:E; simpl; [|discriminate].
    apply IH.
    + intros a0 y a0' Hy. apply Hf. now right.
    + apply (Hf a x a1); auto. now left.
Qed.

Lemma foldM_Ok_Forall {A B : Type} (Q : B -> Prop) (f : A -> B -> Result A) (l : list B) :
  (forall a x a', f a x = Ok a' -> Q x) ->
  forall a a', foldM f l a = Ok a' -> Forall Q l.
Proof.
  intros Hf. induction l as [|x l IH]; intros a a'; simpl; [constructor|].
  destruct (f a x) as [a1|e] eqn:E; simpl; [|discriminate].
  intros Hr. constructor; eauto.
Qed.

Lemma foldM_total {A B : Type} (P : A -> Prop) (Q : B -> Prop)
  (f : A -> B -> Result A) (l : list B) :
  (forall a x, P a -> Q x -> exists a', f a x = Ok a' /\ P a') ->
  Forall Q l -> forall a, P a -> exists a', foldM f l a = Ok a' /\ P a'.
Proof.
  intros Hf Hl. induction Hl as [|x l Hx Hl IH]; intros a Ha; simpl; [eauto|].
  destruct (Hf a x Ha Hx) as (a1 & -> & Ha1). simpl. now apply IH.
Qed.

Lemma foldM_raises {A B : Type} (E : exn -> Prop) (f : A -> B -> Result A) (l : list B) :
  (forall a x e, f a x = Raise e -> E e) ->
  forall a e, foldM f l a = Raise e -> E e.
Proof.
  intros Hf. induction l as [|x l IH]; intros a e; simpl; [discriminate|].
  destruct (f a x) as [a1|e1] eqn:E1; simpl; eauto. intros [= <-]. eauto.
Qed.

Lemma require_raises {A : Type} (o : option A) e : require o = Raise e -> e = KeyError.
Proof. destruct o; simpl; congruence. Qed.

Lemma parse_uuid_raises H s e : parse_uuid H s = Raise e -> e = ValueError.
Proof. unfold parse_uuid. destruct (uuid_parse H s); congruence. Qed.

Lemma parses_iff H (o : option string) :
  parses H o <-> exists u, rbind (require o) (parse_uuid H) = Ok u.
Proof.
  unfold parses, parse_uuid. split.
  - intros (s & u & -> & Hp). exists u. simpl. now rewrite Hp.
  - intros (u & Hr). destruct o as [s|]; simpl in Hr; [|discriminate].
    destruct (uuid_parse H s) as [u'|] eqn:E; [|discriminate]. eauto.
Qed.

Lemma add_ensemble_keys (c : t) (e : FeatureEnsemble.t) i :
  In i (PyDict.keys (ensembles_by_id (add_ensemble c e))) <->
  In i (PyDict.keys (ensembles_by_id c)) \/ i = FeatureEnsemble.ensemble_id e.
Proof.
  unfold add_ensemble. cbn [ensembles_by_id set_by_id set_by_name].
  apply (PyDictFacts.In_keys_set N.eqb Neqb_spec).
Qed.

Lemma keyed_add_ensemble (c : t) (e : FeatureEnsemble.t) :
  keyed_by_identity c = true -> keyed_by_identity (add_ensemble c e) = true.
Proof.
  unfold keyed_by_identity, add_ensemble. cbn [ensembles_by_id set_by_id set_by_name].
  induction (ensembles_by_id c) as [|[k v] d IH]; simpl.
  - now rewrite N.eqb_refl.
  - intros Hk. apply andb_true_iff in Hk as [H1 H2].
    destruct (N.eqb k (FeatureEnsemble.ensemble_id e)) eqn:E; simpl.
    + rewrite H2, andb_true_r. now rewrite N.eqb_sym.
    + now rewrite H1, IH.
Qed.

Lemma keyed_update_ensemble (c : t) i (f : FeatureEnsemble.t -> FeatureEnsemble.t) :
  (forall e, FeatureEnsemble.ensemble_id (f e) = FeatureEnsemble.ensemble_id e) ->
  keyed_by_identity c = true -> keyed_by_identity (update_ensemble c i f) = true.
Proof.
  intros Hf. unfold keyed_by_identity, update_ensemble.
  destruct (PyDict.get N.eqb (ensembles_by_id c) i) as [e|] eqn:E; [|auto].
  cbn [ensembles_by_id set_by_id]. revert E.
  induction (ensembles_by_id c) as [|[k v] d IH]; simpl; [discriminate|].
  intros Hg Hk. apply andb_true_iff in Hk as [H1 H2].
  destruct (N.eqb k i) eqn:Ek; simpl.
  - injection Hg as <-. now rewrite Hf, H1, H2.
  - now rewrite H1, IH.
Qed.

(** What the loops of [from_engram] need of an entry, and what they do. *)

Lemma load_ensemble_Ok H fresh (c c' : t) (ed : EnsembleEngram) :
  load_ensemble H fresh c ed = Ok c' ->
  exists nm s i,
    ee_name ed = Some nm /\ ee_ensemble_id ed = Some s /\ uuid_parse H s = Some i /\
    c' = add_ensemble c
           (FeatureEnsemble.set_ensemble_id
              (FeatureEnsemble.new fresh nm (get_or (ee_modality ed) "unknown"%string)
                 (get_or (ee_vector ed) []) EmptyString) i).
Proof.
  unfold load_ensemble, parse_uuid.
  destruct (ee_name ed) as [nm|]; simpl; [|discriminate].
  destruct (ee_ensemble_id ed) as [s|]; simpl; [|discriminate].
  destruct (uuid_parse H s) as [i|] eqn:E; simpl; [|discriminate].
  intros [= <-]. exists nm, s, i. auto.
Qed.

Lemma load_ensemble_raises H fresh (c : t) (ed : EnsembleEngram) e :
  load_ensemble H fresh c ed = Raise e -> e = KeyError \/ e = ValueError.
Proof.
  unfold load_ensemble, parse_uuid.
  destruct (ee_name ed) as [nm|]; simpl; [|intros [= <-]; auto].
  destruct (ee_ensemble_id ed) as [s|]; simpl; [|intros [= <-]; auto].
  destruct (uuid_parse H s) as [i|] eqn:E; simpl; [discriminate|intros [= <-]; auto].
Qed.

Lemma link_loop_Ok H s_id (l : list (string * Q)) : forall c c',
  foldM (fun acc '(t_str, w) =>
           rbind (parse_uuid H t_str) (fun t_id =>
           Ok (update_ensemble acc s_id (fun s =>
                 FeatureEnsemble.set_links s
                   (PyDict.set N.eqb (FeatureEnsemble.links s) t_id w)))))
        l c = Ok c' ->
  Forall (fun tw => uuid_parse H (fst tw) <> None) l /\
  same_index c c' /\ same_header c c' /\
  (keyed_by_identity c = true -> keyed_by_identity c' = true).
Proof.
  induction l as [|[t_str w] l IH]; intros c c'; simpl.
  - intros [= <-]. repeat split; auto; constructor.
  - unfold parse_uuid at 1. destruct (uuid_parse H t_str) as [t_id|] eqn:E; simpl;
      [|discriminate].
    intros Hr. apply IH in Hr as (H1 & H2 & H3 & H4). split; [|split; [|split]].
    + constructor; [simpl; congruence|exact H1].
    + eapply same_index_trans; [apply update_ensemble_index|exact H2].
    + eapply same_header_trans; [apply update_ensemble_header|exact H3].
    + intros Hk. apply H4. now apply keyed_update_ensemble.
Qed.

Lemma link_loop_total H s_id (l : list (string * Q)) : forall c,
  Forall (fun tw => uuid_parse H (fst tw) <> None) l ->
  exists c',
    foldM (fun acc '(t_str, w) =>
             rbind (parse_uuid H t_str) (fun t_id =>
             Ok (update_ensemble acc s_id (fun s =>
                   FeatureEnsemble.set_links s
                     (PyDict.set N.eqb (FeatureEnsemble.links s) t_id w)))))
          l c = Ok c'.
Proof.
  induction l as [|[t_str w] l IH]; intros c Hl; simpl; [eauto|].
  inversion Hl as [|? ? Hp Hl']; subst. simpl in Hp.
  unfold parse_uuid at 1. destruct (uuid_parse H t_str) as [t_id|]; [|congruence].
  simpl. now apply IH.
Qed.

Lemma load_links_Ok H (c c' : t) (ed : EnsembleEngram) :
  load_links H c ed = Ok c' ->
  Forall (fun tw => uuid_parse H (fst tw) <> None) (get_or (ee_links ed) []) /\
  same_index c c' /\ same_header c c' /\
  (keyed_by_identity c = true -> keyed_by_identity c' = true).
Proof.
  unfold load_links.
  destruct (ee_ensemble_id ed) as [s|]; simpl; [|discriminate].
  unfold parse_uuid at 1. destruct (uuid_parse H s) as [i|]; simpl; [|discriminate].
  destruct (PyDict.index N.eqb (ensembles_by_id c) i); simpl; [|discriminate].
  apply link_loop_Ok.
Qed.

Lemma load_links_total H (c : t) (ed : EnsembleEngram) :
  (forall s i, ee_ensemble_id ed = Some s -> uuid_parse H s = Some i ->
               In i (PyDict.keys (ensembles_by_id c))) ->
  ensemble_engram_ok H ed ->
  exists c', load_links H c ed = Ok c'.
Proof.
  intros Hin (_ & (s & i & Hs & Hp) & Hl). unfold load_links. rewrite Hs. simpl.
  unfold parse_uuid at 1. rewrite Hp. simpl.
  specialize (Hin s i Hs Hp). apply (PyDictFacts.contains_In N.eqb Neqb_spec) in Hin.
  unfold PyDict.index, PyDict.contains in *.
  destruct (PyDict.get N.eqb (ensembles_by_id c) i); [|discriminate]. simpl.
  now apply link_loop_total.
Qed.

Lemma load_links_raises H (c : t) (ed : EnsembleEngram) e :
  load_links H c ed = Raise e -> e = KeyError \/ e = ValueError.
Proof.
  unfold load_links.
  destruct (ee_ensemble_id ed) as [s|]; simpl; [|intros [= <-]; auto].
  unfold parse_uuid at 1. destruct (uuid_parse H s) as [i|]; simpl;
    [|intros [= <-]; auto].
  unfold PyDict.index. destruct (PyDict.get N.eqb (ensembles_by_id c) i); simpl;
    [|intros [= <-]; auto].
  apply (foldM_raises (fun e => e = KeyError \/ e = ValueError)).
  intros a [t_str w] e0. unfold parse_uuid.
  destruct (uuid_parse H t_str); simpl; [discriminate|intros [= <-]; auto].
Qed.

Lemma load_relationship_Ok H (c c' : t) (rd : RelationshipEngram) :
  load_relationship H c rd = Ok c' ->
  relationship_engram_ok H rd /\
  ensembles_by_id c' = ensembles_by_id c /\
  ensembles_by_name c' = ensembles_by_name c /\
  header c' = header c /\
  List.length (relationships c') = S (List.length (relationships c)).
Proof.
  unfold load_relationship, relationship_engram_ok, parses, parse_uuid.
  destruct (re_type rd) as [ty|]; simpl; [|discriminate].
  destruct (re_target_concept_id rd) as [s|]; simpl; [|discriminate].
  destruct (uuid_parse H s) as [u|] eqn:E; simpl; [|discriminate].
  intros [= <-]. simpl. rewrite length_app. simpl.
  repeat split; try congruence; eauto. lia.
Qed.

Lemma load_relationship_total H (c : t) (rd : RelationshipEngram) :
  relationship_engram_ok H rd -> exists c', load_relationship H c rd = Ok c'.
Proof.
  intros (Hty & s & u & Hs & Hp). unfold load_relationship, parse_uuid.
  destruct (re_type rd); [|congruence]. rewrite Hs. simpl. rewrite Hp. simpl. eauto.
Qed.

Lemma load_relationship_raises H (c : t) (rd : RelationshipEngram) e :
  load_relationship H c rd = Raise e -> e = KeyError \/ e = ValueError.
Proof.
  unfold load_relationship, parse_uuid.
  destruct (re_type rd) as [ty|]; simpl; [|intros [= <-]; auto].
  destruct (re_target_concept_id rd) as [s|]; simpl; [|intros [= <-]; auto].
  destruct (uuid_parse H s) as [u|] eqn:E; simpl; [discriminate|intros [= <-]; auto].
Qed.

Lemma load_ensembles_keys H fresh (l : list EnsembleEngram) : forall c c',
  foldM (load_ensemble H fresh) l c = Ok c' ->
  forall i,
    In i (PyDict.keys (ensembles_by_id c')) <->
    In i (PyDict.keys (ensembles_by_id c)) \/
    exists ed s, In ed l /\ ee_ensemble_id ed = Some s /\ uuid_parse H s = Some i.
Proof.
  induction l as [|ed l IH]; intros c c'; simpl.
  - intros [= <-] i. split; [auto|]. intros [Hi|(ed & s & [] & _)]. exact Hi.
  - destruct (load_ensemble H fresh c ed) as [c1|e] eqn:E; simpl; [|discriminate].
    intros Hr i. rewrite (IH _ _ Hr i).
    apply load_ensemble_Ok in E as (nm & s & u & _ & Hs & Hp & ->).
    rewrite add_ensemble_keys. cbn [FeatureEnsemble.ensemble_id FeatureEnsemble.set_ensemble_id].
    split.
    + intros [[Hi| ->]|(ed' & s' & Hin & Hs' & Hp')]; eauto 8.
    + intros [Hi|(ed' & s' & [<-|Hin] & Hs' & Hp')]; eauto 8.
      left. right. congruence.
Qed.

Lemma load_relationships_length H (l : list RelationshipEngram) : forall c c',
  foldM (load_relationship H) l c = Ok c' ->
  List.length (relationships c') = (List.length (relationships c) + List.length l)%nat.
Proof.
  induction l as [|rd l IH]; intros c c'; simpl.
  - intros [= <-]. lia.
  - destruct (load_relationship H c rd) as [c1|e] eqn:E; simpl; [|discriminate].
    intros Hr. rewrite (IH _ _ Hr).
    apply load_relationship_Ok in E as (_ & _ & _ & _ & ->). lia.
Qed.

Lemma same_header_header (c c' : t) : same_header c c' -> header c' = header c.
Proof. unfold same_header, header. intros (-> & -> & -> & -> & _ & -> & ->). reflexivity. Qed.

(** The concept that [from_engram] starts from, and its three loops. *)
Lemma from_engram_unfold H fresh data :
  from_engram H fresh data
  = rbind (rbind (require (eg_concept_id data)) (parse_uuid H)) (fun cid =>
    let params := get_or (eg_params data) (mkParamsEngram None None) in
    let c0 := set_concept_id
                (new fresh (get_or (eg_name data) EmptyString)
                   (get_or (eg_description data) EmptyString)
                   (Some (get_or (eg_metadata data) []))
                   (get_or (pe_inhibition_gain params) (25 # 100))
                   (get_or (pe_activation_threshold params) (15 # 100))) cid in
    let eds := get_or (eg_ensembles data) [] in
    rbind (foldM (load_ensemble H fresh) eds c0) (fun c1 =>
    rbind (foldM (load_links H) eds c1) (fun c2 =>
    foldM (load_relationship H) (get_or (eg_relationships data) []) c2))).
Proof. unfold from_engram. now destruct (require (eg_concept_id data)). Qed.

(** X19: on an engram whose fields, where present, have the types that
    [serialize_engram] writes, [from_engram] returns a concept exactly when
    the engram has every key that is indexed ("concept_id"; "name" and
    "ensemble_id" of each ensemble; "type" and "target_concept_id" of each
    relationship) and every identity string in it parses; otherwise it
    raises [KeyError] or [ValueError].  The look-up of an ensemble by the
    identity just loaded never fails. *)
Theorem from_engram_returns_iff (H : Host) (fresh : UUID) (data : Engram) :
  (engram_ok H data <-> exists c, from_engram H fresh data = Ok c) /\
  (forall e, from_engram H fresh data = Raise e -> e = KeyError \/ e = ValueError) /\
  (eg_concept_id data = None -> from_engram H fresh data = Raise KeyError).
Proof.
  rewrite from_engram_unfold. cbv zeta.
  set (eds := get_or (eg_ensembles data) []).
  set (rels := get_or (eg_relationships data) []).
  split; [split|split].
  - intros (Hid & He & Hr). fold eds in He. fold rels in Hr.
    apply parses_iff in Hid as (cid & ->). cbn [rbind].
    set (c0 := set_concept_id _ cid).
    destruct (foldM_total (fun _ => True) (ensemble_engram_ok H)
                (load_ensemble H fresh) eds) with (a := c0) as (c1 & Hc1 & _); auto.
    { intros a ed _ (Hn & (s & i & Hs & Hp) & _). unfold load_ensemble, parse_uuid.
      destruct (ee_name ed); [|congruence]. rewrite Hs. simpl. rewrite Hp. simpl. eauto. }
    rewrite Hc1. cbn [rbind].
    pose proof (load_ensembles_keys H fresh eds c0 c1 Hc1) as Hkeys.
    set (P := fun c : t => PyDict.keys (ensembles_by_id c) = PyDict.keys (ensembles_by_id c1)).
    destruct (foldM_total P (fun ed => ensemble_engram_ok H ed /\ In ed eds)
                (load_links H) eds) with (a := c1) as (c2 & Hc2 & _).
    { intros a ed Ha (Hok & Hin).
      destruct (load_links_total H a ed) as (a' & Ha'); auto.
      - intros s i Hs Hp. rewrite Ha. apply Hkeys. right. eauto.
      - exists a'. split; [exact Ha'|]. apply load_links_Ok in Ha' as (_ & [Hk _] & _).
        unfold P in *. congruence. }
    { apply Forall_forall. intros ed Hin. split; [|exact Hin].
      rewrite Forall_forall in He. now apply He. }
    { reflexivity. }
    rewrite Hc2. cbn [rbind].
    destruct (foldM_total (fun _ => True) (relationship_engram_ok H)
                (load_relationship H) rels) with (a := c2) as (c3 & Hc3 & _); auto.
    { intros a rd _ Hok. destruct (load_relationship_total H a rd Hok) as (a' & Ha').
      eauto. }
    eauto.
  - intros (c & Hc).
    destruct (rbind (require (eg_concept_id data)) (parse_uuid H)) as [cid|] eqn:Eid;
      [|discriminate].
    cbn [rbind] in Hc. set (c0 := set_concept_id _ cid) in Hc.
    destruct (foldM (load_ensemble H fresh) eds c0) as [c1|] eqn:E1; [|discriminate].
    cbn [rbind] in Hc.
    destruct (foldM (load_links H) eds c1) as [c2|] eqn:E2; [|discriminate].
    cbn [rbind] in Hc.
    split; [apply parses_iff; eauto|]. fold eds. fold rels. split.
    + apply (foldM_Ok_Forall
               (fun ed => ee_name ed <> None /\ parses H (ee_ensemble_id ed))) in E1.
      2:{ intros a ed a' Ha. apply load_ensemble_Ok in Ha as (nm & s & i & Hn & Hs & Hp & _).
          split; [congruence|]. exists s, i. auto. }
      apply (foldM_Ok_Forall
               (fun ed => Forall (fun tw => uuid_parse H (fst tw) <> None)
                                 (get_or (ee_links ed) []))) in E2.
      2:{ intros a ed a' Ha. now apply load_links_Ok in Ha. }
      rewrite Forall_forall in *. intros ed Hin.
      destruct (E1 ed Hin) as [Hn Hp]. split; [exact Hn|]. split; [exact Hp|].
      now apply E2.
    + eapply foldM_Ok_Forall; [|exact Hc].
      intros a rd a' Ha. now apply load_relationship_Ok in Ha.
  - intros e.
    destruct (require (eg_concept_id data)) as [s|e0] eqn:Er; simpl.
    2:{ intros [= <-]. left. eapply require_raises; eauto. }
    destruct (parse_uuid H s) as [cid|e0] eqn:Ep; simpl.
    2:{ intros [= <-]. right. eapply parse_uuid_raises; eauto. }
    set (c0 := set_concept_id _ cid).
    destruct (foldM (load_ensemble H fresh) eds c0) as [c1|e1] eqn:E1; simpl.
    2:{ intros [= <-]. revert E1.
        apply (foldM_raises (fun e => e = KeyError \/ e = ValueError)).
        apply load_ensemble_raises. }
    destruct (foldM (load_links H) eds c1) as [c2|e2] eqn:E2; simpl.
    2:{ intros [= <-]. revert E2.
        apply (foldM_raises (fun e => e = KeyError \/ e = ValueError)).
        apply load_links_raises. }
    apply (foldM_raises (fun e => e = KeyError \/ e = ValueError)).
    apply load_relationship_raises.
  - intros ->. reflexivity.
Qed.

(** X20: A concept that [from_engram] returned is well indexed: every ensemble is
    stored under its own identity, every indexed name leads to an ensemble,
    the identities are those of the engram, and there is one relationship
    edge per relationship entry.  Missing fields take the defaults of the
    constructor; an empty ["metadata"] is replaced by the default as
    well. *)
Theorem from_engram_well_indexed (H : Host) (fresh : UUID) (data : Engram) (c : t) :
  from_engram H fresh data = Ok c ->
  keyed_by_identity c = true /\
  names_resolve c /\
  rbind (require (eg_concept_id data)) (parse_uuid H) = Ok (concept_id c) /\
  name c = get_or (eg_name data) EmptyString /\
  description c = get_or (eg_description data) EmptyString /\
  metadata c = match eg_metadata data with
               | Some (x :: r) => x :: r
               | _ => [("version"%string, "3.0"%string)]
               end /\
  inhibition_gain c
  = get_or (pe_inhibition_gain (get_or (eg_params data) (mkParamsEngram None None)))
           (25 # 100) /\
  activation_threshold c
  = get_or (pe_activation_threshold (get_or (eg_params data) (mkParamsEngram None None)))
           (15 # 100) /\
  List.length (relationships c) = List.length (get_or (eg_relationships data) []) /\
  (forall i,
      In i (PyDict.keys (ensembles_by_id c)) <->
      exists ed s, In ed (get_or (eg_ensembles data) []) /\
                   ee_ensemble_id ed = Some s /\ uuid_parse H s = Some i).
Proof.
  rewrite from_engram_unfold. cbv zeta.
  set (eds := get_or (eg_ensembles data) []).
  set (rels := get_or (eg_relationships data) []).
  destruct (rbind (require (eg_concept_id data)) (parse_uuid H)) as [cid|];
    [|discriminate].
  cbn [rbind]. set (c0 := set_concept_id _ cid).
  destruct (foldM (load_ensemble H fresh) eds c0) as [c1|] eqn:E1; [|discriminate].
  cbn [rbind].
  destruct (foldM (load_links H) eds c1) as [c2|] eqn:E2; [|discriminate].
  cbn [rbind]. intros E3.
  set (P := fun c : t => keyed_by_identity c = true /\ names_resolve c /\
                         header c = header c0).
  assert (P0 : P c0).
  { split; [reflexivity|]. split; [|reflexivity]. intros nm i. discriminate. }
  assert (P1 : P c1).
  { apply (foldM_preserves P (load_ensemble H fresh) eds) with (a := c0); auto.
    intros a ed a' _ (Hk & Hn & Hh) Ha.
    apply load_ensemble_Ok in Ha as (nm & s & i & _ & _ & _ & ->).
    split; [now apply keyed_add_ensemble|]. split; [now apply add_ensemble_names_resolve|].
    exact Hh. }
  assert (K1 : PyDict.keys (ensembles_by_id c2) = PyDict.keys (ensembles_by_id c1)).
  { apply (foldM_preserves
             (fun c => PyDict.keys (ensembles_by_id c) = PyDict.keys (ensembles_by_id c1))
             (load_links H) eds) with (a := c1); auto.
    intros a ed a' _ Hk Ha. apply load_links_Ok in Ha as (_ & [Hk' _] & _). congruence. }
  assert (P2 : P c2).
  { apply (foldM_preserves P (load_links H) eds) with (a := c1); auto.
    intros a ed a' _ (Hk & Hn & Hh) Ha.
    apply load_links_Ok in Ha as (_ & Hi & Hh' & Hk').
    split; [auto|]. split; [now apply (names_resolve_same a a')|].
    rewrite <- Hh. now apply same_header_header. }
  assert (K2 : ensembles_by_id c = ensembles_by_id c2).
  { apply (foldM_preserves (fun c => ensembles_by_id c = ensembles_by_id c2)
             (load_relationship H) rels) with (a := c2); auto.
    intros a rd a' _ Hk Ha. apply load_relationship_Ok in Ha as (_ & Hb & _). congruence. }
  assert (P3 : P c).
  { apply (foldM_preserves P (load_relationship H) rels) with (a := c2); auto.
    intros a rd a' _ (Hk & Hn & Hh) Ha.
    apply load_relationship_Ok in Ha as (_ & Hb & Hbn & Hh' & _).
    unfold P, keyed_by_identity, names_resolve. rewrite Hb, Hbn, Hh'. auto. }
  destruct P3 as (Hk & Hn & Hh). unfold header in Hh. simpl in Hh.
  injection Hh as A1 A2 A3 A4 A5 A6.
  split; [exact Hk|]. split; [exact Hn|]. split; [now rewrite A1|].
  split; [exact A2|]. split; [exact A3|]. split.
  { rewrite A4. now destruct (eg_metadata data) as [[|x r]|]. }
  split; [exact A5|]. split; [exact A6|]. split.
  { rewrite (load_relationships_length H rels c2 c E3).
    assert (Hr : relationships c2 = []).
    { apply (foldM_preserves (fun c => relationships c = [])
               (load_links H) eds) with (a := c1); auto.
      - intros a ed a' _ Hr Ha. apply load_links_Ok in Ha as (_ & _ & Hh' & _).
        unfold same_header in Hh'. destruct Hh' as (_ & _ & _ & _ & -> & _). exact Hr.
      - apply (foldM_preserves (fun c => relationships c = [])
                 (load_ensemble H fresh) eds) with (a := c0); auto.
        intros a ed a' _ Hr Ha.
        apply load_ensemble_Ok in Ha as (nm & s & i & _ & _ & _ & ->). exact Hr. }
    rewrite Hr. reflexivity. }
  intros i. rewrite K2, K1, (load_ensembles_keys H fresh eds c0 c1 E1 i).
  split; [intros [[]|Hex]; exact Hex|auto].
Qed.

Lemma from_engram_well_indexed_witness :
  exists c,
    from_engram example_host 0%N (serialize_engram example_host shape_color) = Ok c /\
    keyed_by_identity c = true /\
    names_resolve c /\
    List.length (relationships c) = 0%nat.
Proof.
  eexists. split; [vm_compute; reflexivity|].
  match goal with
  | |- keyed_by_identity ?c = true /\ _ =>
      pose proof (from_engram_well_indexed example_host 0%N
                    (serialize_engram example_host shape_color) c) as Hw
  end.
  destruct Hw as (H1 & H2 & _ & _ & _ & _ & _ & _ & H9 & _);
    [vm_compute; reflexivity|].
  split; [exact H1|]. split; [exact H2|exact H9].
Defined.

(** ** Engrams as fixed points *)

Section Reload.
Variable H : Host.
Hypothesis parse_str : forall u, uuid_parse H (uuid_str H u) = Some u.

Lemma from_engram_serialize (fresh : UUID) (c : t) :
  wf c = true ->
  keyed_by_identity c = true ->
  exists c',
    from_engram H fresh (serialize_engram H c) = Ok c' /\
    ensembles_by_id c' = map (fun '(k, e) => (k, reloaded e)) (ensembles_by_id c) /\
    relationships c' = relationships c /\
    header c'
    = (concept_id c, name c, description c,
       match metadata c with
       | [] => [("version"%string, "3.0"%string)]
       | x :: r => x :: r
       end,
       inhibition_gain c, activation_threshold c).
Proof.
  intros Hwf Hkey. unfold wf in Hwf. apply andb_true_iff in Hwf as [Hu Hl].
  apply (PyDictFacts.uniq_NoDup N.eqb Neqb_spec) in Hu.
  destruct (keyed_values _ Hkey) as [Hids Hmap].
  unfold from_engram, serialize_engram. cbn [eg_concept_id eg_name eg_description
    eg_ensembles eg_relationships eg_params eg_metadata get_or require rbind
    pe_inhibition_gain pe_activation_threshold].
  rewrite (parse_uuid_str H parse_str). cbn [rbind].
  rewrite (load_ensembles H parse_str). cbn [rbind].
  set (c0 := set_concept_id _ _).
  set (es := PyDict.values (ensembles_by_id c)) in *.
  set (c1 := fold_left add_ensemble (map (shell fresh) es) c0).
  assert (Hb1 : ensembles_by_id c1
                = [] ++ map (fun e => (FeatureEnsemble.ensemble_id e, shell fresh e)) es).
  { unfold c1. rewrite fold_add_ensemble_by_id.
    - simpl. rewrite map_map. reflexivity.
    - rewrite map_map.
      replace (map (fun x => FeatureEnsemble.ensemble_id (shell fresh x)) es)
        with (PyDict.keys (ensembles_by_id c))
        by (rewrite <- Hids; apply map_ext; reflexivity).
      exact Hu. }
  destruct (load_all_links H parse_str fresh es [] c1 Hb1) as (c2 & Hc2 & Hb2 & Hh2).
  { simpl. rewrite Hids. exact Hu. }
  { intros e He. unfold es, PyDict.values in He.
    apply in_map_iff in He as ([k e'] & <- & He). simpl.
    rewrite forallb_forall in Hl. specialize (Hl _ He). simpl in Hl.
    now apply (PyDictFacts.uniq_NoDup N.eqb Neqb_spec). }
  rewrite Hc2. cbn [rbind]. rewrite (load_relationships H parse_str).
  pose proof (fold_add_ensemble_header (map (shell fresh) es) c0) as Hh1.
  fold c1 in Hh1.
  pose proof (same_header_trans _ _ _ Hh1 Hh2) as Hh.
  pose proof (same_header_header _ _ Hh) as Hhd.
  destruct Hh as (_ & _ & _ & _ & A5 & _).
  eexists. split; [reflexivity|]. simpl in Hb2. rewrite Hmap in Hb2.
  split; [exact Hb2|]. split.
  - cbn [relationships set_relationships]. rewrite A5. reflexivity.
  - change (header (set_relationships c2 (relationships c2 ++ relationships c)))
      with (header c2).
    rewrite Hhd. unfold header, c0. simpl. now destruct (metadata c).
Qed.

Lemma serialize_reloaded (b : list (UUID * FeatureEnsemble.t)) :
  map (serialize_ensemble H) (PyDict.values (map (fun '(k, e) => (k, reloaded e)) b))
  = map (serialize_ensemble H) (PyDict.values b).
Proof.
  unfold PyDict.values. rewrite !map_map. apply map_ext. now intros [k e].
Qed.

(** X21: An engram is a fixed point of loading and writing: the concept loaded
    from the engram of [c] has the engram of [c] again, and loading that
    engram gives the same concept once more.  [c] must carry some metadata:
    an empty dictionary is replaced by the default while loading. *)
Theorem engram_fixed_point (fresh : UUID) (c : t) :
  wf c = true ->
  keyed_by_identity c = true ->
  exists c',
    from_engram H fresh (serialize_engram H c) = Ok c' /\
    (metadata c <> [] ->
     serialize_engram H c' = serialize_engram H c /\
     from_engram H fresh (serialize_engram H c') = Ok c') /\
    (metadata c = [] ->
     metadata c' = [("version"%string, "3.0"%string)] /\
     serialize_engram H c' <> serialize_engram H c).
Proof.
  intros Hwf Hkey.
  destruct (from_engram_serialize fresh c Hwf Hkey) as (c' & Hc' & Hb & Hr & Hh).
  exists c'. split; [exact Hc'|].
  unfold header in Hh. injection Hh as A1 A2 A3 A4 A5 A6.
  split.
  - intros Hm.
    assert (E : serialize_engram H c' = serialize_engram H c).
    { unfold serialize_engram. rewrite A1, A2, A3, A5, A6, Hr, Hb, serialize_reloaded.
      rewrite A4. destruct (metadata c); [congruence|reflexivity]. }
    split; [exact E|]. now rewrite E.
  - intros Hm. rewrite Hm in A4. split; [exact A4|].
    intros E. apply (f_equal eg_metadata) in E. simpl in E.
    rewrite A4, Hm in E. discriminate.
Qed.

End Reload.

Lemma engram_fixed_point_witness :
  exists c',
    from_engram example_host 0%N (serialize_engram example_host shape_color) = Ok c' /\
    (metadata shape_color <> [] ->
     serialize_engram example_host c' = serialize_engram example_host shape_color /\
     from_engram example_host 0%N (serialize_engram example_host c') = Ok c') /\
    (metadata shape_color = [] ->
     metadata c' = [("version"%string, "3.0"%string)] /\
     serialize_engram example_host c' <> serialize_engram example_host shape_color).
Proof.
  apply (engram_fixed_point example_host example_host_parse_str 0%N shape_color);
    reflexivity.
Defined.

End ConceptFacts.

(** ** Relation diffing *)

Module RelationsUtilsFacts.
Import RelationsUtils.

Lemma tuple_eqb_spec (x y : RelationTuple) : tuple_eqb x y = true <-> x = y.
Proof.
  destruct x as [[a1 b1] c1], y as [[a2 b2] c2]. unfold tuple_eqb.
  rewrite !andb_true_iff, !String.eqb_eq. split.
  - intros [[-> ->] ->]. reflexivity.
  - intros [= -> -> ->]. auto.
Qed.

Lemma existsb_tuple x s : existsb (tuple_eqb x) s = true <-> In x s.
Proof.
  rewrite existsb_exists. split.
  - intros (y & Hy & E). apply tuple_eqb_spec in E. now subst.
  - intros Hin. exists x. split; auto. now apply tuple_eqb_spec.
Qed.

Lemma to_set_fold_In xs : forall s x,
  In x (fold_left (fun s x => if existsb (tuple_eqb x) s then s else s ++ [x]) xs s)
  <-> In x s \/ In x xs.
Proof.
  induction xs as [|y xs IH]; intros s x; simpl; [tauto|].
  rewrite IH. destruct (existsb (tuple_eqb y) s) eqn:E.
  - apply existsb_tuple in E. split; [tauto|]. intros [Hs|[->|Hx]]; auto.
  - rewrite in_app_iff. simpl. tauto.
Qed.

Lemma to_set_In xs x : In x (to_set xs) <-> In x xs.
Proof. unfold to_set. rewrite to_set_fold_In. simpl. tauto. Qed.

(** Adding a tuple that is already listed does not change the set. *)
Lemma to_set_snoc_dup xs x : In x xs -> to_set (xs ++ [x]) = to_set xs.
Proof.
  intros Hin. unfold to_set. rewrite fold_left_app. simpl.
  fold (to_set xs). apply to_set_In in Hin. apply existsb_tuple in Hin.
  now rewrite Hin.
Qed.

Lemma set_diff_self s : set_diff s s = [].
Proof.
  unfold set_diff.
  assert (G : forall l, (forall x, In x l -> In x s) ->
                        filter (fun x => negb (existsb (tuple_eqb x) s)) l = []).
  { induction l as [|x l IH]; intros Hl; simpl; auto.
    assert (E : existsb (tuple_eqb x) s = true)
      by (apply existsb_tuple, Hl; now left).
    rewrite E. simpl. apply IH. intros y Hy. apply Hl. now right. }
  apply G. auto.
Qed.

(** The diff of a list against itself extended by a tuple it already holds
    is empty on both sides. *)
Lemma diff_relations_dup before x :
  In x before ->
  diff_relations before (before ++ [x]) = {| added := []; removed := [] |}.
Proof.
  intros Hin. unfold diff_relations. rewrite (to_set_snoc_dup _ _ Hin).
  now rewrite set_diff_self.
Qed.

(** ** The diff as sets *)

Lemma to_set_fold_NoDup xs : forall s,
  NoDup s ->
  NoDup (fold_left (fun s x => if existsb (tuple_eqb x) s then s else s ++ [x]) xs s).
Proof.
  induction xs as [|y xs IH]; intros s Hs; simpl; auto.
  apply IH. destruct (existsb (tuple_eqb y) s) eqn:E; auto.
  apply NoDup_app; auto.
  - repeat constructor. intros [].
  - intros x Hx [<-|[]]. apply existsb_tuple in Hx. congruence.
Qed.

Lemma to_set_NoDup xs : NoDup (to_set xs).
Proof. apply to_set_fold_NoDup. constructor. Qed.

Lemma set_diff_In s1 s2 x : In x (set_diff s1 s2) <-> In x s1 /\ ~ In x s2.
Proof.
  unfold set_diff. rewrite filter_In, negb_true_iff. split.
  - intros [H1 H2]. split; auto. intros Hin. apply existsb_tuple in Hin. congruence.
  - intros [H1 H2]. split; auto. destruct (existsb (tuple_eqb x) s2) eqn:E; auto.
    apply existsb_tuple in E. contradiction.
Qed.

Lemma insert_sorted_perm x l : Permutation (insert_sorted x l) (x :: l).
Proof.
  induction l as [|y l IH]; simpl; auto.
  destruct (tuple_compare x y); auto. rewrite IH. apply perm_swap.
Qed.

Lemma sort_perm l : Permutation (sort l) l.
Proof.
  induction l as [|x l IH]; simpl; auto. rewrite insert_sorted_perm. now constructor.
Qed.

Lemma tuple_compare_antisym x y : tuple_compare x y = CompOpp (tuple_compare y x).
Proof.
  destruct x as [[a1 b1] c1], y as [[a2 b2] c2]. unfold tuple_compare.
  rewrite (String.compare_antisym a2 a1). destruct (String.compare a1 a2); simpl; auto.
  rewrite (String.compare_antisym b2 b1). destruct (String.compare b1 b2); simpl; auto.
  rewrite (String.compare_antisym c2 c1). now destruct (String.compare c1 c2).
Qed.

Lemma insert_sorted_HdRel y x l :
  tuple_le y x -> HdRel tuple_le y l -> HdRel tuple_le y (insert_sorted x l).
Proof.
  intros Hyx Hl. destruct l as [|z l]; simpl; [now constructor|].
  destruct (tuple_compare x z); constructor; auto; now inversion Hl.
Qed.

Lemma insert_sorted_Sorted x l : Sorted tuple_le l -> Sorted tuple_le (insert_sorted x l).
Proof.
  induction l as [|y l IH]; intros Hs; simpl.
  - repeat constructor.
  - inversion Hs as [|? ? Hs' Hhd]; subst.
    destruct (tuple_compare x y) eqn:E.
    + constructor; [exact Hs|]. constructor. unfold tuple_le. congruence.
    + constructor; [exact Hs|]. constructor. unfold tuple_le. congruence.
    + constructor; [now apply IH|]. apply insert_sorted_HdRel; [|exact Hhd].
      unfold tuple_le. rewrite tuple_compare_antisym, E. discriminate.
Qed.

Lemma sort_Sorted l : Sorted tuple_le (sort l).
Proof.
  induction l as [|x l IH]; simpl; [constructor|]. now apply insert_sorted_Sorted.
Qed.

(** X22: [diff_relations] as a specification: [added] lists the tuples of
    [after] that are not in [before], [removed] those of [before] that are
    not in [after]; each tuple is listed once, the two lists are disjoint,
    and each is in ascending order.  Repetitions and the order of the
    inputs do not matter for what is listed. *)
Theorem diff_relations_spec (before after : list RelationTuple) :
  let d := diff_relations before after in
  (forall x, In x (added d) <-> In x after /\ ~ In x before) /\
  (forall x, In x (removed d) <-> In x before /\ ~ In x after) /\
  NoDup (added d) /\ NoDup (removed d) /\
  Sorted tuple_le (added d) /\ Sorted tuple_le (removed d) /\
  (forall x, In x (added d) -> In x (removed d) -> False) /\
  diff_relations before before = {| added := []; removed := [] |}.
Proof.
  cbv zeta. unfold diff_relations. cbn [added removed].
  assert (Hin : forall s1 s2 x,
             In x (sort (set_diff (to_set s1) (to_set s2))) <-> In x s1 /\ ~ In x s2).
  { intros s1 s2 x. split.
    - intros Hx. apply (Permutation_in _ (sort_perm _)) in Hx.
      apply set_diff_In in Hx. now rewrite !to_set_In in Hx.
    - intros Hx. apply (Permutation_in _ (Permutation_sym (sort_perm _))).
      apply set_diff_In. now rewrite !to_set_In. }
  assert (Hnd : forall s1 s2, NoDup (sort (set_diff (to_set s1) (to_set s2)))).
  { intros s1 s2. apply (Permutation_NoDup (Permutation_sym (sort_perm _))).
    apply NoDup_filter, to_set_NoDup. }
  split; [intros x; apply Hin|]. split; [intros x; apply Hin|].
  split; [apply Hnd|]. split; [apply Hnd|].
  split; [apply sort_Sorted|]. split; [apply sort_Sorted|]. split.
  - intros x Ha Hr. apply Hin in Ha, Hr. tauto.
  - now rewrite set_diff_self.
Qed.

(** A tuple that was not listed before is the whole diff. *)
Lemma diff_relations_new before x :
  ~ In x before ->
  diff_relations before (before ++ [x]) = {| added := [x]; removed := [] |}.
Proof.
  intros Hni. unfold diff_relations.
  assert (E : to_set (before ++ [x]) = to_set before ++ [x]).
  { unfold to_set. rewrite fold_left_app. simpl. fold (to_set before).
    destruct (existsb (tuple_eqb x) (to_set before)) eqn:E; auto.
    apply existsb_tuple in E. apply (proj1 (to_set_In _ _)) in E. contradiction. }
  rewrite E. f_equal.
  - unfold set_diff. rewrite filter_app. fold (set_diff (to_set before) (to_set before)).
    rewrite set_diff_self. simpl.
    destruct (existsb (tuple_eqb x) (to_set before)) eqn:E'; auto.
    apply existsb_tuple in E'. apply (proj1 (to_set_In _ _)) in E'. contradiction.
  - assert (G : forall l, (forall y, In y l -> In y (to_set before ++ [x])) ->
                          set_diff l (to_set before ++ [x]) = []).
    { unfold set_diff. induction l as [|y l IH]; intros Hl; simpl; auto.
      assert (Ey : existsb (tuple_eqb y) (to_set before ++ [x]) = true)
        by (apply existsb_tuple, Hl; now left).
      rewrite Ey. simpl. apply IH. intros z Hz. apply Hl. now right. }
    rewrite G; auto. intros y Hy. apply in_or_app. now left.
Qed.

End RelationsUtilsFacts.

(** ** Concept algebra *)

Module ManipulationsFacts.
Import Manipulations RelationsUtils.

Lemma nth_error_list_set_eq {A : Type} (l : list A) : forall i x y,
  nth_error l i = Some y -> nth_error (list_set l i x) i = Some x.
Proof.
  induction l as [|z l IH]; intros [|i] x y Hn; simpl in *; try discriminate; eauto.
Qed.

Lemma nth_error_list_set_ne {A : Type} (l : list A) : forall i j x,
  i <> j -> nth_error (list_set l i x) j = nth_error l j.
Proof.
  induction l as [|z l IH]; intros [|i] [|j] x Hne; simpl; auto; try congruence.
Qed.

Lemma length_list_set {A : Type} (l : list A) : forall i x,
  List.length (list_set l i x) = List.length l.
Proof. induction l as [|z l IH]; intros [|i] x; simpl; auto. Qed.

(** C1 (the code at the failing input): A has no ensemble, B has ["x"] and
    ["y"] with a link from ["x"] to ["y"] of weight 0.5.  The merge returns a
    new concept at reference 2 that holds ["x"] and ["y"] under their own
    names, and neither of them has a link: [copy_links(b, "__B")] looks every
    B ensemble up under its name with the suffix, also when the ensemble was
    copied without it.  With the same two concepts in the other order, the
    A-side copy keeps the link. *)
Theorem merge_drops_unrenamed_links (H : Host) :
  (exists st out c ex ey,
      merge_concepts H 0%nat 1%nat "Merged" store_ab = (st, Ok out) /\
      fst (fst out) = Some 2%nat /\
      nth_error (concepts st) 2%nat = Some c /\
      Concept.ensembles_by_id c = [(101%N, ex); (102%N, ey)] /\
      FeatureEnsemble.name ex = "x"%string /\
      FeatureEnsemble.name ey = "y"%string /\
      FeatureEnsemble.links ex = [] /\
      FeatureEnsemble.links ey = []) /\
  (exists st out c ex ey,
      merge_concepts H 1%nat 0%nat "Merged" store_ab = (st, Ok out) /\
      fst (fst out) = Some 2%nat /\
      nth_error (concepts st) 2%nat = Some c /\
      Concept.ensembles_by_id c = [(101%N, ex); (102%N, ey)] /\
      FeatureEnsemble.name ex = "x"%string /\
      FeatureEnsemble.name ey = "y"%string /\
      FeatureEnsemble.links ex = [(102%N, 5 # 10)] /\
      FeatureEnsemble.links ey = []).
Proof.
  split; do 5 eexists; (split; [vm_compute; reflexivity|]); repeat split.
Qed.

(** C9: when A already holds an edge with the relation type, the identity of
    B and the description that [bind_relation] is called with, the call
    still appends the edge to A's relationship list, which grows by one, and
    the delta it returns has an empty [added] and an empty [removed]. *)
Theorem bind_relation_duplicate (H : Host) (st : Store) (a b : nat)
  (rel descr : string) (ca cb : Concept.t) :
  nth_error (concepts st) a = Some ca ->
  nth_error (concepts st) b = Some cb ->
  In (mkEdge rel (Concept.concept_id cb) descr) (Concept.relationships ca) ->
  exists st' notes ca',
    bind_relation H a b rel descr st
    = (st', Ok (Some a, {| added := []; removed := [] |}, notes)) /\
    nth_error (concepts st') a = Some ca' /\
    Concept.relationships ca'
    = Concept.relationships ca ++ [mkEdge rel (Concept.concept_id cb) descr] /\
    List.length (Concept.relationships ca') = S (List.length (Concept.relationships ca)).
Proof.
  intros Ha Hb Hin.
  set (ca' := Concept.add_relationship ca rel (Concept.concept_id cb) descr).
  assert (Ha' : nth_error (list_set (concepts st) a ca') a = Some ca')
    by (eapply nth_error_list_set_eq, Ha).
  assert (Hb' : exists cb', nth_error (list_set (concepts st) a ca') b = Some cb').
  { destruct (Nat.eq_dec a b) as [<-|Hne]; [eauto|].
    rewrite nth_error_list_set_ne by exact Hne. eauto. }
  destruct Hb' as (cb' & Hb').
  assert (Hd : diff_relations (list_relations H ca) (list_relations H ca')
               = {| added := []; removed := [] |}).
  { unfold ca', list_relations, Concept.add_relationship. simpl.
    rewrite map_app. simpl. apply RelationsUtilsFacts.diff_relations_dup.
    apply in_map_iff. exists (mkEdge rel (Concept.concept_id cb) descr). auto. }
  eexists _, _, ca'. split; [|split; [|split]].
  - unfold bind_relation, bind, read, modify, ret. simpl.
    rewrite Ha, Hb. simpl. fold ca'. rewrite Ha', Hb', Hd. reflexivity.
  - simpl. exact Ha'.
  - reflexivity.
  - unfold ca', Concept.add_relationship. simpl. rewrite length_app. simpl. lia.
Qed.

(** The instance of C9 on the store where A already holds
    [("IS_A", B, "a is a b")]. *)
Lemma bind_relation_duplicate_witness :
  exists st' notes ca',
    bind_relation example_host 0%nat 1%nat "IS_A" "a is a b" store_bound
    = (st', Ok (Some 0%nat, {| added := []; removed := [] |}, notes)) /\
    nth_error (concepts st') 0%nat = Some ca' /\
    Concept.relationships ca'
    = [mkEdge "IS_A" 20%N "a is a b"] ++ [mkEdge "IS_A" 20%N "a is a b"] /\
    List.length (Concept.relationships ca') = 2%nat.
Proof.
  apply (bind_relation_duplicate example_host store_bound 0%nat 1%nat
           "IS_A"%string "a is a b"%string _ concept_b eq_refl eq_refl).
  simpl. now left.
Defined.

(** *** A Hoare logic for the operations *)

Lemma hoare_conseq {A : Type} (P P' : list Concept.t -> Prop) (m : M A)
  (Q Q' : list Concept.t -> A -> Prop) (E : list Concept.t -> exn -> Prop) :
  (forall cs, P' cs -> P cs) ->
  (forall cs x, Q cs x -> Q' cs x) ->
  hoare P m Q E -> hoare P' m Q' E.
Proof.
  intros HP HQ Hm st Hst. specialize (Hm st (HP _ Hst)).
  destruct (m st) as [st' [x|e]]; auto.
Qed.

Lemma hoare_ret {A : Type} (P : list Concept.t -> Prop) (x : A)
  (Q : list Concept.t -> A -> Prop) E :
  (forall cs, P cs -> Q cs x) -> hoare P (ret x) Q E.
Proof. intros HQ st Hst. simpl. auto. Qed.

Lemma hoare_bind {A B : Type} (P : list Concept.t -> Prop) (m : M A) (k : A -> M B)
  (R : list Concept.t -> A -> Prop) (Q : list Concept.t -> B -> Prop) E :
  hoare P m R E ->
  (forall x, hoare (fun cs => R cs x) (k x) Q E) ->
  hoare P (bind m k) Q E.
Proof.
  intros Hm Hk st Hst. unfold bind. specialize (Hm st Hst).
  destruct (m st) as [st' [x|e]]; auto. apply (Hk x st' Hm).
Qed.

Lemma hoare_read (P : list Concept.t -> Prop) (r : nat) E :
  (forall cs, P cs -> nth_error cs r = None -> E cs BadRef) ->
  hoare P (read r) (fun cs c => P cs /\ nth_error cs r = Some c) E.
Proof.
  intros HE st Hst. unfold read.
  destruct (nth_error (concepts st) r) eqn:En; auto.
Qed.

Lemma hoare_lift {A : Type} (P : list Concept.t -> Prop) (r : Result A) E :
  (forall cs e, P cs -> r = Raise e -> E cs e) ->
  hoare P (lift r) (fun cs x => P cs /\ r = Ok x) E.
Proof. intros HE st Hst. unfold lift. destruct r; auto. Qed.

Lemma hoare_uuid4 (P : list Concept.t -> Prop) E :
  hoare P uuid4 (fun cs _ => P cs) E.
Proof. intros st Hst. exact Hst. Qed.

Lemma hoare_alloc (P : list Concept.t -> Prop) (c : Concept.t) E :
  hoare P (alloc c)
    (fun cs r => exists cs0, P cs0 /\ cs = cs0 ++ [c] /\ r = List.length cs0) E.
Proof. intros st Hst. simpl. eauto. Qed.

Lemma hoare_modify (P : list Concept.t -> Prop) (r : nat)
  (f : Concept.t -> Concept.t) E :
  (forall cs, P cs -> nth_error cs r = None -> E cs BadRef) ->
  hoare P (modify r f)
    (fun cs _ => exists cs0 c,
         P cs0 /\ nth_error cs0 r = Some c /\ cs = list_set cs0 r (f c)) E.
Proof.
  intros HE st Hst. unfold modify.
  destruct (nth_error (concepts st) r) eqn:En; simpl; eauto.
Qed.

Lemma hoare_forM_ {A : Type} (I : list Concept.t -> Prop) (xs : list A)
  (body : A -> M unit) E :
  (forall x, In x xs -> hoare I (body x) (fun cs _ => I cs) E) ->
  hoare I (forM_ xs body) (fun cs _ => I cs) E.
Proof.
  induction xs as [|x xs IH]; intros Hb; simpl.
  - apply hoare_ret. auto.
  - eapply hoare_bind.
    + apply Hb. now left.
    + intros u. apply IH. intros y Hy. apply Hb. now right.
Qed.

Lemma hoare_foldM {A B : Type} (I : B -> list Concept.t -> Prop) (xs : list A)
  (body : B -> A -> M B) E : forall acc,
  (forall acc x, In x xs -> hoare (I acc) (body acc x) (fun cs acc' => I acc' cs) E) ->
  hoare (I acc) (foldM xs acc body) (fun cs acc' => I acc' cs) E.
Proof.
  induction xs as [|x xs IH]; intros acc Hb; simpl.
  - apply hoare_ret. auto.
  - eapply hoare_bind.
    + apply Hb. now left.
    + intros acc'. apply IH. intros a y Hy. apply Hb. now right.
Qed.

#[local] Open Scope nat_scope.

(** *** Dictionaries of new identities *)

Lemma get_In_values {K V : Type} (keq : K -> K -> bool) (d : list (K * V)) k v :
  PyDict.get keq d k = Some v -> In v (PyDict.values d).
Proof.
  induction d as [|[k' v'] d IH]; simpl; [discriminate|].
  destruct (keq k' k); [intros [= ->]; now left|]. intros Hg. right. auto.
Qed.

Lemma values_set {K V : Type} (keq : K -> K -> bool) (d : list (K * V)) k x v :
  In v (PyDict.values (PyDict.set keq d k x)) -> In v (PyDict.values d) \/ v = x.
Proof.
  induction d as [|[k' v'] d IH]; simpl.
  - intros [<-|[]]. now right.
  - destruct (keq k' k); simpl.
    + intros [<-|Hin]; auto.
    + intros [<-|Hin]; auto. destruct (IH Hin); auto.
Qed.

Lemma name_to_id_values (l : list (UUID * FeatureEnsemble.t)) : forall d v,
  In v (PyDict.values
          (fold_left (fun d '(eid, e) => PyDict.set String.eqb d (FeatureEnsemble.name e) eid)
                     l d)) ->
  In v (PyDict.values d) \/ In v (PyDict.keys l).
Proof.
  induction l as [|[eid e] l IH]; intros d v Hin; simpl in *; auto.
  apply IH in Hin as [Hin|Hin]; auto.
  apply values_set in Hin as [Hin| ->]; auto.
Qed.

Lemma keys_add_ensemble (c : Concept.t) (e : FeatureEnsemble.t) i :
  In i (PyDict.keys (Concept.ensembles_by_id (Concept.add_ensemble c e))) <->
  In i (PyDict.keys (Concept.ensembles_by_id c)) \/ i = FeatureEnsemble.ensemble_id e.
Proof.
  unfold Concept.add_ensemble. simpl.
  apply (PyDictFacts.In_keys_set N.eqb ConceptFacts.Neqb_spec).
Qed.

Lemma list_set_app_r {A : Type} (l : list A) : forall more i x,
  List.length l <= i -> list_set (l ++ more) i x = l ++ list_set more (i - List.length l) x.
Proof.
  induction l as [|y l IH]; intros more i x Hle; simpl.
  - now rewrite Nat.sub_0_r.
  - destruct i as [|i]; [simpl in Hle; lia|]. simpl. f_equal. apply IH.
    simpl in Hle. lia.
Qed.

(** *** The frame of an operation *)

Section Frame.
Variable cs0 : list Concept.t.
Variables a b : nat.
Variables ca cb : Concept.t.
Hypothesis Ha : nth_error cs0 a = Some ca.
Hypothesis Hb : nth_error cs0 b = Some cb.

(** The condition under which no lookup of the operation fails. *)
Variable phi : Prop.

Lemma extends_old cs r x : extends cs0 cs -> nth_error cs0 r = Some x -> nth_error cs r = Some x.
Proof.
  intros [more ->] Hr. rewrite nth_error_app1; auto.
  apply nth_error_Some. congruence.
Qed.

Lemma inv_extends c K cs : inv cs0 c K cs -> extends cs0 cs.
Proof. now intros [He _]. Qed.

Lemma inv_weaken c (K K' : list UUID -> Prop) cs :
  (forall ks, K ks -> K' ks) -> inv cs0 c K cs -> inv cs0 c K' cs.
Proof. intros HK (He & Hc & cc & Hn & Hk). repeat split; eauto. Qed.

Lemma read_old (P : list Concept.t -> Prop) r x :
  (forall cs, P cs -> extends cs0 cs) ->
  nth_error cs0 r = Some x ->
  hoare P (read r) (fun cs y => P cs /\ y = x) (exc cs0 phi).
Proof.
  intros HP Hr. eapply hoare_conseq; [| |apply hoare_read].
  - intros cs Hcs. exact Hcs.
  - intros cs y [Hcs Hy]. split; auto.
    rewrite (extends_old cs r x (HP _ Hcs) Hr) in Hy. congruence.
  - intros cs Hcs Hn. rewrite (extends_old cs r x (HP _ Hcs) Hr) in Hn. discriminate.
Qed.

Lemma hoare_pure {A : Type} (P : list Concept.t -> Prop) (fact : Prop) (m : M A) Q E :
  (fact -> hoare P m Q E) -> hoare (fun cs => P cs /\ fact) m Q E.
Proof. intros Hm st [Hp Hf]. exact (Hm Hf st Hp). Qed.

Lemma hoare_pre {A : Type} (P P' : list Concept.t -> Prop) (m : M A) Q E :
  (forall cs, P' cs -> P cs) -> hoare P m Q E -> hoare P' m Q E.
Proof. intros HP Hm. eapply hoare_conseq; [exact HP| |exact Hm]. auto. Qed.

Lemma read_new c K :
  hoare (inv cs0 c K) (read c)
    (fun cs cc => inv cs0 c K cs /\ K (PyDict.keys (Concept.ensembles_by_id cc))) (exc cs0 phi).
Proof.
  eapply hoare_conseq; [| |apply hoare_read].
  - intros cs Hcs. exact Hcs.
  - intros cs y [Hcs Hy]. split; auto.
    destruct Hcs as (_ & _ & cc & Hn & Hk). congruence.
  - intros cs (_ & _ & cc & Hn & _) Hn'. congruence.
Qed.

(** After reading the new object, its identities are known. *)
Lemma read_new_content c K :
  hoare (inv cs0 c K) (read c)
    (fun cs cc => inv cs0 c (eq (PyDict.keys (Concept.ensembles_by_id cc))) cs) (exc cs0 phi).
Proof.
  eapply hoare_conseq; [| |apply hoare_read].
  - intros cs Hcs. exact Hcs.
  - intros cs y [(He & Hc & cc & Hn & Hk) Hy]. repeat split; auto.
    exists y. split; auto.
  - intros cs (_ & _ & cc & Hn & _) Hn'. congruence.
Qed.

Lemma modify_new c (K K' : list UUID -> Prop) (f : Concept.t -> Concept.t) :
  (forall cc, K (PyDict.keys (Concept.ensembles_by_id cc)) ->
              K' (PyDict.keys (Concept.ensembles_by_id (f cc)))) ->
  hoare (inv cs0 c K) (modify c f) (fun cs _ => inv cs0 c K' cs) (exc cs0 phi).
Proof.
  intros HK. eapply hoare_conseq; [| |apply hoare_modify].
  - intros cs Hcs. exact Hcs.
  - intros cs _ (cs1 & cc & ([more ->] & Hc & cc' & Hn' & Hk) & Hn & ->).
    assert (cc' = cc) by congruence. subst cc'.
    repeat split; auto.
    + rewrite list_set_app_r by exact Hc. eexists. reflexivity.
    + exists (f cc). split; [eapply nth_error_list_set_eq; eauto|auto].
  - intros cs (_ & _ & cc & Hn & _) Hn'. congruence.
Qed.

Lemma new_ensemble_frame (P : list Concept.t -> Prop) nm md vec descr :
  hoare P (new_ensemble nm md vec descr) (fun cs _ => P cs) (exc cs0 phi).
Proof.
  unfold new_ensemble. eapply hoare_bind; [apply hoare_uuid4|].
  intros i. apply hoare_ret. auto.
Qed.

Lemma copy_concept_shallow_frame nm :
  hoare (extends cs0) (_copy_concept_shallow a nm)
    (fun cs c => inv cs0 c (fun _ => True) cs) (exc cs0 phi).
Proof.
  unfold _copy_concept_shallow.
  eapply hoare_bind; [apply (read_old (extends cs0) a ca); auto|].
  intros x. unfold new_concept.
  eapply hoare_bind; [apply hoare_uuid4|]. intros i. simpl.
  eapply hoare_conseq; [| |apply hoare_alloc].
  - intros cs Hcs. exact Hcs.
  - intros cs r (cs1 & [[more ->] _] & -> & ->). repeat split.
    + eexists. rewrite <- app_assoc. reflexivity.
    + rewrite length_app. lia.
    + eexists. split; [|exact I]. rewrite nth_error_app2 by lia.
      rewrite Nat.sub_diag. reflexivity.
Qed.

Lemma set_link_frame c K sid tid2 w :
  hoare (inv cs0 c K) (set_link c sid tid2 w) (fun cs _ => inv cs0 c K cs) (exc cs0 phi).
Proof.
  unfold set_link. apply modify_new. intros cc Hk.
  destruct (ConceptFacts.update_ensemble_index cc sid
              (fun se => FeatureEnsemble.set_links se
                           (PyDict.set N.eqb (FeatureEnsemble.links se) tid2 w)))
    as [Hkeys _].
  now rewrite Hkeys.
Qed.

Lemma index_closed (c : Concept.t) t_id :
  In t_id (PyDict.keys (Concept.ensembles_by_id c)) ->
  exists te, PyDict.index N.eqb (Concept.ensembles_by_id c) t_id = Ok te.
Proof.
  intros Hin. apply (PyDictFacts.contains_In N.eqb ConceptFacts.Neqb_spec) in Hin.
  unfold PyDict.index, PyDict.contains in *.
  destruct (PyDict.get N.eqb (Concept.ensembles_by_id c) t_id); [eauto|discriminate].
Qed.

Lemma get_ensemble_In (c : Concept.t) n e :
  Concept.get_ensemble c n = Some e -> In e (PyDict.values (Concept.ensembles_by_id c)).
Proof.
  unfold Concept.get_ensemble.
  destruct (PyDict.get String.eqb (Concept.ensembles_by_name c) n); [|discriminate].
  apply get_In_values.
Qed.

(** The second loop of [intersect_concepts] and [subtract_concepts]. *)
Lemma relink_frame c K d n ea :
  (phi -> forall t_id w, In (t_id, w) (FeatureEnsemble.links ea) ->
                         In t_id (PyDict.keys (Concept.ensembles_by_id ca))) ->
  hoare (inv cs0 c K) (relink a c d n ea) (fun cs _ => inv cs0 c K cs) (exc cs0 phi).
Proof.
  intros Hcl. unfold relink.
  eapply hoare_bind; [apply read_new|]. intros cr. apply hoare_pure. intros _.
  destruct (PyDict.get String.eqb (Concept.ensembles_by_name cr) n) as [sid|];
    [|apply hoare_ret; auto].
  destruct (PyDict.get N.eqb (Concept.ensembles_by_id cr) sid);
    [|apply hoare_ret; auto].
  apply hoare_forM_. intros [t_id w] Hin.
  eapply hoare_bind; [apply (read_old (inv cs0 c K) a ca); [apply inv_extends|exact Ha]|].
  intros x. apply hoare_pure. intros ->.
  eapply hoare_bind.
  - apply hoare_lift. intros cs e Hcs Hr. split; [eapply inv_extends, Hcs|].
    intros Hphi. destruct (index_closed ca t_id (Hcl Hphi t_id w Hin)) as (te & Hte).
    congruence.
  - intros te. apply hoare_pure. intros _.
    destruct (PyDict.get String.eqb d (FeatureEnsemble.name te));
      [apply set_link_frame|apply hoare_ret; auto].
Qed.

(** [copy_links] of [merge_concepts], for a source that existed before the
    call. *)
Lemma copy_links_frame c d src csrc suffix :
  nth_error cs0 src = Some csrc ->
  (phi -> links_closed csrc) ->
  hoare (inv cs0 c (incl (PyDict.values d))) (copy_links c d src suffix)
        (fun cs _ => inv cs0 c (incl (PyDict.values d)) cs) (exc cs0 phi).
Proof.
  intros Hsrc Hcl. unfold copy_links.
  eapply hoare_bind;
    [apply (read_old (inv cs0 c (incl (PyDict.values d))) src csrc);
     [apply inv_extends|exact Hsrc]|].
  intros x. apply hoare_pure. intros ->.
  apply hoare_forM_. intros e He. cbv zeta.
  match goal with
  | |- context [PyDict.get String.eqb d ?k] =>
      destruct (PyDict.get String.eqb d k) as [sid|] eqn:Eg
  end; [|apply hoare_ret; auto].
  eapply hoare_bind; [apply read_new|]. intros cc. apply hoare_pure. intros Hk.
  eapply hoare_bind.
  - apply hoare_lift. intros cs e' Hcs Hr. exfalso.
    destruct (index_closed cc sid) as (te & Hte); [|congruence].
    apply Hk. eapply get_In_values, Eg.
  - intros se. apply hoare_pure. intros _.
    apply hoare_forM_. intros [tid w] Hin.
    eapply hoare_bind;
      [apply (read_old (inv cs0 c (incl (PyDict.values d))) src csrc);
       [apply inv_extends|exact Hsrc]|].
    intros x. apply hoare_pure. intros ->.
    eapply hoare_bind.
    + apply hoare_lift. intros cs e' Hcs Hr. split; [eapply inv_extends, Hcs|].
      intros Hphi.
      destruct (index_closed csrc tid (Hcl Hphi e tid w He Hin)) as (te & Hte).
      congruence.
    + intros te. apply hoare_pure. intros _. cbv zeta.
      match goal with
      | |- context [PyDict.get String.eqb d ?k] =>
          destruct (PyDict.get String.eqb d k)
      end; [apply set_link_frame|apply hoare_ret; auto].
Qed.

Lemma ensemble_name_set_frame (P : list Concept.t -> Prop) r x :
  (forall cs, P cs -> extends cs0 cs) ->
  nth_error cs0 r = Some x ->
  hoare P (_ensemble_name_set r) (fun cs _ => P cs) (exc cs0 phi).
Proof.
  intros HP Hr. unfold _ensemble_name_set.
  eapply hoare_bind; [apply (read_old P r x HP Hr)|].
  intros y. apply hoare_ret. tauto.
Qed.

(** Registering a new ensemble and recording its identity under [key]. *)
Lemma register_frame c (d : list (string * UUID)) (key nm md : string) vec descr :
  hoare (inv cs0 c (incl (PyDict.values d)))
    (ne <- new_ensemble nm md vec descr ;;
     modify c (fun cc => Concept.add_ensemble cc ne) ;;;
     ret (PyDict.set String.eqb d key (FeatureEnsemble.ensemble_id ne)))
    (fun cs d' => inv cs0 c (incl (PyDict.values d')) cs) (exc cs0 phi).
Proof.
  eapply hoare_bind; [apply new_ensemble_frame|]. intros ne.
  eapply hoare_bind.
  - apply (modify_new c _
             (incl (PyDict.values
                      (PyDict.set String.eqb d key (FeatureEnsemble.ensemble_id ne))))).
    intros cc Hk v Hv. apply keys_add_ensemble.
    apply values_set in Hv as [Hv| ->]; auto.
  - intros u. apply hoare_ret. auto.
Qed.

Lemma inv_any c K cs : inv cs0 c K cs -> inv cs0 c (fun _ => True) cs.
Proof. apply inv_weaken. auto. Qed.

Lemma inv_start c cs : inv cs0 c (fun _ => True) cs -> inv cs0 c (incl []) cs.
Proof. apply inv_weaken. intros ks _ v []. Qed.

(** [subtract_concepts] *)
Lemma subtract_frame nm :
  (phi -> links_closed ca) ->
  hoare (extends cs0) (subtract_concepts a b nm)
    (fun cs out => exists c, fst (fst out) = Some c /\ inv cs0 c (fun _ => True) cs) (exc cs0 phi).
Proof.
  intros Hcl. unfold subtract_concepts.
  eapply hoare_bind; [apply copy_concept_shallow_frame|]. intros c.
  eapply hoare_bind;
    [apply (ensemble_name_set_frame _ b cb); [apply inv_extends|exact Hb]|].
  intros nb.
  eapply hoare_bind; [apply (read_old _ a ca); [apply inv_extends|exact Ha]|].
  intros x. apply hoare_pure. intros ->. cbv zeta.
  eapply hoare_bind.
  - eapply hoare_pre; [apply inv_start|].
    apply (hoare_foldM (fun d cs => inv cs0 c (incl (PyDict.values d)) cs) _ _ _ []).
    intros d e He. apply register_frame.
  - intros d. eapply hoare_bind.
    + apply hoare_forM_. intros e He. apply relink_frame.
      intros Hphi t_id w Hin. apply filter_In in He as [He _].
      exact (Hcl Hphi e t_id w He Hin).
    + intros u. apply hoare_ret. intros cs Hcs. exists c. split; auto.
      eapply inv_any, Hcs.
Qed.

Variable H : Host.

(** [merge_concepts] *)
Lemma merge_frame nm :
  (phi -> links_closed ca /\ links_closed cb) ->
  hoare (extends cs0) (merge_concepts H a b nm)
    (fun cs out => exists c, fst (fst out) = Some c /\ inv cs0 c (fun _ => True) cs) (exc cs0 phi).
Proof.
  intros Hcl. unfold merge_concepts.
  eapply hoare_bind; [apply copy_concept_shallow_frame|]. intros c.
  eapply hoare_bind; [apply (read_old _ a ca); [apply inv_extends|exact Ha]|].
  intros x. apply hoare_pure. intros ->.
  eapply hoare_bind.
  { apply hoare_forM_. intros ea Hea.
    eapply hoare_bind; [apply new_ensemble_frame|]. intros na.
    apply modify_new. auto. }
  intros u1.
  eapply hoare_bind; [apply (read_old _ b cb); [apply inv_extends|exact Hb]|].
  intros x. apply hoare_pure. intros ->.
  eapply hoare_bind.
  { apply hoare_forM_. intros eb Heb.
    eapply hoare_bind; [apply read_new|]. intros cc. apply hoare_pure. intros _.
    cbv zeta.
    eapply hoare_bind; [apply new_ensemble_frame|]. intros nb.
    apply modify_new. auto. }
  intros u2.
  eapply hoare_bind; [apply read_new_content|]. intros cc. cbv zeta.
  set (d := fold_left _ (Concept.ensembles_by_id cc) []).
  eapply hoare_pre with (P := inv cs0 c (incl (PyDict.values d))).
  { intros cs. apply inv_weaken. intros ks <- v Hv.
    apply name_to_id_values in Hv as [[]|Hv]. exact Hv. }
  eapply hoare_bind.
  { apply (copy_links_frame c d a ca); [exact Ha|]. intros Hphi. now apply Hcl. }
  intros u3.
  eapply hoare_bind.
  { apply (copy_links_frame c d b cb); [exact Hb|]. intros Hphi. now apply Hcl. }
  intros u4.
  eapply hoare_bind; [apply (read_old _ a ca); [apply inv_extends|exact Ha]|].
  intros x. apply hoare_pure. intros ->.
  eapply hoare_bind; [apply (modify_new c _ (fun _ => True)); auto|]. intros u5.
  eapply hoare_bind; [apply (read_old _ b cb); [apply inv_extends|exact Hb]|].
  intros x. apply hoare_pure. intros ->.
  eapply hoare_bind; [apply (modify_new c _ (fun _ => True)); auto|]. intros u6.
  eapply hoare_bind; [apply read_new|]. intros cc'. apply hoare_pure. intros _.
  eapply hoare_bind; [apply (read_old _ a ca); [apply inv_extends|exact Ha]|].
  intros x. apply hoare_pure. intros ->.
  eapply hoare_bind; [apply (read_old _ b cb); [apply inv_extends|exact Hb]|].
  intros x. apply hoare_pure. intros ->.
  apply hoare_ret. intros cs Hcs. exists c. auto.
Qed.

Lemma rel_pairs_In (c : Concept.t) p :
  In p (rel_pairs H c) -> exists u, snd p = uuid_str H u.
Proof.
  unfold rel_pairs.
  assert (G : forall rs s,
             (forall q, In q s -> exists u, snd q = uuid_str H u) ->
             In p (fold_left
                     (fun s r =>
                        let p := (relation_type r, uuid_str H (target_concept_id r)) in
                        if existsb (fun q => String.eqb (fst p) (fst q)
                                             && String.eqb (snd p) (snd q)) s
                        then s else s ++ [p]) rs s) ->
             exists u, snd p = uuid_str H u).
  { induction rs as [|r rs IH]; intros s Hs Hin; simpl in Hin; auto.
    apply IH in Hin; auto. intros q Hq.
    destruct (existsb _ s); auto.
    apply in_app_iff in Hq as [Hq|[<-|[]]]; auto. simpl. eauto. }
  apply G. intros q [].
Qed.

(** [intersect_concepts] *)
Lemma intersect_frame nm :
  (phi -> links_closed ca /\ forall u, uuid_parse H (uuid_str H u) = Some u) ->
  hoare (extends cs0) (intersect_concepts H a b nm)
    (fun cs out => exists c, fst (fst out) = Some c /\ inv cs0 c (fun _ => True) cs) (exc cs0 phi).
Proof.
  intros Hcl. unfold intersect_concepts.
  eapply hoare_bind; [apply copy_concept_shallow_frame|]. intros c.
  eapply hoare_bind;
    [apply (ensemble_name_set_frame _ a ca); [apply inv_extends|exact Ha]|].
  intros na.
  eapply hoare_bind;
    [apply (ensemble_name_set_frame _ b cb); [apply inv_extends|exact Hb]|].
  intros nb. cbv zeta.
  eapply hoare_bind.
  { eapply hoare_pre; [apply inv_start|].
    apply (hoare_foldM (fun d cs => inv cs0 c (incl (PyDict.values d)) cs) _ _ _ []).
    intros d n Hn.
    eapply hoare_bind; [apply (read_old _ a ca); [apply inv_extends|exact Ha]|].
    intros x. apply hoare_pure. intros ->.
    destruct (Concept.get_ensemble ca n) as [ea|]; [|apply hoare_ret; auto].
    apply register_frame. }
  intros d.
  eapply hoare_bind.
  { apply hoare_forM_. intros n Hn.
    eapply hoare_bind; [apply (read_old _ a ca); [apply inv_extends|exact Ha]|].
    intros x. apply hoare_pure. intros ->.
    destruct (Concept.get_ensemble ca n) as [ea|] eqn:Eg; [|apply hoare_ret; auto].
    apply relink_frame. intros Hphi t_id w Hin.
    apply (proj1 (Hcl Hphi) ea t_id w); auto. eapply get_ensemble_In, Eg. }
  intros u1.
  eapply hoare_bind; [apply (read_old _ a ca); [apply inv_extends|exact Ha]|].
  intros x. apply hoare_pure. intros ->.
  eapply hoare_bind; [apply (read_old _ b cb); [apply inv_extends|exact Hb]|].
  intros x. apply hoare_pure. intros ->. cbv zeta.
  eapply hoare_bind.
  { apply hoare_forM_. intros [rel_type target_id_str] Hp.
    eapply hoare_bind.
    - apply hoare_lift. intros cs e Hcs Hr. split; [eapply inv_extends, Hcs|].
      intros Hphi. unfold pairs_inter in Hp. apply filter_In in Hp as [Hp _].
      apply rel_pairs_In in Hp as (u & Hu). simpl in Hu. subst target_id_str.
      unfold Concept.parse_uuid in Hr. rewrite (proj2 (Hcl Hphi)) in Hr. discriminate.
    - intros target. apply hoare_pure. intros _. apply modify_new. auto. }
  intros u2.
  eapply hoare_bind; [apply read_new|]. intros cr. apply hoare_pure. intros _.
  apply hoare_ret. intros cs Hcs. exists c. split; auto. eapply inv_any, Hcs.
Qed.

End Frame.





(** ** Binding a relation that is new *)

(** X23: [bind_relation] with an edge whose tuple (type, target as a string,
    description) is not among the relations of A appends the edge to A,
    leaves every other concept object alone, and reports exactly that tuple
    as added and nothing as removed. *)
Theorem bind_relation_new_edge (H : Host) (st : Store) (a b : nat)
  (rel descr : string) (ca cb : Concept.t) :
  nth_error (concepts st) a = Some ca ->
  nth_error (concepts st) b = Some cb ->
  ~ In (rel, uuid_str H (Concept.concept_id cb), descr) (list_relations H ca) ->
  exists st' notes,
    bind_relation H a b rel descr st
    = (st', Ok (Some a,
                {| added := [(rel, uuid_str H (Concept.concept_id cb), descr)];
                   removed := [] |},
                notes)) /\
    nth_error (concepts st') a
    = Some (Concept.add_relationship ca rel (Concept.concept_id cb) descr) /\
    (forall r, r <> a -> nth_error (concepts st') r = nth_error (concepts st) r) /\
    next_uuid st' = next_uuid st.
Proof.
  intros Ha Hb Hni.
  set (ca' := Concept.add_relationship ca rel (Concept.concept_id cb) descr).
  assert (Ha' : nth_error (list_set (concepts st) a ca') a = Some ca')
    by (eapply nth_error_list_set_eq, Ha).
  assert (Hb' : exists cb', nth_error (list_set (concepts st) a ca') b = Some cb').
  { destruct (Nat.eq_dec a b) as [<-|Hne]; [eauto|].
    rewrite nth_error_list_set_ne by exact Hne. eauto. }
  destruct Hb' as (cb' & Hb').
  assert (Hd : diff_relations (list_relations H ca) (list_relations H ca')
               = {| added := [(rel, uuid_str H (Concept.concept_id cb), descr)];
                    removed := [] |}).
  { unfold ca', list_relations, Concept.add_relationship. simpl.
    rewrite map_app. simpl. now apply RelationsUtilsFacts.diff_relations_new. }
  eexists _, _. split; [|split; [|split]].
  - unfold bind_relation, bind, read, modify, ret. simpl.
    rewrite Ha, Hb. simpl. fold ca'. rewrite Ha', Hb', Hd. reflexivity.
  - simpl. exact Ha'.
  - intros r Hr. simpl. apply nth_error_list_set_ne. congruence.
  - reflexivity.
Qed.

Lemma bind_relation_new_edge_witness :
  exists st' notes,
    bind_relation example_host 1%nat 0%nat "IS_A" "b is an a" store_ab
    = (st', Ok (Some 1%nat,
                {| added := [("IS_A"%string,
                              uuid_str example_host (Concept.concept_id (Concept.blank 10 "A"%string)),
                              "b is an a"%string)];
                   removed := [] |},
                notes)) /\
    nth_error (concepts st') 1%nat
    = Some (Concept.add_relationship concept_b "IS_A"
              (Concept.concept_id (Concept.blank 10 "A"%string)) "b is an a") /\
    (forall r, r <> 1%nat -> nth_error (concepts st') r = nth_error (concepts store_ab) r) /\
    next_uuid st' = next_uuid store_ab.
Proof.
  apply (bind_relation_new_edge example_host store_ab 1%nat 0%nat "IS_A"%string
           "b is an a"%string concept_b (Concept.blank 10 "A"%string) eq_refl eq_refl).
  intros [].
Defined.

(** ** What the operations build *)

Lemma hoare_anyhow {A : Type} (P : list Concept.t -> Prop) (m : M A) Q E :
  hoare P m Q E -> hoare P m Q anyhow.
Proof.
  intros Hm st Hst. specialize (Hm st Hst).
  destruct (m st) as [st' [x|e]]; [exact Hm|exact I].
Qed.

Lemma In_set_key (d : list (UUID * Q)) k v t w :
  In (t, w) (PyDict.set N.eqb d k v) -> In (t, w) d \/ t = k.
Proof.
  induction d as [|[k' v'] d IH]; simpl.
  - intros [[= <- _]|[]]. now right.
  - destruct (N.eqb k' k) eqn:E; simpl.
    + intros [[= <- _]|Hin]; auto. right. now apply N.eqb_eq.
    + intros [Hin|Hin]; auto. destruct (IH Hin); auto.
Qed.

Lemma values_update (cc : Concept.t) sid (f : FeatureEnsemble.t -> FeatureEnsemble.t) v :
  In v (PyDict.values (Concept.ensembles_by_id (Concept.update_ensemble cc sid f))) ->
  In v (PyDict.values (Concept.ensembles_by_id cc)) \/
  exists e0, In e0 (PyDict.values (Concept.ensembles_by_id cc)) /\ v = f e0.
Proof.
  unfold Concept.update_ensemble.
  destruct (PyDict.get N.eqb (Concept.ensembles_by_id cc) sid) as [e0|] eqn:E; [|auto].
  simpl. intros Hin. apply values_set in Hin as [Hin| ->]; auto.
  right. exists e0. split; auto. eapply get_In_values, E.
Qed.

Section Provenance.
Variable cs0 : list Concept.t.
Variables a b : nat.
Variables ca cb : Concept.t.
Hypothesis Ha : nth_error cs0 a = Some ca.
Hypothesis Hb : nth_error cs0 b = Some cb.
Variable nm : string.
Variable prov : FeatureEnsemble.t -> Prop.
Hypothesis prov_links : forall e l, prov e -> prov (FeatureEnsemble.set_links e l).

#[local] Abbreviation built := (derived ca nm prov).

Lemma built_incl rels d d' cc :
  incl (PyDict.values d') (PyDict.keys (Concept.ensembles_by_id cc)) ->
  built rels d cc -> built rels d' cc.
Proof. intros Hd' (Hh & Hr & _ & Hc & Hv). repeat split; auto; apply Hh. Qed.

Lemma built_add rels d cc ne key :
  prov ne -> FeatureEnsemble.links ne = [] ->
  built rels d cc ->
  built rels (PyDict.set String.eqb d key (FeatureEnsemble.ensemble_id ne))
        (Concept.add_ensemble cc ne).
Proof.
  intros Hp Hl (Hh & Hr & Hd & Hc & Hv).
  split; [exact Hh|]. split; [exact Hr|]. split; [|split].
  - intros v Hin. apply keys_add_ensemble. apply values_set in Hin as [Hin| ->]; auto.
  - intros e t_id w He Hin. apply keys_add_ensemble.
    unfold Concept.add_ensemble in He. simpl in He.
    apply values_set in He as [He| ->].
    + left. eapply Hc; eauto.
    + rewrite Hl in Hin. destruct Hin.
  - intros e He. unfold Concept.add_ensemble in He. simpl in He.
    apply values_set in He as [He| ->]; auto.
Qed.

Lemma built_set_link rels d cc sid tid2 w :
  In tid2 (PyDict.values d) ->
  built rels d cc ->
  built rels d
    (Concept.update_ensemble cc sid (fun se =>
       FeatureEnsemble.set_links se (PyDict.set N.eqb (FeatureEnsemble.links se) tid2 w))).
Proof.
  intros Ht (Hh & Hr & Hd & Hc & Hv).
  set (f := fun se => FeatureEnsemble.set_links se
                        (PyDict.set N.eqb (FeatureEnsemble.links se) tid2 w)).
  destruct (ConceptFacts.update_ensemble_index cc sid f) as [Hkeys _].
  destruct (ConceptFacts.update_ensemble_header cc sid f)
    as (_ & A2 & A3 & A4 & A5 & A6 & A7).
  destruct Hh as (B1 & B2 & B3 & B4 & B5).
  split; [unfold derived_from; rewrite A2, A3, A4, A6, A7; auto|].
  split; [now rewrite A5|]. split; [now rewrite Hkeys|]. split.
  - intros e t w' He Hin. rewrite Hkeys.
    apply values_update in He as [He|(e0 & He0 & ->)]; [eapply Hc; eauto|].
    simpl in Hin. apply In_set_key in Hin as [Hin| ->]; [eapply Hc; eauto|].
    now apply Hd.
  - intros e He. apply values_update in He as [He|(e0 & He0 & ->)]; auto.
    apply prov_links. auto.
Qed.

Lemma built_add_relationship (rels rels' : list RelationshipEdge -> Prop) d cc
  rel target descr :
  (forall rs, rels rs -> rels' (rs ++ [mkEdge rel target descr])) ->
  built rels d cc -> built rels' d (Concept.add_relationship cc rel target descr).
Proof.
  intros Hrs (Hh & Hr & Hd & Hc & Hv). split; [exact Hh|]. split; [now apply Hrs|].
  split; [exact Hd|]. split; [exact Hc|exact Hv].
Qed.

(** Rules for the object under construction *)

Lemma holds_extends c J cs : holds cs0 c J cs -> extends cs0 cs.
Proof. now intros [He _]. Qed.

Lemma holds_weaken c (J J' : Concept.t -> Prop) cs :
  (forall cc, J cc -> J' cc) -> holds cs0 c J cs -> holds cs0 c J' cs.
Proof. intros HJ (He & Hc & cc & Hn & Hj). repeat split; eauto. Qed.

Lemma holds_read c J :
  hoare (holds cs0 c J) (read c)
    (fun cs cc => holds cs0 c (fun x => x = cc /\ J x) cs) anyhow.
Proof.
  intros st (He & Hc & cc & Hn & Hj). unfold read. rewrite Hn.
  repeat split; auto. exists cc. auto.
Qed.

Lemma holds_read_any c J :
  hoare (holds cs0 c J) (read c) (fun cs _ => holds cs0 c J cs) anyhow.
Proof.
  intros st Hst. pose proof (holds_read c J st Hst) as Hr.
  destruct (read c st) as [st' [cc|e]]; [|exact I].
  eapply holds_weaken; [|exact Hr]. intros x [_ Hx]. exact Hx.
Qed.

Lemma holds_modify c (J J' : Concept.t -> Prop) (f : Concept.t -> Concept.t) :
  (forall cc, J cc -> J' (f cc)) ->
  hoare (holds cs0 c J) (modify c f) (fun cs _ => holds cs0 c J' cs) anyhow.
Proof.
  intros HJ st ([more Hm] & Hc & cc & Hn & Hj). unfold modify. rewrite Hn. simpl.
  repeat split; auto.
  - rewrite Hm, list_set_app_r by exact Hc. eexists. reflexivity.
  - exists (f cc). split; [eapply nth_error_list_set_eq; eauto|auto].
Qed.

Lemma old_read (P : list Concept.t -> Prop) r x :
  (forall cs, P cs -> extends cs0 cs) ->
  nth_error cs0 r = Some x ->
  hoare P (read r) (fun cs y => P cs /\ y = x) anyhow.
Proof. intros HP Hr. exact (hoare_anyhow _ _ _ _ (read_old cs0 False P r x HP Hr)). Qed.

Lemma old_name_set (P : list Concept.t -> Prop) r x :
  (forall cs, P cs -> extends cs0 cs) ->
  nth_error cs0 r = Some x ->
  hoare P (_ensemble_name_set r)
    (fun cs ns => P cs /\ ns = PyDict.keys (Concept.ensembles_by_name x)) anyhow.
Proof.
  intros HP Hr. unfold _ensemble_name_set.
  eapply hoare_bind; [apply (old_read P r x HP Hr)|].
  intros y. apply hoare_ret. intros cs [Hcs ->]. auto.
Qed.

Lemma new_ensemble_made (P : list Concept.t -> Prop) n md vec descr :
  hoare P (new_ensemble n md vec descr)
    (fun cs ne => P cs /\ exists i, ne = FeatureEnsemble.new i n md vec descr) anyhow.
Proof. intros st Hst. simpl. eauto. Qed.

Lemma shallow_holds :
  hoare (extends cs0) (_copy_concept_shallow a nm)
    (fun cs c => holds cs0 c (built (eq []) []) cs) anyhow.
Proof.
  intros st Hext. unfold _copy_concept_shallow, bind, read.
  rewrite (extends_old cs0 _ a ca Hext Ha).
  unfold new_concept, bind, uuid4, alloc. simpl.
  destruct Hext as [more Hm]. split; [|split].
  - eexists. rewrite Hm, <- app_assoc. reflexivity.
  - rewrite Hm, length_app. lia.
  - eexists. split; [now rewrite nth_error_app2, Nat.sub_diag by lia|].
    split.
    { unfold derived_from. simpl. repeat split. }
    split; [reflexivity|]. split; [intros v []|]. split.
    + intros e t_id w [].
    + intros e [].
Qed.

(** Registering a copy and recording its identity under [key]. *)
Lemma register_holds c rels d key n md vec descr :
  (forall i, prov (FeatureEnsemble.new i n md vec descr)) ->
  hoare (holds cs0 c (built rels d))
    (ne <- new_ensemble n md vec descr ;;
     modify c (fun cc => Concept.add_ensemble cc ne) ;;;
     ret (PyDict.set String.eqb d key (FeatureEnsemble.ensemble_id ne)))
    (fun cs d' => holds cs0 c (built rels d') cs) anyhow.
Proof.
  intros Hp. eapply hoare_bind; [apply new_ensemble_made|]. intros ne.
  apply hoare_pure. intros (i & ->).
  eapply hoare_bind.
  - apply (holds_modify c _
             (built rels (PyDict.set String.eqb d key
                            (FeatureEnsemble.ensemble_id
                               (FeatureEnsemble.new i n md vec descr))))).
    intros cc Hcc. apply built_add; auto.
  - intros u. apply hoare_ret. auto.
Qed.

(** Registering a copy without recording it. *)
Lemma add_copy_holds c rels n md vec descr :
  (forall i, prov (FeatureEnsemble.new i n md vec descr)) ->
  hoare (holds cs0 c (built rels []))
    (ne <- new_ensemble n md vec descr ;;
     modify c (fun cc => Concept.add_ensemble cc ne))
    (fun cs _ => holds cs0 c (built rels []) cs) anyhow.
Proof.
  intros Hp. eapply hoare_bind; [apply new_ensemble_made|]. intros ne.
  apply hoare_pure. intros (i & ->).
  apply holds_modify. intros cc Hcc.
  apply (built_incl rels
           (PyDict.set String.eqb [] EmptyString
              (FeatureEnsemble.ensemble_id (FeatureEnsemble.new i n md vec descr)))).
  - intros v [].
  - apply built_add; auto.
Qed.

Lemma set_link_holds c rels d sid tid2 w :
  In tid2 (PyDict.values d) ->
  hoare (holds cs0 c (built rels d)) (set_link c sid tid2 w)
        (fun cs _ => holds cs0 c (built rels d) cs) anyhow.
Proof.
  intros Ht. unfold set_link. apply holds_modify. intros cc. now apply built_set_link.
Qed.

Lemma relink_holds c rels d n ea :
  hoare (holds cs0 c (built rels d)) (relink a c d n ea)
        (fun cs _ => holds cs0 c (built rels d) cs) anyhow.
Proof.
  unfold relink. eapply hoare_bind; [apply holds_read_any|]. intros cr.
  destruct (PyDict.get String.eqb (Concept.ensembles_by_name cr) n) as [sid|];
    [|apply hoare_ret; auto].
  destruct (PyDict.get N.eqb (Concept.ensembles_by_id cr) sid);
    [|apply hoare_ret; auto].
  apply hoare_forM_. intros [t_id w] Hin.
  eapply hoare_bind; [apply (old_read _ a ca); [apply holds_extends|exact Ha]|].
  intros x. apply hoare_pure. intros ->.
  eapply hoare_bind; [apply hoare_lift; intros; exact I|].
  intros te. apply hoare_pure. intros _.
  destruct (PyDict.get String.eqb d (FeatureEnsemble.name te)) as [tid2|] eqn:Eg;
    [|apply hoare_ret; auto].
  apply set_link_holds. eapply get_In_values, Eg.
Qed.

Lemma copy_links_holds c rels d src csrc suffix :
  nth_error cs0 src = Some csrc ->
  hoare (holds cs0 c (built rels d)) (copy_links c d src suffix)
        (fun cs _ => holds cs0 c (built rels d) cs) anyhow.
Proof.
  intros Hsrc. unfold copy_links.
  eapply hoare_bind; [apply (old_read _ src csrc); [apply holds_extends|exact Hsrc]|].
  intros x. apply hoare_pure. intros ->.
  apply hoare_forM_. intros e He. cbv zeta.
  match goal with
  | |- context [PyDict.get String.eqb d ?k] =>
      destruct (PyDict.get String.eqb d k) as [sid|] eqn:Eg
  end; [|apply hoare_ret; auto].
  eapply hoare_bind; [apply holds_read_any|]. intros cc.
  eapply hoare_bind; [apply hoare_lift; intros; exact I|].
  intros se. apply hoare_pure. intros _.
  apply hoare_forM_. intros [tid w] Hin.
  eapply hoare_bind; [apply (old_read _ src csrc); [apply holds_extends|exact Hsrc]|].
  intros x. apply hoare_pure. intros ->.
  eapply hoare_bind; [apply hoare_lift; intros; exact I|].
  intros te. apply hoare_pure. intros _. cbv zeta.
  match goal with
  | |- context [PyDict.get String.eqb d ?k] =>
      destruct (PyDict.get String.eqb d k) as [tid2|] eqn:Eg2
  end; [|apply hoare_ret; auto].
  apply set_link_holds. eapply get_In_values, Eg2.
Qed.

End Provenance.

Lemma rel_pairs_edge (H : Host) (c : Concept.t) p :
  In p (rel_pairs H c) ->
  exists r, In r (Concept.relationships c) /\
            p = (relation_type r, uuid_str H (target_concept_id r)).
Proof.
  unfold rel_pairs.
  assert (G : forall rs s,
             (forall q, In q s ->
                exists r, In r (Concept.relationships c) /\
                          q = (relation_type r, uuid_str H (target_concept_id r))) ->
             (forall r, In r rs -> In r (Concept.relationships c)) ->
             In p (fold_left
                     (fun s r =>
                        let p := (relation_type r, uuid_str H (target_concept_id r)) in
                        if existsb (fun q => String.eqb (fst p) (fst q)
                                             && String.eqb (snd p) (snd q)) s
                        then s else s ++ [p]) rs s) ->
             exists r, In r (Concept.relationships c) /\
                       p = (relation_type r, uuid_str H (target_concept_id r))).
  { induction rs as [|r rs IH]; intros s Hs Hrs Hin; simpl in Hin; auto.
    apply IH in Hin; auto.
    - intros q Hq. destruct (existsb _ s); auto.
      apply in_app_iff in Hq as [Hq|[<-|[]]]; auto.
      exists r. split; [apply Hrs; now left|reflexivity].
    - intros r' Hr'. apply Hrs. now right. }
  apply G; auto. intros q [].
Qed.

Lemma pairs_inter_In (s1 s2 : list (string * string)) p :
  In p (pairs_inter s1 s2) -> In p s1 /\ In p s2.
Proof.
  unfold pairs_inter. rewrite filter_In, existsb_exists.
  intros (H1 & q & Hq & E). split; auto.
  apply andb_true_iff in E as [E1 E2]. apply String.eqb_eq in E1, E2.
  destruct p, q. simpl in *. now subst.
Qed.

Section Results.
Variable cs0 : list Concept.t.
Variables a b : nat.
Variables ca cb : Concept.t.
Hypothesis Ha : nth_error cs0 a = Some ca.
Hypothesis Hb : nth_error cs0 b = Some cb.
Variable nm : string.

Lemma kept_from_links e l :
  kept_from ca cb e -> kept_from ca cb (FeatureEnsemble.set_links e l).
Proof. intros (ea & H1 & H2 & H3). exists ea. auto. Qed.

Lemma merged_from_links e l :
  merged_from ca cb e -> merged_from ca cb (FeatureEnsemble.set_links e l).
Proof.
  intros [(ea & H1 & H2)|(eb & H1 & H2)]; [left; exists ea|right; exists eb]; auto.
Qed.

Lemma shared_from_links e l :
  shared_from ca cb e -> shared_from ca cb (FeatureEnsemble.set_links e l).
Proof. intros (n & ea & H1 & H2 & H3 & H4). exists n, ea. auto. Qed.

Lemma copy_of_new i (src : FeatureEnsemble.t) n :
  copy_of n src
    (FeatureEnsemble.new i n (FeatureEnsemble.modality src) (FeatureEnsemble.vector src)
       (FeatureEnsemble.description src)).
Proof. repeat split. Qed.

(** [subtract_concepts] *)
Lemma subtract_holds :
  hoare (extends cs0) (subtract_concepts a b nm)
    (fun cs out => exists c,
       out = (Some c, {| added := []; removed := [] |},
              "Subtraction created. Relations unchanged (derived concept has none by default)."%string) /\
       holds cs0 c (derived ca nm (kept_from ca cb) (eq []) []) cs)
    anyhow.
Proof.
  unfold subtract_concepts.
  eapply hoare_bind; [apply (shallow_holds cs0 a ca Ha nm (kept_from ca cb))|]. intros c.
  eapply hoare_bind; [apply (old_name_set cs0 _ b cb); [apply holds_extends|exact Hb]|].
  intros nb. apply hoare_pure. intros ->.
  eapply hoare_bind; [apply (old_read cs0 _ a ca); [apply holds_extends|exact Ha]|].
  intros x. apply hoare_pure. intros ->. cbv zeta.
  eapply hoare_bind.
  - apply (hoare_foldM
             (fun d cs => holds cs0 c (derived ca nm (kept_from ca cb) (eq []) d) cs)
             _ _ _ []).
    intros d e He. apply register_holds. intros i.
    apply filter_In in He as [He Hn]. exists e. split; [exact He|].
    split; [|apply copy_of_new].
    intros Hin. apply PySetFacts.mem_In in Hin. rewrite Hin in Hn. discriminate.
  - intros d. eapply hoare_bind.
    + apply hoare_forM_. intros e He.
      apply (relink_holds cs0 a ca Ha nm _ kept_from_links).
    + intros u. apply hoare_ret. intros cs Hcs. exists c. split; [reflexivity|].
      eapply holds_weaken; [|exact Hcs]. intros cc. apply built_incl. intros v [].
Qed.

Variable H : Host.

(** [merge_concepts] *)
Lemma merge_holds :
  hoare (extends cs0) (merge_concepts H a b nm)
    (fun cs out => exists c,
       out = (Some c,
              {| added := [("MERGED_FROM"%string, uuid_str H (Concept.concept_id ca),
                            ("source:" ++ Concept.name ca)%string);
                           ("MERGED_FROM"%string, uuid_str H (Concept.concept_id cb),
                            ("source:" ++ Concept.name cb)%string)];
                 removed := [] |},
              ("Merged " ++ Concept.name ca ++ " and " ++ Concept.name cb
               ++ " into " ++ nm ++ "; added MERGED_FROM edges.")%string) /\
       holds cs0 c
         (derived ca nm (merged_from ca cb)
            (eq [mkEdge "MERGED_FROM" (Concept.concept_id ca) ("source:" ++ Concept.name ca);
                 mkEdge "MERGED_FROM" (Concept.concept_id cb) ("source:" ++ Concept.name cb)])
            []) cs)
    anyhow.
Proof.
  unfold merge_concepts.
  eapply hoare_bind; [apply (shallow_holds cs0 a ca Ha nm (merged_from ca cb))|]. intros c.
  eapply hoare_bind; [apply (old_read cs0 _ a ca); [apply holds_extends|exact Ha]|].
  intros x. apply hoare_pure. intros ->.
  eapply hoare_bind.
  { apply hoare_forM_. intros ea Hea. apply add_copy_holds. intros i.
    left. exists ea. split; [exact Hea|apply copy_of_new]. }
  intros u1.
  eapply hoare_bind; [apply (old_read cs0 _ b cb); [apply holds_extends|exact Hb]|].
  intros x. apply hoare_pure. intros ->.
  eapply hoare_bind.
  { apply hoare_forM_. intros eb Heb.
    eapply hoare_bind; [apply holds_read_any|]. intros cc. cbv zeta.
    apply add_copy_holds. intros i. right. exists eb. split; [exact Heb|].
    destruct (PyDict.contains String.eqb _ _); [right|left]; apply copy_of_new. }
  intros u2.
  eapply hoare_bind; [apply holds_read|]. intros cc. cbv zeta.
  set (d := fold_left _ (Concept.ensembles_by_id cc) []).
  eapply hoare_pre with (P := holds cs0 c (derived ca nm (merged_from ca cb) (eq []) d)).
  { intros cs. apply holds_weaken. intros x [-> Hx]. eapply built_incl; [|exact Hx].
    intros v Hv. apply name_to_id_values in Hv as [[]|Hv]. exact Hv. }
  eapply hoare_bind.
  { apply (copy_links_holds cs0 ca nm _ merged_from_links c _ d a ca). exact Ha. }
  intros u3.
  eapply hoare_bind.
  { apply (copy_links_holds cs0 ca nm _ merged_from_links c _ d b cb). exact Hb. }
  intros u4.
  eapply hoare_bind; [apply (old_read cs0 _ a ca); [apply holds_extends|exact Ha]|].
  intros x. apply hoare_pure. intros ->.
  eapply hoare_bind.
  { apply holds_modify. intros cc0.
    apply (built_add_relationship ca nm _ (eq [])
             (eq [mkEdge "MERGED_FROM" (Concept.concept_id ca)
                    ("source:" ++ Concept.name ca)])).
    now intros rs <-. }
  intros u5.
  eapply hoare_bind; [apply (old_read cs0 _ b cb); [apply holds_extends|exact Hb]|].
  intros x. apply hoare_pure. intros ->.
  eapply hoare_bind.
  { apply holds_modify. intros cc0.
    apply (built_add_relationship ca nm _ _
             (eq [mkEdge "MERGED_FROM" (Concept.concept_id ca)
                    ("source:" ++ Concept.name ca);
                  mkEdge "MERGED_FROM" (Concept.concept_id cb)
                    ("source:" ++ Concept.name cb)])).
    now intros rs <-. }
  intros u6.
  eapply hoare_bind; [apply holds_read|]. intros cc'.
  eapply hoare_bind; [apply (old_read cs0 _ a ca); [apply holds_extends|exact Ha]|].
  intros x. apply hoare_pure. intros ->.
  eapply hoare_bind; [apply (old_read cs0 _ b cb); [apply holds_extends|exact Hb]|].
  intros x. apply hoare_pure. intros ->.
  apply hoare_ret. intros cs (Hext & Hc & cc0 & Hn & -> & Hbuilt).
  exists c. split.
  - destruct Hbuilt as ((Hname & _) & Hr & _). unfold list_relations.
    rewrite <- Hr, Hname. reflexivity.
  - split; [exact Hext|]. split; [exact Hc|]. exists cc'. split; [exact Hn|].
    eapply built_incl; [|exact Hbuilt]. intros v [].
Qed.

(** [intersect_concepts] *)
Lemma intersect_holds :
  hoare (extends cs0) (intersect_concepts H a b nm)
    (fun cs out => exists c cc,
       fst (fst out) = Some c /\
       snd (fst out) = {| added := list_relations H cc; removed := [] |} /\
       nth_error cs c = Some cc /\
       holds cs0 c
         (derived ca nm (shared_from ca cb) (Forall (shared_edge H ca cb)) []) cs)
    anyhow.
Proof.
  unfold intersect_concepts.
  eapply hoare_bind; [apply (shallow_holds cs0 a ca Ha nm (shared_from ca cb))|]. intros c.
  eapply hoare_pre
    with (P := holds cs0 c (derived ca nm (shared_from ca cb)
                              (Forall (shared_edge H ca cb)) [])).
  { intros cs. apply holds_weaken. intros cc (H1 & Hr & H3). split; [exact H1|].
    split; [rewrite <- Hr; constructor|exact H3]. }
  eapply hoare_bind; [apply (old_name_set cs0 _ a ca); [apply holds_extends|exact Ha]|].
  intros na. apply hoare_pure. intros ->.
  eapply hoare_bind; [apply (old_name_set cs0 _ b cb); [apply holds_extends|exact Hb]|].
  intros nb. apply hoare_pure. intros ->. cbv zeta.
  eapply hoare_bind.
  { apply (hoare_foldM
             (fun d cs => holds cs0 c (derived ca nm (shared_from ca cb)
                                         (Forall (shared_edge H ca cb)) d) cs)
             _ _ _ []).
    intros d n Hn.
    eapply hoare_bind; [apply (old_read cs0 _ a ca); [apply holds_extends|exact Ha]|].
    intros x. apply hoare_pure. intros ->.
    destruct (Concept.get_ensemble ca n) as [ea|] eqn:Eg; [|apply hoare_ret; auto].
    apply register_holds. intros i. exists n, ea.
    unfold set_inter in Hn. apply filter_In in Hn as [Hna Hnb].
    apply PySetFacts.mem_In in Hnb. repeat split; auto. }
  intros d.
  eapply hoare_bind.
  { apply hoare_forM_. intros n Hn.
    eapply hoare_bind; [apply (old_read cs0 _ a ca); [apply holds_extends|exact Ha]|].
    intros x. apply hoare_pure. intros ->.
    destruct (Concept.get_ensemble ca n) as [ea|] eqn:Eg; [|apply hoare_ret; auto].
    apply (relink_holds cs0 a ca Ha nm _ shared_from_links). }
  intros u1.
  eapply hoare_bind; [apply (old_read cs0 _ a ca); [apply holds_extends|exact Ha]|].
  intros x. apply hoare_pure. intros ->.
  eapply hoare_bind; [apply (old_read cs0 _ b cb); [apply holds_extends|exact Hb]|].
  intros x. apply hoare_pure. intros ->. cbv zeta.
  eapply hoare_bind.
  { apply hoare_forM_. intros [rel_type target_id_str] Hp.
    eapply hoare_bind; [apply hoare_lift; intros; exact I|].
    intros target. apply hoare_pure. intros Hparse.
    apply holds_modify. intros cc.
    apply built_add_relationship. intros rs Hrs.
    apply Forall_app. split; [exact Hrs|]. constructor; [|constructor].
    apply pairs_inter_In in Hp as [Hpa Hpb].
    apply rel_pairs_edge in Hpa as (ra & Hra & Ea).
    apply rel_pairs_edge in Hpb as (rb & Hrb & Eb).
    injection Ea as -> ->. injection Eb as E1 E2.
    split; [reflexivity|]. exists ra, rb. simpl.
    unfold Concept.parse_uuid in Hparse.
    destruct (uuid_parse H (uuid_str H (target_concept_id ra))); [|discriminate].
    injection Hparse as ->. repeat split; auto. }
  intros u2.
  eapply hoare_bind; [apply holds_read|]. intros cr.
  apply hoare_ret. intros cs (Hext & Hc & cc0 & Hn & -> & Hbuilt).
  exists c, cr. split; [reflexivity|]. split; [reflexivity|]. split; [exact Hn|].
  split; [exact Hext|]. split; [exact Hc|]. exists cr. split; [exact Hn|].
  eapply built_incl; [|exact Hbuilt]. intros v [].
Qed.

End Results.

Lemma extends_refl (cs : list Concept.t) : extends cs cs.
Proof. exists []. now rewrite app_nil_r. Qed.

Lemma concept_b_closed : links_closed concept_b.
Proof.
  intros e t_id w He Hl. vm_compute in He.
  destruct He as [<-|[<-|[]]]; simpl in Hl; [|contradiction].
  destruct Hl as [[= <- _]|[]]. vm_compute. auto.
Qed.

(** X24: [subtract_concepts] returns whenever the links of A lead to ensembles
    of A.  The concept it returns has the header of a shallow copy of A and
    no relationship; each of its ensembles is a fresh copy (activation 0) of
    an ensemble of A whose name is not indexed in B; its links lead to its
    own ensembles; the reported delta is empty. *)
Theorem subtract_concepts_result (st : Store) (a b : nat) (nm : string)
  (ca cb : Concept.t) :
  nth_error (concepts st) a = Some ca ->
  nth_error (concepts st) b = Some cb ->
  (links_closed ca -> exists st' out, subtract_concepts a b nm st = (st', Ok out)) /\
  (forall st' out,
      subtract_concepts a b nm st = (st', Ok out) ->
      exists c cc,
        out = (Some c, {| added := []; removed := [] |},
               "Subtraction created. Relations unchanged (derived concept has none by default)."%string) /\
        List.length (concepts st) <= c /\
        nth_error (concepts st') c = Some cc /\
        derived_from ca nm cc /\
        Concept.relationships cc = [] /\
        links_closed cc /\
        (forall e, In e (PyDict.values (Concept.ensembles_by_id cc)) ->
                   kept_from ca cb e)).
Proof.
  intros Ha Hb. split.
  - intros Hcl.
    pose proof (subtract_frame (concepts st) a b ca cb Ha Hb (links_closed ca) nm
                  (fun h => h) st (extends_refl _)) as Hf.
    destruct (subtract_concepts a b nm st) as [st' [out|e]]; [eauto|].
    destruct Hf as [_ Hf]. contradiction.
  - intros st' out E.
    pose proof (subtract_holds (concepts st) a b ca cb Ha Hb nm st (extends_refl _)) as Hh.
    rewrite E in Hh.
    destruct Hh as (c & -> & _ & Hc & cc & Hn & Hd & Hr & _ & Hcl & Hv).
    exists c, cc. repeat split; auto; apply Hd.
Qed.

Lemma subtract_concepts_result_witness :
  exists st' out,
    subtract_concepts 1 0 "Derived" store_ab = (st', Ok out) /\
    exists c cc,
      out = (Some c, {| added := []; removed := [] |},
             "Subtraction created. Relations unchanged (derived concept has none by default)."%string) /\
      List.length (concepts store_ab) <= c /\
      nth_error (concepts st') c = Some cc /\
      derived_from concept_b "Derived" cc /\
      Concept.relationships cc = [] /\
      links_closed cc /\
      (forall e, In e (PyDict.values (Concept.ensembles_by_id cc)) ->
                 kept_from concept_b (Concept.blank 10 "A"%string) e).
Proof.
  destruct (subtract_concepts_result store_ab 1 0 "Derived"%string concept_b
              (Concept.blank 10 "A"%string) eq_refl eq_refl) as [Htot Hres].
  destruct (Htot concept_b_closed) as (st' & out & E).
  exists st', out. split; [exact E|]. exact (Hres st' out E).
Defined.

(** X25: [merge_concepts] returns whenever the links of A and of B lead to their
    own ensembles.  The concept it returns has the header of a shallow copy
    of A and exactly two relationships, [MERGED_FROM] A and [MERGED_FROM] B,
    which are also what the delta reports as added; each of its ensembles is
    a fresh copy of an ensemble of A under its name, or of an ensemble of B
    under its name or its name followed by ["__B"]; its links lead to its
    own ensembles. *)
Theorem merge_concepts_result (H : Host) (st : Store) (a b : nat) (nm : string)
  (ca cb : Concept.t) :
  nth_error (concepts st) a = Some ca ->
  nth_error (concepts st) b = Some cb ->
  (links_closed ca -> links_closed cb ->
   exists st' out, merge_concepts H a b nm st = (st', Ok out)) /\
  (forall st' out,
      merge_concepts H a b nm st = (st', Ok out) ->
      exists c cc,
        out = (Some c,
               {| added := [("MERGED_FROM"%string, uuid_str H (Concept.concept_id ca),
                             ("source:" ++ Concept.name ca)%string);
                            ("MERGED_FROM"%string, uuid_str H (Concept.concept_id cb),
                             ("source:" ++ Concept.name cb)%string)];
                  removed := [] |},
               ("Merged " ++ Concept.name ca ++ " and " ++ Concept.name cb
                ++ " into " ++ nm ++ "; added MERGED_FROM edges.")%string) /\
        List.length (concepts st) <= c /\
        nth_error (concepts st') c = Some cc /\
        derived_from ca nm cc /\
        Concept.relationships cc
        = [mkEdge "MERGED_FROM" (Concept.concept_id ca) ("source:" ++ Concept.name ca);
           mkEdge "MERGED_FROM" (Concept.concept_id cb) ("source:" ++ Concept.name cb)] /\
        links_closed cc /\
        (forall e, In e (PyDict.values (Concept.ensembles_by_id cc)) ->
                   merged_from ca cb e)).
Proof.
  intros Ha Hb. split.
  - intros Hca Hcb.
    pose proof (merge_frame (concepts st) a b ca cb Ha Hb
                  (links_closed ca /\ links_closed cb) H nm
                  (fun h => h) st (extends_refl _)) as Hf.
    destruct (merge_concepts H a b nm st) as [st' [out|e]]; [eauto|].
    destruct Hf as [_ Hf]. exfalso. apply Hf. auto.
  - intros st' out E.
    pose proof (merge_holds (concepts st) a b ca cb Ha Hb nm H st (extends_refl _)) as Hh.
    rewrite E in Hh.
    destruct Hh as (c & -> & _ & Hc & cc & Hn & Hd & Hr & _ & Hcl & Hv).
    exists c, cc. repeat split; auto; apply Hd.
Qed.

Lemma merge_concepts_result_witness :
  exists st' out,
    merge_concepts example_host 1 0 "Derived" store_ab = (st', Ok out) /\
    exists c cc,
      fst (fst out) = Some c /\
      nth_error (concepts st') c = Some cc /\
      List.length (Concept.relationships cc) = 2 /\
      links_closed cc.
Proof.
  destruct (merge_concepts_result example_host store_ab 1 0 "Derived"%string concept_b
              (Concept.blank 10 "A"%string) eq_refl eq_refl) as [Htot Hres].
  destruct (Htot concept_b_closed) as (st' & out & E).
  { intros e t_id w []. }
  exists st', out. split; [exact E|].
  destruct (Hres st' out E) as (c & cc & -> & _ & Hn & _ & Hr & Hcl & _).
  exists c, cc. rewrite Hr. auto.
Defined.

(** X26: [intersect_concepts] returns whenever the links of A lead to ensembles
    of A and identities survive being written and parsed.  The concept it
    returns has the header of a shallow copy of A; each of its ensembles is
    a fresh copy of the ensemble that a name indexed in both A and B leads
    to in A; each of its relationships is a ["shared relation"] of a type
    and target text that A and B both hold; its links lead to its own
    ensembles; the delta reports all its relationships as added. *)
Theorem intersect_concepts_result (H : Host) (st : Store) (a b : nat) (nm : string)
  (ca cb : Concept.t) :
  nth_error (concepts st) a = Some ca ->
  nth_error (concepts st) b = Some cb ->
  (links_closed ca -> (forall u, uuid_parse H (uuid_str H u) = Some u) ->
   exists st' out, intersect_concepts H a b nm st = (st', Ok out)) /\
  (forall st' out,
      intersect_concepts H a b nm st = (st', Ok out) ->
      exists c cc,
        fst (fst out) = Some c /\
        snd (fst out) = {| added := list_relations H cc; removed := [] |} /\
        List.length (concepts st) <= c /\
        nth_error (concepts st') c = Some cc /\
        derived_from ca nm cc /\
        Forall (shared_edge H ca cb) (Concept.relationships cc) /\
        links_closed cc /\
        (forall e, In e (PyDict.values (Concept.ensembles_by_id cc)) ->
                   shared_from ca cb e)).
Proof.
  intros Ha Hb. split.
  - intros Hca Hparse.
    pose proof (intersect_frame (concepts st) a b ca cb Ha Hb
                  (links_closed ca /\ forall u, uuid_parse H (uuid_str H u) = Some u)
                  H nm (fun h => h) st (extends_refl _)) as Hf.
    destruct (intersect_concepts H a b nm st) as [st' [out|e]]; [eauto|].
    destruct Hf as [_ Hf]. exfalso. apply Hf. auto.
  - intros st' out E.
    pose proof (intersect_holds (concepts st) a b ca cb Ha Hb nm H st (extends_refl _))
      as Hh.
    rewrite E in Hh.
    destruct Hh as (c & cc & H1 & H2 & Hn & _ & Hc & cc' & Hn' & Hd & Hr & _ & Hcl & Hv).
    assert (cc' = cc) by congruence. subst cc'.
    exists c, cc. repeat split; auto; apply Hd.
Qed.

Lemma intersect_concepts_result_witness :
  exists st' out,
    intersect_concepts example_host 1 1 "Derived" store_ab = (st', Ok out) /\
    exists c cc,
      fst (fst out) = Some c /\
      nth_error (concepts st') c = Some cc /\
      links_closed cc /\
      (forall e, In e (PyDict.values (Concept.ensembles_by_id cc)) ->
                 shared_from concept_b concept_b e).
Proof.
  destruct (intersect_concepts_result example_host store_ab 1 1 "Derived"%string
              concept_b concept_b eq_refl eq_refl) as [Htot Hres].
  destruct (Htot concept_b_closed ConceptFacts.example_host_parse_str) as (st' & out & E).
  exists st', out. split; [exact E|].
  destruct (Hres st' out E) as (c & cc & H1 & _ & _ & Hn & _ & _ & Hcl & Hv).
  exists c, cc. auto.
Defined.

End ManipulationsFacts.

(** ** Comparisons of binary64 numbers *)

Module F64Facts.

Lemma SFcompare_refl (x : spec_float) :
  x <> S754_nan -> SFcompare x x = Some Eq.
Proof.
  destruct x as [s|s| |s m e]; simpl; intros H; try reflexivity.
  - now destruct s.
  - contradiction.
  - destruct s; rewrite Z.compare_refl, Pos.compare_cont_refl; reflexivity.
Qed.

Lemma SFcompare_number_l (x y : spec_float) c :
  SFcompare x y = Some c -> x <> S754_nan.
Proof. destruct x; simpl; congruence. Qed.

Lemma SFcompare_number_r (x y : spec_float) c :
  SFcompare x y = Some c -> y <> S754_nan.
Proof. destruct x, y; simpl; congruence. Qed.

(** Two numbers that compare equal are the same number, or two zeros. *)
Lemma SFcompare_Eq (x y : spec_float) :
  SFcompare x y = Some Eq ->
  x = y \/ exists s1 s2, x = S754_zero s1 /\ y = S754_zero s2.
Proof.
  destruct x as [s1|s1| |s1 m1 e1], y as [s2|s2| |s2 m2 e2]; simpl;
    try discriminate; try (destruct s1; discriminate); try (destruct s2; discriminate).
  - right. eauto.
  - destruct s1, s2; try discriminate; auto.
  - destruct s1, s2; try discriminate;
      destruct (Z.compare e1 e2) eqn:E; try discriminate;
      apply Z.compare_eq in E; subst e2; intros [= H]; left.
    + destruct (Pos.compare_cont Eq m1 m2) eqn:E1; try discriminate.
      apply Pos.compare_eq in E1. now subst.
    + apply Pos.compare_eq in H. now subst.
Qed.

Lemma SFcompare_zero_r (z : spec_float) s1 s2 :
  SFcompare z (S754_zero s1) = SFcompare z (S754_zero s2).
Proof. now destruct z. Qed.

Lemma SFcompare_zero_l (z : spec_float) s1 s2 :
  SFcompare (S754_zero s1) z = SFcompare (S754_zero s2) z.
Proof. now destruct z. Qed.

Lemma SFcompare_antisym (x y : spec_float) c :
  SFcompare x y = Some c -> SFcompare y x = Some (CompOpp c).
Proof.
  destruct x as [s1|s1| |s1 m1 e1], y as [s2|s2| |s2 m2 e2]; simpl;
    try discriminate; intros [= <-]; try reflexivity;
    try (destruct s1; reflexivity); try (destruct s2; reflexivity).
  - destruct s1, s2; reflexivity.
  - destruct s1, s2; try reflexivity;
      rewrite (Z.compare_antisym e1 e2);
      destruct (Z.compare e1 e2) eqn:E; simpl; try reflexivity;
      repeat f_equal; symmetry; exact (Pos.compare_cont_antisym m1 m2 Eq).
Qed.

(** The order of the numbers is transitive. *)
#[local] Ltac cmp_cases :=
  repeat match goal with
         | |- context [match ?c with Eq => _ | Lt => _ | Gt => _ end] =>
             lazymatch c with
             | match _ with Eq => _ | Lt => _ | Gt => _ end => fail
             | CompOpp _ => fail
             | _ => destruct c eqn:?
             end
         | |- context [CompOpp ?c] =>
             lazymatch c with
             | match _ with Eq => _ | Lt => _ | Gt => _ end => fail
             | _ => destruct c eqn:?; simpl CompOpp
             end
         end.

#[local] Ltac cmp_facts :=
  repeat match goal with
         | H : _ = Eq |- _ =>
             first [apply Z.compare_eq in H | apply Pos.compare_eq in H]
         | H : _ = Lt |- _ =>
             first [apply -> Z.compare_lt_iff in H | apply -> Pos.compare_lt_iff in H]
         | H : _ = Gt |- _ =>
             first [apply -> Z.compare_gt_iff in H | apply -> Pos.compare_gt_iff in H]
         end.

Lemma SFleb_trans (x y z : spec_float) :
  SFleb x y = true -> SFleb y z = true -> SFleb x z = true.
Proof.
  unfold SFleb.
  destruct x as [s1|s1| |s1 m1 e1], y as [s2|s2| |s2 m2 e2], z as [s3|s3| |s3 m3 e3];
    simpl; try discriminate; try reflexivity;
    try (destruct s1; simpl; try discriminate; try reflexivity);
    try (destruct s2; simpl; try discriminate; try reflexivity);
    try (destruct s3; simpl; try discriminate; try reflexivity).
  all: cmp_cases; try discriminate; try reflexivity; intros _ _; exfalso; cmp_facts; lia.
Qed.

Lemma leb_trans (x y z : float) :
  (x <=? y)%float = true -> (y <=? z)%float = true -> (x <=? z)%float = true.
Proof. rewrite !leb_spec. apply SFleb_trans. Qed.

(** What is compared is a number. *)
Lemma ltb_number_r (x y : float) : (x <? y)%float = true -> F64.is_number y.
Proof.
  unfold F64.is_number. rewrite ltb_spec, eqb_spec. unfold SFltb, SFeqb.
  destruct (SFcompare (Prim2SF x) (Prim2SF y)) as [c|] eqn:E; [|discriminate].
  intros _. apply SFcompare_number_r in E. now rewrite (SFcompare_refl _ E).
Qed.

Lemma leb_number_l (x y : float) : (x <=? y)%float = true -> F64.is_number x.
Proof.
  unfold F64.is_number. rewrite leb_spec, eqb_spec. unfold SFleb, SFeqb.
  destruct (SFcompare (Prim2SF x) (Prim2SF y)) as [c|] eqn:E; [|discriminate].
  intros _. apply SFcompare_number_l in E. now rewrite (SFcompare_refl _ E).
Qed.

Lemma leb_number_r (x y : float) : (x <=? y)%float = true -> F64.is_number y.
Proof.
  unfold F64.is_number. rewrite leb_spec, eqb_spec. unfold SFleb, SFeqb.
  destruct (SFcompare (Prim2SF x) (Prim2SF y)) as [c|] eqn:E; [|discriminate].
  intros _. apply SFcompare_number_r in E. now rewrite (SFcompare_refl _ E).
Qed.

Lemma is_number_spec (x : float) : F64.is_number x <-> Prim2SF x <> S754_nan.
Proof.
  unfold F64.is_number. rewrite eqb_spec. unfold SFeqb. split.
  - intros H E. rewrite E in H. discriminate.
  - intros H. now rewrite (SFcompare_refl _ H).
Qed.

(** Floats that [==] identifies compare alike with every float. *)
Lemma eqb_compare_r (x y z : float) :
  (x =? y)%float = true ->
  SFcompare (Prim2SF z) (Prim2SF x) = SFcompare (Prim2SF z) (Prim2SF y).
Proof.
  rewrite eqb_spec. unfold SFeqb.
  destruct (SFcompare (Prim2SF x) (Prim2SF y)) as [[]|] eqn:E; try discriminate.
  intros _. apply SFcompare_Eq in E as [->|(s1 & s2 & -> & ->)]; [reflexivity|].
  apply SFcompare_zero_r.
Qed.

Lemma eqb_compare_l (x y z : float) :
  (x =? y)%float = true ->
  SFcompare (Prim2SF x) (Prim2SF z) = SFcompare (Prim2SF y) (Prim2SF z).
Proof.
  rewrite eqb_spec. unfold SFeqb.
  destruct (SFcompare (Prim2SF x) (Prim2SF y)) as [[]|] eqn:E; try discriminate.
  intros _. apply SFcompare_Eq in E as [->|(s1 & s2 & -> & ->)]; [reflexivity|].
  apply SFcompare_zero_l.
Qed.

Lemma eqb_ltb_r (x y z : float) :
  (x =? y)%float = true -> (z <? x)%float = (z <? y)%float.
Proof.
  intros H. rewrite !ltb_spec. unfold SFltb. now rewrite (eqb_compare_r x y z H).
Qed.

Lemma eqb_leb_l (x y z : float) :
  (x =? y)%float = true -> (x <=? z)%float = (y <=? z)%float.
Proof.
  intros H. rewrite !leb_spec. unfold SFleb. now rewrite (eqb_compare_l x y z H).
Qed.

(** Two numbers are comparable: what is not below is at least. *)
Lemma leb_total (x y : float) :
  F64.is_number x -> F64.is_number y ->
  (y <? x)%float = false -> (x <=? y)%float = true.
Proof.
  rewrite !is_number_spec, ltb_spec, leb_spec. unfold SFltb, SFleb.
  intros Hx Hy.
  destruct (SFcompare (Prim2SF y) (Prim2SF x)) as [c|] eqn:E.
  - rewrite (SFcompare_antisym _ _ _ E). now destruct c.
  - exfalso. destruct (Prim2SF x), (Prim2SF y); simpl in E; congruence.
Qed.

Lemma leb_false_leb (x y : float) :
  F64.is_number x -> F64.is_number y ->
  (y <=? x)%float = false -> (x <=? y)%float = true.
Proof.
  rewrite !is_number_spec, !leb_spec. unfold SFleb.
  intros Hx Hy.
  destruct (SFcompare (Prim2SF y) (Prim2SF x)) as [c|] eqn:E.
  - rewrite (SFcompare_antisym _ _ _ E). now destruct c.
  - exfalso. destruct (Prim2SF x), (Prim2SF y); simpl in E; congruence.
Qed.

(** Two floats equal to a third are at most each other. *)
Lemma eqb_eqb_leb (x y v : float) :
  (x =? v)%float = true -> (y =? v)%float = true -> (y <=? x)%float = true.
Proof.
  intros Hx Hy. rewrite (eqb_leb_l y v x Hy).
  rewrite eqb_spec in Hx. rewrite leb_spec. unfold SFeqb in Hx. unfold SFleb.
  destruct (SFcompare (Prim2SF x) (Prim2SF v)) as [[]|] eqn:E; try discriminate.
  now rewrite (SFcompare_antisym _ _ _ E).
Qed.

Lemma ltb_leb_false (x y : float) : (x <? y)%float = true -> (y <=? x)%float = false.
Proof.
  rewrite ltb_spec, leb_spec. unfold SFltb, SFleb.
  destruct (SFcompare (Prim2SF x) (Prim2SF y)) as [c|] eqn:E; [|discriminate].
  rewrite (SFcompare_antisym _ _ _ E). now destruct c.
Qed.

(** [min(a, b)] is never above [b], and at most [b] when both are numbers. *)
Lemma min_not_above (a b : float) : (b <? F64.min a b)%float = false.
Proof.
  unfold F64.min. destruct (b <? a)%float eqn:E; [|exact E].
  rewrite ltb_spec. unfold SFltb.
  destruct (SFcompare (Prim2SF b) (Prim2SF b)) as [c|] eqn:Ec; [|reflexivity].
  apply SFcompare_number_l in Ec as Hn. rewrite (SFcompare_refl _ Hn) in Ec.
  now injection Ec as <-.
Qed.

Lemma min_le_r (a b : float) :
  F64.is_number (F64.min a b) -> F64.is_number b -> (F64.min a b <=? b)%float = true.
Proof.
  intros Ha Hb. apply leb_total; auto. apply min_not_above.
Qed.

End F64Facts.

(** ** The runtime ensemble in binary64 *)

Module CellEnsembleRT64Facts.
Import CellEnsembleRT64.

Lemma due_iff_b64 t0 t1 ts :
  due t0 t1 ts = true <-> (t0 <? ts)%float = true /\ (ts <=? t1)%float = true.
Proof. unfold due. apply andb_true_iff. Qed.

(** A timestamp in the window is a number, so it equals itself. *)
Lemma due_number t0 t1 ts : due t0 t1 ts = true -> (ts =? ts)%float = true.
Proof. intros H. apply due_iff_b64 in H as [H _]. exact (F64Facts.ltb_number_r _ _ H). Qed.

(** Timestamps that Python's [==] identifies fall on the same side of the
    window test. *)
Lemma due_eqb t0 t1 x y : (x =? y)%float = true -> due t0 t1 x = due t0 t1 y.
Proof.
  intros H. unfold due.
  now rewrite (F64Facts.eqb_ltb_r x y t0 H), (F64Facts.eqb_leb_l x y t1 H).
Qed.

(** *** The firing loop *)

Lemma fire_events_In_b64 events : forall f k,
  In k (fire_events f events) <-> In k f \/ exists st, In (k, st) events.
Proof.
  unfold fire_events. induction events as [|[k0 s0] ev IH]; simpl; intros f k.
  - split; [tauto|]. intros [H|[st []]]; auto.
  - rewrite IH, PySetFacts.In_add. split.
    + intros [[H| ->]|[st H]]; eauto.
    + intros [H|[st [H|H]]]; eauto. inversion H; subst. auto.
Qed.

Lemma fire_events_NoDup_b64 events : forall f, NoDup f -> NoDup (fire_events f events).
Proof.
  unfold fire_events. induction events as [|[k0 s0] ev IH]; simpl; intros f H; auto.
  apply IH. now apply PySetFacts.NoDup_add.
Qed.

Lemma collect_fired_gen_b64 t0 t1 sched : forall f d,
  exists f',
    fold_left (collect_step t0 t1) sched (f, d)
      = (f', d ++ map fst (filter (fun e => due t0 t1 (fst e)) sched)) /\
    (forall k, In k f' <->
       In k f \/ exists ts events st,
         In (ts, events) sched /\ due t0 t1 ts = true /\ In (k, st) events) /\
    (NoDup f -> NoDup f').
Proof.
  induction sched as [|[ts ev] sched IH]; intros f d; simpl.
  - exists f. rewrite app_nil_r. repeat split; auto.
    intros [H|(ts & ev & st & [] & _)]; auto.
  - destruct (due t0 t1 ts) eqn:E.
    + destruct (IH (fire_events f ev) (d ++ [ts])) as (f' & Hf & Hin & Hnd).
      exists f'. rewrite Hf. simpl.
      rewrite <- app_assoc. split; [reflexivity|]. split.
      * intros k. rewrite Hin, fire_events_In_b64. split.
        -- intros [[H|[st H]]|(ts' & ev' & st & H1 & H2 & H3)]; auto.
           ++ right. exists ts, ev, st. auto.
           ++ right. exists ts', ev', st. auto.
        -- intros [H|(ts' & ev' & st & [H1|H1] & H2 & H3)]; auto.
           ++ inversion H1; subst. left. right. eauto.
           ++ right. exists ts', ev', st. auto.
      * intros H. apply Hnd. now apply fire_events_NoDup_b64.
    + destruct (IH f d) as (f' & Hf & Hin & Hnd).
      exists f'. rewrite Hf. split; [reflexivity|]. split; auto.
      intros k. rewrite Hin. split.
      * intros [H|(ts' & ev' & st & H1 & H2 & H3)]; auto.
        right. exists ts', ev', st. auto.
      * intros [H|(ts' & ev' & st & [H1|H1] & H2 & H3)]; auto.
        -- inversion H1; subst. congruence.
        -- right. exists ts', ev', st. auto.
Qed.

Lemma collect_fired_spec_b64 t0 t1 sched :
  exists fired,
    collect_fired t0 t1 sched
      = (fired, map fst (filter (fun e => due t0 t1 (fst e)) sched)) /\
    (forall k, In k fired <->
       exists ts events st,
         In (ts, events) sched /\ due t0 t1 ts = true /\ In (k, st) events) /\
    NoDup fired.
Proof.
  destruct (collect_fired_gen_b64 t0 t1 sched [] []) as (f' & Hf & Hin & Hnd).
  exists f'. split; [exact Hf|]. split.
  - intros k. rewrite Hin. simpl. tauto.
  - apply Hnd. constructor.
Qed.

(** *** Deleting the fired timestamps *)

Lemma delete_all_skip_b64 td : forall k v r,
  (forall x, In x td -> (k =? x)%float = false) ->
  delete_all ((k, v) :: r) td = rbind (delete_all r td) (fun r' => Ok ((k, v) :: r')).
Proof.
  induction td as [|x td IH]; intros k v r H; simpl; auto.
  rewrite (H x) by (now left).
  destruct (PyDict.del PrimFloat.eqb r x) as [r'|]; simpl; auto.
  apply IH. intros y Hy. apply H. now right.
Qed.

Lemma delete_all_due_b64 t0 t1 sched :
  delete_all sched (map fst (filter (fun e => due t0 t1 (fst e)) sched))
  = Ok (filter (fun e => negb (due t0 t1 (fst e))) sched).
Proof.
  induction sched as [|[ts ev] sched IH]; simpl; auto.
  destruct (due t0 t1 ts) eqn:E; simpl.
  - rewrite (due_number t0 t1 ts E). exact IH.
  - rewrite delete_all_skip_b64.
    + rewrite IH. reflexivity.
    + intros x Hx. apply in_map_iff in Hx as ([x' ev'] & <- & Hx).
      apply filter_In in Hx as [_ Hx]. simpl in *.
      destruct (ts =? x')%float eqn:Eq; auto.
      apply (due_eqb t0 t1) in Eq. congruence.
Qed.

(** *** Weight decay *)

Abbreviation pair_eqb_spec := CellEnsembleRTFacts.pair_eqb_spec (only parsing).
Abbreviation pair_eqb_refl := CellEnsembleRTFacts.pair_eqb_refl (only parsing).

(** The loop never raises, whatever the list that stands for the dict. *)
Lemma decay_one_prefix_b64 dk (pre r : list (PairKey * float)) k :
  PyDict.contains pair_eqb pre k = true ->
  exists pre', decay_one dk (pre ++ r) k = Ok (pre' ++ r).
Proof.
  intros Hc. unfold decay_one, PyDict.index.
  rewrite (PyDictFacts.get_app_l pair_eqb pre r k Hc).
  unfold PyDict.contains in Hc.
  destruct (PyDict.get pair_eqb pre k) as [old|] eqn:Eg; [|discriminate]. simpl.
  assert (Hc1 : PyDict.contains pair_eqb pre k = true)
    by (unfold PyDict.contains; now rewrite Eg).
  rewrite (PyDictFacts.set_app_l pair_eqb pre r k (old * dk)%float Hc1).
  pose proof (PyDictFacts.contains_set pair_eqb pair_eqb_refl pre k (old * dk)%float) as Hc2.
  rewrite (PyDictFacts.get_app_l pair_eqb _ r k Hc2).
  unfold PyDict.contains in Hc2.
  destruct (PyDict.get pair_eqb (PyDict.set pair_eqb pre k (old * dk)%float) k)
    as [cur|] eqn:Eg2; [|discriminate]. simpl.
  destruct (abs cur <? 1e-6)%float.
  - assert (Hc3 : PyDict.contains pair_eqb
                    (PyDict.set pair_eqb pre k (old * dk)%float) k = true)
      by (unfold PyDict.contains; now rewrite Eg2).
    destruct (PyDictFacts.del_app_l pair_eqb _ r k Hc3) as (p' & _ & ->). eauto.
  - eauto.
Qed.

Lemma decay_loop_total_b64 dk (r : list (PairKey * float)) : forall pre,
  exists w', decay_loop dk (pre ++ r) (PyDict.keys r) = Ok w'.
Proof.
  induction r as [|[k v] r IH]; intros pre; simpl; [eauto|].
  destruct (decay_one_prefix_b64 dk (pre ++ [(k, v)]) r k) as (pre' & H).
  { apply PyDictFacts.contains_snoc, pair_eqb_refl. }
  rewrite <- app_assoc in H. simpl in H. rewrite H. simpl. apply IH.
Qed.

Lemma decay_weights_total_b64 dk (w : list (PairKey * float)) :
  exists w', decay_weights dk w = Ok w'.
Proof.
  unfold decay_weights. destruct w as [|e w]; [eauto|].
  apply (decay_loop_total_b64 dk (e :: w) []).
Qed.

(** On a well-formed dict the loop is the filter [decayed]. *)
Lemma decay_loop_decayed_b64 dk (r : list (PairKey * float)) : forall pre,
  NoDup (PyDict.keys (pre ++ r)) ->
  decay_loop dk (pre ++ r) (PyDict.keys r) = Ok (pre ++ decayed dk r).
Proof.
  induction r as [|[k v] r IH]; intros pre Hnd; simpl.
  - now rewrite app_nil_r.
  - assert (Hni : ~ In k (PyDict.keys pre)).
    { unfold PyDict.keys in *. rewrite map_app in Hnd. simpl in Hnd.
      apply NoDup_remove_2 in Hnd. rewrite in_app_iff in Hnd. tauto. }
    unfold decay_one, PyDict.index.
    rewrite (PyDictFacts.get_app_r pair_eqb pair_eqb_spec) by exact Hni.
    simpl. rewrite pair_eqb_refl. simpl.
    rewrite (PyDictFacts.set_app_r pair_eqb pair_eqb_spec) by exact Hni.
    simpl. rewrite pair_eqb_refl.
    rewrite (PyDictFacts.get_app_r pair_eqb pair_eqb_spec) by exact Hni.
    simpl. rewrite pair_eqb_refl. simpl.
    destruct (abs (v * dk) <? 1e-6)%float eqn:E.
    + rewrite (PyDictFacts.del_app_r pair_eqb pair_eqb_spec pre
                 ((k, (v * dk)%float) :: r) r k Hni)
        by (simpl; now rewrite pair_eqb_refl).
      simpl. apply IH.
      unfold PyDict.keys in *. rewrite map_app in *. simpl in Hnd.
      now apply NoDup_remove_1 in Hnd.
    + simpl. specialize (IH (pre ++ [(k, (v * dk)%float)])).
      rewrite <- !app_assoc in IH. simpl in IH. apply IH.
      unfold PyDict.keys in *. rewrite map_app in *. exact Hnd.
Qed.

Lemma decay_weights_decayed_b64 dk (w : list (PairKey * float)) :
  NoDup (PyDict.keys w) -> decay_weights dk w = Ok (decayed dk w).
Proof.
  intros H. unfold decay_weights. destruct w as [|e w]; [reflexivity|].
  apply (decay_loop_decayed_b64 dk (e :: w) [] H).
Qed.

Lemma decayed_keys_b64 dk (w : list (PairKey * float)) k :
  In k (PyDict.keys (decayed dk w)) -> In k (PyDict.keys w).
Proof.
  induction w as [|[k' x] w IH]; simpl; auto.
  destruct (abs (x * dk) <? 1e-6)%float; simpl; tauto.
Qed.

Lemma get_decayed_b64 dk (w : list (PairKey * float)) key :
  NoDup (PyDict.keys w) ->
  PyDict.get pair_eqb (decayed dk w) key =
  match PyDict.get pair_eqb w key with
  | Some x => if (abs (x * dk) <? 1e-6)%float then None else Some (x * dk)%float
  | None => None
  end.
Proof.
  induction w as [|[k x] w IH]; simpl; auto. intros Hnd.
  apply NoDup_cons_iff in Hnd as [Hni Hnd].
  destruct (pair_eqb k key) eqn:E.
  - apply pair_eqb_spec in E. subst key.
    destruct (abs (x * dk) <? 1e-6)%float; simpl.
    + apply (PyDictFacts.get_None pair_eqb pair_eqb_spec).
      intros H. apply Hni. eapply decayed_keys_b64, H.
    + now rewrite pair_eqb_refl.
  - destruct (abs (x * dk) <? 1e-6)%float; simpl; [|rewrite E]; auto.
Qed.

(** *** The Hebbian loop *)

(** The double loop is a single left fold over [visited_pairs]. *)
Lemma hebb_loop_fold_b64 (s : t) (fl : list UnitKey) : forall w,
  hebb_loop s fl w
  = fold_left (fun acc p => hebb_pair s acc (fst p) (snd p))
              (CellEnsembleRT.visited_pairs fl) w.
Proof.
  induction fl as [|a rest IH]; intros w; simpl; auto.
  rewrite fold_left_app, IH. f_equal.
  clear IH. revert w. induction rest as [|b rest' IHr]; intros w; simpl; auto.
Qed.

Lemma hebb_pair_get_ne_b64 (s : t) w a b key :
  key <> pair_key a b ->
  PyDict.get pair_eqb (hebb_pair s w a b) key = PyDict.get pair_eqb w key.
Proof.
  intros H. unfold hebb_pair.
  apply (PyDictFacts.get_set_ne pair_eqb pair_eqb_spec). congruence.
Qed.

Lemma hebb_pair_capped_new_b64 (s : t) w a b :
  capped s (hebb_pair s w a b) (pair_key a b).
Proof.
  unfold capped, hebb_pair.
  rewrite (PyDictFacts.get_set_eq pair_eqb pair_eqb_spec).
  eexists. split; [reflexivity|]. split.
  - apply F64Facts.min_not_above.
  - apply F64Facts.min_le_r.
Qed.

Lemma hebb_pair_capped_keep_b64 (s : t) w a b key :
  capped s w key -> capped s (hebb_pair s w a b) key.
Proof.
  intros H.
  destruct (pair_eqb key (pair_key a b)) eqn:E.
  - apply pair_eqb_spec in E. subst. apply hebb_pair_capped_new_b64.
  - unfold capped. rewrite hebb_pair_get_ne_b64; auto.
    intros ->. rewrite pair_eqb_refl in E. discriminate.
Qed.

Lemma fold_hebb_capped_b64 (s : t) (ps : list (UnitKey * UnitKey)) : forall w key,
  capped s w key \/ (exists a b, In (a, b) ps /\ key = pair_key a b) ->
  capped s (fold_left (fun acc p => hebb_pair s acc (fst p) (snd p)) ps w) key.
Proof.
  induction ps as [|[a b] ps IH]; simpl; intros w key.
  - intros [H|(a & b & [] & _)]; auto.
  - intros [H|(a' & b' & [[= -> ->]|H] & ->)]; apply IH.
    + left. now apply hebb_pair_capped_keep_b64.
    + left. apply hebb_pair_capped_new_b64.
    + right. eauto.
Qed.

Lemma fold_hebb_untouched_b64 (s : t) (ps : list (UnitKey * UnitKey)) : forall w key,
  (forall a b, In (a, b) ps -> key <> pair_key a b) ->
  PyDict.get pair_eqb (fold_left (fun acc p => hebb_pair s acc (fst p) (snd p)) ps w) key
  = PyDict.get pair_eqb w key.
Proof.
  induction ps as [|[a b] ps IH]; simpl; intros w key H; auto.
  rewrite IH by (intros; apply H; auto).
  apply hebb_pair_get_ne_b64. apply H. now left.
Qed.

(** *** One step *)

Lemma activate_step_unfold_b64 (s : t) (dt : option float) :
  let d := match dt with Some d => d | None => _dt s end in
  exists fired w1,
    collect_fired (_t s) (_t s + d)%float (_scheduled s)
      = (fired,
         map fst (filter (fun e => due (_t s) (_t s + d)%float (fst e)) (_scheduled s))) /\
    decay_weights (decay s) (weights s) = Ok w1 /\
    activate_step s dt
    = Ok ({| name := name s; units := units s; context_tags := context_tags s;
             registry := registry s;
             _scheduled := filter (fun e => negb (due (_t s) (_t s + d)%float (fst e)))
                                  (_scheduled s);
             weights := hebb_loop s fired w1;
             eta_hebb := eta_hebb s; decay := decay s; max_weight := max_weight s;
             _t := (_t s + d)%float; _dt := _dt s; _active_last_step := fired |},
          fired).
Proof.
  intros d.
  destruct (collect_fired_spec_b64 (_t s) (_t s + d)%float (_scheduled s))
    as (fired & Hc & _).
  destruct (decay_weights_total_b64 (decay s) (weights s)) as (w1 & Hw).
  exists fired, w1. split; [exact Hc|]. split; [exact Hw|].
  unfold activate_step. fold d. rewrite Hc, delete_all_due_b64. simpl.
  rewrite Hw. simpl. destruct fired; reflexivity.
Qed.

(** C5: [activate_step(dt)] returns normally; the keys it returns are exactly
    the keys of the events whose timestamp [ts] satisfies [t0 < ts <= t0 + dt],
    where [t0 + dt] is the binary64 sum that the code computes and the
    comparisons are those of floats; the schedule it leaves is the old one
    without the entries in that window, hence holds no fired event any
    more, and still holds every entry at [t0] itself or before it; and the
    clock moves to [t0 + dt].  On the instance with spikes for ["x"] at 0.05 and 0.15,
    the first step of 0.1 fires ["x"] and leaves only the entry at 0.15, and
    the second step fires it and leaves nothing.  The window is the one of
    the floats: eight steps of 0.1 from 0 bring the clock to
    0.7999999999999999, so a spike at 0.8 is still scheduled then, and fires
    in the ninth step. *)
Theorem activate_step_fires_window :
  (forall (s : t) (dt : float),
      exists s' fired,
        activate_step s (Some dt) = Ok (s', fired) /\
        (forall k, In k fired <->
           exists ts events st,
             In (ts, events) (_scheduled s) /\
             ((_t s <? ts)%float = true /\ (ts <=? _t s + dt)%float = true) /\
             In (k, st) events) /\
        NoDup fired /\
        _scheduled s'
          = filter (fun e => negb (due (_t s) (_t s + dt)%float (fst e))) (_scheduled s) /\
        (forall ts events, In (ts, events) (_scheduled s') ->
           In (ts, events) (_scheduled s) /\
           ~ ((_t s <? ts)%float = true /\ (ts <=? _t s + dt)%float = true)) /\
        (forall ts events, In (ts, events) (_scheduled s) ->
           (ts <=? _t s)%float = true -> In (ts, events) (_scheduled s')) /\
        _t s' = (_t s + dt)%float /\
        _active_last_step s' = fired)
  /\
  (exists s1 s2,
      activate_step two_spikes (Some 0.1%float) = Ok (s1, ["x"%string]) /\
      _scheduled s1 = [(0.15%float, [("x"%string, 1.0%float)])] /\
      activate_step s1 (Some 0.1%float) = Ok (s2, ["x"%string]) /\
      _scheduled s2 = [])
  /\
  (let s8 := Nat.iter 8 (fun s => after_step s (Some 0.1%float)) spike_at_08 in
   _t s8 = 0.7999999999999999%float /\
   _scheduled s8 = [(0.8%float, [("x"%string, 1.0%float)])] /\
   exists s9, activate_step s8 (Some 0.1%float) = Ok (s9, ["x"%string])).
Proof.
  split; [|split].
  - intros s dt.
    destruct (activate_step_unfold_b64 s (Some dt)) as (fired & w1 & Hc & Hw & Hs).
    simpl in Hc, Hs.
    destruct (collect_fired_spec_b64 (_t s) (_t s + dt)%float (_scheduled s))
      as (fired' & Hc' & Hin & Hnd).
    rewrite Hc in Hc'. injection Hc' as <-.
    eexists _, fired. split; [exact Hs|]. simpl.
    split; [|split; [exact Hnd|split; [reflexivity|split; [|split; [|split; reflexivity]]]]].
    + intros k. rewrite Hin. split.
      * intros (ts & ev & st & H1 & H2 & H3). exists ts, ev, st.
        apply due_iff_b64 in H2. auto.
      * intros (ts & ev & st & H1 & H2 & H3). exists ts, ev, st.
        apply due_iff_b64 in H2. auto.
    + intros ts ev H. apply filter_In in H as [H1 H2]. simpl in H2.
      split; auto. intros H3. apply due_iff_b64 in H3. rewrite H3 in H2. discriminate.
    + intros ts ev H Hle. apply filter_In. split; [exact H|]. simpl.
      destruct (due (_t s) (_t s + dt)%float ts) eqn:E; [|reflexivity].
      apply due_iff_b64 in E as [E _]. apply F64Facts.ltb_leb_false in E. congruence.
  - eexists _, _. split; [vm_compute; reflexivity|].
    split; [reflexivity|]. split; vm_compute; reflexivity.
  - cbv zeta. split; [vm_compute; reflexivity|]. split; [vm_compute; reflexivity|].
    eexists. vm_compute. reflexivity.
Qed.

(** C7: on an instance whose weight map is a dictionary, [activate_step]
    first scales every weight by [decay], in binary64, and drops those whose
    absolute value is then below the float 1e-6, and only then runs the
    Hebbian loop on the result: pairs that did not co-fire keep their decayed
    weight, and every co-fired pair ends with a weight that is not above
    [max_weight].  The weight seeded at 2e-6 with decay 0.4 is gone after
    one step; the test is made on the rounded product: a weight of 3e-6
    with decay 0.3333333333333333 becomes the float 1e-6 itself and stays. *)
Theorem activate_step_decay_then_cap :
  (forall (s : t) (dt : option float),
      PyDict.uniq pair_eqb (weights s) = true ->
      exists s' fired w1,
        activate_step s dt = Ok (s', fired) /\
        decay_weights (decay s) (weights s) = Ok w1 /\
        (forall key,
            PyDict.get pair_eqb w1 key =
            match PyDict.get pair_eqb (weights s) key with
            | Some x =>
                if (abs (x * decay s) <? 1e-6)%float
                then None else Some (x * decay s)%float
            | None => None
            end) /\
        weights s' = hebb_loop s fired w1 /\
        (forall key,
            (forall a b, In a fired -> In b fired -> a <> b -> key <> pair_key a b) ->
            PyDict.get pair_eqb (weights s') key = PyDict.get pair_eqb w1 key) /\
        (forall a b, In a fired -> In b fired -> a <> b ->
                     capped s (weights s') (pair_key a b)))
  /\
  (exists s', activate_step seeded None = Ok (s', []) /\ weights s' = [])
  /\
  (exists s', activate_step seeded_at_threshold None = Ok (s', []) /\
              weights s' = [(("a"%string, "b"%string), 1e-6%float)]).
Proof.
  split; [|split].
  - intros s dt Hu.
    apply (PyDictFacts.uniq_NoDup pair_eqb pair_eqb_spec) in Hu.
    destruct (activate_step_unfold_b64 s dt) as (fired & w1 & Hc & Hw & Hs).
    eexists _, fired, w1. split; [exact Hs|]. split; [exact Hw|]. simpl.
    rewrite decay_weights_decayed_b64 in Hw by exact Hu. injection Hw as <-.
    split; [|split; [reflexivity|split]].
    + intros key. now apply get_decayed_b64.
    + intros key H. rewrite hebb_loop_fold_b64. apply fold_hebb_untouched_b64.
      intros a b Hab. apply CellEnsembleRTFacts.visited_pairs_In in Hab as Hab'.
      destruct Hab' as [Ha Hb].
      apply H; auto.
      destruct (collect_fired_spec_b64 (_t s)
                  (_t s + match dt with Some d => d | None => _dt s end)%float
                  (_scheduled s))
        as (fired' & Hc' & _ & Hnd).
      rewrite Hc in Hc'. injection Hc' as <-.
      eapply CellEnsembleRTFacts.visited_pairs_distinct; eauto.
    + intros a b Ha Hb Hne. rewrite hebb_loop_fold_b64. apply fold_hebb_capped_b64. right.
      destruct (CellEnsembleRTFacts.visited_pairs_complete fired a b Ha Hb Hne) as [H|H].
      * exists a, b. auto.
      * exists b, a. split; auto. now apply CellEnsembleRTFacts.pair_key_sym.
  - eexists. split; vm_compute; reflexivity.
  - eexists. split; vm_compute; reflexivity.
Qed.

(** The hypothesis of C7 holds of the seeded instance. *)
Lemma activate_step_decay_then_cap_witness :
  PyDict.uniq pair_eqb (weights seeded) = true /\
  exists s' fired w1,
    activate_step seeded None = Ok (s', fired) /\
    decay_weights (decay seeded) (weights seeded) = Ok w1 /\
    (forall key,
        PyDict.get pair_eqb w1 key =
        match PyDict.get pair_eqb (weights seeded) key with
        | Some x =>
            if (abs (x * decay seeded) <? 1e-6)%float
            then None else Some (x * decay seeded)%float
        | None => None
        end) /\
    weights s' = hebb_loop seeded fired w1 /\
    (forall key,
        (forall a b, In a fired -> In b fired -> a <> b -> key <> pair_key a b) ->
        PyDict.get pair_eqb (weights s') key = PyDict.get pair_eqb w1 key) /\
    (forall a b, In a fired -> In b fired -> a <> b ->
                 capped seeded (weights s') (pair_key a b)).
Proof.
  split; [reflexivity|].
  apply (proj1 activate_step_decay_then_cap seeded None). reflexivity.
Defined.

End CellEnsembleRT64Facts.

(** ** Concepts in binary64 *)

Module Concept64Facts.
Import Concept64.

Abbreviation Neqb_spec := ConceptFacts.Neqb_spec (only parsing).

(** *** The table of deltas *)

Lemma get_default_set_eq_b64 (d : list (UUID * float)) k v dflt :
  PyDict.get_default N.eqb (PyDict.set N.eqb d k v) k dflt = v.
Proof.
  unfold PyDict.get_default.
  now rewrite (PyDictFacts.get_set_eq N.eqb Neqb_spec).
Qed.

Lemma get_default_set_ne_b64 (d : list (UUID * float)) k k' v dflt :
  k <> k' ->
  PyDict.get_default N.eqb (PyDict.set N.eqb d k v) k' dflt
  = PyDict.get_default N.eqb d k' dflt.
Proof.
  intros H. unfold PyDict.get_default.
  now rewrite (PyDictFacts.get_set_ne N.eqb Neqb_spec) by exact H.
Qed.

Lemma get_default_cons_b64 (d : list (UUID * float)) k v k' dflt :
  PyDict.get_default N.eqb ((k, v) :: d) k' dflt
  = if N.eqb k k' then v else PyDict.get_default N.eqb d k' dflt.
Proof. unfold PyDict.get_default. simpl. now destruct (N.eqb k k'). Qed.

(** The links of one source change the delta of [t_id] by one addition, if
    the source has a link to [t_id], and not at all otherwise. *)
Lemma add_deltas_get_b64 act (lnk : list (UUID * float)) : forall delta t_id,
  NoDup (PyDict.keys lnk) ->
  PyDict.get_default N.eqb (add_deltas act lnk delta) t_id 0.0%float
  = match PyDict.get N.eqb lnk t_id with
    | Some w => (PyDict.get_default N.eqb delta t_id 0.0 + act * w)%float
    | None => PyDict.get_default N.eqb delta t_id 0.0%float
    end.
Proof.
  unfold add_deltas.
  induction lnk as [|[t0 w] lnk IH]; intros delta t_id Hnd; simpl; [reflexivity|].
  apply NoDup_cons_iff in Hnd as [Hni Hnd].
  rewrite IH by exact Hnd.
  destruct (N.eqb t0 t_id) eqn:E.
  - apply N.eqb_eq in E. subst t_id.
    apply (PyDictFacts.get_None N.eqb Neqb_spec) in Hni. simpl in Hni. rewrite Hni.
    apply get_default_set_eq_b64.
  - assert (Hne : t0 <> t_id) by (intros ->; rewrite N.eqb_refl in E; discriminate).
    rewrite get_default_set_ne_b64 by exact Hne. reflexivity.
Qed.

Lemma spread_fold_get_b64 (srcs : list (UUID * FeatureEnsemble64.t)) : forall delta t_id,
  forallb (fun '(_, e) => PyDict.uniq N.eqb (FeatureEnsemble64.links e)) srcs = true ->
  PyDict.get_default N.eqb
    (fold_left
       (fun delta '(_, s) =>
          if (FeatureEnsemble64.activation s <=? 0.0)%float then delta
          else add_deltas (FeatureEnsemble64.activation s) (FeatureEnsemble64.links s) delta)
       srcs delta) t_id 0.0%float
  = fold_left (add_inflow t_id) (PyDict.values srcs)
              (PyDict.get_default N.eqb delta t_id 0.0%float).
Proof.
  induction srcs as [|[sid s] srcs IH]; intros delta t_id Hu; simpl; [reflexivity|].
  apply andb_true_iff in Hu as [Hs Hu].
  rewrite IH by exact Hu. f_equal. unfold add_inflow.
  destruct (FeatureEnsemble64.activation s <=? 0.0)%float; [reflexivity|].
  apply add_deltas_get_b64. now apply (PyDictFacts.uniq_NoDup N.eqb Neqb_spec).
Qed.

Lemma get_default_zeros_b64 (b : list (UUID * FeatureEnsemble64.t)) t_id :
  PyDict.get_default N.eqb (map (fun '(eid, _) => (eid, 0.0%float)) b) t_id 0.0%float
  = 0.0%float.
Proof.
  unfold PyDict.get_default.
  induction b as [|[k e] b IH]; simpl; auto.
  destruct (N.eqb k t_id); auto.
Qed.

(** The delta of [t_id], whether [t_id] is an ensemble or not. *)
Lemma spread_delta_get_b64 (c : t) t_id :
  wf c = true ->
  PyDict.get_default N.eqb (spread_delta c) t_id 0.0%float
  = inflow (ensembles_by_id c) t_id.
Proof.
  intros Hwf. apply andb_true_iff in Hwf as [_ Hl].
  unfold spread_delta. rewrite spread_fold_get_b64 by exact Hl.
  now rewrite get_default_zeros_b64.
Qed.

Lemma set_starts_with_b64 ks delta k v :
  starts_with ks delta -> starts_with ks (PyDict.set N.eqb delta k v).
Proof.
  intros [Hnd (d1 & d2 & -> & Hk)]. split.
  - now apply (PyDictFacts.NoDup_keys_set N.eqb Neqb_spec).
  - destruct (PyDict.contains N.eqb d1 k) eqn:E.
    + rewrite (PyDictFacts.set_app_l N.eqb d1 d2 k v E).
      exists (PyDict.set N.eqb d1 k v), d2. split; auto.
      rewrite (PyDictFacts.keys_set N.eqb Neqb_spec), E. exact Hk.
    + assert (Hni : ~ In k (PyDict.keys d1)).
      { intros Hin. apply (PyDictFacts.contains_In N.eqb Neqb_spec) in Hin. congruence. }
      rewrite (PyDictFacts.set_app_r N.eqb Neqb_spec d1 d2 k v Hni).
      exists d1, (PyDict.set N.eqb d2 k v). auto.
Qed.

Lemma add_deltas_starts_with_b64 ks act (lnk : list (UUID * float)) : forall delta,
  starts_with ks delta -> starts_with ks (add_deltas act lnk delta).
Proof.
  unfold add_deltas. induction lnk as [|[t0 w] lnk IH]; intros delta H; simpl; auto.
  apply IH. now apply set_starts_with_b64.
Qed.

Lemma keys_zeros_b64 (b : list (UUID * FeatureEnsemble64.t)) :
  PyDict.keys (map (fun '(eid, _) => (eid, 0.0%float)) b) = PyDict.keys b.
Proof.
  unfold PyDict.keys. rewrite map_map. apply map_ext. now intros [k e].
Qed.

Lemma spread_delta_starts_with_b64 (c : t) :
  NoDup (PyDict.keys (ensembles_by_id c)) ->
  starts_with (PyDict.keys (ensembles_by_id c)) (spread_delta c).
Proof.
  intros Hnd. unfold spread_delta.
  set (ks := PyDict.keys (ensembles_by_id c)).
  assert (H0 : starts_with ks (map (fun '(eid, _) => (eid, 0.0%float)) (ensembles_by_id c))).
  { split.
    - now rewrite keys_zeros_b64.
    - eexists _, []. rewrite app_nil_r. split; [reflexivity|]. apply keys_zeros_b64. }
  revert H0. generalize (map (fun '(eid, _) => (eid, 0.0%float)) (ensembles_by_id c)).
  generalize (ensembles_by_id c) as srcs.
  induction srcs as [|[sid s] srcs IH]; intros delta H; simpl; auto.
  apply IH. destruct (FeatureEnsemble64.activation s <=? 0.0)%float; auto.
  now apply add_deltas_starts_with_b64.
Qed.

(** *** Applying the deltas *)

Lemma apply_delta_existing_b64 (post : list (UUID * FeatureEnsemble64.t)) :
  forall pre d1 rest,
    PyDict.keys d1 = PyDict.keys post ->
    NoDup (PyDict.keys (pre ++ post)) ->
    apply_delta (pre ++ post) (d1 ++ rest) = apply_delta (pre ++ bump post d1) rest.
Proof.
  induction post as [|[k e] post IH]; intros pre d1 rest Hk Hnd.
  - destruct d1; [reflexivity|discriminate].
  - destruct d1 as [|[k' d] d1]; [discriminate|].
    simpl in Hk. injection Hk as -> Hk. simpl.
    assert (Hni : ~ In k (PyDict.keys pre)).
    { unfold PyDict.keys in *. rewrite map_app in Hnd. simpl in Hnd.
      apply NoDup_remove_2 in Hnd. rewrite in_app_iff in Hnd. tauto. }
    rewrite (PyDictFacts.get_app_r N.eqb Neqb_spec) by exact Hni.
    simpl. rewrite N.eqb_refl.
    rewrite (PyDictFacts.set_app_r N.eqb Neqb_spec) by exact Hni.
    simpl. rewrite N.eqb_refl.
    specialize (IH (pre ++ [(k, FeatureEnsemble64.set_activation e
                                  (FeatureEnsemble64.activation e + d)%float)]) d1 rest Hk).
    rewrite <- !app_assoc in IH. simpl in IH. apply IH.
    unfold PyDict.keys in *. rewrite !map_app in *. simpl in *. exact Hnd.
Qed.

Lemma apply_delta_dangling_b64 (b : list (UUID * FeatureEnsemble64.t))
  (d2 : list (UUID * float)) :
  (forall k, In k (PyDict.keys d2) -> ~ In k (PyDict.keys b)) ->
  apply_delta b d2 = (b, match d2 with [] => Ok tt | _ => Raise KeyError end).
Proof.
  destruct d2 as [|[k d] d2]; [reflexivity|]. intros H. simpl.
  assert (Hk : ~ In k (PyDict.keys b)) by (apply H; now left).
  apply (PyDictFacts.get_None N.eqb Neqb_spec) in Hk. now rewrite Hk.
Qed.

Lemma keys_bump_b64 (b : list (UUID * FeatureEnsemble64.t)) : forall d1,
  PyDict.keys d1 = PyDict.keys b -> PyDict.keys (bump b d1) = PyDict.keys b.
Proof.
  induction b as [|[k e] b IH]; intros [|[k' d] d1] Hk; try discriminate; auto.
  simpl in *. injection Hk as -> Hk. f_equal. now apply IH.
Qed.

(** The spread stage as a whole: every ensemble receives the delta stored
    under its identity; the stage raises iff the table holds a target that is
    no ensemble. *)
Lemma spread_shape_b64 (c : t) :
  NoDup (PyDict.keys (ensembles_by_id c)) ->
  exists d1 d2,
    spread_delta c = d1 ++ d2 /\
    PyDict.keys d1 = PyDict.keys (ensembles_by_id c) /\
    NoDup (PyDict.keys (d1 ++ d2)) /\
    spread c = (set_by_id c (bump (ensembles_by_id c) d1),
                match d2 with [] => Ok tt | _ => Raise KeyError end).
Proof.
  intros Hnd. destruct (spread_delta_starts_with_b64 c Hnd) as [Hnd' (d1 & d2 & Hd & Hk)].
  exists d1, d2. rewrite Hd in Hnd'. repeat split; auto.
  unfold spread. rewrite Hd.
  pose proof (apply_delta_existing_b64 (ensembles_by_id c) [] d1 d2 Hk Hnd) as Ha.
  simpl in Ha. rewrite Ha.
  rewrite apply_delta_dangling_b64; [reflexivity|].
  intros k Hin. rewrite keys_bump_b64 by exact Hk. rewrite <- Hk.
  unfold PyDict.keys in Hnd'. rewrite map_app in Hnd'.
  intros Hin'. exact (NoDup_app_disjoint _ _ Hnd' k Hin' Hin).
Qed.

Lemma get_bump_b64 (b : list (UUID * FeatureEnsemble64.t)) : forall d1 id,
  PyDict.keys d1 = PyDict.keys b ->
  PyDict.get N.eqb (bump b d1) id =
  match PyDict.get N.eqb b id with
  | Some e =>
      Some (FeatureEnsemble64.set_activation e
              (FeatureEnsemble64.activation e
               + PyDict.get_default N.eqb d1 id 0.0)%float)
  | None => None
  end.
Proof.
  induction b as [|[k e] b IH]; intros [|[k' d] d1] id Hk; try discriminate; auto.
  simpl in Hk. injection Hk as -> Hk.
  change (bump ((k, e) :: b) ((k, d) :: d1))
    with ((k, FeatureEnsemble64.set_activation e (FeatureEnsemble64.activation e + d)%float)
            :: bump b d1).
  simpl. rewrite get_default_cons_b64.
  destruct (N.eqb k id); [reflexivity|]. now apply IH.
Qed.

Lemma get_default_app_l_b64 (d1 d2 : list (UUID * float)) id dflt :
  In id (PyDict.keys d1) ->
  PyDict.get_default N.eqb (d1 ++ d2) id dflt = PyDict.get_default N.eqb d1 id dflt.
Proof.
  intros H. apply (PyDictFacts.contains_In N.eqb Neqb_spec) in H.
  unfold PyDict.get_default. now rewrite (PyDictFacts.get_app_l N.eqb d1 d2 id H).
Qed.

Lemma wf_NoDup_b64 (c : t) : wf c = true -> NoDup (PyDict.keys (ensembles_by_id c)).
Proof.
  intros H. apply andb_true_iff in H as [H _].
  now apply (PyDictFacts.uniq_NoDup N.eqb Neqb_spec).
Qed.

(** The activation of an ensemble after the spread stage. *)
Lemma spread_activation_b64 (c : t) id e :
  wf c = true ->
  PyDict.get N.eqb (ensembles_by_id c) id = Some e ->
  PyDict.get N.eqb (ensembles_by_id (fst (spread c))) id
  = Some (FeatureEnsemble64.set_activation e
            (FeatureEnsemble64.activation e + inflow (ensembles_by_id c) id)%float).
Proof.
  intros Hwf Hg. pose proof (wf_NoDup_b64 c Hwf) as Hnd.
  destruct (spread_shape_b64 c Hnd) as (d1 & d2 & Hd & Hk & Hnd' & Hs).
  rewrite Hs. simpl. rewrite (get_bump_b64 _ d1 id Hk), Hg.
  rewrite <- (spread_delta_get_b64 c id Hwf), Hd.
  rewrite get_default_app_l_b64; [reflexivity|].
  rewrite Hk. apply (PyDictFacts.get_In N.eqb Neqb_spec) in Hg.
  apply (in_map fst) in Hg. exact Hg.
Qed.

Lemma spread_keys_b64 (c : t) :
  wf c = true ->
  PyDict.keys (ensembles_by_id (fst (spread c))) = PyDict.keys (ensembles_by_id c).
Proof.
  intros Hwf. pose proof (wf_NoDup_b64 c Hwf) as Hnd.
  destruct (spread_shape_b64 c Hnd) as (d1 & d2 & Hd & Hk & Hnd' & Hs).
  rewrite Hs. simpl. now apply keys_bump_b64.
Qed.

(** The concept that [stimulate] hands to its spread stage is well formed
    when the concept it was called on is. *)
Lemma update_ensemble_wf_b64 (c : t) i (f : FeatureEnsemble64.t -> FeatureEnsemble64.t) :
  (forall e, FeatureEnsemble64.links (f e) = FeatureEnsemble64.links e) ->
  wf c = true -> wf (update_ensemble c i f) = true.
Proof.
  intros Hf Hwf. unfold update_ensemble.
  destruct (PyDict.get N.eqb (ensembles_by_id c) i) as [e|] eqn:Eg; auto.
  unfold wf in *. simpl. apply andb_true_iff in Hwf as [Hu Hl].
  apply andb_true_iff. split.
  - apply (PyDictFacts.uniq_NoDup N.eqb Neqb_spec).
    apply (PyDictFacts.NoDup_keys_set N.eqb Neqb_spec).
    now apply (PyDictFacts.uniq_NoDup N.eqb Neqb_spec).
  - rewrite forallb_forall in *. intros [k v] Hin.
    apply (PyDictFacts.In_set N.eqb) in Hin as [Hin|Hv].
    + exact (Hl _ Hin).
    + simpl in Hv. subst v. rewrite Hf.
      apply (PyDictFacts.get_In N.eqb Neqb_spec) in Eg. exact (Hl _ Eg).
Qed.

Lemma direct_activation_wf_b64 H cues gain : forall c,
  wf c = true -> wf (fst (direct_activation H c cues gain)) = true.
Proof.
  induction cues as [|[nm vec] cues IH]; intros c Hwf; simpl; auto.
  destruct (PyDict.get String.eqb (ensembles_by_name c) nm) as [e_id|]; auto.
  destruct (PyDict.get N.eqb (ensembles_by_id c) e_id) as [ens0|]; auto.
  destruct (FeatureEnsemble64.similarity H ens0 vec); auto.
  apply IH. apply update_ensemble_wf_b64; auto.
Qed.

(** C6: [stimulate] runs its spread stage on the concept left by the direct
    activation, which is well formed when the concept was.  On a concept whose
    dictionaries are dictionaries, the spread stage keeps the ensembles and
    changes only their activations; the activation of each ensemble afterwards
    is, in binary64, its activation before plus its delta; the delta is built
    from 0.0 by adding, in the order of the identity map, for each source
    that the test [activation <= 0.0] does not skip and that has a link to
    the ensemble, its activation before times the weight of that link.
    Every delta is computed from the activations before the stage, so no
    delta feeds into another. *)
Theorem spread_is_synchronous (c : t) :
  wf c = true ->
  (forall H cues gain,
      wf (fst (direct_activation H c cues gain)) = true /\
      stimulate H c cues gain
      = match direct_activation H c cues gain with
        | (c1, Raise e) => (c1, Raise e)
        | (c1, Ok _) =>
            match spread c1 with
            | (c2, Raise e) => (c2, Raise e)
            | (c2, Ok _) =>
                match _lateral_inhibition H c2 with
                | (c3, Raise e) => (c3, Raise e)
                | (c3, Ok _) => (c3, Ok (snapshot H c3))
                end
            end
        end) /\
  PyDict.keys (ensembles_by_id (fst (spread c))) = PyDict.keys (ensembles_by_id c) /\
  (forall id e,
      PyDict.get N.eqb (ensembles_by_id c) id = Some e ->
      PyDict.get N.eqb (ensembles_by_id (fst (spread c))) id
      = Some (FeatureEnsemble64.set_activation e
                (FeatureEnsemble64.activation e
                 + fold_left (add_inflow id) (PyDict.values (ensembles_by_id c)) 0.0)%float)).
Proof.
  intros Hwf. split.
  { intros H cues gain. split; [now apply direct_activation_wf_b64|reflexivity]. }
  split; [now apply spread_keys_b64|].
  intros id e. now apply spread_activation_b64.
Qed.

(** The instance of C6 on the concept whose sources send 1e16, 1 and -1e16
    to ["target"], in that order: the hypothesis holds, and ["target"] ends
    at 0.0, the 1 being lost when it is added to 1e16. *)
Lemma spread_is_synchronous_witness :
  wf small_first = true /\
  (exists e', PyDict.get N.eqb (ensembles_by_id (fst (spread small_first))) 9%N = Some e' /\
              FeatureEnsemble64.activation e' = 0.0%float) /\
  ((forall H cues gain,
       wf (fst (direct_activation H small_first cues gain)) = true /\
       stimulate H small_first cues gain
       = match direct_activation H small_first cues gain with
         | (c1, Raise e) => (c1, Raise e)
         | (c1, Ok _) =>
             match spread c1 with
             | (c2, Raise e) => (c2, Raise e)
             | (c2, Ok _) =>
                 match _lateral_inhibition H c2 with
                 | (c3, Raise e) => (c3, Raise e)
                 | (c3, Ok _) => (c3, Ok (snapshot H c3))
                 end
             end
         end) /\
   PyDict.keys (ensembles_by_id (fst (spread small_first)))
   = PyDict.keys (ensembles_by_id small_first) /\
   (forall id e,
       PyDict.get N.eqb (ensembles_by_id small_first) id = Some e ->
       PyDict.get N.eqb (ensembles_by_id (fst (spread small_first))) id
       = Some (FeatureEnsemble64.set_activation e
                 (FeatureEnsemble64.activation e
                  + fold_left (add_inflow id)
                              (PyDict.values (ensembles_by_id small_first)) 0.0)%float))).
Proof.
  split; [reflexivity|]. split.
  - eexists. split; vm_compute; reflexivity.
  - apply (spread_is_synchronous small_first). reflexivity.
Defined.

(** C6 as stated fails, in its last part: the two concepts hold the same
    ensembles, with the same activations and links, in different orders
    of the identity map, and the spread stage leaves ["target"] at 0.0 in the
    one and at 1.0 in the other. *)
Lemma spread_is_synchronous_counterexample :
  wf small_first = true /\ wf minus_first = true /\
  Permutation (ensembles_by_id small_first) (ensembles_by_id minus_first) /\
  snd (spread small_first) = Ok tt /\ snd (spread minus_first) = Ok tt /\
  exists e1 e2,
    PyDict.get N.eqb (ensembles_by_id (fst (spread small_first))) 9%N = Some e1 /\
    PyDict.get N.eqb (ensembles_by_id (fst (spread minus_first))) 9%N = Some e2 /\
    FeatureEnsemble64.activation e1 = 0.0%float /\
    FeatureEnsemble64.activation e2 = 1.0%float /\
    (FeatureEnsemble64.activation e1 =? FeatureEnsemble64.activation e2)%float = false.
Proof.
  split; [reflexivity|]. split; [reflexivity|]. split.
  - vm_compute. apply perm_skip. apply perm_swap.
  - split; [reflexivity|]. split; [reflexivity|].
    eexists _, _. split; [vm_compute; reflexivity|]. split; [vm_compute; reflexivity|].
    split; [reflexivity|]. split; reflexivity.
Qed.

(** *** Lateral inhibition *)

(** X15: in binary64, [_lateral_inhibition] raises [ZeroDivisionError]
    exactly when the summed positive activation does not pass the test
    [total <= 1e-9] and [1.0 + inhibition_gain * total] is 0.0, whatever
    [sum] returned as the total; no other exception is raised, a call that
    raises has changed nothing, and a concept without ensembles is left as
    it is.  With three ensembles at 1.0 and a gain of -0.3333333333333333
    the denominator rounds to 0.0 and the call raises. *)
Theorem lateral_inhibition_raises (H : Host64) (c : t) :
  (snd (_lateral_inhibition H c) = Raise ZeroDivisionError <->
   (total_activation H c <=? 1e-9)%float = false /\
   (1.0 + inhibition_gain c * total_activation H c =? 0.0)%float = true) /\
  (forall e, snd (_lateral_inhibition H c) = Raise e ->
             e = ZeroDivisionError /\ fst (_lateral_inhibition H c) = c) /\
  (ensembles_by_id c = [] -> _lateral_inhibition H c = (c, Ok tt)) /\
  (total_activation example_host64 third_gain = 3.0%float /\
   _lateral_inhibition example_host64 third_gain = (third_gain, Raise ZeroDivisionError)).
Proof.
  split; [|split; [|split; [|split; reflexivity]]]; unfold _lateral_inhibition, denominator.
  - destruct (total_activation H c <=? 1e-9)%float eqn:E.
    + split; [discriminate|]. intros [H0 _]. discriminate.
    + destruct (ensembles_by_id c) as [|x l] eqn:El.
      * exfalso. unfold total_activation in E. rewrite El in E. discriminate.
      * destruct (1.0 + inhibition_gain c * total_activation H c =? 0.0)%float;
          simpl; split; auto; try discriminate. intros [_ H0]. discriminate.
  - intros e. destruct (total_activation H c <=? 1e-9)%float; [discriminate|].
    destruct (ensembles_by_id c); [discriminate|].
    destruct (1.0 + inhibition_gain c * total_activation H c =? 0.0)%float;
      [|discriminate].
    simpl. intros [= <-]. auto.
  - intros ->. now destruct (total_activation H c <=? 1e-9)%float.
Qed.

End Concept64Facts.

(** ** Decoding labels *)

Module ConceptDecoderFacts.
Import ConceptDecoder.

#[local] Abbreviation desc := (fun x y : string * float => (snd y <=? snd x)%float = true).

(** *** The sort *)

Lemma insert_desc_perm_b64 x l : Permutation (insert_desc x l) (x :: l).
Proof.
  induction l as [|y r IH]; simpl; [reflexivity|].
  destruct (snd y <=? snd x)%float; [reflexivity|].
  rewrite IH. apply perm_swap.
Qed.

Lemma sort_desc_perm_b64 l : Permutation (sort_desc l) l.
Proof.
  induction l as [|x l IH]; simpl; [reflexivity|].
  rewrite insert_desc_perm_b64. now constructor.
Qed.

(** Numbers end in falling order. *)
Lemma insert_desc_sorted_b64 x l :
  F64.is_number (snd x) -> Forall (fun y => F64.is_number (snd y)) l ->
  Sorted desc l -> Sorted desc (insert_desc x l).
Proof.
  intros Hx Hl Hs. induction Hs as [|y r Hs IH Hhd]; simpl.
  - repeat constructor.
  - apply Forall_cons_iff in Hl as [Hy Hl].
    destruct (snd y <=? snd x)%float eqn:E.
    + constructor; [constructor; assumption|]. constructor. exact E.
    + constructor; [now apply IH|].
      assert (Hxy : (snd x <=? snd y)%float = true)
        by (now apply F64Facts.leb_false_leb).
      destruct r as [|z r]; simpl.
      * constructor. exact Hxy.
      * destruct (snd z <=? snd x)%float; constructor; auto.
        now inversion Hhd.
Qed.

Lemma sort_desc_sorted_b64 l :
  Forall (fun y => F64.is_number (snd y)) l -> Sorted desc (sort_desc l).
Proof.
  induction l as [|x l IH]; simpl; intros Hl; [constructor|].
  apply Forall_cons_iff in Hl as [Hx Hl].
  apply insert_desc_sorted_b64; auto.
  eapply Permutation_Forall; [symmetry; apply sort_desc_perm_b64|exact Hl].
Qed.

Lemma sort_desc_strongly_sorted_b64 l :
  Forall (fun y => F64.is_number (snd y)) l -> StronglySorted desc (sort_desc l).
Proof.
  intros Hl. apply Sorted_StronglySorted; [|now apply sort_desc_sorted_b64].
  intros x y z Hxy Hyz. exact (F64Facts.leb_trans _ _ _ Hyz Hxy).
Qed.

(** Entries with equal values keep their order. *)
Lemma insert_desc_stable_b64 v x l :
  filter (fun y => (snd y =? v)%float) (insert_desc x l)
  = filter (fun y => (snd y =? v)%float) (x :: l).
Proof.
  induction l as [|y r IH]; [reflexivity|].
  simpl insert_desc. destruct (snd y <=? snd x)%float eqn:E; [reflexivity|].
  cbn [filter]. rewrite IH. cbn [filter].
  destruct (snd x =? v)%float eqn:Ex, (snd y =? v)%float eqn:Ey; try reflexivity.
  rewrite (F64Facts.eqb_eqb_leb _ _ _ Ex Ey) in E. discriminate.
Qed.

Lemma sort_desc_stable_b64 v l :
  filter (fun y => (snd y =? v)%float) (sort_desc l)
  = filter (fun y => (snd y =? v)%float) l.
Proof.
  induction l as [|x l IH]; [reflexivity|].
  simpl sort_desc. rewrite insert_desc_stable_b64. cbn [filter]. now rewrite IH.
Qed.

(** *** The loop *)

(** What one entry of [label_to_ensembles] contributes. *)
Lemma decode_step_app (d : PopulationThresholdDecoder) (c : Concept64.t) results entry :
  decode_step d c results entry = results ++ decode_step d c [] entry.
Proof.
  destruct entry as [label [|n names]]; simpl; [now rewrite app_nil_r|].
  destruct (_ <=? _)%float; [reflexivity|now rewrite app_nil_r].
Qed.

Lemma decode_fold (d : PopulationThresholdDecoder) (c : Concept64.t) l : forall results,
  fold_left (decode_step d c) l results
  = results ++ flat_map (decode_step d c []) l.
Proof.
  induction l as [|entry l IH]; intros results; simpl; [now rewrite app_nil_r|].
  now rewrite IH, decode_step_app, <- app_assoc.
Qed.

Lemma decode_step_In (d : PopulationThresholdDecoder) (c : Concept64.t) entry label sc :
  In (label, sc) (decode_step d c [] entry) <->
  fst entry = label /\ snd entry <> [] /\ sc = score c (snd entry) /\
  (threshold d <=? sc)%float = true.
Proof.
  destruct entry as [label' [|n names]]; simpl.
  - split; [intros []|]. intros (_ & Hne & _). congruence.
  - destruct (threshold d <=? score c (n :: names))%float eqn:E; simpl.
    + split.
      * intros [[= <- <-]|[]]. repeat split; auto. discriminate.
      * intros (<- & _ & -> & _). now left.
    + split; [intros []|]. intros (_ & _ & -> & Hle). congruence.
Qed.

Lemma decode_step_length (d : PopulationThresholdDecoder) (c : Concept64.t) l :
  (List.length (flat_map (decode_step d c []) l) <= List.length l)%nat.
Proof.
  induction l as [|[label [|n names]] l IH]; simpl; [lia|lia|].
  destruct (_ <=? _)%float; simpl; lia.
Qed.

(** Every score that passed the test is a number. *)
Lemma decode_step_numbers (d : PopulationThresholdDecoder) (c : Concept64.t) l :
  Forall (fun y => F64.is_number (snd y)) (flat_map (decode_step d c []) l).
Proof.
  apply Forall_forall. intros [label sc] Hin.
  apply in_flat_map in Hin as (entry & _ & Hstep).
  apply decode_step_In in Hstep as (_ & _ & _ & Hle).
  exact (F64Facts.leb_number_r _ _ Hle).
Qed.

Lemma total_missing (c : Concept64.t) names :
  (forall n, In n names -> Concept64.get_ensemble c n = None) ->
  total c names = 0.0%float.
Proof.
  intros Hm. unfold total. generalize 0.0%float as acc.
  induction names as [|n names IH]; intros acc; simpl; auto.
  rewrite (Hm n) by (now left). apply IH. intros n' Hn'. apply Hm. now right.
Qed.

(** X28: [decode] returns exactly the labels with a non-empty list of names
    whose score, computed in binary64, passes the test
    [score >= threshold], each with its score; the scores fall along the
    result, equal scores keep the order of the dictionary, and the result is
    no longer than the dictionary; the names that are no ensemble of the
    concept add nothing to the sum.  In the first example two labels tie at
    0.5 and keep the order of the dictionary, and the label without names
    is left out; in the second, the activations 0.1 and 0.2 give the score
    0.15000000000000002, which is the threshold, and the label is
    returned. *)
Theorem decode_sound (d : PopulationThresholdDecoder) (c : Concept64.t) :
  (forall label sc,
      In (label, sc) (decode d c) <->
      exists names,
        In (label, names) (label_to_ensembles d) /\ names <> [] /\
        sc = score c names /\ (threshold d <=? sc)%float = true) /\
  StronglySorted (fun x y => (snd y <=? snd x)%float = true) (decode d c) /\
  (forall v, filter (fun y => (snd y =? v)%float) (decode d c)
             = filter (fun y => (snd y =? v)%float)
                      (flat_map (decode_step d c []) (label_to_ensembles d))) /\
  (List.length (decode d c) <= List.length (label_to_ensembles d))%nat /\
  (forall names, (forall n, In n names -> Concept64.get_ensemble c n = None) ->
                 total c names = 0.0%float) /\
  decode shape_or_color both_active
  = [("colored"%string, 0.5%float); ("shaped"%string, 0.5%float)] /\
  decode just_above tenth_and_fifth = [("both"%string, 0.15000000000000002%float)].
Proof.
  split; [|split; [|split; [|split; [|split; [|split]]]]];
    try (vm_compute; reflexivity);
    unfold decode; rewrite ?decode_fold; simpl app.
  - intros label sc. split.
    + intros Hin. apply (Permutation_in _ (sort_desc_perm_b64 _)) in Hin.
      apply in_flat_map in Hin as ([label' names] & Hin & Hstep).
      apply decode_step_In in Hstep as (E & Hne & Hsc & Hle). simpl in *. subst label'.
      exists names. auto.
    + intros (names & Hin & Hne & Hsc & Hle).
      apply (Permutation_in _ (Permutation_sym (sort_desc_perm_b64 _))).
      apply in_flat_map. exists (label, names). split; [exact Hin|].
      apply decode_step_In. auto.
  - apply sort_desc_strongly_sorted_b64, decode_step_numbers.
  - intros v. apply sort_desc_stable_b64.
  - rewrite (Permutation_length (sort_desc_perm_b64 _)).
    apply decode_step_length.
  - apply total_missing.
Qed.

End ConceptDecoderFacts.

(** ** Oscillation *)

Module OscillationFacts.
Import Oscillation.

Lemma packets_length t gamma_dt g : List.length (packets t gamma_dt g) = Z.to_nat g.
Proof. unfold packets. now rewrite length_map, length_seq. Qed.

Lemma passes_succ p g n :
  passes p g (S n) = passes p g n ++ packets (clock p n) (p / of_int g)%float g.
Proof.
  unfold passes. rewrite seq_S, flat_map_app. simpl. now rewrite app_nil_r.
Qed.

Lemma passes_length p g n : List.length (passes p g n) = (n * Z.to_nat g)%nat.
Proof.
  induction n as [|n IH]; [reflexivity|].
  rewrite passes_succ, length_app, IH, packets_length. simpl. lia.
Qed.

(** The loop, entered at the start of pass [j] with what the passes before
    have appended, ends after pass [n - 1] when the clock at [n] is the first
    that fails the test. *)
Lemma phase_loop_ends total p g : forall fuel n j,
  (j <= n)%nat ->
  (forall k, (j <= k < n)%nat -> (clock p k <? total)%float = true) ->
  (clock p n <? total)%float = false ->
  (n - j < fuel)%nat ->
  phase_loop fuel total p g (clock p j) (passes p g j) = Some (passes p g n).
Proof.
  induction fuel as [|fuel IH]; intros n j Hjn Hlt Hend Hfuel; [lia|].
  simpl. destruct (Nat.eq_dec j n) as [->|Hne].
  - now rewrite Hend.
  - rewrite Hlt by lia. rewrite <- passes_succ.
    change (clock p j + p)%float with (clock p (S j)).
    apply IH; auto; try lia. intros k Hk. apply Hlt. lia.
Qed.

(** A loop that returns has found a clock that fails the test. *)
Lemma phase_loop_returns total p g : forall fuel j phases,
  phase_loop fuel total p g (clock p j) (passes p g j) = Some phases ->
  exists n, (j <= n)%nat /\ (n - j < fuel)%nat /\
            (forall k, (j <= k < n)%nat -> (clock p k <? total)%float = true) /\
            (clock p n <? total)%float = false /\
            phases = passes p g n.
Proof.
  induction fuel as [|fuel IH]; intros j phases Hrun; [discriminate|].
  simpl in Hrun. destruct (clock p j <? total)%float eqn:E.
  - rewrite <- passes_succ in Hrun.
    change (clock p j + p)%float with (clock p (S j)) in Hrun.
    apply IH in Hrun as (n & Hjn & Hf & Hlt & Hend & ->).
    exists n. split; [lia|]. split; [lia|]. split; [|auto].
    intros k Hk. destruct (Nat.eq_dec k j) as [->|Hne]; [exact E|apply Hlt; lia].
  - injection Hrun as <-. exists j. split; [lia|]. split; [lia|]. split; [|auto].
    intros k Hk. lia.
Qed.

(** A loop whose clock never fails the test uses up any fuel. *)
Lemma phase_loop_runs_on total p g :
  (forall k, (clock p k <? total)%float = true) ->
  forall fuel j phases, phase_loop fuel total p g (clock p j) phases = None.
Proof.
  intros Hlt. induction fuel as [|fuel IH]; intros j phases; [reflexivity|].
  simpl. rewrite Hlt. change (clock p j + p)%float with (clock p (S j)). apply IH.
Qed.

Lemma clock_stalls : forall k, clock 0.0%float k = 0.0%float.
Proof.
  induction k as [|k IH]; [reflexivity|].
  change (clock 0.0 (S k)) with (clock 0.0 k + 0.0)%float. rewrite IH. reflexivity.
Qed.

(** X27: [phase_sequence] returns [[]] when [theta_hz <= 0],
    [gamma_per_theta <= 0] or [total_time <= 0].  Otherwise (with a number
    of packets that a machine can hold, below 2^63) the clock of its
    loop is the running binary64 sum 0.0 + period + period + ... of the
    period [1.0 / theta_hz]; the call returns exactly when some clock fails
    the test [t < total_time], and then holds the [gamma_per_theta] packets
    of every pass before the first such clock, in order; when no clock
    fails the test it never returns.  A total time of 1.0 at 5 Hz with 4
    packets gives 20 phases that end at 1.0; at 10 Hz the tenth clock is
    0.9999999999999999, so an eleventh pass runs and the last phase is
    1.0999999999999999; at an infinite rate the period is 0.0, the clock
    stays at 0.0 and the loop does not end. *)
Theorem phase_sequence_spec (total_time theta_hz : float) (gamma_per_theta : Z) :
  ((theta_hz <=? 0.0)%float = true \/ (gamma_per_theta <= 0)%Z \/
   (total_time <=? 0.0)%float = true ->
   forall fuel, phase_sequence fuel total_time theta_hz gamma_per_theta = Some []) /\
  ((theta_hz <=? 0.0)%float = false -> (0 < gamma_per_theta < 2 ^ 63)%Z ->
   (total_time <=? 0.0)%float = false ->
   let period := (1.0 / theta_hz)%float in
   (forall n,
       (forall k, (k < n)%nat -> (clock period k <? total_time)%float = true) ->
       (clock period n <? total_time)%float = false ->
       forall fuel, (n < fuel)%nat ->
         phase_sequence fuel total_time theta_hz gamma_per_theta
         = Some (passes period gamma_per_theta n)) /\
   (forall fuel phases,
       phase_sequence fuel total_time theta_hz gamma_per_theta = Some phases ->
       exists n,
         (n < fuel)%nat /\
         (forall k, (k < n)%nat -> (clock period k <? total_time)%float = true) /\
         (clock period n <? total_time)%float = false /\
         phases = passes period gamma_per_theta n /\
         List.length phases = (n * Z.to_nat gamma_per_theta)%nat) /\
   ((forall k, (clock period k <? total_time)%float = true) ->
    forall fuel, phase_sequence fuel total_time theta_hz gamma_per_theta = None)) /\
  (exists phases,
      phase_sequence 6 1.0 5.0 4 = Some phases /\
      List.length phases = 20%nat /\ last phases 0.0%float = 1.0%float) /\
  (clock (1.0 / 10.0) 10 = 0.9999999999999999%float /\
   phase_sequence 12 1.0 10.0 1
   = Some [0.1; 0.2; 0.30000000000000004; 0.4; 0.5; 0.6; 0.7; 0.7999999999999999;
           0.8999999999999999; 0.9999999999999999; 1.0999999999999999]%float) /\
  (forall fuel, phase_sequence fuel 1.0 infinity 1 = None).
Proof.
  split; [|split; [|split; [|split]]].
  - intros Hdeg fuel. unfold phase_sequence.
    destruct Hdeg as [Hd|[Hd|Hd]].
    + now rewrite Hd.
    + apply Z.leb_le in Hd. rewrite Hd. now rewrite orb_true_r.
    + rewrite Hd. now rewrite !orb_true_r.
  - intros E1 Hg E3. cbv zeta.
    assert (E2 : (gamma_per_theta <=? 0)%Z = false) by (apply Z.leb_gt; apply Hg).
    unfold phase_sequence. rewrite E1, E2, E3. simpl orb. cbv iota.
    split; [|split].
    + intros n Hlt Hend fuel Hfuel.
      apply (phase_loop_ends total_time (1.0 / theta_hz)%float gamma_per_theta fuel n 0);
        auto; try lia. intros k Hk. apply Hlt. lia.
    + intros fuel phases Hrun.
      apply (phase_loop_returns total_time (1.0 / theta_hz)%float gamma_per_theta fuel 0)
        in Hrun as (n & _ & Hf & Hlt & Hend & ->).
      exists n. split; [lia|]. split; [intros k Hk; apply Hlt; lia|].
      split; [exact Hend|]. split; [reflexivity|apply passes_length].
    + intros Hlt fuel.
      apply (phase_loop_runs_on total_time (1.0 / theta_hz)%float gamma_per_theta Hlt fuel 0).
  - eexists. split; [vm_compute; reflexivity|]. split; vm_compute; reflexivity.
  - split; vm_compute; reflexivity.
  - intros fuel. unfold phase_sequence.
    change (1.0 / infinity)%float with 0.0%float.
    change ((infinity <=? 0.0)%float || (1 <=? 0)%Z || (1.0 <=? 0.0)%float) with false.
    cbv iota.
    apply (phase_loop_runs_on 1.0%float 0.0%float 1 (fun k => eq_trans (f_equal (fun t => (t <? 1.0)%float) (clock_stalls k)) eq_refl) fuel 0).
Qed.

End OscillationFacts.
